(** * sketch.js: the 3D crossword core

    A shallow embedding of the grid model, the loader ([loadPuzzleFromJSON]),
    the clue extractor ([computeCluesFromWorld]), the answer binder
    ([readWordFromSolution]) and the block generator
    ([generateConnectedBlocks]) of [src/sketch.js], followed by the
    properties of the specification that concern them.

    Conventions of the embedding.
    - JavaScript numbers that index the grid are integers ([Z]).
    - [option] is the error monad: [None] is an uncaught exception (the
      [TypeError] of a property read on [undefined], the [RangeError] of
      [new Array(n)] for an [n] that is not an array length) or, for the
      three [while] loops, a loop that did not finish within its fuel.
    - The one computation on fractions, the block target of the
      generator, is done in IEEE 754 doubles ([SpecFloat]), as the code
      does it.
    - The globals [NX], [NY], [NZ] and [world] travel together as a [Grid];
      [clues] and the console output complete the [State].
    - Strings are [string]s, sequences of characters of 8 bits;
      [toUpperCase] is JavaScript's on strings of ASCII characters and a
      parameter beyond them ([CaseMapping]). *)

From Stdlib Require Import ZArith QArith Qround Lia Ascii String.
From Stdlib Require Import Floats.SpecFloat.
From stdpp Require Import base option list list_numbers strings gmap pretty.

Local Open Scope Z_scope.
#[local] Set Warnings "-clear-no-such-hyp".

(** ** JavaScript helpers *)

(** [String.prototype.toUpperCase].  On a string of ASCII characters it
    maps [a]..[z] to [A]..[Z] and leaves every other character as it is.
    On a string with a character beyond ASCII it follows the Unicode case
    mapping, which may even change the length of the string; that mapping
    is not modelled: it is the parameter [upperUnicode], and every result
    below holds whatever it is. *)
Class CaseMapping := upperUnicode : string → string.

Definition upperChar (c : ascii) : ascii :=
  let k := nat_of_ascii c in
  if (97 <=? k)%nat && (k <=? 122)%nat then ascii_of_nat (k - 32) else c.

Fixpoint upperAscii (s : string) : string :=
  match s with
  | EmptyString => EmptyString
  | String c s' => String (upperChar c) (upperAscii s')
  end.

Fixpoint allAscii (s : string) : bool :=
  match s with
  | EmptyString => true
  | String c s' => (nat_of_ascii c <? 128)%nat && allAscii s'
  end.

Definition toUpperCase `{!CaseMapping} (s : string) : string :=
  if allAscii s then upperAscii s else upperUnicode s.

(** [a[i]]: [undefined] outside the array, also for a negative index. *)
Definition idx {A} (l : list A) (i : Z) : option A :=
  if decide (0 ≤ i) then l !! Z.to_nat i else None.

(** A string is truthy iff it is not empty. *)
Definition truthy (s : string) : bool := negb (String.eqb s "").

(** [for (const a of l) body], threading the mutated state. *)
Fixpoint forEach {S A} (body : S → A → option S) (l : list A) (s : S) : option S :=
  match l with
  | [] => Some s
  | a :: l' => s' ← body s a; forEach body l' s'
  end.

(** [new Array(n)] followed by the loop that fills it.  The constructor
    throws a [RangeError] unless [n] is an array length, an integer from 0
    to 2^32 - 1. *)
Definition newArray {A} (n : Z) (fill : Z → option A) : option (list A) :=
  if decide (0 ≤ n < 2 ^ 32) then mapM fill (seqZ 0 n) else None.

(** ** Data model *)

Record Coord := mkCoord { cx : Z; cy : Z; cz : Z }.

#[global] Instance Coord_eq_dec : EqDecision Coord.
Proof. solve_decision. Defined.

(** The three word directions: "R" (+X), "D" (+Y), "I" (+Z). *)
Inductive Dir := dirR | dirD | dirI.

#[global] Instance Dir_eq_dec : EqDecision Dir.
Proof. solve_decision. Defined.

(** [{ block, ch, sol, numR, numD, numI }] *)
Record Cell := mkCell {
  block : bool; ch : string; sol : string; numR : Z; numD : Z; numI : Z }.

(** [{ n, len, start, hint, answer }]; [hint] and [answer] may be absent. *)
Record Clue := mkClue {
  c_n : Z; c_len : Z; c_start : Coord;
  c_hint : option string; c_answer : option string }.

(** [clues = { R, D, I }] *)
Record Clues := mkClues { clR : list Clue; clD : list Clue; clI : list Clue }.

(** An entry of [js.words]; an absent [answer] reads as [""] everywhere. *)
Record Word := mkWord {
  w_dir : Dir; w_start : Coord; w_answer : string; w_clue : option string }.

(** An entry of [js.solution]; an absent [ch] reads as [""]. *)
Record SolEntry := mkSol { s_x : Z; s_y : Z; s_z : Z; s_ch : string }.

(** The puzzle record.  Absent [blocks], [words], [solution] and clue lists
    read as the empty list, as the loader treats them ([?? []], [?.length]). *)
Record Puzzle := mkPuzzle {
  p_nx : Z; p_ny : Z; p_nz : Z;
  p_blocks : list Coord;
  p_words : list Word;
  p_solution : list SolEntry;
  p_clues : Clues }.

(** What the loader writes to the console. *)
Inductive Event :=
| WordOutOfBounds (w : Word) (at_ : Coord)
| WordHitsBlock (w : Word) (at_ : Coord)
| CrossingConflict (w : Word) (at_ : Coord) (had wants : string)
| LogClue (c : Clue).

Record Grid := mkGrid { NX : Z; NY : Z; NZ : Z; world : list (list (list Cell)) }.

Record State := mkState { grid : Grid; clues : Clues; console : list Event }.

Definition set_block (b : bool) (c : Cell) : Cell :=
  mkCell b (ch c) (sol c) (numR c) (numD c) (numI c).
Definition set_sol (s : string) (c : Cell) : Cell :=
  mkCell (block c) (ch c) s (numR c) (numD c) (numI c).
Definition set_num (kind : Dir) (k : Z) (c : Cell) : Cell :=
  match kind with
  | dirR => mkCell (block c) (ch c) (sol c) k (numD c) (numI c)
  | dirD => mkCell (block c) (ch c) (sol c) (numR c) k (numI c)
  | dirI => mkCell (block c) (ch c) (sol c) (numR c) (numD c) k
  end.
Definition clear_nums (c : Cell) : Cell :=
  mkCell (block c) (ch c) (sol c) 0 0 0.
Definition set_hint (h : option string) (c : Clue) : Clue :=
  mkClue (c_n c) (c_len c) (c_start c) h (c_answer c).
Definition set_answer (a : option string) (c : Clue) : Clue :=
  mkClue (c_n c) (c_len c) (c_start c) (c_hint c) a.

Definition withGrid (g : Grid) (st : State) : State :=
  mkState g (clues st) (console st).
Definition withClues (cl : Clues) (st : State) : State :=
  mkState (grid st) cl (console st).
Definition logEv (e : Event) (st : State) : State :=
  mkState (grid st) (clues st) (console st ++ [e]).

(** ** World helpers *)

(** [cell(x, y, z)] is [world[z][y][x]]. *)
Definition cell (g : Grid) (x y z : Z) : option Cell :=
  plane ← idx (world g) z; row ← idx plane y; idx row x.

Definition inBounds (g : Grid) (x y z : Z) : bool :=
  (0 <=? x) && (x <? NX g) && (0 <=? y) && (y <? NY g) && (0 <=? z) && (z <? NZ g).

(** An assignment to a field of [world[z][y][x]]: the cell object is
    mutated in place; reading a field of an absent cell throws. *)
Definition updCell (f : Cell → Cell) (g : Grid) (x y z : Z) : option Grid :=
  plane ← idx (world g) z; row ← idx plane y; ce ← idx row x;
  Some (mkGrid (NX g) (NY g) (NZ g)
          (<[Z.to_nat z := <[Z.to_nat y := <[Z.to_nat x := f ce]> row]> plane]> (world g))).

(** The order of [for z] [for y] [for x]. *)
Definition scanOrder (g : Grid) : list Coord :=
  z ← seqZ 0 (NZ g); y ← seqZ 0 (NY g); x ← seqZ 0 (NX g); [mkCoord x y z].

Definition emptyCell : Cell := mkCell false "" "" 0 0 0.

(** "Build empty world" *)
Definition buildWorld (nx ny nz : Z) : option Grid :=
  w ← newArray nz (λ _, newArray ny (λ _, newArray nx (λ _, Some emptyCell)));
  Some (mkGrid nx ny nz w).

Definition clearNumbers (g : Grid) : option Grid :=
  forEach (λ g p, updCell clear_nums g (cx p) (cy p) (cz p)) (scanOrder g) g.

Definition setNum (kind : Dir) (g : Grid) (c : Clue) : option Grid :=
  let s := c_start c in
  if negb (inBounds g (cx s) (cy s) (cz s)) then Some g
  else updCell (set_num kind (c_n c)) g (cx s) (cy s) (cz s).

(** ** Word length and answer binding *)

(** Both loops advance by [(dx, dy, dz)] while the position is on the grid
    and open; for a unit step they stop within [NX + NY + NZ] rounds. *)
Definition walkFuel (g : Grid) : nat := S (Z.to_nat (NX g + NY g + NZ g)).

Fixpoint wordLenLoop (fuel : nat) (g : Grid) (x y z dx dy dz len : Z) : option Z :=
  match fuel with
  | O => None
  | S fuel' =>
      if inBounds g x y z then
        ce ← cell g x y z;
        if block ce then Some len
        else wordLenLoop fuel' g (x + dx) (y + dy) (z + dz) dx dy dz (len + 1)
      else Some len
  end.

Definition wordLen (g : Grid) (x y z dx dy dz : Z) : option Z :=
  wordLenLoop (walkFuel g) g x y z dx dy dz 0.

Fixpoint readWordLoop (fuel : nat) (g : Grid) (x y z dx dy dz : Z) (s : string)
  : option string :=
  match fuel with
  | O => None
  | S fuel' =>
      if inBounds g x y z then
        ce ← cell g x y z;
        if block ce then Some s
        else readWordLoop fuel' g (x + dx) (y + dy) (z + dz) dx dy dz
               (s +:+ (if truthy (sol ce) then sol ce else "?"))
      else Some s
  end.

Definition readWordFromSolution (g : Grid) (start : Coord) (dx dy dz : Z)
  : option string :=
  readWordLoop (walkFuel g) g (cx start) (cy start) (cz start) dx dy dz "".

Definition attach1 (g : Grid) (dx dy dz : Z) (c : Clue) : option Clue :=
  a ← readWordFromSolution g (c_start c) dx dy dz; Some (set_answer (Some a) c).

Definition attachAnswersToClues (st : State) : option State :=
  r ← mapM (attach1 (grid st) 1 0 0) (clR (clues st));
  d ← mapM (attach1 (grid st) 0 1 0) (clD (clues st));
  i ← mapM (attach1 (grid st) 0 0 1) (clI (clues st));
  Some (withClues (mkClues r d i) st).

(** ** Clue extraction *)

Definition startsR (g : Grid) (x y z : Z) : option bool :=
  (if decide (x = 0) then Some true else block <$> cell g (x - 1) y z) ≫= λ a : bool,
  if a then
    (if decide (x + 1 < NX g) then (λ c, negb (block c)) <$> cell g (x + 1) y z
     else Some false)
  else Some false.

Definition startsD (g : Grid) (x y z : Z) : option bool :=
  (if decide (y = 0) then Some true else block <$> cell g x (y - 1) z) ≫= λ a : bool,
  if a then
    (if decide (y + 1 < NY g) then (λ c, negb (block c)) <$> cell g x (y + 1) z
     else Some false)
  else Some false.

Definition startsI (g : Grid) (x y z : Z) : option bool :=
  (if decide (z = 0) then Some true else block <$> cell g x y (z - 1)) ≫= λ a : bool,
  if a then
    (if decide (z + 1 < NZ g) then (λ c, negb (block c)) <$> cell g x y (z + 1)
     else Some false)
  else Some false.

(** The body of the triple loop of [computeCluesFromWorld]; the accumulator
    is the counter [n] and the three arrays. *)
Definition clueStep (g : Grid) (acc : Z * Clues) (p : Coord) : option (Z * Clues) :=
  let '(n, cl) := acc in
  let '(mkCoord x y z) := p in
  ce ← cell g x y z;
  if block ce then Some acc else
  sR ← startsR g x y z;
  sD ← startsD g x y z;
  sI ← startsI g x y z;
  let n := if sR || sD || sI then n + 1 else n in
  r ← (if sR then l ← wordLen g x y z 1 0 0;
                  Some (clR cl ++ [mkClue n l p (Some "paremale") None])
       else Some (clR cl));
  d ← (if sD then l ← wordLen g x y z 0 1 0;
                  Some (clD cl ++ [mkClue n l p (Some "alla") None])
       else Some (clD cl));
  i ← (if sI then l ← wordLen g x y z 0 0 1;
                  Some (clI cl ++ [mkClue n l p (Some "sisse") None])
       else Some (clI cl));
  Some (n, mkClues r d i).

Definition computeCluesFromWorld (g : Grid) : option Clues :=
  snd <$> forEach (clueStep g) (scanOrder g) (0, mkClues [] [] []).

(** [computeDirectionalCluesJSON] is the same loop (the generator uses it). *)
Definition computeDirectionalCluesJSON (g : Grid) : option Clues :=
  snd <$> forEach (clueStep g) (scanOrder g) (0, mkClues [] [] []).

(** ** Loading *)

Section Loading.
Context {UC : CaseMapping}.

Definition markBlock (g : Grid) (b : Coord) : option Grid :=
  if inBounds g (cx b) (cy b) (cz b)
  then updCell (set_block true) g (cx b) (cy b) (cz b)
  else Some g.

(** The inner loop of Format A, step 1: [i] runs over the characters of
    [ans]; [break] leaves the loop with the state reached. *)
Fixpoint placeLetters (w : Word) (dx dy dz : Z) (ans : string) (x y z : Z)
    (st : State) : option State :=
  match ans with
  | EmptyString => Some st
  | String a rest =>
      if negb (inBounds (grid st) x y z)
      then Some (logEv (WordOutOfBounds w (mkCoord x y z)) st)
      else
        ce ← cell (grid st) x y z;
        if block ce then Some (logEv (WordHitsBlock w (mkCoord x y z)) st)
        else
          let c := String a EmptyString in
          let st1 :=
            if truthy (sol ce) && negb (String.eqb (sol ce) c)
            then logEv (CrossingConflict w (mkCoord x y z) (sol ce) c) st
            else st in
          g' ← updCell (set_sol c) (grid st1) x y z;
          placeLetters w dx dy dz rest (x + dx) (y + dy) (z + dz) (withGrid g' st1)
  end.

Definition placeWord (st : State) (w : Word) : option State :=
  let dx := if decide (w_dir w = dirR) then 1 else 0 in
  let dy := if decide (w_dir w = dirD) then 1 else 0 in
  let dz := if decide (w_dir w = dirI) then 1 else 0 in
  placeLetters w dx dy dz (toUpperCase (w_answer w))
    (cx (w_start w)) (cy (w_start w)) (cz (w_start w)) st.

(** The key of [startToNumber]: the template string "x,y,z". *)
Definition startKey (s : Coord) : string :=
  pretty (cx s) +:+ "," +:+ pretty (cy s) +:+ "," +:+ pretty (cz s).

Definition defaultHint (d : Dir) : string :=
  match d with dirR => "paremale" | dirD => "alla" | dirI => "sisse" end.

Definition pushClue (d : Dir) (c : Clue) (cl : Clues) : Clues :=
  match d with
  | dirR => mkClues (clR cl ++ [c]) (clD cl) (clI cl)
  | dirD => mkClues (clR cl) (clD cl ++ [c]) (clI cl)
  | dirI => mkClues (clR cl) (clD cl) (clI cl ++ [c])
  end.

(** The loop state of Format A, step 2. *)
Record Numbering := mkNumbering {
  startToNumber : gmap string Z; nextN : Z; built : Clues }.

Definition numberWord (acc : Numbering) (w : Word) : Numbering :=
  let key := startKey (w_start w) in
  let fresh := (nextN acc, <[key := nextN acc]> (startToNumber acc), nextN acc + 1) in
  let '(n, m, next) :=
    match startToNumber acc !! key with
    | Some n => if decide (n = 0) then fresh else (n, startToNumber acc, nextN acc)
    | None => fresh
    end in
  let c := mkClue n (Z.of_nat (String.length (w_answer w))) (w_start w)
             (Some (default (defaultHint (w_dir w)) (w_clue w)))
             (Some (toUpperCase (w_answer w))) in
  mkNumbering m next (pushClue (w_dir w) c (built acc)).

Definition buildCluesFromWords (ws : list Word) : Clues :=
  built (fold_left numberWord ws (mkNumbering ∅ 1 (mkClues [] [] []))).

(** Step 3 of Format A and the same three loops of Format B. *)
Definition applyNumbers (st : State) : option State :=
  g ← forEach (setNum dirR) (clR (clues st)) (grid st);
  g ← forEach (setNum dirD) (clD (clues st)) g;
  g ← forEach (setNum dirI) (clI (clues st)) g;
  Some (withGrid g st).

Definition falsyHint (h : option string) : bool :=
  match h with None => true | Some s => negb (truthy s) end.

Definition fillHint (h : string) (c : Clue) : Clue :=
  if falsyHint (c_hint c) then set_hint (Some h) c else c.

(** The loop over [clues.R] only prints each clue. *)
Definition ensureHintFields (st : State) : State :=
  let st := fold_left (λ s c, logEv (LogClue c) s) (clR (clues st)) st in
  withClues (mkClues (clR (clues st))
                     (fillHint "alla" <$> clD (clues st))
                     (fillHint "sisse" <$> clI (clues st))) st.

Definition writeSolution (g : Grid) (s : SolEntry) : option Grid :=
  if negb (inBounds g (s_x s) (s_y s) (s_z s)) then Some g
  else
    ce ← cell g (s_x s) (s_y s) (s_z s);
    if negb (block ce) then updCell (set_sol (s_ch s)) g (s_x s) (s_y s) (s_z s)
    else Some g.

Definition hasClues (cl : Clues) : bool :=
  negb (bool_decide (clR cl = [])) || negb (bool_decide (clD cl = []))
  || negb (bool_decide (clI cl = [])).

Definition loadFormatA (js : Puzzle) (st : State) : option State :=
  st ← forEach placeWord (p_words js) st;
  st ← applyNumbers (withClues (buildCluesFromWords (p_words js)) st);
  attachAnswersToClues st.

Definition loadFormatB (js : Puzzle) (st : State) : option State :=
  g ← forEach writeSolution (p_solution js) (grid st);
  st ← (if hasClues (p_clues js)
        then Some (ensureHintFields (mkState g (p_clues js) (console st)))
        else cl ← computeCluesFromWorld g;
             Some (ensureHintFields (mkState g cl (console st))));
  st ← applyNumbers st;
  attachAnswersToClues st.

Definition loadPuzzleFromJSON (js : Puzzle) : option State :=
  g ← buildWorld (p_nx js) (p_ny js) (p_nz js);
  g ← forEach markBlock (p_blocks js) g;
  g ← clearNumbers g;
  let st := mkState g (mkClues [] [] []) [] in
  if negb (bool_decide (p_words js = [])) then loadFormatA js st
  else loadFormatB js st.
End Loading.

(** ** Generation *)

(** JavaScript numbers are IEEE 754 doubles.  Where the code multiplies by
    a fraction and floors, the model computes as the code does, with the
    specification of binary64 of the Standard Library: [dmul] is the
    multiplication of two doubles, rounded to nearest (ties to even), and
    [ofInt] the double of an integer. *)
Definition double : Type := spec_float.
Definition dmul : double → double → double := SFmul 53 1024.
Definition ofInt (n : Z) : double := binary_normalize 53 1024 n 0 false.

(** What [Math.floor] returns: NaN, an infinity or an integer. *)
Inductive Num := NaN | Inf (neg : bool) | Int (n : Z).

Definition mathFloor (x : double) : Num :=
  match x with
  | S754_nan => NaN
  | S754_infinity s => Inf s
  | S754_zero _ => Int 0
  | S754_finite s m e =>
      let v := if s then Z.neg m else Z.pos m in
      Int (if 0 <=? e then v * 2 ^ e else v `div` 2 ^ (- e))
  end.

(** [b < t] for an integer [b]: false against NaN. *)
Definition ltNum (b : Z) (t : Num) : bool :=
  match t with NaN => false | Inf s => negb s | Int n => b <? n end.

(** The generation part of [CFG]; [targetBlockFrac] is a double. *)
Record Config := mkConfig {
  GEN_NX : Z; GEN_NY : Z; GEN_NZ : Z;
  targetBlockFrac : double; minOpenPerSlice : Z; maxTries : Z }.

(** The literal [0.18]: the double 6485183463413514 * 2^-55 nearest to it. *)
Definition double_0_18 : double := S754_finite false 6485183463413514 (-55).

Definition CFG : Config := mkConfig 24 24 8 double_0_18 12 30000.

(** [if (!cell(x, y, z).block) c++] *)
Definition countStep (g : Grid) (c : Z) (p : Coord) : option Z :=
  ce ← cell g (cx p) (cy p) (cz p); Some (if block ce then c else c + 1).

Definition sliceXY (g : Grid) (z : Z) : list Coord :=
  y ← seqZ 0 (NY g); x ← seqZ 0 (NX g); [mkCoord x y z].
Definition sliceXZ (g : Grid) (y : Z) : list Coord :=
  z ← seqZ 0 (NZ g); x ← seqZ 0 (NX g); [mkCoord x y z].
Definition sliceYZ (g : Grid) (x : Z) : list Coord :=
  z ← seqZ 0 (NZ g); y ← seqZ 0 (NY g); [mkCoord x y z].

Definition sliceOpenCountXY (g : Grid) (z : Z) : option Z :=
  forEach (countStep g) (sliceXY g z) 0.
Definition sliceOpenCountXZ (g : Grid) (y : Z) : option Z :=
  forEach (countStep g) (sliceXZ g y) 0.
Definition sliceOpenCountYZ (g : Grid) (x : Z) : option Z :=
  forEach (countStep g) (sliceYZ g x) 0.

(** A typed array: reading outside it gives [undefined] (falsy), writing
    outside it does nothing. *)
Definition getVis (vis : list bool) (i : Z) : bool := default false (idx vis i).
Definition setVis (vis : list bool) (i : Z) : list bool :=
  if decide (0 ≤ i) then <[Z.to_nat i := true]> vis else vis.

(** The three functions [isConnectedXY], [isConnectedXZ] and
    [isConnectedYZ] are one text up to the names of the axes: a plane of
    [U] by [V] cells, [at u v] the cell at its coordinates [(u, v)], the
    index of a cell in [vis] being [v * U + u]. *)
Section Plane.
Variables U V : Z.
Variable at_ : Z → Z → option Cell.

  (** The first loop: count the open cells, remember the first one. *)
Definition planeOrder : list (Z * Z) :=
    v ← seqZ 0 V; u ← seqZ 0 U; [(u, v)].

Definition scanStep (acc : option (Z * Z) * Z) (p : Z * Z)
    : option (option (Z * Z) * Z) :=
    ce ← at_ p.1 p.2;
    if block ce then Some acc
    else Some (match acc.1 with None => Some p | Some s => Some s end, acc.2 + 1).

Definition neigh : list (Z * Z) := [(1, 0); (-1, 0); (0, 1); (0, -1)].

  (** The state of the flood: [vis], the stack (its top is the head of the
      list; [qx] and [qy] are kept as one list of pairs) and [seen]. *)
Definition Flood : Type := list bool * list (Z * Z) * Z.

  (** The body of [for (const [dx, dy] of neigh)]. *)
Definition visit (cu cv : Z) (st : Flood) (d : Z * Z) : option Flood :=
    let '(vis, stack, seen) := st in
    let nu := cu + d.1 in
    let nv := cv + d.2 in
    if (nu <? 0) || (U <=? nu) || (nv <? 0) || (V <=? nv) then Some st
    else
      let i := nv * U + nu in
      if getVis vis i then Some st
      else
        ce ← at_ nu nv;
        if block ce then Some st
        else Some (setVis vis i, (nu, nv) :: stack, seen + 1).

  (** [while (qx.length)] *)
Fixpoint floodLoop (fuel : nat) (st : Flood) : option Flood :=
    match fuel with
    | O => None
    | S fuel' =>
        let '(vis, stack, seen) := st in
        match stack with
        | [] => Some st
        | (cu, cv) :: stack' =>
            st' ← forEach (visit cu cv) neigh (vis, stack', seen);
            floodLoop fuel' st'
        end
    end.

  (** Every round pops a cell and every push marks a new one, so twice the
      number of cells bounds the number of rounds. *)
Definition floodFuel : nat := S (2 * Z.to_nat (U * V)).

Definition isConnectedPlane : option bool :=
    acc ← forEach scanStep planeOrder (None, 0);
    if decide (acc.2 = 0) then Some false
    else
      s ← acc.1;
      let vis := setVis (replicate (Z.to_nat (U * V)) false) (s.2 * U + s.1) in
      st ← floodLoop floodFuel (vis, [s], 1);
      Some (bool_decide (st.2 = acc.2)).
End Plane.

Definition isConnectedXY (g : Grid) (zFix : Z) : option bool :=
  isConnectedPlane (NX g) (NY g) (λ x y, cell g x y zFix).
Definition isConnectedXZ (g : Grid) (yFix : Z) : option bool :=
  isConnectedPlane (NX g) (NZ g) (λ x z, cell g x yFix z).
Definition isConnectedYZ (g : Grid) (xFix : Z) : option bool :=
  isConnectedPlane (NY g) (NZ g) (λ y z, cell g xFix y z).

(** [for (let i = 0; i < n; i++) if (!test(i)) return false;] *)
Fixpoint allOf (test : Z → option bool) (l : list Z) : option bool :=
  match l with
  | [] => Some true
  | i :: l' => test i ≫= λ b : bool, if b then allOf test l' else Some false
  end.

Definition allSlicesConnected (g : Grid) : option bool :=
  allOf (isConnectedXY g) (seqZ 0 (NZ g)) ≫= λ b : bool,
  if negb b then Some false else
  allOf (isConnectedXZ g) (seqZ 0 (NY g)) ≫= λ b : bool,
  if negb b then Some false else
  allOf (isConnectedYZ g) (seqZ 0 (NX g)).

(** The test that decides whether a tentative block is kept. *)
Definition acceptable (cfg : Config) (g : Grid) (x y z : Z) : option bool :=
  cxy ← sliceOpenCountXY g z;
  if negb (minOpenPerSlice cfg <=? cxy) then Some false else
  cxz ← sliceOpenCountXZ g y;
  if negb (minOpenPerSlice cfg <=? cxz) then Some false else
  cyz ← sliceOpenCountYZ g x;
  if negb (minOpenPerSlice cfg <=? cyz) then Some false else
  allSlicesConnected g.

(** The locals of [generateConnectedBlocks] with the grid. *)
Record Gen := mkGen { g_grid : Grid; g_blocks : Z; g_tries : Z }.

(** [v | 0] for a number [v]: the integer part, wrapped to 32 bits with
    sign. *)
Definition toInt32 (v : Q) : Z :=
  (Z.quot (Qnum v) (Z.pos (Qden v)) + 2 ^ 31) `mod` 2 ^ 32 - 2 ^ 31.

(** [Math.random()] is an oracle [rnd : nat → Q], read in order of the
    calls; [(r * N) | 0] is the integer part of [r * N], one of
    [0 .. N - 1] for a draw of [0, 1) and [N] up to 2^31.  The product is
    taken exactly.  The double product of the code is rounded, but for a
    draw below 1 it stays below [N], so it picks one of the same indices,
    and every index is picked by some draw: a statement for all oracles
    covers all runs of the code. *)
Definition pick (r : Q) (n : Z) : Z := toInt32 (r * inject_Z n).

Fixpoint genLoop (fuel : nat) (cfg : Config) (rnd : nat → Q) (targetBlocks : Num)
    (k : nat) (s : Gen) : option Gen :=
  match fuel with
  | O => None
  | S fuel' =>
      if ltNum (g_blocks s) targetBlocks && (g_tries s <? maxTries cfg) then
        let tries := g_tries s + 1 in
        let g := g_grid s in
        let x := pick (rnd k) (NX g) in
        let y := pick (rnd (S k)) (NY g) in
        let z := pick (rnd (S (S k))) (NZ g) in
        ce ← cell g x y z;
        if block ce then genLoop fuel' cfg rnd targetBlocks (S (S (S k))) (mkGen g (g_blocks s) tries)
        else
          g1 ← updCell (set_block true) g x y z;
          acceptable cfg g1 x y z ≫= λ ok : bool,
          if ok then
            genLoop fuel' cfg rnd targetBlocks (S (S (S k))) (mkGen g1 (g_blocks s + 1) tries)
          else
            g2 ← updCell (set_block false) g1 x y z;
            genLoop fuel' cfg rnd targetBlocks (S (S (S k))) (mkGen g2 (g_blocks s) tries)
      else Some s
  end.

(** [Math.floor(total * CFG.targetBlockFrac)] with [total = NX * NY * NZ],
    in doubles. *)
Definition targetBlocks (frac : double) (nx ny nz : Z) : Num :=
  let total := dmul (dmul (ofInt nx) (ofInt ny)) (ofInt nz) in
  mathFloor (dmul total frac).

Definition targetBlocksOf (cfg : Config) (g : Grid) : Num :=
  targetBlocks (targetBlockFrac cfg) (NX g) (NY g) (NZ g).

(** The loop runs at most [maxTries] rounds. *)
Definition generateConnectedBlocks (cfg : Config) (rnd : nat → Q) (g : Grid) : option Gen :=
  genLoop (S (Z.to_nat (maxTries cfg))) cfg rnd (targetBlocksOf cfg g) 0 (mkGen g 0 0).

Definition pseudoLetter (x y z : Z) : string :=
  let v := (x * 73 + y * 151 + z * 199 + 17) `mod` 26 in
  String (ascii_of_nat (Z.to_nat (65 + v))) EmptyString.

(** "Dummy solution": every open cell gets its pseudo letter. *)
Definition dummyStep (acc : Grid * list SolEntry) (p : Coord)
  : option (Grid * list SolEntry) :=
  ce ← cell acc.1 (cx p) (cy p) (cz p);
  if block ce then Some acc
  else
    let c := pseudoLetter (cx p) (cy p) (cz p) in
    g ← updCell (set_sol c) acc.1 (cx p) (cy p) (cz p);
    Some (g, acc.2 ++ [mkSol (cx p) (cy p) (cz p) c]).

Definition blocksStep (g : Grid) (acc : list Coord) (p : Coord) : option (list Coord) :=
  ce ← cell g (cx p) (cy p) (cz p);
  Some (if block ce then acc ++ [p] else acc).

(** [generatePuzzleJSON]: the grid it leaves in the globals and the record
    it stores in [puzzle]. *)
Definition generatePuzzleJSON (cfg : Config) (rnd : nat → Q) : option (Grid * Puzzle) :=
  g ← buildWorld (GEN_NX cfg) (GEN_NY cfg) (GEN_NZ cfg);
  s ← generateConnectedBlocks cfg rnd g;
  let g := g_grid s in
  blocks ← forEach (blocksStep g) (scanOrder g) [];
  r ← forEach dummyStep (scanOrder g) (g, []);
  jsClues ← computeDirectionalCluesJSON r.1;
  Some (r.1, mkPuzzle (NX g) (NY g) (NZ g) blocks [] r.2 jsClues).

Section Interface.
Context {UC : CaseMapping}.

(** ** View mapping and input *)

(** The state of the user interface and the functions that change it:
    [planeBounds], [viewToWorld], [worldToView], [ensureCursorVisible],
    [getViewPadding], [getVisibleClues], [mousePressed], [jumpToClue],
    [mouseWheel], [keyPressed], [moveInView], the cursor choice of [setup]
    and the hitboxes that [drawBottomClues] leaves behind.  What the
    functions paint on the canvas is not part of the embedding. *)

(** The viewport part of [CFG]. *)
Record ViewConfig := mkViewConfig {
  VIEW_W : Z; VIEW_H : Z; CELL : Z; MARGIN : Z; PANEL_W : Z; CLUE_AREA_H : Z }.

Definition VCFG : ViewConfig := mkViewConfig 10 10 34 16 440 500.

(** [view]: "XY", "XZ" or "YZ"; [lastAxis]: "x" or "y". *)
Inductive View := XY | XZ | YZ.
Inductive Axis := axisX | axisY.

#[global] Instance View_eq_dec : EqDecision View.
Proof. solve_decision. Defined.
#[global] Instance Axis_eq_dec : EqDecision Axis.
Proof. solve_decision. Defined.

(** [cam = { u, v }] *)
Record Cam := mkCam { cam_u : Z; cam_v : Z }.

(** An entry of [clueHitboxes]: [{ x, y, w, h, kind, clue }]. *)
Record Hitbox := mkHitbox {
  hb_x : Z; hb_y : Z; hb_w : Z; hb_h : Z; hb_kind : Dir; hb_clue : Clue }.

(** The globals of the view controls, with [clueHitboxes]. *)
Record Ui := mkUi {
  view : View; cur : Coord; cam : Cam; depthX : Z; depthY : Z;
  lastAxis : Axis; lastDir : Z * Z; clueHitboxes : list Hitbox }.

(** The values the globals are declared with. *)
Definition initUi : Ui := mkUi XY (mkCoord 0 0 0) (mkCam 0 0) 0 0 axisX (1, 0) [].

Definition set_cam (c : Cam) (ui : Ui) : Ui :=
  mkUi (view ui) (cur ui) c (depthX ui) (depthY ui) (lastAxis ui) (lastDir ui)
       (clueHitboxes ui).
Definition set_view (v : View) (ui : Ui) : Ui :=
  mkUi v (cur ui) (cam ui) (depthX ui) (depthY ui) (lastAxis ui) (lastDir ui)
       (clueHitboxes ui).
Definition set_cur (c : Coord) (ui : Ui) : Ui :=
  mkUi (view ui) c (cam ui) (depthX ui) (depthY ui) (lastAxis ui) (lastDir ui)
       (clueHitboxes ui).
Definition set_depthX (d : Z) (ui : Ui) : Ui :=
  mkUi (view ui) (cur ui) (cam ui) d (depthY ui) (lastAxis ui) (lastDir ui)
       (clueHitboxes ui).
Definition set_depthY (d : Z) (ui : Ui) : Ui :=
  mkUi (view ui) (cur ui) (cam ui) (depthX ui) d (lastAxis ui) (lastDir ui)
       (clueHitboxes ui).
Definition set_last (a : Axis) (d : Z * Z) (ui : Ui) : Ui :=
  mkUi (view ui) (cur ui) (cam ui) (depthX ui) (depthY ui) a d (clueHitboxes ui).
Definition set_hitboxes (h : list Hitbox) (ui : Ui) : Ui :=
  mkUi (view ui) (cur ui) (cam ui) (depthX ui) (depthY ui) (lastAxis ui) (lastDir ui) h.

Definition set_ch (s : string) (c : Cell) : Cell :=
  mkCell (block c) s (sol c) (numR c) (numD c) (numI c).

(** [cur = { x, y, z }; depthX = cur.x; depthY = cur.y;] *)
Definition select (x y z : Z) (ui : Ui) : Ui :=
  set_depthY y (set_depthX x (set_cur (mkCoord x y z) ui)).

(** p5's [constrain(n, low, high)] is [max(min(n, high), low)]. *)
Definition constrain (n low high : Z) : Z := Z.max (Z.min n high) low.

(** [{ Umax, Vmax }] *)
Definition planeBounds (g : Grid) (ui : Ui) : Z * Z :=
  match view ui with
  | XY => (NX g, NY g)
  | XZ => (NX g, NZ g)
  | YZ => (NY g, NZ g)
  end.

Definition viewToWorld (ui : Ui) (i j : Z) : Coord :=
  let u := cam_u (cam ui) + i in
  let v := cam_v (cam ui) + j in
  match view ui with
  | XY => mkCoord u v (cz (cur ui))
  | XZ => mkCoord u (depthY ui) v
  | YZ => mkCoord (depthX ui) u v
  end.

(** [{ i, j }] *)
Definition worldToView (ui : Ui) (x y z : Z) : Z * Z :=
  match view ui with
  | XY => (x - cam_u (cam ui), y - cam_v (cam ui))
  | XZ => (x - cam_u (cam ui), z - cam_v (cam ui))
  | YZ => (y - cam_u (cam ui), z - cam_v (cam ui))
  end.

Definition ensureCursorVisible (vc : ViewConfig) (g : Grid) (ui : Ui) : Ui :=
  let '(Umax, Vmax) := planeBounds g ui in
  let '(uCur, vCur) :=
    match view ui with
    | XY => (cx (cur ui), cy (cur ui))
    | XZ => (cx (cur ui), cz (cur ui))
    | YZ => (cy (cur ui), cz (cur ui))
    end in
  let u := constrain (cam_u (cam ui)) 0 (Z.max 0 (Umax - VIEW_W vc)) in
  let v := constrain (cam_v (cam ui)) 0 (Z.max 0 (Vmax - VIEW_H vc)) in
  let u := if uCur <? u then uCur else u in
  let u := if u + VIEW_W vc <=? uCur then uCur - VIEW_W vc + 1 else u in
  let v := if vCur <? v then vCur else v in
  let v := if v + VIEW_H vc <=? vCur then vCur - VIEW_H vc + 1 else v in
  let u := constrain u 0 (Z.max 0 (Umax - VIEW_W vc)) in
  let v := constrain v 0 (Z.max 0 (Vmax - VIEW_H vc)) in
  set_cam (mkCam u v) ui.

(** [{ Umax, Vmax, padLeft, padTop }] *)
Record Padding := mkPadding { pad_Umax : Z; pad_Vmax : Z; padLeft : Z; padTop : Z }.

Definition getViewPadding (vc : ViewConfig) (g : Grid) (ui : Ui) : Padding :=
  let '(Umax, Vmax) := planeBounds g ui in
  let padU := Z.max 0 (VIEW_W vc - Umax) in
  let padV := Z.max 0 (VIEW_H vc - Vmax) in
  mkPadding Umax Vmax (padU / 2) (padV / 2).

(** The body of the loop of [getVisibleClues]: a [continue] leaves [out]
    as it is. *)
Definition visibleStep (vc : ViewConfig) (ui : Ui) (out : list Clue) (c : Clue) : list Clue :=
  let s := c_start c in
  let u0 := cam_u (cam ui) in
  let v0 := cam_v (cam ui) in
  let u1 := cam_u (cam ui) + VIEW_W vc - 1 in
  let v1 := cam_v (cam ui) + VIEW_H vc - 1 in
  match view ui with
  | XY =>
      if negb (cz s =? cz (cur ui)) then out
      else if (cx s <? u0) || (u1 <? cx s) then out
      else if (cy s <? v0) || (v1 <? cy s) then out
      else out ++ [c]
  | XZ =>
      if negb (cy s =? depthY ui) then out
      else if (cx s <? u0) || (u1 <? cx s) then out
      else if (cz s <? v0) || (v1 <? cz s) then out
      else out ++ [c]
  | YZ =>
      if negb (cx s =? depthX ui) then out
      else if (cy s <? u0) || (u1 <? cy s) then out
      else if (cz s <? v0) || (v1 <? cz s) then out
      else out ++ [c]
  end.

Definition getVisibleClues (vc : ViewConfig) (cl : Clues) (ui : Ui) (kind : Dir) : list Clue :=
  let lst := match kind with dirR => clR cl | dirD => clD cl | dirI => clI cl end in
  fold_left (visibleStep vc ui) lst [].

(** The hitboxes [drawClueColumn] pushes: one per line shown, [idx]
    running below [list.length] and [maxLines]; [y] is the line's offset. *)
Fixpoint columnHitboxes (vc : ViewConfig) (kind : Dir) (lst : list Clue)
    (x y w lineH : Z) (lines : nat) : list Hitbox :=
  match lines, lst with
  | S lines', c :: lst' =>
      mkHitbox (MARGIN vc + x) ((MARGIN vc * 2 + VIEW_H vc * CELL vc + 10) + (y - 1))
               w lineH kind c
      :: columnHitboxes vc kind lst' x (y + lineH) w lineH lines'
  | _, _ => []
  end.

Definition drawClueColumn (vc : ViewConfig) (kind : Dir) (lst : list Clue)
    (x y w lineH : Z) (ui : Ui) : Ui :=
  let y := y + 16 in
  let maxLines := (CLUE_AREA_H vc - 60) / lineH in
  set_hitboxes (clueHitboxes ui ++ columnHitboxes vc kind lst x y w lineH (Z.to_nat maxLines)) ui.

Definition drawBottomClues (vc : ViewConfig) (cl : Clues) (ui : Ui) : Ui :=
  let ui := set_hitboxes [] ui in
  let areaW := VIEW_W vc * CELL vc + PANEL_W vc in
  let colGap := 16 in
  let colW := (areaW - colGap * 2) / 3 in
  let lineH := 16 in
  let y0 := 22 in
  let visR := getVisibleClues vc cl ui dirR in
  let visD := getVisibleClues vc cl ui dirD in
  let visI := getVisibleClues vc cl ui dirI in
  let ui := drawClueColumn vc dirR visR (0 * (colW + colGap)) y0 colW lineH ui in
  let ui := drawClueColumn vc dirD visD (1 * (colW + colGap)) y0 colW lineH ui in
  drawClueColumn vc dirI visI (2 * (colW + colGap)) y0 colW lineH ui.

(** What [draw] does to the state. *)
Definition draw (vc : ViewConfig) (st : State) (ui : Ui) : Ui :=
  drawBottomClues vc (clues st) (ensureCursorVisible vc (grid st) ui).

Definition jumpToClue (kind : Dir) (c : Clue) (ui : Ui) : Ui :=
  let s := c_start c in
  let ui :=
    match kind with
    | dirR => set_last axisX (1, 0) (select (cx s) (cy s) (cz s) (set_view XY ui))
    | dirD => set_last axisY (0, 1) (select (cx s) (cy s) (cz s) (set_view XY ui))
    | dirI =>
        match lastAxis ui with
        | axisX =>
            set_cur (mkCoord (cx s) (cy s) (cz s)) (set_depthY (cy s) (set_view XZ ui))
        | axisY =>
            set_cur (mkCoord (cx s) (cy s) (cz s)) (set_depthX (cx s) (set_view YZ ui))
        end
    end in
  set_cam (mkCam 0 0) ui.

(** [event.delta > 0 ? 1 : -1] *)
Definition wheelStep (delta : Q) : Z := if Qle_bool delta 0 then -1 else 1.

Definition mouseWheel (delta : Q) (g : Grid) (ui : Ui) : Ui :=
  let step := wheelStep delta in
  let '(mkCoord x y z) := cur ui in
  match view ui with
  | XY => set_cur (mkCoord x y (constrain (z + step) 0 (NZ g - 1))) ui
  | XZ =>
      let d := constrain (depthY ui + step) 0 (NY g - 1) in
      set_cur (mkCoord x d z) (set_depthY d ui)
  | YZ =>
      let d := constrain (depthX ui + step) 0 (NX g - 1) in
      set_cur (mkCoord d y z) (set_depthX d ui)
  end.

Definition moveInView (du dv : Z) (g : Grid) (ui : Ui) : option Ui :=
  let '(mkCoord x y z) := cur ui in
  let '(n, ui) :=
    match view ui with
    | XY =>
        let ui := if decide (du ≠ 0) then set_last axisX (du, 0) ui else ui in
        let ui := if decide (dv ≠ 0) then set_last axisY (0, dv) ui else ui in
        (mkCoord (x + du) (y + dv) z, ui)
    | XZ => (mkCoord (x + du) (depthY ui) (z + dv), ui)
    | YZ => (mkCoord (depthX ui) (y + du) (z + dv), ui)
    end in
  if negb (inBounds g (cx n) (cy n) (cz n)) then Some ui
  else
    ce ← cell g (cx n) (cy n) (cz n);
    if block ce then Some ui
    else Some (select (cx n) (cy n) (cz n) ui).

(** The loop of [mousePressed] over the hitboxes: the first one that holds
    the mouse position decides. *)
Fixpoint clickClue (mouseX mouseY : Q) (hbs : list Hitbox) (ui : Ui) : Ui :=
  match hbs with
  | [] => ui
  | hb :: hbs' =>
      if Qle_bool (inject_Z (hb_x hb)) mouseX
         && Qle_bool mouseX (inject_Z (hb_x hb + hb_w hb))
         && Qle_bool (inject_Z (hb_y hb)) mouseY
         && Qle_bool mouseY (inject_Z (hb_y hb + hb_h hb))
      then jumpToClue (hb_kind hb) (hb_clue hb) ui
      else clickClue mouseX mouseY hbs' ui
  end.

Definition mousePressed (vc : ViewConfig) (mouseX mouseY : Q) (g : Grid) (ui : Ui)
  : option Ui :=
  let pad := getViewPadding vc g ui in
  let i := Qfloor ((mouseX - inject_Z (MARGIN vc)) / inject_Z (CELL vc)) in
  let j := Qfloor ((mouseY - inject_Z (MARGIN vc)) / inject_Z (CELL vc)) in
  let clueClick := Some (clickClue mouseX mouseY (clueHitboxes ui) ui) in
  if (0 <=? i) && (i <? VIEW_W vc) && (0 <=? j) && (j <? VIEW_H vc) then
    let ii := i - padLeft pad in
    let jj := j - padTop pad in
    if (ii <? 0) || (jj <? 0) || (pad_Umax pad <=? ii) || (pad_Vmax pad <=? jj)
    then Some ui
    else
      let w := viewToWorld ui ii jj in
      if inBounds g (cx w) (cy w) (cz w) then
        ce ← cell g (cx w) (cy w) (cz w);
        if negb (block ce) then Some (select (cx w) (cy w) (cz w) ui)
        else clueClick
      else clueClick
  else clueClick.

(** The keys [keyPressed] tells apart by [keyCode]; for any other key the
    string [key] is what counts. *)
Inductive Key :=
| TAB | LEFT_ARROW | RIGHT_ARROW | UP_ARROW | DOWN_ARROW | BACKSPACE | DELETE
| OTHER (key : string).

Section Keyboard.
(** [normalizeChar] rests on the Unicode case mapping of [toUpperCase] and
    on the letters of its list beyond ASCII; the key handler is embedded
    over any such function, [None] standing for [null]. *)
Variable normalizeChar : string → option string.

(** [const ce = cell(cur.x, cur.y, cur.z); if (!ce.block) ce.ch = s;] *)
Definition typeAtCursor (s : string) (g : Grid) (ui : Ui) : option Grid :=
  ce ← cell g (cx (cur ui)) (cy (cur ui)) (cz (cur ui));
  if negb (block ce) then updCell (set_ch s) g (cx (cur ui)) (cy (cur ui)) (cz (cur ui))
  else Some g.

Definition keyPressed (k : Key) (g : Grid) (ui : Ui) : option (Grid * Ui) :=
  match k with
  | TAB =>
      match view ui with
      | XY =>
          let ui :=
            match lastAxis ui with
            | axisX => set_depthY (cy (cur ui)) (set_view XZ ui)
            | axisY => set_depthX (cx (cur ui)) (set_view YZ ui)
            end in
          Some (g, set_cam (mkCam 0 0) ui)
      | _ => Some (g, set_cam (mkCam 0 0) (set_view XY ui))
      end
  | LEFT_ARROW => ui ← moveInView (-1) 0 g ui; Some (g, ui)
  | RIGHT_ARROW => ui ← moveInView 1 0 g ui; Some (g, ui)
  | UP_ARROW => ui ← moveInView 0 (-1) g ui; Some (g, ui)
  | DOWN_ARROW => ui ← moveInView 0 1 g ui; Some (g, ui)
  | BACKSPACE | DELETE => g ← typeAtCursor "" g ui; Some (g, ui)
  | OTHER key =>
      match normalizeChar key with
      | Some c =>
          if truthy c then g ← typeAtCursor c g ui; Some (g, ui)
          else Some (g, ui)
      | None => Some (g, ui)
      end
  end.
End Keyboard.

(** "Pick first open cell": [break outer] leaves the three loops at the
    first open cell; [None] when the loops run to their end. *)
Fixpoint firstOpen (g : Grid) (l : list Coord) : option (option Coord) :=
  match l with
  | [] => Some None
  | p :: l' =>
      ce ← cell g (cx p) (cy p) (cz p);
      if negb (block ce) then Some (Some p) else firstOpen g l'
  end.

(** The end of [setup]: the cursor and the two depths. *)
Definition pickFirstOpenCell (g : Grid) (ui : Ui) : option Ui :=
  r ← firstOpen g (scanOrder g);
  let ui := match r with Some p => set_cur p ui | None => ui end in
  Some (set_depthY (cy (cur ui)) (set_depthX (cx (cur ui)) ui)).

(** [setup] with [USE_EMBEDDED_JSON] false: [puzzleJSON] is [Some] record
    when the file was read and declares dimensions, otherwise a puzzle is
    generated and then loaded. *)
Definition setup (cfg : Config) (rnd : nat → Q) (puzzleJSON : option Puzzle)
  : option (State * Ui) :=
  st ← match puzzleJSON with
       | Some js => loadPuzzleFromJSON js
       | None => r ← generatePuzzleJSON cfg rnd; loadPuzzleFromJSON r.2
       end;
  ui ← pickFirstOpenCell (grid st) initUi;
  Some (st, ui).

(** p5 calls [draw] once per frame and the handlers once per event: a
    session is a list of such calls, run in order. *)
Inductive Input :=
| Frame
| MousePressed (mouseX mouseY : Q)
| MouseWheel (delta : Q)
| KeyPressed (k : Key).

Definition step (vc : ViewConfig) (normalizeChar : string → option string)
    (s : State * Ui) (i : Input) : option (State * Ui) :=
  match i with
  | Frame => Some (s.1, draw vc s.1 s.2)
  | MousePressed mouseX mouseY =>
      ui ← mousePressed vc mouseX mouseY (grid s.1) s.2; Some (s.1, ui)
  | MouseWheel delta => Some (s.1, mouseWheel delta (grid s.1) s.2)
  | KeyPressed k =>
      r ← keyPressed normalizeChar k (grid s.1) s.2; Some (withGrid r.1 s.1, r.2)
  end.

Definition session (vc : ViewConfig) (normalizeChar : string → option string)
    (inputs : list Input) (s : State * Ui) : option (State * Ui) :=
  forEach (step vc normalizeChar) inputs s.

End Interface.

Section Vocabulary.
Context {UC : CaseMapping}.
(** * Specification vocabulary *)

(** The nested arrays have the lengths the globals say. *)
Definition wfGrid (g : Grid) : Prop :=
  length (world g) = Z.to_nat (NZ g) ∧
  Forall (λ plane : list (list Cell),
            length plane = Z.to_nat (NY g) ∧
            Forall (λ row : list Cell, length row = Z.to_nat (NX g)) plane)
         (world g).

Definition sameDims (g g' : Grid) : Prop :=
  NX g' = NX g ∧ NY g' = NY g ∧ NZ g' = NZ g.

(** What a cell contributes to an answer: [cell(x, y, z).sol || "?"]. *)
Definition letterOf (c : Cell) : string :=
  if truthy (sol c) then sol c else "?".

Fixpoint concatLetters (cells : list Cell) : string :=
  match cells with
  | [] => ""
  | c :: cells => letterOf c +:+ concatLetters cells
  end.

(** The walk stops at a position that is off the grid or blocked. *)
Definition stopAt (g : Grid) (x y z : Z) : Prop :=
  inBounds g x y z = false ∨ ∃ c, cell g x y z = Some c ∧ block c = true.

(** [Run g dx dy dz x y z cells]: [cells] are the cells met from [(x, y, z)]
    in steps of [(dx, dy, dz)], all on the grid and open, up to the first
    position that is off the grid or blocked. *)
Inductive Run (g : Grid) (dx dy dz : Z) : Z → Z → Z → list Cell → Prop :=
| Run_stop x y z :
    stopAt g x y z → Run g dx dy dz x y z []
| Run_step x y z c cells :
    inBounds g x y z = true → cell g x y z = Some c → block c = false →
    Run g dx dy dz (x + dx) (y + dy) (z + dz) cells →
    Run g dx dy dz x y z (c :: cells).

Definition unitStep (dx dy dz : Z) : Prop :=
  (dx = 1 ∧ dy = 0 ∧ dz = 0) ∨ (dx = 0 ∧ dy = 1 ∧ dz = 0) ∨ (dx = 0 ∧ dy = 0 ∧ dz = 1).

(** The distance to the far faces of the grid: the measure under which a
    unit-step walk terminates. *)
Definition toEdge (g : Grid) (x y z : Z) : Z :=
  if inBounds g x y z then (NX g - x) + (NY g - y) + (NZ g - z) else 0.


Definition numOf (d : Dir) (c : Cell) : Z :=
  match d with dirR => numR c | dirD => numD c | dirI => numI c end.

Definition cluesOf (d : Dir) (cl : Clues) : list Clue :=
  match d with dirR => clR cl | dirD => clD cl | dirI => clI cl end.

(** The grid of a load in progress: it has the declared dimensions, its
    blocked cells are the entries of [js.blocks], no letter has been typed,
    and blocked cells carry no solution letter. *)
Definition LoadInv (js : Puzzle) (g : Grid) : Prop :=
  wfGrid g ∧ NX g = p_nx js ∧ NY g = p_ny js ∧ NZ g = p_nz js ∧
  ∀ x y z c, cell g x y z = Some c →
    (block c = true ↔ mkCoord x y z ∈ p_blocks js) ∧ ch c = "" ∧
    (block c = true → sol c = "").

(** Every number on the grid is zero or was written for a clue of that
    direction starting there. *)
Definition NumInv (cl : Clues) (g : Grid) : Prop :=
  ∀ x y z c d, cell g x y z = Some c →
    numOf d c = 0 ∨
    ∃ k, k ∈ cluesOf d cl ∧ c_start k = mkCoord x y z ∧ numOf d c = c_n k.

(** The grid before any letter or number is written. *)
Definition FreshGrid (js : Puzzle) (g : Grid) : Prop :=
  LoadInv js g ∧
  ∀ x y z c, cell g x y z = Some c →
    sol c = "" ∧ numR c = 0 ∧ numD c = 0 ∧ numI c = 0.

(** [(x', y', z')] is one of the first [n] positions met from [(x, y, z)]
    in steps of [(dx, dy, dz)]. *)
Definition onRun (x y z dx dy dz : Z) (n : nat) (x' y' z' : Z) : Prop :=
  ∃ j : nat, (j < n)%nat ∧
    x' = x + Z.of_nat j * dx ∧ y' = y + Z.of_nat j * dy ∧ z' = z + Z.of_nat j * dz.

Definition isConflict (e : Event) : bool :=
  match e with CrossingConflict _ _ _ _ => true | _ => false end.

(** A structural or conflict diagnostic ([console.error]). *)
Definition isError (e : Event) : bool :=
  match e with LogClue _ => false | _ => true end.

(** [g'] has the cells of [g], each changed within the relation [Rc]. *)
Definition cellwise (Rc : Coord → Cell → Cell → Prop) (g g' : Grid) : Prop :=
  wfGrid g' ∧ sameDims g g' ∧
  ∀ x y z c, cell g x y z = Some c →
    ∃ c', cell g' x y z = Some c' ∧ Rc (mkCoord x y z) c c'.

(** Writing solution letters: only the [sol] of open cells changes. *)
Definition solRel (_ : Coord) (c c' : Cell) : Prop :=
  c' = c ∨ (block c = false ∧ ∃ s, c' = set_sol s c).

(** Writing clue numbers: only the numbers change, and a number written is
    that of a clue of its direction starting at the cell. *)
Definition numRel (cl : Clues) (p : Coord) (c c' : Cell) : Prop :=
  block c' = block c ∧ ch c' = ch c ∧ sol c' = sol c ∧
  ∀ d, numOf d c' = numOf d c ∨
       ∃ k, k ∈ cluesOf d cl ∧ c_start k = p ∧ numOf d c' = c_n k.

(** The step of a direction. *)
Definition stepX (d : Dir) : Z := if decide (d = dirR) then 1 else 0.
Definition stepY (d : Dir) : Z := if decide (d = dirD) then 1 else 0.
Definition stepZ (d : Dir) : Z := if decide (d = dirI) then 1 else 0.

(** [c'] is the clue [c] with its answer bound: the letters of the run
    from its start in direction [d]. *)
Definition bound (g : Grid) (d : Dir) (c c' : Clue) : Prop :=
  ∃ cells,
    Run g (stepX d) (stepY d) (stepZ d)
        (cx (c_start c)) (cy (c_start c)) (cz (c_start c)) cells ∧
    c' = set_answer (Some (concatLetters cells)) c.

(** The position holds a cell of the grid that is not blocked. *)
Definition openAt (g : Grid) (x y z : Z) : Prop :=
  ∃ c, cell g x y z = Some c ∧ block c = false.

(** A word starts at [(x, y, z)] in direction [d]: the cell is open, the
    cell before it is off the grid or blocked, the cell after it is on the
    grid and open. *)
Definition isStart (g : Grid) (d : Dir) (x y z : Z) : Prop :=
  openAt g x y z ∧
  stopAt g (x - stepX d) (y - stepY d) (z - stepZ d) ∧
  openAt g (x + stepX d) (y + stepY d) (z + stepZ d).

(** The test of the extractor for direction [d]. *)
Definition startsIn (d : Dir) (g : Grid) (x y z : Z) : option bool :=
  match d with
  | dirR => startsR g x y z
  | dirD => startsD g x y z
  | dirI => startsI g x y z
  end.

(** The clue the extractor pushes for a start. *)
Definition derivedClue (g : Grid) (d : Dir) (n : Z) (p : Coord) (c : Clue) : Prop :=
  ∃ cells,
    Run g (stepX d) (stepY d) (stepZ d) (cx p) (cy p) (cz p) cells ∧
    c = mkClue n (Z.of_nat (length cells)) p (Some (defaultHint d)) None.

(** What the extractor returns for a grid: one clue per word start and
    direction, carrying the length of its run; clues share a number iff
    they share a start. *)
Definition Extracted (g : Grid) (cl : Clues) : Prop :=
  (∀ d c, c ∈ cluesOf d cl →
     isStart g d (cx (c_start c)) (cy (c_start c)) (cz (c_start c)) ∧
     derivedClue g d (c_n c) (c_start c) c ∧ 1 ≤ c_n c) ∧
  (∀ d x y z, isStart g d x y z →
     ∃ c, c ∈ cluesOf d cl ∧ c_start c = mkCoord x y z) ∧
  (∀ d1 d2 c1 c2, c1 ∈ cluesOf d1 cl → c2 ∈ cluesOf d2 cl →
     (c_start c1 = c_start c2 ↔ c_n c1 = c_n c2)).

(** A coordinate lies within the dimensions the record declares. *)
Definition inDims (js : Puzzle) (b : Coord) : bool :=
  (0 <=? cx b) && (cx b <? p_nx js) && (0 <=? cy b) && (cy b <? p_ny js)
  && (0 <=? cz b) && (cz b <? p_nz js).

Definition withBlocks (bs : list Coord) (js : Puzzle) : Puzzle :=
  mkPuzzle (p_nx js) (p_ny js) (p_nz js) bs (p_words js) (p_solution js) (p_clues js).

(** The state in which the format-specific part of the loader starts. *)
Definition initState (g : Grid) : State := mkState g (mkClues [] [] []) [].

(** The clue collections after [ensureHintFields]. *)
Definition hinted (cl : Clues) : Clues :=
  mkClues (clR cl) (fillHint "alla" <$> clD cl) (fillHint "sisse" <$> clI cl).


(** No character of the string is a comma. *)
Fixpoint noComma (s : string) : Prop :=
  match s with
  | EmptyString => True
  | String a s' => a ≠ ","%char ∧ noComma s'
  end.

(** The state of the numbering loop of Format A is consistent: numbers are
    positive and below [nextN], distinct keys have distinct numbers, and
    every clue built carries the number of its start. *)
Definition NumberingInv (acc : Numbering) : Prop :=
  1 ≤ nextN acc ∧
  (∀ key n, startToNumber acc !! key = Some n → 1 ≤ n < nextN acc) ∧
  (∀ k1 k2 n, startToNumber acc !! k1 = Some n →
              startToNumber acc !! k2 = Some n → k1 = k2) ∧
  (∀ d c, c ∈ cluesOf d (built acc) →
          startToNumber acc !! startKey (c_start c) = Some (c_n c)).

(** [k] placeholder characters. *)
Fixpoint placeholders (k : nat) : string :=
  match k with O => "" | S k' => "?" +:+ placeholders k' end.

(** The [j]-th cell of the run of a word and the letters it writes. *)
Definition wordPos (w : Word) (j : nat) : Coord :=
  mkCoord (cx (w_start w) + Z.of_nat j * stepX (w_dir w))
          (cy (w_start w) + Z.of_nat j * stepY (w_dir w))
          (cz (w_start w) + Z.of_nat j * stepZ (w_dir w)).

Definition wordLetters (w : Word) : string := toUpperCase (w_answer w).

(** The cell at [p] is inside the declared dimensions and not in the block
    list of the record. *)
Definition freeCell (js : Puzzle) (p : Coord) : Prop :=
  inDims js p = true ∧ p ∉ p_blocks js.

(** [c'] is [c] with, as its answer, the letters of the cells met from the
    start of [c] in direction [d]: every cell listed is on the grid and
    open, and the position after the last one is off the grid or blocked.
    The stored length of the clue plays no part. *)
Definition readsRun (g : Grid) (d : Dir) (c c' : Clue) : Prop :=
  ∃ cells : list Cell,
    (∀ (i : nat) ce, cells !! i = Some ce →
       cell g (cx (c_start c) + Z.of_nat i * stepX d)
              (cy (c_start c) + Z.of_nat i * stepY d)
              (cz (c_start c) + Z.of_nat i * stepZ d) = Some ce ∧ block ce = false) ∧
    stopAt g (cx (c_start c) + Z.of_nat (length cells) * stepX d)
             (cy (c_start c) + Z.of_nat (length cells) * stepY d)
             (cz (c_start c) + Z.of_nat (length cells) * stepZ d) ∧
    c' = set_answer (Some (concatLetters cells)) c.

(** ** Connectivity of a slice *)

(** Neighbours in a plane: one unit step along one of the two axes. *)
Definition adj4 (p q : Z * Z) : Prop :=
  (q.1 = p.1 + 1 ∧ q.2 = p.2) ∨ (q.1 = p.1 - 1 ∧ q.2 = p.2) ∨
  (q.1 = p.1 ∧ q.2 = p.2 + 1) ∨ (q.1 = p.1 ∧ q.2 = p.2 - 1).

(** [q] is reached from [p] by unit steps through cells satisfying [P]. *)
Inductive connectedIn (P : Z * Z → Prop) : Z * Z → Z * Z → Prop :=
| conn_here p : P p → connectedIn P p p
| conn_step p q r : connectedIn P p q → adj4 q r → P r → connectedIn P p r.

(** The cells satisfying [P] form one 4-connected component: there is one,
    and any two of them are connected through such cells. *)
Definition singleComponent (P : Z * Z → Prop) : Prop :=
  (∃ p, P p) ∧ ∀ p q, P p → P q → connectedIn P p q.

(** The open cells of a plane given by its accessor. *)
Definition openIn (at_ : Z → Z → option Cell) (p : Z * Z) : Prop :=
  ∃ ce, at_ p.1 p.2 = Some ce ∧ block ce = false.

Definition openInb (at_ : Z → Z → option Cell) (p : Z * Z) : bool :=
  match at_ p.1 p.2 with Some ce => negb (block ce) | None => false end.

(** The cell of plane coordinates [p] is marked in [vis]. *)
Definition marked (U : Z) (vis : list bool) (p : Z * Z) : bool :=
  getVis vis (p.2 * U + p.1).

(** The invariant of the flood from [start]: [seen] counts the marked
    cells, every marked cell is open and connected to [start] through open
    cells, and the cells on the stack are marked cells of the plane. *)
Definition FloodInv (U V : Z) (at_ : Z → Z → option Cell) (start : Z * Z)
    (st : list bool * list (Z * Z) * Z) : Prop :=
  length st.1.1 = Z.to_nat (U * V) ∧
  st.2 = Z.of_nat (length (List.filter (marked U st.1.1) (planeOrder U V))) ∧
  (∀ p, p ∈ planeOrder U V → marked U st.1.1 p = true →
        connectedIn (openIn at_) start p) ∧
  (∀ p, p ∈ st.1.2 → p ∈ planeOrder U V ∧ marked U st.1.1 p = true).

(** The measure under which the flood terminates. *)
Definition floodMeasure (U V : Z) (st : list bool * list (Z * Z) * Z) : Z :=
  Z.of_nat (length st.1.2) + 2 * (Z.of_nat (length (planeOrder U V)) - st.2).

(** ** The generator's constraints *)

(** The open cells of the three kinds of slices, in plane coordinates. *)
Definition openXY (g : Grid) (z : Z) (p : Z * Z) : Prop := openAt g p.1 p.2 z.
Definition openXZ (g : Grid) (y : Z) (p : Z * Z) : Prop := openAt g p.1 y p.2.
Definition openYZ (g : Grid) (x : Z) (p : Z * Z) : Prop := openAt g x p.1 p.2.

Definition openB (g : Grid) (p : Coord) : bool :=
  match cell g (cx p) (cy p) (cz p) with Some c => negb (block c) | None => false end.

Definition blockedB (g : Grid) (p : Coord) : bool :=
  match cell g (cx p) (cy p) (cz p) with Some c => block c | None => false end.

(** The number of open cells of a list of positions, and the number of
    blocked cells of the grid. *)
Definition openCount (g : Grid) (l : list Coord) : Z :=
  Z.of_nat (length (List.filter (openB g) l)).

(** At least [m] positions satisfy [P]: there are [m] distinct ones. *)
Definition atLeast (m : Z) (P : Z * Z → Prop) : Prop :=
  ∃ l : list (Z * Z), NoDup l ∧ m ≤ Z.of_nat (length l) ∧ ∀ p, p ∈ l → P p.

Definition blockCount (g : Grid) : Z :=
  Z.of_nat (length (List.filter (blockedB g) (scanOrder g))).

(** Every slice of every family has at least [m] open cells, and they form
    one component. *)
Definition slicesOK (m : Z) (g : Grid) : Prop :=
  (∀ z, 0 ≤ z < NZ g →
     m ≤ openCount g (sliceXY g z) ∧ singleComponent (openXY g z)) ∧
  (∀ y, 0 ≤ y < NY g →
     m ≤ openCount g (sliceXZ g y) ∧ singleComponent (openXZ g y)) ∧
  (∀ x, 0 ≤ x < NX g →
     m ≤ openCount g (sliceYZ g x) ∧ singleComponent (openYZ g x)).

(** All slices of all families pass the connectivity check. *)
Definition allConnected (g : Grid) : Prop :=
  (∀ z, 0 ≤ z < NZ g → singleComponent (openXY g z)) ∧
  (∀ y, 0 ≤ y < NY g → singleComponent (openXZ g y)) ∧
  (∀ x, 0 ≤ x < NX g → singleComponent (openYZ g x)).

(** Every draw of the oracle is a number of [0, 1). *)
Definition unitDraws (rnd : nat → Q) : Prop :=
  ∀ i, (0 <= rnd i)%Q ∧ (rnd i < 1)%Q.

(** The invariant of the generator's loop: the grid has the configured
    dimensions, every slice satisfies both constraints, [blocks] counts the
    blocked cells and has not passed the target, and nothing but the block
    flag of a cell has been touched.  [underTarget b t]: the counter has not
    passed the target [t], which no counter passes when it is infinite and
    which stops the loop at once when it is NaN or negative. *)
(** [b ≤ t] for an integer [b]: false against NaN. *)
Definition leNum (b : Z) (t : Num) : Prop :=
  match t with
  | Int n => b ≤ n
  | Inf neg => neg = false
  | NaN => False
  end.

Definition underTarget (b : Z) (t : Num) : Prop :=
  match t with
  | Int n => b ≤ Z.max 0 n
  | Inf false => True
  | _ => b ≤ 0
  end.

Definition GenInv (cfg : Config) (target : Num) (s : Gen) : Prop :=
  wfGrid (g_grid s) ∧
  NX (g_grid s) = GEN_NX cfg ∧ NY (g_grid s) = GEN_NY cfg ∧ NZ (g_grid s) = GEN_NZ cfg ∧
  slicesOK (minOpenPerSlice cfg) (g_grid s) ∧
  g_blocks s = blockCount (g_grid s) ∧
  underTarget (g_blocks s) target ∧
  (∀ x y z c, cell (g_grid s) x y z = Some c → set_block false c = emptyCell).

(** ** Blocked cells *)

(** In the state [st] a blocked cell has no solution letter and no entered
    letter, and a number on it is the number of a clue of that direction
    starting on it. *)
Definition blockedLetterless (st : State) : Prop :=
  ∀ x y z c, cell (grid st) x y z = Some c → block c = true →
    sol c = "" ∧ ch c = "" ∧
    ∀ d, numOf d c = 0 ∨
         ∃ k, k ∈ cluesOf d (clues st) ∧ c_start k = mkCoord x y z ∧
              numOf d c = c_n k.

(** A blocked cell of [g] has no letter and no number at all. *)
Definition blockedClean (g : Grid) : Prop :=
  ∀ x y z c, cell g x y z = Some c → block c = true →
    sol c = "" ∧ ch c = "" ∧ numR c = 0 ∧ numD c = 0 ∧ numI c = 0.

End Vocabulary.

Section VocabularyUi.
Context {UC : CaseMapping}.

(** ** The cursor and the view *)

Definition cursorOnGrid (g : Grid) (ui : Ui) : Prop :=
  inBounds g (cx (cur ui)) (cy (cur ui)) (cz (cur ui)) = true.

(** The plane on display holds the cursor: in a side view the depth that
    fixes the plane is the cursor's own coordinate. *)
Definition cursorInPlane (ui : Ui) : Prop :=
  match view ui with
  | XY => True
  | XZ => depthY ui = cy (cur ui)
  | YZ => depthX ui = cx (cur ui)
  end.

(** The coordinates of the cursor in the plane on display. *)
Definition cursorUV (ui : Ui) : Z * Z :=
  match view ui with
  | XY => (cx (cur ui), cy (cur ui))
  | XZ => (cx (cur ui), cz (cur ui))
  | YZ => (cy (cur ui), cz (cur ui))
  end.

(** The window of the camera is inside the plane, or at its origin when
    the plane is smaller than the viewport. *)
Definition camInRange (vc : ViewConfig) (g : Grid) (ui : Ui) : Prop :=
  0 ≤ cam_u (cam ui) ≤ Z.max 0 ((planeBounds g ui).1 - VIEW_W vc) ∧
  0 ≤ cam_v (cam ui) ≤ Z.max 0 ((planeBounds g ui).2 - VIEW_H vc).

(** The start [s] lies in the plane on display and inside the window. *)
Definition startShown (vc : ViewConfig) (ui : Ui) (s : Coord) : Prop :=
  let inU (a : Z) := cam_u (cam ui) ≤ a ≤ cam_u (cam ui) + VIEW_W vc - 1 in
  let inV (a : Z) := cam_v (cam ui) ≤ a ≤ cam_v (cam ui) + VIEW_H vc - 1 in
  match view ui with
  | XY => cz s = cz (cur ui) ∧ inU (cx s) ∧ inV (cy s)
  | XZ => cy s = depthY ui ∧ inU (cx s) ∧ inV (cz s)
  | YZ => cx s = depthX ui ∧ inU (cy s) ∧ inV (cz s)
  end.

(** Every clue of the collections starts on the grid. *)
Definition startsOnGrid (g : Grid) (cl : Clues) : Prop :=
  ∀ d c, c ∈ cluesOf d cl →
    inBounds g (cx (c_start c)) (cy (c_start c)) (cz (c_start c)) = true.

(** Typing: nothing but the entered letter of a cell changes. *)
Definition chRel (_ : Coord) (c c' : Cell) : Prop := ∃ s, c' = set_ch s c.

(** The cell an arrow key aims at, and the interface state once the key
    has been noted as the last movement in the XY view. *)
Definition moveTarget (du dv : Z) (ui : Ui) : Coord :=
  match view ui with
  | XY => mkCoord (cx (cur ui) + du) (cy (cur ui) + dv) (cz (cur ui))
  | XZ => mkCoord (cx (cur ui) + du) (depthY ui) (cz (cur ui) + dv)
  | YZ => mkCoord (depthX ui) (cy (cur ui) + du) (cz (cur ui) + dv)
  end.

Definition moveNoted (du dv : Z) (ui : Ui) : Ui :=
  match view ui with
  | XY =>
      let ui := if decide (du ≠ 0) then set_last axisX (du, 0) ui else ui in
      if decide (dv ≠ 0) then set_last axisY (0, dv) ui else ui
  | _ => ui
  end.

(** The mouse position is inside the hitbox, borders included. *)
Definition inHitbox (mouseX mouseY : Q) (hb : Hitbox) : Prop :=
  (inject_Z (hb_x hb) <= mouseX)%Q ∧ (mouseX <= inject_Z (hb_x hb + hb_w hb))%Q ∧
  (inject_Z (hb_y hb) <= mouseY)%Q ∧ (mouseY <= inject_Z (hb_y hb + hb_h hb))%Q.

(** Every hitbox belongs to a clue that starts on the grid. *)
Definition hitboxesOnGrid (g : Grid) (ui : Ui) : Prop :=
  ∀ hb, hb ∈ clueHitboxes ui →
    inBounds g (cx (c_start (hb_clue hb))) (cy (c_start (hb_clue hb)))
             (cz (c_start (hb_clue hb))) = true.

(** What a session keeps true: the world is well formed, the clues and
    the clickable clues start on the grid, the cursor is on the grid and
    in the plane on display. *)
Definition SessionInv (s : State * Ui) : Prop :=
  wfGrid (grid s.1) ∧ startsOnGrid (grid s.1) (clues s.1) ∧
  hitboxesOnGrid (grid s.1) s.2 ∧
  cursorOnGrid (grid s.1) s.2 ∧ cursorInPlane s.2.

(** The coordinate of the cursor across the plane on display: the one the
    mouse wheel changes. *)
Definition cursorDepth (ui : Ui) : Z :=
  match view ui with
  | XY => cz (cur ui)
  | XZ => cy (cur ui)
  | YZ => cx (cur ui)
  end.

(** The axis an arrow key moves along in the plane on display. *)
Definition arrowAxis (k : Key) : option Axis :=
  match k with
  | LEFT_ARROW | RIGHT_ARROW => Some axisX
  | UP_ARROW | DOWN_ARROW => Some axisY
  | _ => None
  end.

(** The side view that [TAB] opens for a last movement along [a]. *)
Definition sideView (a : Axis) : View :=
  match a with axisX => XZ | axisY => YZ end.

(** ** Solution letters of a record *)

(** The letter the solution list leaves at [p], starting from [init]: the
    letter of the last entry for [p]. *)
Definition solFrom (init : string) (sols : list SolEntry) (p : Coord) : string :=
  fold_left (λ acc s, if decide (mkCoord (s_x s) (s_y s) (s_z s) = p) then s_ch s else acc)
            sols init.

Definition solOf (sols : list SolEntry) (p : Coord) : string := solFrom "" sols p.

(** ** Numbering *)

(** The distinct start coordinates of a word list, in the order in which
    they first appear. *)
Definition startsOf (ws : list Word) : list Coord :=
  fold_left (λ acc w, if decide (w_start w ∈ acc) then acc else acc ++ [w_start w]) ws [].

(** The state of the numbering loop agrees with the list [S] of the starts
    met so far: a number [n] belongs to the [n]-th of them. *)
Definition RankInv (S : list Coord) (acc : Numbering) : Prop :=
  nextN acc = Z.of_nat (length S) + 1 ∧
  (∀ p, p ∈ S ↔ is_Some (startToNumber acc !! startKey p)) ∧
  (∀ p n, startToNumber acc !! startKey p = Some n →
          1 ≤ n ∧ S !! Z.to_nat (n - 1) = Some p) ∧
  (∀ d c, c ∈ cluesOf d (built acc) →
          1 ≤ c_n c ∧ S !! Z.to_nat (c_n c - 1) = Some (c_start c)).

(** The cell at the start of [k] carries, in the field of direction [d],
    the number of a clue of [l] that starts there. *)
Definition numbered (g : Grid) (d : Dir) (l : list Clue) (k : Clue) : Prop :=
  ∃ c k', cell g (cx (c_start k)) (cy (c_start k)) (cz (c_start k)) = Some c ∧
          k' ∈ l ∧ c_start k' = c_start k ∧ numOf d c = c_n k'.

(** ** Diagnostics *)

(** A structural diagnostic: the word left the grid or ran into a block. *)
Definition isStructural (e : Event) : bool :=
  match e with
  | WordOutOfBounds _ _ | WordHitsBlock _ _ => true
  | _ => false
  end.

(** The diagnostic says what is the case in the record: it names a word of
    the record and a position of that word's run; the position is outside
    the dimensions, or a block of the record, or a free cell where the word
    writes a letter other than the one found there. *)
Definition justified (js : Puzzle) (e : Event) : Prop :=
  match e with
  | WordOutOfBounds w p =>
      w ∈ p_words js ∧
      (∃ j a, String.get j (wordLetters w) = Some a ∧ p = wordPos w j) ∧
      inDims js p = false
  | WordHitsBlock w p =>
      w ∈ p_words js ∧
      (∃ j a, String.get j (wordLetters w) = Some a ∧ p = wordPos w j) ∧
      inDims js p = true ∧ p ∈ p_blocks js
  | CrossingConflict w p had wants =>
      w ∈ p_words js ∧
      (∃ j a, String.get j (wordLetters w) = Some a ∧ p = wordPos w j ∧
              wants = String a EmptyString) ∧
      freeCell js p ∧ had ≠ EmptyString ∧ had ≠ wants
  | LogClue _ => False
  end.

(** ** The generated record *)

(** The entry of the solution list the generator writes for [p]. *)
Definition dummyEntry (p : Coord) : SolEntry :=
  mkSol (cx p) (cy p) (cz p) (pseudoLetter (cx p) (cy p) (cz p)).

(** A cell of the generator's grid with its pseudo letter. *)
Definition withPseudo (p : Coord) (c : Cell) : Cell :=
  if block c then c else set_sol (pseudoLetter (cx p) (cy p) (cz p)) c.

(** ** The flood reaches every connected cell *)

(** The marked cells that are no longer on the stack have all their open
    neighbours marked. *)
Definition FloodClosed (U V : Z) (at_ : Z → Z → option Cell)
    (st : list bool * list (Z * Z) * Z) : Prop :=
  ∀ p n, p ∈ planeOrder U V → marked U st.1.1 p = true → p ∉ st.1.2 →
         adj4 p n → openIn at_ n → marked U st.1.1 n = true.

(** ** The letters of a word list *)

(** The test of [freeCell]: the position is inside the declared dimensions
    and not in the block list of the record. *)
Definition freeB (js : Puzzle) (p : Coord) : bool :=
  inDims js p && negb (bool_decide (p ∈ p_blocks js)).

(** The letters that [ans] writes from [(x, y, z)] in steps of
    [(dx, dy, dz)]: one per position, up to the first position that is not
    free. *)
Fixpoint runWrites (js : Puzzle) (dx dy dz : Z) (ans : string) (x y z : Z)
    : list (Coord * string) :=
  match ans with
  | EmptyString => []
  | String a rest =>
      if freeB js (mkCoord x y z)
      then (mkCoord x y z, String a EmptyString)
             :: runWrites js dx dy dz rest (x + dx) (y + dy) (z + dz)
      else []
  end.

(** The letters a word of the record writes, with their cells. *)
Definition writesOf (js : Puzzle) (w : Word) : list (Coord * string) :=
  runWrites js (stepX (w_dir w)) (stepY (w_dir w)) (stepZ (w_dir w)) (wordLetters w)
    (cx (w_start w)) (cy (w_start w)) (cz (w_start w)).

(** The letter at [p] after the writes [l], [init] being there before: that
    of the last write to [p]. *)
Definition letterFrom (init : string) (l : list (Coord * string)) (p : Coord) : string :=
  fold_left (λ acc e, if decide (e.1 = p) then e.2 else acc) l init.

(** The letter the words of the record leave at [p]: words in the order of
    the record, each up to its first position that is not free; the last
    letter written at [p], and no letter when none is. *)
Definition lastLetter (js : Puzzle) (p : Coord) : string :=
  letterFrom "" (w ← p_words js; writesOf js w) p.

(** The word [w] gets as far as its [j]-th position: it has a letter for
    it, and every position up to it is free. *)
Definition reaches (js : Puzzle) (w : Word) (j : nat) : Prop :=
  (j < String.length (wordLetters w))%nat ∧
  ∀ k : nat, (k ≤ j)%nat → freeCell js (wordPos w k).

(** A crossing conflict reported for the cell [p]. *)
Definition conflictAt (p : Coord) (e : Event) : bool :=
  match e with CrossingConflict _ q _ _ => bool_decide (q = p) | _ => false end.

(** The conflicts a word reports for the cell [p] when its writes are [l]
    and the cell holds [init], and those of a list of words. *)
Fixpoint conflictsFrom (w : Word) (p : Coord) (init : string) (l : list (Coord * string))
    : list Event :=
  match l with
  | [] => []
  | e :: l' =>
      if decide (e.1 = p)
      then (if truthy init && negb (String.eqb init e.2)
            then [CrossingConflict w p init e.2] else [])
           ++ conflictsFrom w p e.2 l'
      else conflictsFrom w p init l'
  end.

Fixpoint conflictsOfWords (js : Puzzle) (p : Coord) (init : string) (ws : list Word)
    : list Event :=
  match ws with
  | [] => []
  | w :: ws' =>
      conflictsFrom w p init (writesOf js w)
      ++ conflictsOfWords js p (letterFrom init (writesOf js w) p) ws'
  end.

(** ** Numbers on blocked cells *)

(** A blocked cell of the state has no solution letter and no entered
    letter, and its number of direction [d] is zero when no clue of that
    direction starts on the cell, and the number of a clue of that direction
    starting on the cell when there is one. *)
Definition blockedNumbered (st : State) : Prop :=
  ∀ x y z c, cell (grid st) x y z = Some c → block c = true →
    sol c = "" ∧ ch c = "" ∧
    ∀ d, ((¬ ∃ k, k ∈ cluesOf d (clues st) ∧ c_start k = mkCoord x y z) ∧ numOf d c = 0) ∨
         (∃ k, k ∈ cluesOf d (clues st) ∧ c_start k = mkCoord x y z ∧ numOf d c = c_n k).

End VocabularyUi.
(** * Example records *)

(** The case mapping of the examples.  Their strings are ASCII, on which
    [toUpperCase] does not consult it. *)
#[global] Instance exampleCase : CaseMapping := λ s, s.

(** A 2x2x1 record whose block list has two entries off the grid. *)
Definition recordWithStrayBlocks : Puzzle :=
  mkPuzzle 2 2 1 [mkCoord 5 0 0; mkCoord 1 0 0; mkCoord 0 (-1) 0] [] [] (mkClues [] [] []).


(** A row of three cells, the last one blocked. *)
Definition gridRow3 : Grid :=
  mkGrid 3 1 1 [[[emptyCell; emptyCell; set_block true emptyCell]]].

(** The example of the specification: "CAT" rightward in a 3x3x1 grid. *)
Definition recordCat : Puzzle :=
  mkPuzzle 3 3 1 [] [mkWord dirR (mkCoord 0 0 0) "CAT" None] [] (mkClues [] [] []).

(** Dimensions only: two cells in a row, no blocks, words, solution or
    clues. *)
Definition recordBare2 : Puzzle :=
  mkPuzzle 2 1 1 [] [] [] (mkClues [] [] []).

(** Two words crossing at (1,1,0) with different letters; the second word
    starts on a block. *)
Definition recordCrossBlocked : Puzzle :=
  mkPuzzle 3 3 1 [mkCoord 1 0 0]
    [mkWord dirR (mkCoord 0 1 0) "ABC" None; mkWord dirD (mkCoord 1 0 0) "XYZ" None]
    [] (mkClues [] [] []).

(** The same two words on a grid without blocks. *)
Definition recordCross : Puzzle :=
  mkPuzzle 3 3 1 []
    [mkWord dirR (mkCoord 0 1 0) "ABC" None; mkWord dirD (mkCoord 1 0 0) "XYZ" None]
    [] (mkClues [] [] []).

(** "CAT" rightward in a row of four cells: the run is longer than the
    word. *)
Definition recordCat4 : Puzzle :=
  mkPuzzle 4 1 1 [] [mkWord dirR (mkCoord 0 0 0) "CAT" None] [] (mkClues [] [] []).

(** The state of [recordCat4] before the answers are bound. *)
Definition stateCat4 : State :=
  mkState (mkGrid 4 1 1 [[[set_sol "C" emptyCell; set_sol "A" emptyCell;
                           set_sol "T" emptyCell; emptyCell]]])
          (mkClues [mkClue 1 3 (mkCoord 0 0 0) (Some "paremale") (Some "CAT")] [] [])
          [].

(** Format B with its own clue list, none of the clues carrying a hint. *)
Definition recordNoHints : Puzzle :=
  mkPuzzle 2 2 2 [] [] []
    (mkClues [mkClue 1 2 (mkCoord 0 0 0) None None]
             [mkClue 1 2 (mkCoord 0 0 0) None None]
             [mkClue 1 2 (mkCoord 0 0 0) None None]).

(** An oracle that always draws 0: every attempt picks the cell (0,0,0). *)
Definition rndZero : nat → Q := λ _, 0%Q.

(** A word starting on a blocked cell. *)
Definition recordWordOnBlock : Puzzle :=
  mkPuzzle 2 1 1 [mkCoord 0 0 0] [mkWord dirR (mkCoord 0 0 0) "AB" None] []
    (mkClues [] [] []).

(** An open box of 3 by 2 by 2 cells. *)
Definition gridBox : Grid :=
  mkGrid 3 2 2 [[[emptyCell; emptyCell; emptyCell]; [emptyCell; emptyCell; emptyCell]];
                [[emptyCell; emptyCell; emptyCell]; [emptyCell; emptyCell; emptyCell]]].

(** A plane wider than the viewport: a row of twelve cells, the one at
    x = 5 blocked. *)
Definition gridLong : Grid :=
  mkGrid 12 1 1 [[[emptyCell; emptyCell; emptyCell; emptyCell; emptyCell;
                   set_block true emptyCell; emptyCell; emptyCell; emptyCell;
                   emptyCell; emptyCell; emptyCell]]].

(** The cursor at the far end of [gridLong], the camera still at the origin. *)
Definition uiFar : Ui := mkUi XY (mkCoord 11 0 0) (mkCam 0 0) 11 0 axisX (1, 0) [].

(** A side view of [gridBox]: the XZ plane at depth y = 1. *)
Definition uiSide : Ui := mkUi XZ (mkCoord 1 1 0) (mkCam 0 0) 0 1 axisX (1, 0) [].

(** [gridBox] with one inward clue and nothing on the console. *)
Definition stateBox : State :=
  mkState gridBox (mkClues [] [] [mkClue 1 2 (mkCoord 2 1 0) (Some "sisse") (Some "??")]) [].

(** A key handler's normaliser for ASCII keys: one character, upper-cased,
    a letter of A to Z. *)
Definition asciiNormalize (k : string) : option string :=
  match upperAscii k with
  | String a EmptyString =>
      if (65 <=? nat_of_ascii a)%nat && (nat_of_ascii a <=? 90)%nat
      then Some (String a EmptyString) else None
  | _ => None
  end.

(** Format B with two solution entries for the cell (0,0,0), one entry on
    the blocked cell (1,0,0) and one off the grid. *)
Definition recordSolutions : Puzzle :=
  mkPuzzle 3 1 1 [mkCoord 1 0 0] []
    [mkSol 0 0 0 "A"; mkSol 1 0 0 "B"; mkSol 0 0 0 "C"; mkSol 9 0 0 "D"; mkSol 2 0 0 "E"]
    (mkClues [] [] []).

(** A record that declares a negative depth. *)
Definition recordNegativeDepth : Puzzle :=
  mkPuzzle 2 2 (-1) [] [] [] (mkClues [] [] []).

(** Format B without clues of its own: a row of three open cells, two of
    them with a solution letter. *)
Definition recordDerived : Puzzle :=
  mkPuzzle 3 1 1 [] [] [mkSol 0 0 0 "A"; mkSol 1 0 0 "B"] (mkClues [] [] []).

(** A block entry off the grid in a record that declares a negative depth,
    and in one that declares a depth of 2^32. *)
Definition recordStrayNegative : Puzzle :=
  mkPuzzle 2 2 (-1) [mkCoord 5 0 0] [] [] (mkClues [] [] []).

Definition recordStrayHuge : Puzzle :=
  mkPuzzle 2 2 4294967296 [mkCoord 5 0 0] [] [] (mkClues [] [] []).

(** Two words from the cell (0,0,0), rightward and downward, and a third
    from (0,2,0). *)
Definition recordNumbered : Puzzle :=
  mkPuzzle 3 3 1 []
    [mkWord dirR (mkCoord 0 0 0) "ABC" None; mkWord dirD (mkCoord 0 0 0) "ADG" None;
     mkWord dirR (mkCoord 0 2 0) "GHI" None]
    [] (mkClues [] [] []).

(** The two crossing words of [recordCross] between two other words: one
    before them, and one after them that runs into the letter Z. *)
Definition recordCross4 : Puzzle :=
  mkPuzzle 3 3 1 []
    [mkWord dirI (mkCoord 2 0 0) "K" None;
     mkWord dirR (mkCoord 0 1 0) "ABC" None; mkWord dirD (mkCoord 1 0 0) "XYZ" None;
     mkWord dirR (mkCoord 0 2 0) "PQ" None]
    [] (mkClues [] [] []).

(** The double nearest to 1/3, and a small configuration with it: six
    cells, of which [Math.floor(6 * (1/3))], that is 2, are to be blocked. *)
Definition double_third : double := S754_finite false 6004799503160661 (-54).

Definition cfgThird : Config := mkConfig 3 2 1 double_third 1 10.

(** An oracle whose first attempt picks the cell (0,0,0) and whose second
    attempt picks (2,1,0). *)
Definition rndTwo : nat → Q :=
  λ i, match i with 3%nat => (7 # 10)%Q | 4%nat => (1 # 2)%Q | _ => 0%Q end.

Section Proofs.
Context {UC : CaseMapping}.
(** * Properties *)

(** ** Arrays and loops *)

Lemma idx_Some {A} (l : list A) i a :
  idx l i = Some a ↔ 0 ≤ i ∧ l !! Z.to_nat i = Some a.
Proof. unfold idx. case_decide; naive_solver. Qed.

Lemma idx_is_Some {A} (l : list A) i :
  is_Some (idx l i) ↔ 0 ≤ i ∧ (Z.to_nat i < length l)%nat.
Proof.
  unfold is_Some. setoid_rewrite idx_Some. rewrite <- lookup_lt_is_Some.
  unfold is_Some. naive_solver.
Qed.

Lemma idx_insert {A} (l : list A) i j a :
  is_Some (idx l i) →
  idx (<[Z.to_nat i := a]> l) j = if decide (j = i) then Some a else idx l j.
Proof.
  intros [Hi Hlen]%idx_is_Some. unfold idx.
  case_decide as Hj.
  - case_decide as Hij.
    + subst j. by rewrite list_lookup_insert_eq.
    + rewrite list_lookup_insert_ne; [done | lia].
  - case_decide; [lia | done].
Qed.

Lemma forEach_app {S A} (body : S → A → option S) l1 l2 s :
  forEach body (l1 ++ l2) s = forEach body l1 s ≫= forEach body l2.
Proof.
  revert s. induction l1 as [|a l1 IH]; intros s; simpl; [done|].
  destruct (body s a); simpl; [apply IH | done].
Qed.

(** A loop whose body never throws on states satisfying an invariant it
    preserves runs to completion and ends in such a state. *)
Lemma forEach_total {S A} (P : S → Prop) (body : S → A → option S) l s :
  P s →
  (∀ s a, a ∈ l → P s → ∃ s', body s a = Some s' ∧ P s') →
  ∃ s', forEach body l s = Some s' ∧ P s'.
Proof.
  revert s. induction l as [|a l IH]; intros s Hs Hbody; simpl; [eauto|].
  destruct (Hbody s a) as (s1 & -> & Hs1); [left | done |]. simpl.
  apply IH; [done|]. intros s2 b Hb. apply Hbody. by right.
Qed.

Lemma forEach_inv {S A} (P : S → Prop) (body : S → A → option S) l s s' :
  P s →
  (∀ s a s', a ∈ l → P s → body s a = Some s' → P s') →
  forEach body l s = Some s' → P s'.
Proof.
  revert s. induction l as [|a l IH]; intros s Hs Hbody; simpl.
  - by intros [= <-].
  - destruct (body s a) as [s1|] eqn:E; simpl; [|done].
    apply IH; [eapply Hbody; [left | done..] |].
    intros s2 b s3 Hb. apply Hbody. by right.
Qed.

(** ** The grid as a partial function of the coordinates *)

Lemma inBounds_spec g x y z :
  inBounds g x y z = true ↔ (0 ≤ x < NX g) ∧ (0 ≤ y < NY g) ∧ (0 ≤ z < NZ g).
Proof.
  unfold inBounds. rewrite !andb_true_iff, !Z.leb_le, !Z.ltb_lt. lia.
Qed.

Lemma inBounds_false g x y z :
  inBounds g x y z = false ↔ ¬ ((0 ≤ x < NX g) ∧ (0 ≤ y < NY g) ∧ (0 ≤ z < NZ g)).
Proof. rewrite <- inBounds_spec. by destruct (inBounds g x y z). Qed.

Lemma inBounds_sameDims g g' x y z :
  sameDims g g' → inBounds g' x y z = inBounds g x y z.
Proof. intros (Hx & Hy & Hz). unfold inBounds. by rewrite Hx, Hy, Hz. Qed.

Lemma cell_is_Some g x y z :
  wfGrid g → is_Some (cell g x y z) ↔ inBounds g x y z = true.
Proof.
  intros [Hz Hpl]. rewrite inBounds_spec. unfold cell. split.
  - intros [c Hc].
    destruct (idx (world g) z) as [plane|] eqn:Ez; simpl in Hc; [|done].
    destruct (idx plane y) as [row|] eqn:Ey; simpl in Hc; [|done].
    apply idx_Some in Ez as [? Ez], Ey as [? Ey], Hc as [? Hc].
    rewrite Forall_forall in Hpl.
    destruct (Hpl plane) as [Hy Hrow]; [by eapply list_elem_of_lookup_2|].
    rewrite Forall_forall in Hrow.
    specialize (Hrow row ltac:(by eapply list_elem_of_lookup_2)).
    apply lookup_lt_Some in Ez, Ey, Hc. lia.
  - intros (Hx & Hy & Hzz).
    destruct (idx_is_Some (world g) z) as [_ [plane Ez]]; [lia|].
    rewrite Ez. simpl.
    rewrite Forall_forall in Hpl.
    pose proof Ez as [_ Ez']%idx_Some.
    destruct (Hpl plane) as [Hly Hrow]; [by eapply list_elem_of_lookup_2|].
    destruct (idx_is_Some plane y) as [_ [row Ey]]; [lia|].
    rewrite Ey. simpl.
    rewrite Forall_forall in Hrow.
    pose proof Ey as [_ Ey']%idx_Some.
    specialize (Hrow row ltac:(by eapply list_elem_of_lookup_2)).
    apply idx_is_Some. lia.
Qed.

Lemma cell_inBounds g x y z c :
  wfGrid g → cell g x y z = Some c → inBounds g x y z = true.
Proof. intros Hwf Hc. apply cell_is_Some; eauto. Qed.

Lemma updCell_Some f g x y z ce :
  cell g x y z = Some ce → is_Some (updCell f g x y z).
Proof.
  unfold cell, updCell. intros Hc.
  destruct (idx (world g) z) as [plane|]; simpl in *; [|done].
  destruct (idx plane y) as [row|]; simpl in *; [|done].
  rewrite Hc. simpl. eauto.
Qed.

Lemma updCell_cell f g x y z g' :
  updCell f g x y z = Some g' →
  ∃ ce, cell g x y z = Some ce ∧ sameDims g g' ∧
    ∀ x' y' z', cell g' x' y' z' =
      if decide (x' = x ∧ y' = y ∧ z' = z) then Some (f ce) else cell g x' y' z'.
Proof.
  unfold updCell, cell. intros Hu.
  destruct (idx (world g) z) as [plane|] eqn:Ez; simpl in *; [|done].
  destruct (idx plane y) as [row|] eqn:Ey; simpl in *; [|done].
  destruct (idx row x) as [ce|] eqn:Ex; simpl in *; [|done].
  injection Hu as <-. exists ce. split; [done|]. split; [done|].
  intros x' y' z'. simpl.
  rewrite idx_insert by eauto.
  destruct (decide (z' = z)) as [->|Hz]; simpl.
  - rewrite idx_insert by eauto.
    destruct (decide (y' = y)) as [->|Hy]; simpl.
    + rewrite idx_insert by eauto.
      destruct (decide (x' = x)) as [->|Hx]; simpl.
      * rewrite decide_True; done.
      * rewrite decide_False by naive_solver. rewrite Ez. simpl. by rewrite Ey.
    + rewrite decide_False by naive_solver. by rewrite Ez.
  - rewrite decide_False by naive_solver. done.
Qed.

Lemma updCell_wf f g x y z g' :
  wfGrid g → updCell f g x y z = Some g' → wfGrid g'.
Proof.
  intros [Hz Hpl]. unfold updCell.
  destruct (idx (world g) z) as [plane|] eqn:Ez; simpl; [|done].
  destruct (idx plane y) as [row|] eqn:Ey; simpl; [|done].
  destruct (idx row x) as [ce|] eqn:Ex; simpl; [|done].
  intros [= <-]. split; simpl.
  - by rewrite length_insert.
  - apply idx_Some in Ez as [_ Ez], Ey as [_ Ey].
    pose proof Hpl as Hpl'. rewrite Forall_forall in Hpl'.
    destruct (Hpl' plane) as [Hy Hrow]; [by eapply list_elem_of_lookup_2|].
    apply Forall_insert; [exact Hpl|]. split; [by rewrite length_insert|].
    apply Forall_insert; [exact Hrow|]. rewrite length_insert.
    rewrite Forall_forall in Hrow. apply Hrow. by eapply list_elem_of_lookup_2.
Qed.

Lemma updCell_total f g x y z :
  wfGrid g → inBounds g x y z = true →
  ∃ g' ce, updCell f g x y z = Some g' ∧ cell g x y z = Some ce ∧
    wfGrid g' ∧ sameDims g g' ∧
    ∀ x' y' z', cell g' x' y' z' =
      if decide (x' = x ∧ y' = y ∧ z' = z) then Some (f ce) else cell g x' y' z'.
Proof.
  intros Hwf Hin. apply cell_is_Some in Hin as [ce Hce]; [|done].
  destruct (updCell_Some f g x y z ce Hce) as [g' Hg'].
  destruct (updCell_cell _ _ _ _ _ _ Hg') as (ce' & Hce' & Hd & Hcells).
  assert (ce' = ce) as -> by congruence.
  exists g', ce. split_and!; [done..| by eapply updCell_wf | done | done].
Qed.

Lemma sameDims_refl g : sameDims g g.
Proof. by unfold sameDims. Qed.

Lemma sameDims_trans g1 g2 g3 : sameDims g1 g2 → sameDims g2 g3 → sameDims g1 g3.
Proof. unfold sameDims. intros (?&?&?) (?&?&?). repeat split; congruence. Qed.

(** ** Runs: the walk of [wordLen] and [readWordFromSolution] *)

Lemma string_app_assoc (s1 s2 s3 : string) :
  (s1 +:+ s2) +:+ s3 = s1 +:+ (s2 +:+ s3).
Proof.
  induction s1 as [|a s1 IH]; [done|].
  change (String a ((s1 +:+ s2) +:+ s3) = String a (s1 +:+ (s2 +:+ s3))).
  by rewrite IH.
Qed.

Lemma string_app_nil_r (s : string) : s +:+ "" = s.
Proof.
  induction s as [|a s IH]; [done|].
  change (String a (s +:+ "") = String a s). by rewrite IH.
Qed.

Lemma string_app_length (s1 s2 : string) :
  String.length (s1 +:+ s2) = (String.length s1 + String.length s2)%nat.
Proof.
  induction s1 as [|a s1 IH]; [done|].
  change (S (String.length (s1 +:+ s2)) = S (String.length s1 + String.length s2)).
  by rewrite IH.
Qed.

Section Walk.
Variable g : Grid.
Variables dx dy dz : Z.

Lemma Run_functional x y z cells1 cells2 :
    Run g dx dy dz x y z cells1 → Run g dx dy dz x y z cells2 → cells1 = cells2.
  Proof.
    intros H1. revert cells2. induction H1 as [x y z Hs|x y z c cells Hin Hc Hb _ IH];
      intros cells2 H2; inversion H2 as [? ? ? Hs2|? ? ? c2 cells2' Hin2 Hc2 Hb2 Hr2]; subst.
    - done.
    - destruct Hs as [Hs|(c' & Hc' & Hb')]; congruence.
    - destruct Hs2 as [Hs2|(c' & Hc' & Hb')]; congruence.
    - f_equal; [congruence | by apply IH].
  Qed.

  (** The cells of a run, by index. *)
Lemma Run_lookup x y z cells :
    Run g dx dy dz x y z cells →
    (∀ (i : nat) c, cells !! i = Some c →
       cell g (x + Z.of_nat i * dx) (y + Z.of_nat i * dy) (z + Z.of_nat i * dz) = Some c
       ∧ block c = false) ∧
    stopAt g (x + Z.of_nat (length cells) * dx) (y + Z.of_nat (length cells) * dy)
             (z + Z.of_nat (length cells) * dz).
  Proof.
    induction 1 as [x y z Hs|x y z c cells Hin Hc Hb _ [IH1 IH2]].
    - split; [by intros i c [=]|]. simpl length.
      by replace (x + Z.of_nat 0 * dx) with x by lia;
         replace (y + Z.of_nat 0 * dy) with y by lia;
         replace (z + Z.of_nat 0 * dz) with z by lia.
    - split.
      + intros [|i] c'; simpl.
        * intros [= <-].
          by replace (x + Z.of_nat 0 * dx) with x by lia;
             replace (y + Z.of_nat 0 * dy) with y by lia;
             replace (z + Z.of_nat 0 * dz) with z by lia.
        * intros Hi. destruct (IH1 i c' Hi) as [Hc' Hb']. split; [|done].
          by replace (x + Z.of_nat (S i) * dx) with (x + dx + Z.of_nat i * dx) by lia;
             replace (y + Z.of_nat (S i) * dy) with (y + dy + Z.of_nat i * dy) by lia;
             replace (z + Z.of_nat (S i) * dz) with (z + dz + Z.of_nat i * dz) by lia.
      + simpl length.
        by replace (x + Z.of_nat (S (length cells)) * dx)
             with (x + dx + Z.of_nat (length cells) * dx) by lia;
           replace (y + Z.of_nat (S (length cells)) * dy)
             with (y + dy + Z.of_nat (length cells) * dy) by lia;
           replace (z + Z.of_nat (S (length cells)) * dz)
             with (z + dz + Z.of_nat (length cells) * dz) by lia.
  Qed.

Lemma wordLenLoop_Run fuel x y z len r :
    wordLenLoop fuel g x y z dx dy dz len = Some r →
    ∃ cells, Run g dx dy dz x y z cells ∧ r = len + Z.of_nat (length cells).
  Proof.
    revert x y z len. induction fuel as [|fuel IH]; intros x y z len; simpl; [done|].
    destruct (inBounds g x y z) eqn:Hin.
    - destruct (cell g x y z) as [ce|] eqn:Hce; simpl; [|done].
      destruct (block ce) eqn:Hb.
      + intros [= <-]. exists []. split; [|simpl; lia].
        apply Run_stop. right. eauto.
      + intros (cells & Hrun & ->)%IH. exists (ce :: cells). split.
        * by apply Run_step.
        * simpl length. lia.
    - intros [= <-]. exists []. split; [|simpl; lia]. apply Run_stop. by left.
  Qed.

Lemma readWordLoop_Run fuel x y z s r :
    readWordLoop fuel g x y z dx dy dz s = Some r →
    ∃ cells, Run g dx dy dz x y z cells ∧ r = s +:+ concatLetters cells.
  Proof.
    revert x y z s. induction fuel as [|fuel IH]; intros x y z s; simpl; [done|].
    destruct (inBounds g x y z) eqn:Hin.
    - destruct (cell g x y z) as [ce|] eqn:Hce; simpl; [|done].
      destruct (block ce) eqn:Hb.
      + intros [= <-]. exists []. split; [|by rewrite string_app_nil_r].
        apply Run_stop. right. eauto.
      + intros (cells & Hrun & ->)%IH. exists (ce :: cells). split.
        * by apply Run_step.
        * simpl. by rewrite string_app_assoc.
    - intros [= <-]. exists []. split; [|by rewrite string_app_nil_r].
      apply Run_stop. by left.
  Qed.

Hypothesis Hwf : wfGrid g.
Hypothesis Hunit : unitStep dx dy dz.

Lemma toEdge_step x y z :
    inBounds g x y z = true → 0 ≤ toEdge g (x + dx) (y + dy) (z + dz) < toEdge g x y z.
  Proof.
    intros Hin. unfold toEdge. rewrite Hin.
    destruct (inBounds g (x + dx) (y + dy) (z + dz)) eqn:Hin'.
    - apply inBounds_spec in Hin'. unfold unitStep in Hunit. lia.
    - apply inBounds_spec in Hin. lia.
  Qed.

Lemma toEdge_fuel x y z : (Z.to_nat (toEdge g x y z) < walkFuel g)%nat.
  Proof.
    unfold toEdge, walkFuel. destruct (inBounds g x y z) eqn:Hin; [|lia].
    apply inBounds_spec in Hin. lia.
  Qed.

Lemma wordLenLoop_total fuel x y z len :
    (Z.to_nat (toEdge g x y z) < fuel)%nat →
    is_Some (wordLenLoop fuel g x y z dx dy dz len).
  Proof.
    revert x y z len. induction fuel as [|fuel IH]; intros x y z len Hf; [lia|].
    simpl. destruct (inBounds g x y z) eqn:Hin; [|eauto].
    destruct (proj2 (cell_is_Some g x y z Hwf) Hin) as [ce ->]. simpl.
    destruct (block ce); [eauto|]. apply IH.
    pose proof (toEdge_step x y z Hin). lia.
  Qed.

Lemma readWordLoop_total fuel x y z s :
    (Z.to_nat (toEdge g x y z) < fuel)%nat →
    is_Some (readWordLoop fuel g x y z dx dy dz s).
  Proof.
    revert x y z s. induction fuel as [|fuel IH]; intros x y z s Hf; [lia|].
    simpl. destruct (inBounds g x y z) eqn:Hin; [|eauto].
    destruct (proj2 (cell_is_Some g x y z Hwf) Hin) as [ce ->]. simpl.
    destruct (block ce); [eauto|]. apply IH.
    pose proof (toEdge_step x y z Hin). lia.
  Qed.

  (** [wordLen] returns the number of cells of the run. *)
Lemma wordLen_spec x y z :
    ∃ cells, Run g dx dy dz x y z cells ∧
             wordLen g x y z dx dy dz = Some (Z.of_nat (length cells)).
  Proof.
    destruct (wordLenLoop_total (walkFuel g) x y z 0 (toEdge_fuel x y z)) as [r Hr].
    destruct (wordLenLoop_Run _ _ _ _ _ _ Hr) as (cells & Hrun & ->).
    exists cells. split; [done|]. unfold wordLen. by rewrite Hr.
  Qed.

  (** [readWordFromSolution] returns the letters of the run. *)
Lemma readWordFromSolution_spec start :
    ∃ cells, Run g dx dy dz (cx start) (cy start) (cz start) cells ∧
             readWordFromSolution g start dx dy dz = Some (concatLetters cells).
  Proof.
    destruct (readWordLoop_total (walkFuel g) (cx start) (cy start) (cz start) ""
                (toEdge_fuel _ _ _)) as [r Hr].
    destruct (readWordLoop_Run _ _ _ _ _ _ Hr) as (cells & Hrun & ->).
    exists cells. split; [done|]. unfold readWordFromSolution. by rewrite Hr.
  Qed.

End Walk.

(** ** Building the grid, marking the blocks *)

Lemma newArray_const {A} (n : Z) (fill : Z → option A) (a : A) :
  (∀ i, fill i = Some a) → 0 ≤ n < 2 ^ 32 →
  newArray n fill = Some (replicate (Z.to_nat n) a).
Proof.
  intros Hfill Hn. unfold newArray. rewrite decide_True by lia.
  rewrite <- (length_seqZ 0 n). generalize (seqZ 0 n) as l.
  induction l as [|i l IH]; [done|]. simpl. by rewrite Hfill, IH.
Qed.

Lemma buildWorld_Some nx ny nz :
  0 ≤ nx < 2 ^ 32 → 0 ≤ ny < 2 ^ 32 → 0 ≤ nz < 2 ^ 32 →
  buildWorld nx ny nz =
    Some (mkGrid nx ny nz
            (replicate (Z.to_nat nz) (replicate (Z.to_nat ny)
               (replicate (Z.to_nat nx) emptyCell)))).
Proof.
  intros Hx Hy Hz. unfold buildWorld.
  rewrite (newArray_const nz _
             (replicate (Z.to_nat ny) (replicate (Z.to_nat nx) emptyCell))); [done| |done].
  intros _. apply newArray_const; [|done].
  intros _. by apply newArray_const.
Qed.

Lemma buildWorld_spec nx ny nz :
  0 ≤ nx < 2 ^ 32 → 0 ≤ ny < 2 ^ 32 → 0 ≤ nz < 2 ^ 32 →
  ∃ g, buildWorld nx ny nz = Some g ∧ wfGrid g ∧
       NX g = nx ∧ NY g = ny ∧ NZ g = nz ∧
       ∀ x y z c, cell g x y z = Some c → c = emptyCell.
Proof.
  intros Hx Hy Hz. eexists. split; [by apply buildWorld_Some|].
  split_and!; try done.
  - split; simpl.
    + by rewrite length_replicate.
    + apply Forall_replicate. split; [by rewrite length_replicate|].
      apply Forall_replicate. by rewrite length_replicate.
  - intros x y z c. unfold cell. simpl. intros Hc.
    destruct (idx _ z) as [plane|] eqn:Ez; simpl in Hc; [|done].
    destruct (idx plane y) as [row|] eqn:Ey; simpl in Hc; [|done].
    apply idx_Some in Ez as [_ [-> _]%lookup_replicate].
    apply idx_Some in Ey as [_ [-> _]%lookup_replicate].
    by apply idx_Some in Hc as [_ [-> _]%lookup_replicate].
Qed.

(** A loop that establishes, element by element, a property of the part of
    the list already visited. *)
Lemma forEach_prefix {S A} (P : list A → S → Prop) (body : S → A → option S) l s :
  P [] s →
  (∀ done a rest s, l = done ++ a :: rest → P done s →
     ∃ s', body s a = Some s' ∧ P (done ++ [a]) s') →
  ∃ s', forEach body l s = Some s' ∧ P l s'.
Proof.
  intros Hs Hbody.
  enough (∀ done rest s, l = done ++ rest → P done s →
            ∃ s', forEach body rest s = Some s' ∧ P (done ++ rest) s')
    as H by exact (H [] l s eq_refl Hs).
  intros done rest. revert done.
  induction rest as [|a rest IH]; intros done s0 Hl H0; simpl.
  - rewrite app_nil_r. eauto.
  - destruct (Hbody done a rest s0 Hl H0) as (s1 & -> & H1). simpl.
    destruct (IH (done ++ [a]) s1) as (s2 & -> & H2); [by rewrite <- app_assoc | done |].
    exists s2. by rewrite <- app_assoc in H2.
Qed.

Lemma elem_of_scanOrder g p :
  p ∈ scanOrder g ↔ inBounds g (cx p) (cy p) (cz p) = true.
Proof.
  unfold scanOrder. rewrite inBounds_spec. destruct p as [x y z]. simpl.
  rewrite list_elem_of_bind. setoid_rewrite list_elem_of_bind.
  setoid_rewrite list_elem_of_bind. setoid_rewrite elem_of_seqZ.
  setoid_rewrite list_elem_of_singleton. split.
  - intros (z' & (y' & (x' & [= -> -> ->] & ?) & ?) & ?). lia.
  - intros (? & ? & ?). exists z. split; [|lia]. exists y. split; [|lia].
    exists x. split; [done | lia].
Qed.

Lemma markBlocks_spec g0 bs :
  wfGrid g0 →
  (∀ x y z c, cell g0 x y z = Some c → c = emptyCell) →
  ∃ g, forEach markBlock bs g0 = Some g ∧ wfGrid g ∧ sameDims g0 g ∧
    ∀ x y z c, cell g x y z = Some c →
      (block c = true ↔ mkCoord x y z ∈ bs) ∧ ch c = "" ∧
      sol c = "" ∧ numR c = 0 ∧ numD c = 0 ∧ numI c = 0.
Proof.
  intros Hwf Hempty.
  apply (forEach_prefix (λ done g, wfGrid g ∧ sameDims g0 g ∧
    ∀ x y z c, cell g x y z = Some c →
      (block c = true ↔ mkCoord x y z ∈ done) ∧ ch c = "" ∧
      sol c = "" ∧ numR c = 0 ∧ numD c = 0 ∧ numI c = 0)).
  - split_and!; [done | apply sameDims_refl |].
    intros x y z c ->%Hempty. split_and!; try done.
    split; [done | by intros ?%elem_of_nil].
  - intros done b rest g _ (Hg & Hd & Hcells). unfold markBlock.
    destruct (inBounds g (cx b) (cy b) (cz b)) eqn:Hin.
    + destruct (updCell_total (set_block true) g _ _ _ Hg Hin)
        as (g' & ce & -> & Hce & Hg' & Hd' & Hupd).
      exists g'. split_and!; [done.. | by eapply sameDims_trans |].
      intros x y z c. rewrite Hupd. case_decide as Heq.
      * destruct Heq as (-> & -> & ->). intros [= <-].
        destruct (Hcells _ _ _ _ Hce) as (_ & ? & ? & ? & ? & ?).
        split_and!; try done. simpl. split; [|done].
        intros _. apply elem_of_app. right. destruct b. by left.
      * intros Hc. destruct (Hcells _ _ _ _ Hc) as (Hb & ? & ? & ? & ? & ?).
        split_and!; try done. rewrite Hb, elem_of_app, list_elem_of_singleton.
        split; [by left|]. intros [?|Hb']; [done|]. subst b. simpl in Heq. lia.
    + exists g. split_and!; try done.
      intros x y z c Hc. destruct (Hcells _ _ _ _ Hc) as (Hb & ? & ? & ? & ? & ?).
      split_and!; try done. rewrite Hb, elem_of_app, list_elem_of_singleton.
      split; [by left|]. intros [?|Hb']; [done|]. subst b. simpl in Hin.
      apply cell_inBounds in Hc; [congruence | done].
Qed.

Lemma LoadInv_updCell js f g x y z g' ce :
  LoadInv js g → updCell f g x y z = Some g' → cell g x y z = Some ce →
  block (f ce) = block ce → ch (f ce) = ch ce →
  (block ce = true → sol (f ce) = "") →
  LoadInv js g'.
Proof.
  intros (Hwf & Hx & Hy & Hz & Hcells) Hupd Hce Hb Hch Hsol.
  destruct (updCell_cell _ _ _ _ _ _ Hupd) as (ce' & Hce' & (Hx' & Hy' & Hz') & Hnew).
  assert (ce' = ce) as -> by congruence.
  split_and!; [by eapply updCell_wf | congruence.. |].
  intros x' y' z' c. rewrite Hnew. case_decide as Heq.
  - destruct Heq as (-> & -> & ->). intros [= <-].
    destruct (Hcells _ _ _ _ Hce) as (? & ? & ?).
    rewrite Hb, Hch. split_and!; [done | done |]. intros Hbl. by apply Hsol.
  - apply Hcells.
Qed.

Lemma clearNumbers_spec js g :
  FreshGrid js g → ∃ g', clearNumbers g = Some g' ∧ FreshGrid js g'.
Proof.
  intros Hfresh. unfold clearNumbers.
  destruct (forEach_total (λ g1, FreshGrid js g1 ∧ sameDims g g1)
              (λ g p, updCell clear_nums g (cx p) (cy p) (cz p)) (scanOrder g) g)
    as (g' & Hg' & Hf' & _); [split; [done | apply sameDims_refl] | | by eauto].
  intros g1 p Hp%elem_of_scanOrder [[Hinv Hzero] Hd].
  rewrite <- (inBounds_sameDims g g1) in Hp by done.
  destruct (updCell_total clear_nums g1 _ _ _ (proj1 Hinv) Hp)
    as (g2 & ce & Hupd & Hce & Hwf2 & Hd2 & Hnew).
  exists g2. split; [done|]. split; [split|by eapply sameDims_trans].
  - eapply (LoadInv_updCell js clear_nums g1 _ _ _ g2 ce); try done.
    intros Hb. by apply (Hzero _ _ _ _ Hce).
  - intros x y z c. rewrite Hnew. case_decide as Heq.
    + intros [= <-]. simpl. split_and!; try done. by apply (Hzero _ _ _ _ Hce).
    + apply Hzero.
Qed.

(** The common prefix of both formats: build, mark the blocks, clear the
    numbers. *)
Lemma load_prefix js :
  0 ≤ p_nx js < 2 ^ 32 → 0 ≤ p_ny js < 2 ^ 32 → 0 ≤ p_nz js < 2 ^ 32 →
  ∃ g, (g ← buildWorld (p_nx js) (p_ny js) (p_nz js);
        g ← forEach markBlock (p_blocks js) g; clearNumbers g) = Some g ∧
       FreshGrid js g.
Proof.
  intros Hx Hy Hz.
  destruct (buildWorld_spec _ _ _ Hx Hy Hz) as (g0 & -> & Hwf0 & Hx0 & Hy0 & Hz0 & Hc0).
  simpl.
  destruct (markBlocks_spec g0 (p_blocks js) Hwf0 Hc0) as (g1 & -> & Hwf1 & (?&?&?) & Hc1).
  simpl. apply clearNumbers_spec. split.
  - split_and!; [done | congruence.. |].
    intros x y z c Hc. destruct (Hc1 _ _ _ _ Hc) as (? & ? & ? & _). done.
  - intros x y z c Hc. destruct (Hc1 _ _ _ _ Hc) as (? & ? & ? & ? & ? & ?). done.
Qed.

(** ** Format A, step 1: writing the words *)

Lemma set_sol_set_sol s s' c : set_sol s (set_sol s' c) = set_sol s c.
Proof. done. Qed.

(** One round of the inner loop on an open cell of the grid. *)
Lemma placeLetters_step w dx dy dz b rest x y z st ce :
  wfGrid (grid st) → cell (grid st) x y z = Some ce → block ce = false →
  ∃ g', updCell (set_sol (String b "")) (grid st) x y z = Some g' ∧
    wfGrid g' ∧ sameDims (grid st) g' ∧
    (∀ x' y' z', cell g' x' y' z' =
       if decide (x' = x ∧ y' = y ∧ z' = z) then Some (set_sol (String b "") ce)
       else cell (grid st) x' y' z') ∧
    placeLetters w dx dy dz (String b rest) x y z st =
      placeLetters w dx dy dz rest (x + dx) (y + dy) (z + dz)
        (mkState g' (clues st)
           (console st ++
              if truthy (sol ce) && negb (String.eqb (sol ce) (String b ""))
              then [CrossingConflict w (mkCoord x y z) (sol ce) (String b "")]
              else [])).
Proof.
  intros Hwf Hce Hb.
  assert (inBounds (grid st) x y z = true) as Hin by by eapply cell_inBounds.
  destruct (updCell_total (set_sol (String b "")) _ _ _ _ Hwf Hin)
    as (g' & ce' & Hupd & Hce' & Hwf' & Hd & Hnew).
  assert (ce' = ce) as -> by congruence.
  exists g'. split_and!; try done.
  simpl. rewrite Hin. simpl. rewrite Hce. simpl. rewrite Hb.
  destruct (truthy (sol ce) && negb (String.eqb (sol ce) (String b ""))); simpl.
  - rewrite Hupd. simpl. done.
  - rewrite Hupd. simpl. unfold withGrid. by rewrite app_nil_r.
Qed.

Lemma placeLetters_cells w dx dy dz ans x y z st :
  wfGrid (grid st) →
  ∃ st', placeLetters w dx dy dz ans x y z st = Some st' ∧
    clues st' = clues st ∧ wfGrid (grid st') ∧ sameDims (grid st) (grid st') ∧
    (∃ evs, console st' = console st ++ evs ∧ Forall (λ e, isError e = true) evs) ∧
    ∀ x' y' z' c, cell (grid st) x' y' z' = Some c →
      ∃ c', cell (grid st') x' y' z' = Some c' ∧
        (c' = c ∨
         (block c = false ∧ onRun x y z dx dy dz (String.length ans) x' y' z' ∧
          ∃ s, c' = set_sol s c)).
Proof.
  revert x y z st. induction ans as [|b rest IH]; intros x y z st Hwf.
  - exists st. split_and!; [done | done | done | apply sameDims_refl | | by eauto].
    exists []. by rewrite app_nil_r.
  - destruct (inBounds (grid st) x y z) eqn:Hin.
    + destruct (proj2 (cell_is_Some _ x y z Hwf) Hin) as [ce Hce].
      destruct (block ce) eqn:Hb.
      * exists (logEv (WordHitsBlock w (mkCoord x y z)) st).
        simpl. rewrite Hin, Hce. simpl. rewrite Hb.
        split_and!; [done | done | done | apply sameDims_refl | | by eauto].
        exists [WordHitsBlock w (mkCoord x y z)]. split; [done|]. by repeat constructor.
      * destruct (placeLetters_step w dx dy dz b rest x y z st ce Hwf Hce Hb)
          as (g' & _ & Hwf' & Hd & Hnew & ->).
        set (st1 := mkState g' _ _).
        destruct (IH (x + dx) (y + dy) (z + dz) st1 Hwf')
          as (st' & Hst' & Hcl & Hwf'' & Hd' & (evs & Hevs & Herr) & Hcells).
        exists st'. split_and!; [done | done | done | by eapply sameDims_trans | |].
        -- eexists. rewrite Hevs. simpl. rewrite <- app_assoc. split; [done|].
           apply Forall_app. split; [|done].
           destruct (_ && _); by repeat constructor.
        -- intros x' y' z' c Hc.
           pose proof (Hnew x' y' z') as Hc1. rewrite Hc in Hc1.
           case_decide as Heq.
           ++ destruct Heq as (-> & -> & ->). assert (c = ce) as -> by congruence.
              destruct (Hcells _ _ _ _ Hc1) as (c' & Hc' & Hrel).
              exists c'. split; [done|]. right. split; [done|]. split.
              { exists 0%nat. simpl. split; [lia|]. lia. }
              destruct Hrel as [->|(_ & _ & s & ->)]; eauto.
           ++ destruct (Hcells _ _ _ _ Hc1) as (c' & Hc' & Hrel).
              exists c'. split; [done|].
              destruct Hrel as [->|(? & (j & Hj & -> & -> & ->) & s & ->)]; [by left|].
              right. split; [done|]. split; [|by eauto].
              exists (S j). simpl. split; [lia|]. lia.
    + exists (logEv (WordOutOfBounds w (mkCoord x y z)) st).
      simpl. rewrite Hin. simpl.
      split_and!; [done | done | done | apply sameDims_refl | | by eauto].
      exists [WordOutOfBounds w (mkCoord x y z)]. split; [done|]. by repeat constructor.
Qed.

(** ** Cell-wise changes of the grid *)

Section Cellwise.
Variable Rc : Coord → Cell → Cell → Prop.
Hypothesis Rc_refl : ∀ p c, Rc p c c.
Hypothesis Rc_trans : ∀ p c1 c2 c3, Rc p c1 c2 → Rc p c2 c3 → Rc p c1 c3.

Lemma cellwise_refl g : wfGrid g → cellwise Rc g g.
  Proof. intros Hwf. split_and!; [done | apply sameDims_refl | eauto]. Qed.

Lemma cellwise_trans g1 g2 g3 :
    cellwise Rc g1 g2 → cellwise Rc g2 g3 → cellwise Rc g1 g3.
  Proof.
    intros (_ & Hd12 & H12) (Hwf3 & Hd23 & H23).
    split_and!; [done | by eapply sameDims_trans |].
    intros x y z c (c2 & Hc2 & HR2)%H12. destruct (H23 _ _ _ _ Hc2) as (c3 & Hc3 & HR3).
    eauto.
  Qed.

Lemma cellwise_updCell f g x y z g' :
    wfGrid g → updCell f g x y z = Some g' →
    (∀ ce, cell g x y z = Some ce → Rc (mkCoord x y z) ce (f ce)) →
    cellwise Rc g g'.
  Proof.
    intros Hwf Hupd Hf.
    destruct (updCell_cell _ _ _ _ _ _ Hupd) as (ce & Hce & Hd & Hnew).
    split_and!; [by eapply updCell_wf | done |].
    intros x' y' z' c Hc. rewrite Hnew. case_decide as Heq.
    - destruct Heq as (-> & -> & ->). assert (c = ce) as -> by congruence. eauto.
    - eauto.
  Qed.

  (** A loop all of whose rounds change the grid cell-wise. *)
Lemma cellwise_forEach {A} (body : Grid → A → option Grid) (l : list A) g :
    wfGrid g →
    (∀ g1 a, a ∈ l → wfGrid g1 → sameDims g g1 →
             ∃ g2, body g1 a = Some g2 ∧ cellwise Rc g1 g2) →
    ∃ g', forEach body l g = Some g' ∧ cellwise Rc g g'.
  Proof.
    intros Hwf Hbody.
    apply (forEach_total (λ g1, cellwise Rc g g1)); [by apply cellwise_refl|].
    intros g1 a Ha Hg1.
    destruct (Hbody g1 a Ha) as (g2 & Hg2 & Hstep); [apply Hg1.. |].
    exists g2. split; [done|]. by eapply cellwise_trans.
  Qed.
End Cellwise.

Lemma cellwise_impl (R1 R2 : Coord → Cell → Cell → Prop) g g' :
  (∀ p c c', R1 p c c' → R2 p c c') → cellwise R1 g g' → cellwise R2 g g'.
Proof.
  intros HR (Hwf & Hd & Hc). split_and!; [done..|].
  intros x y z c (c' & ? & ?)%Hc. eauto.
Qed.

(** The cells of the later grid come from cells of the earlier one. *)
Lemma cellwise_inv Rc g g' x y z c' :
  wfGrid g → cellwise Rc g g' → cell g' x y z = Some c' →
  ∃ c, cell g x y z = Some c ∧ Rc (mkCoord x y z) c c'.
Proof.
  intros Hwf (Hwf' & Hd & Hc) Hc'.
  assert (inBounds g x y z = true) as Hin.
  { rewrite <- (inBounds_sameDims g g') by done. by eapply cell_inBounds. }
  destruct (proj2 (cell_is_Some g x y z Hwf) Hin) as [c Hcell].
  destruct (Hc _ _ _ _ Hcell) as (c'' & Hc'' & HR).
  exists c. split; [done|]. congruence.
Qed.

Lemma solRel_refl p c : solRel p c c.
Proof. by left. Qed.

Lemma solRel_trans p c1 c2 c3 : solRel p c1 c2 → solRel p c2 c3 → solRel p c1 c3.
Proof.
  intros [->|(Hb & s & ->)] [->|(Hb' & s' & ->)]; unfold solRel; eauto.
Qed.

Lemma numRel_refl cl p c : numRel cl p c c.
Proof. split_and!; [done..|]. by left. Qed.

Lemma numRel_trans cl p c1 c2 c3 :
  numRel cl p c1 c2 → numRel cl p c2 c3 → numRel cl p c1 c3.
Proof.
  intros (Hb & Hc & Hs & Hn) (Hb' & Hc' & Hs' & Hn').
  split_and!; [congruence..|].
  intros d. destruct (Hn' d) as [E|?]; [|by right].
  rewrite E. apply Hn.
Qed.

Lemma LoadInv_solRel js g g' :
  LoadInv js g → cellwise solRel g g' → LoadInv js g'.
Proof.
  intros (Hwf & Hx & Hy & Hz & Hcells) Hstep.
  pose proof Hstep as (Hwf' & (Hx' & Hy' & Hz') & _).
  split_and!; [done | congruence.. |].
  intros x y z c' Hc'.
  destruct (cellwise_inv _ _ _ _ _ _ _ Hwf Hstep Hc') as (c & Hc & Hrel).
  destruct (Hcells _ _ _ _ Hc) as (Hb & Hch & Hsol).
  destruct Hrel as [->|(Hopen & s & ->)]; [done|].
  simpl. split_and!; [done | done | congruence].
Qed.

Lemma LoadInv_numRel js cl g g' :
  LoadInv js g → cellwise (numRel cl) g g' → LoadInv js g'.
Proof.
  intros (Hwf & Hx & Hy & Hz & Hcells) Hstep.
  pose proof Hstep as (Hwf' & (Hx' & Hy' & Hz') & _).
  split_and!; [done | congruence.. |].
  intros x y z c' Hc'.
  destruct (cellwise_inv _ _ _ _ _ _ _ Hwf Hstep Hc') as (c & Hc & Hb' & Hch' & Hsol' & _).
  destruct (Hcells _ _ _ _ Hc) as (Hb & Hch & Hsol).
  rewrite Hb', Hch', Hsol'. done.
Qed.

Lemma unitStep_dir d : unitStep (stepX d) (stepY d) (stepZ d).
Proof. unfold unitStep. destruct d; compute; auto. Qed.

Lemma placeWords_spec ws st :
  wfGrid (grid st) →
  ∃ st', forEach placeWord ws st = Some st' ∧ clues st' = clues st ∧
    cellwise solRel (grid st) (grid st') ∧
    ∃ evs, console st' = console st ++ evs ∧ Forall (λ e, isError e = true) evs.
Proof.
  intros Hwf.
  apply (forEach_total (λ st', clues st' = clues st ∧
           cellwise solRel (grid st) (grid st') ∧
           ∃ evs, console st' = console st ++ evs ∧ Forall (λ e, isError e = true) evs)).
  - split_and!; [done | by apply cellwise_refl; [apply solRel_refl|] |].
    exists []. by rewrite app_nil_r.
  - intros st1 w _ (Hcl & Hstep & evs & Hevs & Herr). unfold placeWord.
    destruct (placeLetters_cells w
                (if decide (w_dir w = dirR) then 1 else 0)
                (if decide (w_dir w = dirD) then 1 else 0)
                (if decide (w_dir w = dirI) then 1 else 0)
                (toUpperCase (w_answer w))
                (cx (w_start w)) (cy (w_start w)) (cz (w_start w)) st1)
      as (st2 & -> & Hcl2 & Hwf2 & Hd2 & (evs2 & Hevs2 & Herr2) & Hcells); [apply Hstep|].
    exists st2. split; [done|]. split_and!; [congruence | |].
    + eapply cellwise_trans; [apply solRel_trans | done |].
      split_and!; [done..|].
      intros x y z c (c' & Hc' & Hrel)%Hcells. exists c'. split; [done|].
      destruct Hrel as [->|(? & _ & ?)]; [by left | by right].
    + exists (evs ++ evs2). rewrite Hevs2, Hevs, app_assoc. split; [done|].
      by apply Forall_app.
Qed.

Lemma writeSolutions_spec sols g :
  wfGrid g → ∃ g', forEach writeSolution sols g = Some g' ∧ cellwise solRel g g'.
Proof.
  intros Hwf. apply cellwise_forEach; [apply solRel_refl | apply solRel_trans | done |].
  intros g1 s _ Hwf1 _. unfold writeSolution.
  destruct (inBounds g1 (s_x s) (s_y s) (s_z s)) eqn:Hin; simpl.
  - destruct (proj2 (cell_is_Some _ _ _ _ Hwf1) Hin) as [ce Hce]. rewrite Hce. simpl.
    destruct (block ce) eqn:Hb; simpl.
    + exists g1. split; [done|]. by apply cellwise_refl; [apply solRel_refl|].
    + destruct (updCell_Some (set_sol (s_ch s)) _ _ _ _ _ Hce) as [g2 Hg2].
      exists g2. split; [done|].
      eapply cellwise_updCell; [apply solRel_refl | done | done |].
      intros ce' Hce'. assert (ce' = ce) as -> by congruence. right. eauto.
  - exists g1. split; [done|]. by apply cellwise_refl; [apply solRel_refl|].
Qed.

Lemma setNums_spec cl d g :
  wfGrid g →
  ∃ g', forEach (setNum d) (cluesOf d cl) g = Some g' ∧ cellwise (numRel cl) g g'.
Proof.
  intros Hwf.
  apply cellwise_forEach; [apply numRel_refl | apply numRel_trans | done |].
  intros g1 k Hk Hwf1 _. unfold setNum.
  destruct (inBounds g1 _ _ _) eqn:Hin; simpl.
  - destruct (proj2 (cell_is_Some _ _ _ _ Hwf1) Hin) as [ce Hce].
    destruct (updCell_Some (set_num d (c_n k)) _ _ _ _ _ Hce) as [g2 Hg2].
    exists g2. split; [done|].
    eapply cellwise_updCell; [apply numRel_refl | done | done |].
    intros ce' _. split_and!; [by destruct d.. |].
    intros d'. destruct (decide (d' = d)) as [->|Hne].
    + right. exists k. split; [done|]. split; [by destruct (c_start k)|].
      by destruct d.
    + left. by destruct d, d'.
  - exists g1. split; [done|]. by apply cellwise_refl; [apply numRel_refl|].
Qed.

Lemma applyNumbers_spec st :
  wfGrid (grid st) →
  ∃ st', applyNumbers st = Some st' ∧ clues st' = clues st ∧
    console st' = console st ∧ cellwise (numRel (clues st)) (grid st) (grid st').
Proof.
  intros Hwf. unfold applyNumbers.
  destruct (setNums_spec (clues st) dirR (grid st) Hwf) as (g1 & Hg1 & H1).
  destruct (setNums_spec (clues st) dirD g1 (proj1 H1)) as (g2 & Hg2 & H2).
  destruct (setNums_spec (clues st) dirI g2 (proj1 H2)) as (g3 & Hg3 & H3).
  simpl in Hg1, Hg2, Hg3. rewrite Hg1. simpl. rewrite Hg2. simpl. rewrite Hg3. simpl.
  eexists. split; [done|]. split_and!; [done..|]. simpl.
  eapply cellwise_trans; [apply numRel_trans | | done].
  eapply cellwise_trans; [apply numRel_trans | done | done].
Qed.

Lemma attach1_spec g d c :
  wfGrid g →
  ∃ c', attach1 g (stepX d) (stepY d) (stepZ d) c = Some c' ∧ bound g d c c'.
Proof.
  intros Hwf.
  destruct (readWordFromSolution_spec g _ _ _ Hwf (unitStep_dir d) (c_start c))
    as (cells & Hrun & Hread).
  exists (set_answer (Some (concatLetters cells)) c). split.
  - unfold attach1. by rewrite Hread.
  - by exists cells.
Qed.

Lemma attach_list_spec g d l :
  wfGrid g →
  ∃ l', mapM (attach1 g (stepX d) (stepY d) (stepZ d)) l = Some l' ∧
        Forall2 (bound g d) l l'.
Proof.
  intros Hwf.
  enough (∃ l', Forall2 (λ c c', attach1 g (stepX d) (stepY d) (stepZ d) c = Some c') l l'
                ∧ Forall2 (bound g d) l l') as (l' & H1 & H2).
  { exists l'. split; [by apply mapM_Some | done]. }
  induction l as [|c l (l' & IH1 & IH2)]; [by exists []|].
  destruct (attach1_spec g d c Hwf) as (c' & Hc' & Hb).
  exists (c' :: l'). split; by constructor.
Qed.

Lemma attachAnswersToClues_spec st :
  wfGrid (grid st) →
  ∃ st', attachAnswersToClues st = Some st' ∧
    grid st' = grid st ∧ console st' = console st ∧
    ∀ d, Forall2 (bound (grid st) d) (cluesOf d (clues st)) (cluesOf d (clues st')).
Proof.
  intros Hwf. unfold attachAnswersToClues.
  destruct (attach_list_spec (grid st) dirR (clR (clues st)) Hwf) as (r & Hr & HR).
  destruct (attach_list_spec (grid st) dirD (clD (clues st)) Hwf) as (d & Hd & HD).
  destruct (attach_list_spec (grid st) dirI (clI (clues st)) Hwf) as (i & Hi & HI).
  change (stepX dirR) with 1 in Hr. change (stepY dirR) with 0 in Hr.
  change (stepZ dirR) with 0 in Hr. change (stepX dirD) with 0 in Hd.
  change (stepY dirD) with 1 in Hd. change (stepZ dirD) with 0 in Hd.
  change (stepX dirI) with 0 in Hi. change (stepY dirI) with 0 in Hi.
  change (stepZ dirI) with 1 in Hi.
  rewrite Hr. simpl. rewrite Hd. simpl. rewrite Hi. simpl.
  eexists. split; [done|]. split_and!; [done..|]. by intros [].
Qed.

(** ** The clue extractor *)

Lemma cell_None g x y z : wfGrid g → inBounds g x y z = false → cell g x y z = None.
Proof.
  intros Hwf Hin. destruct (cell g x y z) as [c|] eqn:Hc; [|done].
  apply cell_inBounds in Hc; [congruence | done].
Qed.

(** The first conjunct of the test: [v === 0 || cell(before).block]. *)
Lemma before_test g (v : Z) px py pz :
  wfGrid g → (inBounds g px py pz = true ↔ v ≠ 0) →
  ∃ a, (if decide (v = 0) then Some true else block <$> cell g px py pz) = Some a ∧
       (a = true ↔ stopAt g px py pz).
Proof.
  intros Hwf Hin. unfold stopAt. destruct (decide (v = 0)) as [E|E].
  - exists true. split; [done|]. split; [|done]. intros _. left.
    destruct (inBounds g px py pz); [|done]. by destruct (proj1 Hin).
  - pose proof (proj2 Hin E) as Hin'.
    destruct (proj2 (cell_is_Some g _ _ _ Hwf) Hin') as [c Hc]. rewrite Hc. simpl.
    exists (block c). split; [done|]. split.
    + intros Hb. right. eauto.
    + intros [?|(c' & Hc' & Hb)]; congruence.
Qed.

(** The second conjunct: [v + 1 < N && !cell(after).block]. *)
Lemma after_test g (v N : Z) qx qy qz :
  wfGrid g → (inBounds g qx qy qz = true ↔ v + 1 < N) →
  ∃ b, (if decide (v + 1 < N) then (λ c, negb (block c)) <$> cell g qx qy qz
        else Some false) = Some b ∧
       (b = true ↔ openAt g qx qy qz).
Proof.
  intros Hwf Hin. unfold openAt. destruct (decide (v + 1 < N)) as [E|E].
  - pose proof (proj2 Hin E) as Hin'.
    destruct (proj2 (cell_is_Some g _ _ _ Hwf) Hin') as [c Hc]. rewrite Hc. simpl.
    exists (negb (block c)). split; [done|]. split.
    + intros Hb%negb_true_iff. eauto.
    + intros (c' & Hc' & Hb). assert (c' = c) as -> by congruence. by rewrite Hb.
  - exists false. split; [done|]. split; [done|]. intros (c & Hc & _).
    apply cell_inBounds in Hc; [|done]. by apply Hin in Hc.
Qed.

Lemma startsIn_spec d g x y z :
  wfGrid g → inBounds g x y z = true →
  ∃ b, startsIn d g x y z = Some b ∧
       (b = true ↔ stopAt g (x - stepX d) (y - stepY d) (z - stepZ d) ∧
                   openAt g (x + stepX d) (y + stepY d) (z + stepZ d)).
Proof.
  intros Hwf Hin%inBounds_spec.
  destruct d; unfold startsIn, startsR, startsD, startsI, stepX, stepY, stepZ; simpl;
    rewrite ?Z.sub_0_r, ?Z.add_0_r.
  - destruct (before_test g x (x - 1) y z Hwf) as (a & -> & Ha);
      [rewrite inBounds_spec; lia|].
    destruct (after_test g x (NX g) (x + 1) y z Hwf) as (b & Hb & Hb');
      [rewrite inBounds_spec; lia|].
    simpl. destruct a.
    + rewrite Hb. exists b. split; [done|]. rewrite Hb', <- Ha. naive_solver.
    + exists false. split; [done|]. rewrite <- Ha. naive_solver.
  - destruct (before_test g y x (y - 1) z Hwf) as (a & -> & Ha);
      [rewrite inBounds_spec; lia|].
    destruct (after_test g y (NY g) x (y + 1) z Hwf) as (b & Hb & Hb');
      [rewrite inBounds_spec; lia|].
    simpl. destruct a.
    + rewrite Hb. exists b. split; [done|]. rewrite Hb', <- Ha. naive_solver.
    + exists false. split; [done|]. rewrite <- Ha. naive_solver.
  - destruct (before_test g z x y (z - 1) Hwf) as (a & -> & Ha);
      [rewrite inBounds_spec; lia|].
    destruct (after_test g z (NZ g) x y (z + 1) Hwf) as (b & Hb & Hb');
      [rewrite inBounds_spec; lia|].
    simpl. destruct a.
    + rewrite Hb. exists b. split; [done|]. rewrite Hb', <- Ha. naive_solver.
    + exists false. split; [done|]. rewrite <- Ha. naive_solver.
Qed.

Lemma clueStep_spec g n cl p :
  wfGrid g → inBounds g (cx p) (cy p) (cz p) = true →
  (¬ openAt g (cx p) (cy p) (cz p) → clueStep g (n, cl) p = Some (n, cl)) ∧
  (openAt g (cx p) (cy p) (cz p) →
   ∃ (s : Dir → bool) (k : Dir → Clue),
     (∀ d, s d = true ↔ isStart g d (cx p) (cy p) (cz p)) ∧
     (∀ d, derivedClue g d (if s dirR || s dirD || s dirI then n + 1 else n) p (k d)) ∧
     clueStep g (n, cl) p =
       Some (if s dirR || s dirD || s dirI then n + 1 else n,
             mkClues (clR cl ++ if s dirR then [k dirR] else [])
                     (clD cl ++ if s dirD then [k dirD] else [])
                     (clI cl ++ if s dirI then [k dirI] else []))).
Proof.
  intros Hwf Hin. destruct p as [x y z]. simpl in *.
  destruct (proj2 (cell_is_Some g x y z Hwf) Hin) as [ce Hce].
  split.
  - intros Hno. unfold clueStep. rewrite Hce. simpl.
    destruct (block ce) eqn:Hb; [done|]. destruct Hno. by exists ce.
  - intros Hopen. destruct Hopen as (ce' & Hce' & Hb).
    assert (ce' = ce) as -> by congruence.
    destruct (startsIn_spec dirR g x y z Hwf Hin) as (sR & HsR & HR).
    destruct (startsIn_spec dirD g x y z Hwf Hin) as (sD & HsD & HD).
    destruct (startsIn_spec dirI g x y z Hwf Hin) as (sI & HsI & HI).
    destruct (wordLen_spec g _ _ _ Hwf (unitStep_dir dirR) x y z) as (cR & HrunR & HlenR).
    destruct (wordLen_spec g _ _ _ Hwf (unitStep_dir dirD) x y z) as (cD & HrunD & HlenD).
    destruct (wordLen_spec g _ _ _ Hwf (unitStep_dir dirI) x y z) as (cI & HrunI & HlenI).
    set (n' := if sR || sD || sI then n + 1 else n).
    exists (λ d, match d with dirR => sR | dirD => sD | dirI => sI end),
           (λ d, mkClue n' (Z.of_nat (length
                   match d with dirR => cR | dirD => cD | dirI => cI end))
                   (mkCoord x y z) (Some (defaultHint d)) None).
    split_and!.
    + intros d. unfold isStart.
      assert (openAt g x y z) as Ho by by exists ce.
      destruct d; [rewrite HR | rewrite HD | rewrite HI]; naive_solver.
    + intros d. fold n'. destruct d; eexists; (split; [eassumption | reflexivity]).
    + unfold clueStep. rewrite Hce. simpl. rewrite Hb.
      simpl in HsR, HsD, HsI. rewrite HsR. simpl. rewrite HsD. simpl. rewrite HsI. simpl.
      fold n'.
      change (stepX dirR) with 1 in HlenR. change (stepY dirR) with 0 in HlenR.
      change (stepZ dirR) with 0 in HlenR. change (stepX dirD) with 0 in HlenD.
      change (stepY dirD) with 1 in HlenD. change (stepZ dirD) with 0 in HlenD.
      change (stepX dirI) with 0 in HlenI. change (stepY dirI) with 0 in HlenI.
      change (stepZ dirI) with 1 in HlenI.
      rewrite HlenR, HlenD, HlenI.
      destruct sR, sD, sI; simpl; by rewrite ?app_nil_r.
Qed.

Lemma openAt_dec g x y z : openAt g x y z ∨ ¬ openAt g x y z.
Proof.
  unfold openAt. destruct (cell g x y z) as [c|]; [|right; naive_solver].
  destruct (block c) eqn:Hb; [right | left; eauto].
  intros (c' & [= ->] & ?). congruence.
Qed.

Lemma NoDup_scanOrder g : NoDup (scanOrder g).
Proof.
  unfold scanOrder.
  apply NoDup_bind; [| |apply NoDup_seqZ].
  { intros z1 z2 p _ _ (y1 & (x1 & ->%list_elem_of_singleton & _)%list_elem_of_bind & _)%list_elem_of_bind
      (y2 & (x2 & [= _ _ ->]%list_elem_of_singleton & _)%list_elem_of_bind & _)%list_elem_of_bind.
    done. }
  intros z _. apply NoDup_bind; [| |apply NoDup_seqZ].
  { intros y1 y2 p _ _ (x1 & ->%list_elem_of_singleton & _)%list_elem_of_bind
      (x2 & [= _ ->]%list_elem_of_singleton & _)%list_elem_of_bind.
    done. }
  intros y _. apply NoDup_bind; [| |apply NoDup_seqZ].
  { intros x1 x2 p _ _ ->%list_elem_of_singleton [= ->]%list_elem_of_singleton. done. }
  intros x _. apply NoDup_singleton.
Qed.

Lemma cluesOf_app d cl r dd i :
  cluesOf d (mkClues (clR cl ++ r) (clD cl ++ dd) (clI cl ++ i)) =
  cluesOf d cl ++ match d with dirR => r | dirD => dd | dirI => i end.
Proof. by destruct d. Qed.

Lemma isStart_inBounds g d x y z :
  wfGrid g → isStart g d x y z → inBounds g x y z = true.
Proof. intros Hwf ((c & Hc & _) & _). by eapply cell_inBounds. Qed.

Lemma extract_spec g :
  wfGrid g →
  ∃ r, forEach (clueStep g) (scanOrder g) (0, mkClues [] [] []) = Some r ∧
       Extracted g r.2.
Proof.
  intros Hwf.
  destruct (forEach_prefix (λ done (acc : Z * Clues),
      0 ≤ acc.1 ∧
      (∀ d c, c ∈ cluesOf d acc.2 →
         c_start c ∈ done ∧ 1 ≤ c_n c ≤ acc.1 ∧
         isStart g d (cx (c_start c)) (cy (c_start c)) (cz (c_start c)) ∧
         derivedClue g d (c_n c) (c_start c) c) ∧
      (∀ d p, p ∈ done → isStart g d (cx p) (cy p) (cz p) →
         ∃ c, c ∈ cluesOf d acc.2 ∧ c_start c = p) ∧
      (∀ d1 d2 c1 c2, c1 ∈ cluesOf d1 acc.2 → c2 ∈ cluesOf d2 acc.2 →
         (c_start c1 = c_start c2 ↔ c_n c1 = c_n c2)))
    (clueStep g) (scanOrder g) (0, mkClues [] [] [])) as (r & Hr & Hn & H1 & H2 & H3).
  - simpl. split_and!; [done | | |].
    + intros d c Hc. destruct d; by apply elem_of_nil in Hc.
    + intros d p Hp. by apply elem_of_nil in Hp.
    + intros d1 d2 c1 c2 Hc. destruct d1; by apply elem_of_nil in Hc.
  - intros done a rest [n cl] Hl (Hn & H1 & H2 & H3). simpl in Hn, H1, H2, H3.
    assert (a ∉ done) as Hfresh.
    { pose proof (NoDup_scanOrder g) as Hnd. rewrite Hl in Hnd.
      apply NoDup_app in Hnd as (_ & Hnd & _). intros Ha. apply (Hnd a Ha). by left. }
    assert (inBounds g (cx a) (cy a) (cz a) = true) as Hin.
    { apply elem_of_scanOrder. rewrite Hl. apply elem_of_app. right. by left. }
    destruct (clueStep_spec g n cl a Hwf Hin) as [Hclosed Hopen].
    destruct (openAt_dec g (cx a) (cy a) (cz a)) as [Ho|Ho].
    + destruct (Hopen Ho) as (s & k & Hs & Hk & ->). clear Hopen Hclosed.
      set (n' := if s dirR || s dirD || s dirI then n + 1 else n) in *.
      assert (n ≤ n') as Hnn' by (unfold n'; destruct (_ || _); lia).
      assert (∀ d, s d = true → n' = n + 1) as Hsn.
      { intros d Hd. unfold n'. destruct d; rewrite Hd; by rewrite ?orb_true_r. }
      assert (∀ d c, c ∈ cluesOf d
                (mkClues (clR cl ++ (if s dirR then [k dirR] else []))
                   (clD cl ++ (if s dirD then [k dirD] else []))
                   (clI cl ++ (if s dirI then [k dirI] else []))) ↔
              c ∈ cluesOf d cl ∨ (s d = true ∧ c = k d)) as Hmem.
      { intros d c. rewrite cluesOf_app, elem_of_app.
        assert (c ∈ match d with
                    | dirR => if s dirR then [k dirR] else []
                    | dirD => if s dirD then [k dirD] else []
                    | dirI => if s dirI then [k dirI] else []
                    end ↔ s d = true ∧ c = k d) as ->; [|done].
        destruct d; simpl;
          match goal with |- context [if s ?x then _ else _] => destruct (s x) end;
          rewrite ?list_elem_of_singleton, ?elem_of_nil;
          (split; [intros Hc | intros [Hc Hc']]); try done; try congruence; by subst. }
      assert (∀ d, c_start (k d) = a ∧ c_n (k d) = n') as Hkd.
      { intros d. destruct (Hk d) as (cells & _ & ->). done. }
      eexists. split; [done|]. simpl. split_and!; [lia | | |].
      * intros d c [Hc|[Hd ->]]%Hmem.
        -- destruct (H1 d c Hc) as (? & ? & ? & ?).
           split_and!; [apply elem_of_app; by left | lia | lia | done | done].
        -- destruct (Hkd d) as [Hst Hkn]. rewrite Hst, Hkn.
           split_and!; [apply elem_of_app; right; by left | | | by apply Hs |].
           ++ rewrite (Hsn d Hd). lia.
           ++ lia.
           ++ apply Hk.
      * intros d p [Hp|Hp%list_elem_of_singleton]%elem_of_app Hst.
        -- destruct (H2 d p Hp Hst) as (c & Hc & Hcs). exists c. split; [|done].
           apply Hmem. by left.
        -- subst p. exists (k d). split; [|apply Hkd]. apply Hmem. right. split; [|done].
           by apply Hs.
      * intros d1 d2 c1 c2 [Hc1|[Hd1 ->]]%Hmem [Hc2|[Hd2 ->]]%Hmem.
        -- by apply (H3 d1 d2).
        -- destruct (H1 d1 c1 Hc1) as (Hdone & Hn1 & _). destruct (Hkd d2) as [-> ->].
           rewrite (Hsn d2 Hd2). split; [intros E; by rewrite E in Hdone | lia].
        -- destruct (H1 d2 c2 Hc2) as (Hdone & Hn2 & _). destruct (Hkd d1) as [-> ->].
           rewrite (Hsn d1 Hd1). split; [intros E; by rewrite <- E in Hdone | lia].
        -- destruct (Hkd d1) as [-> ->], (Hkd d2) as [-> ->]. done.
    + rewrite (Hclosed Ho). eexists. split; [done|]. simpl. split_and!; [done | | | done].
      * intros d c Hc. destruct (H1 d c Hc) as (? & ? & ? & ?).
        split_and!; [apply elem_of_app; by left | lia | lia | done | done].
      * intros d p [Hp|Hp%list_elem_of_singleton]%elem_of_app Hst; [by apply H2|].
        subst p. destruct Ho. apply Hst.
  - exists r. split; [done|]. split_and!.
    + intros d c Hc. destruct (H1 d c Hc) as (? & ? & ? & ?). split_and!; [done | done | lia].
    + intros d x y z Hst. apply (H2 d (mkCoord x y z)); [|done].
      apply elem_of_scanOrder. by eapply isStart_inBounds.
    + done.
Qed.

Lemma computeCluesFromWorld_spec g :
  wfGrid g → ∃ cl, computeCluesFromWorld g = Some cl ∧ Extracted g cl.
Proof.
  intros Hwf. destruct (extract_spec g Hwf) as (r & Hr & Hex).
  exists r.2. unfold computeCluesFromWorld. by rewrite Hr.
Qed.

(** ** The two formats *)

Lemma fold_logEv (evs : list Event) st :
  fold_left (λ s e, logEv e s) evs st =
  mkState (grid st) (clues st) (console st ++ evs).
Proof.
  revert st. induction evs as [|e evs IH]; intros st; simpl.
  - rewrite app_nil_r. by destruct st.
  - rewrite IH. simpl. by rewrite <- app_assoc.
Qed.

Lemma ensureHintFields_spec st :
  ensureHintFields st =
  mkState (grid st)
    (mkClues (clR (clues st)) (fillHint "alla" <$> clD (clues st))
             (fillHint "sisse" <$> clI (clues st)))
    (console st ++ (LogClue <$> clR (clues st))).
Proof.
  unfold ensureHintFields.
  assert (∀ l s, fold_left (λ s c, logEv (LogClue c) s) l s =
                 fold_left (λ s e, logEv e s) (LogClue <$> l) s) as E.
  { induction l as [|c l IH]; intros s; simpl; [done | apply IH]. }
  rewrite E, fold_logEv. done.
Qed.

Lemma loadFormatA_spec js st :
  wfGrid (grid st) →
  ∃ g1 st1 st',
    loadFormatA js st = Some st' ∧
    cellwise solRel (grid st) g1 ∧
    forEach placeWord (p_words js) st = Some st1 ∧ grid st1 = g1 ∧
    cellwise (numRel (buildCluesFromWords (p_words js))) g1 (grid st') ∧
    (∀ d, Forall2 (bound (grid st') d)
            (cluesOf d (buildCluesFromWords (p_words js))) (cluesOf d (clues st'))) ∧
    console st' = console st1 ∧
    ∃ evs, console st1 = console st ++ evs ∧ Forall (λ e, isError e = true) evs.
Proof.
  intros Hwf. unfold loadFormatA.
  destruct (placeWords_spec (p_words js) st Hwf) as (st1 & Hst1 & Hcl1 & Hsol & Hevs).
  rewrite Hst1. simpl.
  destruct (applyNumbers_spec (withClues (buildCluesFromWords (p_words js)) st1))
    as (st2 & -> & Hcl2 & Hco2 & Hnum); [apply Hsol|]. simpl.
  destruct (attachAnswersToClues_spec st2) as (st3 & -> & Hg3 & Hco3 & Hb); [apply Hnum|].
  simpl in Hcl2, Hco2, Hnum.
  exists (grid st1), st1, st3. rewrite Hg3.
  split_and!; [done | done | done | done | done | | congruence | done].
  intros d. specialize (Hb d). by rewrite Hcl2 in Hb.
Qed.

Lemma loadFormatB_spec js st :
  wfGrid (grid st) →
  ∃ g1 cl st',
    loadFormatB js st = Some st' ∧
    cellwise solRel (grid st) g1 ∧
    forEach writeSolution (p_solution js) (grid st) = Some g1 ∧
    (if hasClues (p_clues js) then cl = p_clues js
     else computeCluesFromWorld g1 = Some cl ∧ Extracted g1 cl) ∧
    let cl' := mkClues (clR cl) (fillHint "alla" <$> clD cl) (fillHint "sisse" <$> clI cl) in
    cellwise (numRel cl') g1 (grid st') ∧
    (∀ d, Forall2 (bound (grid st') d) (cluesOf d cl') (cluesOf d (clues st'))) ∧
    console st' = console st ++ (LogClue <$> clR cl).
Proof.
  intros Hwf. unfold loadFormatB.
  destruct (writeSolutions_spec (p_solution js) (grid st) Hwf) as (g1 & Hg1 & Hsol).
  rewrite Hg1. simpl.
  assert (∃ cl, (if hasClues (p_clues js)
                 then Some (ensureHintFields (mkState g1 (p_clues js) (console st)))
                 else cl ← computeCluesFromWorld g1;
                      Some (ensureHintFields (mkState g1 cl (console st)))) =
                Some (ensureHintFields (mkState g1 cl (console st))) ∧
                (if hasClues (p_clues js) then cl = p_clues js
                 else computeCluesFromWorld g1 = Some cl ∧ Extracted g1 cl))
    as (cl & -> & Hcl).
  { destruct (hasClues (p_clues js)); [by eexists|].
    destruct (computeCluesFromWorld_spec g1) as (cl & Hcl & Hex); [apply Hsol|].
    exists cl. by rewrite Hcl. }
  simpl. rewrite ensureHintFields_spec. simpl.
  set (st1 := mkState g1 _ _).
  destruct (applyNumbers_spec st1) as (st2 & -> & Hcl2 & Hco2 & Hnum); [apply Hsol|]. simpl.
  destruct (attachAnswersToClues_spec st2) as (st3 & -> & Hg3 & Hco3 & Hb); [apply Hnum|].
  simpl in Hcl2, Hco2, Hnum.
  exists g1, cl, st3. rewrite Hg3.
  split_and!; [done | done | done | done | done | | congruence].
  intros d. specialize (Hb d). by rewrite Hcl2 in Hb.
Qed.

(** Loading never throws: every record whose dimensions are array lengths loads. *)
Lemma load_total js :
  0 ≤ p_nx js < 2 ^ 32 → 0 ≤ p_ny js < 2 ^ 32 → 0 ≤ p_nz js < 2 ^ 32 →
  ∃ st, loadPuzzleFromJSON js = Some st.
Proof.
  intros Hx Hy Hz. unfold loadPuzzleFromJSON.
  destruct (load_prefix js Hx Hy Hz) as (g & Hg & Hfresh).
  destruct (buildWorld _ _ _) as [g0|]; simpl in *; [|done].
  destruct (forEach markBlock _ g0) as [g1|]; simpl in *; [|done].
  rewrite Hg. simpl.
  destruct (negb _).
  - destruct (loadFormatA_spec js (mkState g (mkClues [] [] []) []))
      as (? & ? & st & -> & _); [apply Hfresh | eauto].
  - destruct (loadFormatB_spec js (mkState g (mkClues [] [] []) []))
      as (? & ? & st & -> & _); [apply Hfresh | eauto].
Qed.

Lemma load_cases js :
  0 ≤ p_nx js < 2 ^ 32 → 0 ≤ p_ny js < 2 ^ 32 → 0 ≤ p_nz js < 2 ^ 32 →
  ∃ g, FreshGrid js g ∧
       loadPuzzleFromJSON js =
         if negb (bool_decide (p_words js = []))
         then loadFormatA js (initState g) else loadFormatB js (initState g).
Proof.
  intros Hx Hy Hz. unfold loadPuzzleFromJSON.
  destruct (load_prefix js Hx Hy Hz) as (g & Hg & Hfresh).
  exists g. split; [done|].
  destruct (buildWorld _ _ _) as [g0|]; simpl in *; [|done].
  destruct (forEach markBlock _ g0) as [g1|]; simpl in *; [|done].
  by rewrite Hg.
Qed.

(** Letters and numbers do not move the blocks. *)
Lemma cellwise_block Rc g g' :
  wfGrid g → cellwise Rc g g' →
  (∀ p c c', Rc p c c' → block c' = block c) →
  (∀ x y z, openAt g' x y z ↔ openAt g x y z) ∧
  (∀ x y z, stopAt g' x y z ↔ stopAt g x y z).
Proof.
  intros Hwf Hstep Hblock.
  pose proof Hstep as (Hwf' & Hd & Hcells).
  assert (∀ x y z c', cell g' x y z = Some c' →
            ∃ c, cell g x y z = Some c ∧ block c' = block c) as Hback.
  { intros x y z c' Hc'.
    destruct (cellwise_inv _ _ _ _ _ _ _ Hwf Hstep Hc') as (c & Hc & HR). eauto. }
  assert (∀ x y z c, cell g x y z = Some c →
            ∃ c', cell g' x y z = Some c' ∧ block c' = block c) as Hforth.
  { intros x y z c (c' & Hc' & HR)%Hcells. eauto. }
  split; intros x y z; unfold openAt, stopAt; rewrite ?(inBounds_sameDims g g') by done.
  - split.
    + intros (c' & (c & Hc & Hb)%Hback & Hb'). exists c. split; [done | congruence].
    + intros (c & (c' & Hc' & Hb)%Hforth & Hb'). exists c'. split; [done | congruence].
  - split.
    + intros [?|(c' & (c & Hc & Hb)%Hback & Hb')]; [by left|].
      right. exists c. split; [done | congruence].
    + intros [?|(c & (c' & Hc' & Hb)%Hforth & Hb')]; [by left|].
      right. exists c'. split; [done | congruence].
Qed.

Lemma solRel_block p c c' : solRel p c c' → block c' = block c.
Proof. by intros [->|(_ & s & ->)]. Qed.

Lemma numRel_block cl p c c' : numRel cl p c c' → block c' = block c.
Proof. by intros (? & _). Qed.

Lemma isStart_cellwise Rc g g' d x y z :
  wfGrid g → cellwise Rc g g' →
  (∀ p c c', Rc p c c' → block c' = block c) →
  isStart g' d x y z ↔ isStart g d x y z.
Proof.
  intros Hwf Hstep Hblock.
  destruct (cellwise_block Rc g g' Hwf Hstep Hblock) as [Ho Hs].
  unfold isStart. by rewrite !Ho, Hs.
Qed.

(** Binding the answers keeps the clues in place. *)
Lemma bound_fields g d c c' :
  bound g d c c' →
  c_n c' = c_n c ∧ c_len c' = c_len c ∧ c_start c' = c_start c ∧ c_hint c' = c_hint c.
Proof. by intros (cells & _ & ->). Qed.

Lemma bound_elem_of g d l l' k :
  Forall2 (bound g d) l l' → k ∈ l → ∃ k', k' ∈ l' ∧ bound g d k k'.
Proof.
  intros HF (i & Hi)%list_elem_of_lookup.
  destruct (Forall2_lookup_l _ _ _ _ _ HF Hi) as (k' & Hk' & Hb).
  exists k'. split; [by eapply list_elem_of_lookup_2 | done].
Qed.

Lemma bound_elem_of_inv g d l l' k' :
  Forall2 (bound g d) l l' → k' ∈ l' → ∃ k, k ∈ l ∧ bound g d k k'.
Proof.
  intros HF (i & Hi)%list_elem_of_lookup.
  destruct (Forall2_lookup_r _ _ _ _ _ HF Hi) as (k & Hk & Hb).
  exists k. split; [by eapply list_elem_of_lookup_2 | done].
Qed.

Lemma fillHint_fields h c :
  c_n (fillHint h c) = c_n c ∧ c_len (fillHint h c) = c_len c ∧
  c_start (fillHint h c) = c_start c ∧ c_answer (fillHint h c) = c_answer c.
Proof. unfold fillHint. by destruct (falsyHint _). Qed.

(** The clues of [ensureHintFields] are the clues it was given, up to the
    hint. *)
Lemma elem_of_hinted d cl k' :
  k' ∈ cluesOf d (mkClues (clR cl) (fillHint "alla" <$> clD cl)
                         (fillHint "sisse" <$> clI cl)) ↔
  ∃ k, k ∈ cluesOf d cl ∧
       k' = match d with
            | dirR => k | dirD => fillHint "alla" k | dirI => fillHint "sisse" k
            end.
Proof.
  destruct d; simpl; rewrite ?list_elem_of_fmap; naive_solver.
Qed.

(** The shape of every load: a fresh grid, then letters, then numbers, then
    answers. *)
Lemma load_phases js :
  0 ≤ p_nx js < 2 ^ 32 → 0 ≤ p_ny js < 2 ^ 32 → 0 ≤ p_nz js < 2 ^ 32 →
  ∃ g0 g1 cl st,
    loadPuzzleFromJSON js = Some st ∧
    FreshGrid js g0 ∧ cellwise solRel g0 g1 ∧ cellwise (numRel cl) g1 (grid st) ∧
    (∀ d, Forall2 (bound (grid st) d) (cluesOf d cl) (cluesOf d (clues st))) ∧
    (p_words js ≠ [] → cl = buildCluesFromWords (p_words js) ∧
                       Forall (λ e, isError e = true) (console st)) ∧
    (p_words js = [] →
       forEach writeSolution (p_solution js) g0 = Some g1 ∧
       ∃ cl0, cl = hinted cl0 ∧ console st = LogClue <$> clR cl0 ∧
         if hasClues (p_clues js) then cl0 = p_clues js
         else computeCluesFromWorld g1 = Some cl0 ∧ Extracted g1 cl0).
Proof.
  intros Hx Hy Hz. destruct (load_cases js Hx Hy Hz) as (g0 & Hfresh & ->).
  destruct (decide (p_words js = [])) as [Hw|Hw].
  - rewrite bool_decide_true by done. simpl.
    destruct (loadFormatB_spec js (initState g0))
      as (g1 & cl0 & st & Hst & Hsol & Hws & Hcl0 & Hnum & Hb & Hco); [apply Hfresh|].
    exists g0, g1, (hinted cl0), st. split_and!; [done..| |].
    + intros Hne. done.
    + intros _. split; [done|]. exists cl0. split_and!; done.
  - rewrite bool_decide_false by done. simpl.
    destruct (loadFormatA_spec js (initState g0))
      as (g1 & st1 & st & Hst & Hsol & Hws & Hg1 & Hnum & Hb & Hco & evs & Hevs & Herr);
      [apply Hfresh|].
    exists g0, g1, (buildCluesFromWords (p_words js)), st.
    split_and!; [done..| |done].
    intros _. split; [done|]. rewrite Hco, Hevs. done.
Qed.

Lemma load_LoadInv js :
  0 ≤ p_nx js < 2 ^ 32 → 0 ≤ p_ny js < 2 ^ 32 → 0 ≤ p_nz js < 2 ^ 32 →
  ∃ st, loadPuzzleFromJSON js = Some st ∧ LoadInv js (grid st).
Proof.
  intros Hx Hy Hz.
  destruct (load_phases js Hx Hy Hz) as (g0 & g1 & cl & st & Hst & [H0 _] & Hsol & Hnum & _).
  exists st. split; [done|].
  eapply LoadInv_numRel; [|done]. by eapply LoadInv_solRel.
Qed.

Lemma inDims_inBounds js g b :
  NX g = p_nx js → NY g = p_ny js → NZ g = p_nz js →
  inBounds g (cx b) (cy b) (cz b) = inDims js b.
Proof. intros Hx Hy Hz. unfold inBounds, inDims. by rewrite Hx, Hy, Hz. Qed.

Lemma markBlocks_filter js bs g :
  NX g = p_nx js → NY g = p_ny js → NZ g = p_nz js →
  forEach markBlock (List.filter (inDims js) bs) g = forEach markBlock bs g.
Proof.
  revert g. induction bs as [|b bs IH]; intros g Hx Hy Hz; [done|]. simpl.
  pose proof (inDims_inBounds js g b Hx Hy Hz) as Hin.
  destruct (inDims js b) eqn:Hb; simpl.
  - destruct (markBlock g b) as [g'|] eqn:Hg'; simpl; [|done].
    unfold markBlock in Hg'. rewrite Hin in Hg'.
    apply updCell_cell in Hg' as (_ & _ & (Hx' & Hy' & Hz') & _).
    apply IH; congruence.
  - assert (markBlock g b = Some g) as -> by (unfold markBlock; by rewrite Hin).
    simpl. by apply IH.
Qed.

Lemma stopAt_not_openAt g x y z : wfGrid g → stopAt g x y z → ¬ openAt g x y z.
Proof.
  intros Hwf [Hout|(c & Hc & Hb)] (c' & Hc' & Hb').
  - rewrite (cell_None g x y z Hwf Hout) in Hc'. done.
  - congruence.
Qed.

(** ** Format A, step 2: numbering by start *)

Lemma pretty_N_go_noComma x s : noComma s → noComma (pretty_N_go x s).
Proof.
  revert s. induction (N.lt_wf_0 x) as [x _ IH]; intros s Hs.
  assert (x = 0 ∨ 0 < x)%N as [->|?] by lia.
  - by rewrite pretty_N_go_0.
  - rewrite pretty_N_go_step by done. apply IH.
    { by apply N.div_lt. }
    split; [|done]. unfold pretty_N_char. by repeat case_match.
Qed.

Lemma pretty_Z_noComma (x : Z) : noComma (pretty x).
Proof.
  unfold pretty, pretty_Z. destruct x as [|p|p]; simpl.
  - done.
  - unfold pretty, pretty_positive, pretty, pretty_N. case_decide; [done|].
    by apply pretty_N_go_noComma.
  - split; [done|].
    unfold pretty, pretty_positive, pretty, pretty_N. case_decide; [done|].
    by apply pretty_N_go_noComma.
Qed.

Lemma comma_split s1 s2 r1 r2 :
  noComma s1 → noComma s2 →
  s1 +:+ String ","%char r1 = s2 +:+ String ","%char r2 → s1 = s2 ∧ r1 = r2.
Proof.
  revert s2. induction s1 as [|a s1 IH]; intros [|b s2] H1 H2 E.
  - by injection E.
  - injection E as E1 E2. destruct H2 as [H2 _]. by subst.
  - injection E as E1 E2. destruct H1 as [H1 _]. by subst.
  - injection E as E1 E2. destruct H1 as [_ H1], H2 as [_ H2].
    destruct (IH s2 H1 H2 E2) as [-> ->]. by subst.
Qed.

(** Distinct starts have distinct keys. *)
Lemma startKey_inj p q : startKey p = startKey q → p = q.
Proof.
  unfold startKey. destruct p as [x y z], q as [x' y' z']. simpl. intros E.
  apply comma_split in E as [Ex E]; [|apply pretty_Z_noComma..].
  apply comma_split in E as [Ey Ez]; [|apply pretty_Z_noComma..].
  apply (inj pretty) in Ex, Ey, Ez. by subst.
Qed.

Lemma cluesOf_pushClue d d' c cl :
  cluesOf d (pushClue d' c cl) =
  cluesOf d cl ++ if decide (d = d') then [c] else [].
Proof. destruct d, d'; simpl; by rewrite ?app_nil_r. Qed.

Lemma numberWord_spec acc w :
  NumberingInv acc →
  ∃ n, NumberingInv (numberWord acc w) ∧
    startToNumber (numberWord acc w) !! startKey (w_start w) = Some n ∧
    (∀ key v, startToNumber acc !! key = Some v →
              startToNumber (numberWord acc w) !! key = Some v) ∧
    built (numberWord acc w) =
      pushClue (w_dir w)
        (mkClue n (Z.of_nat (String.length (w_answer w))) (w_start w)
           (Some (default (defaultHint (w_dir w)) (w_clue w)))
           (Some (toUpperCase (w_answer w))))
        (built acc).
Proof.
  intros (Hnext & Hrange & Hinj & Hbuilt).
  assert (∀ m' next' n,
    startToNumber acc !! startKey (w_start w) = None →
    m' = <[startKey (w_start w) := nextN acc]> (startToNumber acc) →
    next' = nextN acc + 1 → n = nextN acc →
    NumberingInv (mkNumbering m' next'
      (pushClue (w_dir w)
         (mkClue n (Z.of_nat (String.length (w_answer w))) (w_start w)
            (Some (default (defaultHint (w_dir w)) (w_clue w)))
            (Some (toUpperCase (w_answer w)))) (built acc)))) as Hfresh.
  { intros m' next' n Hnone -> -> ->. split_and!; simpl.
    - lia.
    - intros key v. rewrite lookup_insert. case_decide.
      + intros [= <-]. lia.
      + intros Hv%Hrange. lia.
    - intros k1 k2 v. rewrite !lookup_insert. repeat case_decide; subst.
      + done.
      + intros [= <-] Hv%Hrange. lia.
      + intros Hv%Hrange [= <-]. lia.
      + apply Hinj.
    - intros d c. rewrite cluesOf_pushClue, elem_of_app.
      intros [Hc|Hc].
      + rewrite lookup_insert. case_decide as E; [|by apply (Hbuilt d)].
        apply Hbuilt in Hc. rewrite <- E in Hc. congruence.
      + case_decide; [|by apply elem_of_nil in Hc].
        apply list_elem_of_singleton in Hc as ->. simpl.
        by rewrite lookup_insert_eq. }
  unfold numberWord.
  destruct (startToNumber acc !! startKey (w_start w)) as [n|] eqn:Hkey.
  - destruct (decide (n = 0)) as [->|Hn0].
    { apply Hrange in Hkey. lia. }
    exists n. simpl. split_and!; [|done..].
    split_and!; simpl; [done | done | done |].
    intros d c. rewrite cluesOf_pushClue, elem_of_app.
    intros [Hc|Hc]; [by apply (Hbuilt d)|].
    case_decide; [|by apply elem_of_nil in Hc].
    by apply list_elem_of_singleton in Hc as ->.
  - exists (nextN acc). simpl. split_and!.
    + by apply Hfresh.
    + by rewrite lookup_insert_eq.
    + intros key v Hv. rewrite lookup_insert_ne; [done|]. congruence.
    + done.
Qed.

Lemma buildClues_spec ws :
  let acc := fold_left numberWord ws (mkNumbering ∅ 1 (mkClues [] [] [])) in
  NumberingInv acc ∧
  (∀ w, w ∈ ws →
     ∃ c, c ∈ cluesOf (w_dir w) (built acc) ∧ c_start c = w_start w ∧
          c_len c = Z.of_nat (String.length (w_answer w))) ∧
  (∀ d c, c ∈ cluesOf d (built acc) →
     ∃ w, w ∈ ws ∧ w_dir w = d ∧ c_start c = w_start w ∧
          c_len c = Z.of_nat (String.length (w_answer w)) ∧
          c_hint c = Some (default (defaultHint d) (w_clue w))).
Proof.
  induction ws as [|w ws IH] using rev_ind; simpl.
  - split_and!.
    + split_and!; simpl; [done | | |].
      * intros key n. by rewrite lookup_empty.
      * intros k1 k2 n. by rewrite lookup_empty.
      * intros d c Hc. destruct d; by apply elem_of_nil in Hc.
    + intros w Hw. by apply elem_of_nil in Hw.
    + intros d c Hc. destruct d; by apply elem_of_nil in Hc.
  - rewrite fold_left_app. simpl.
    destruct IH as (Hinv & Hws & Hcs).
    destruct (numberWord_spec _ w Hinv) as (n & Hinv' & Hkey & Hmono & Hbuilt).
    split_and!; [done | |].
    + intros w' [Hw'|Hw'%list_elem_of_singleton]%elem_of_app.
      * destruct (Hws w' Hw') as (c & Hc & E). exists c. split; [|done].
        rewrite Hbuilt, cluesOf_pushClue. apply elem_of_app. by left.
      * subst w'. eexists. split.
        { rewrite Hbuilt, cluesOf_pushClue. apply elem_of_app. right.
          rewrite decide_True by done. by apply list_elem_of_singleton. }
        done.
    + intros d c. rewrite Hbuilt, cluesOf_pushClue, elem_of_app.
      intros [Hc|Hc].
      * destruct (Hcs d c Hc) as (w' & Hw' & E). exists w'. split; [|done].
        apply elem_of_app. by left.
      * case_decide as Hd; [|by apply elem_of_nil in Hc].
        apply list_elem_of_singleton in Hc as ->. exists w. simpl.
        split_and!; [apply elem_of_app; right; by left | done..|by subst].
Qed.

(** Clues built from a word list share a number iff they share a start. *)
Lemma buildClues_numbering ws d1 d2 c1 c2 :
  c1 ∈ cluesOf d1 (buildCluesFromWords ws) →
  c2 ∈ cluesOf d2 (buildCluesFromWords ws) →
  (c_start c1 = c_start c2 ↔ c_n c1 = c_n c2).
Proof.
  unfold buildCluesFromWords.
  destruct (buildClues_spec ws) as ((_ & _ & Hinj & Hbuilt) & _).
  intros H1%Hbuilt H2%Hbuilt. split.
  - intros E. rewrite E in H1. congruence.
  - intros E. rewrite E in H1. apply startKey_inj. by eapply Hinj.
Qed.

(** A run over cells without letters reads as placeholders. *)
Lemma concatLetters_placeholders cells :
  Forall (λ c, sol c = "") cells →
  concatLetters cells = placeholders (length cells).
Proof.
  induction 1 as [|c cells Hc _ IH]; [done|].
  simpl. unfold letterOf. rewrite Hc. simpl. by rewrite IH.
Qed.

Lemma Run_cells_of_grid g dx dy dz x y z cells :
  Run g dx dy dz x y z cells →
  Forall (λ c, ∃ x' y' z', cell g x' y' z' = Some c) cells.
Proof. induction 1; constructor; eauto. Qed.

(** ** Crossing conflicts *)

Section Placing.
Variable w : Word.
Variables dx dy dz : Z.
Hypothesis Hunit : unitStep dx dy dz.

Lemma onRun_ahead x y z n : ¬ onRun (x + dx) (y + dy) (z + dz) dx dy dz n x y z.
  Proof. intros (j & _ & Ex & Ey & Ez). unfold unitStep in Hunit. lia. Qed.

Lemma ahead_ne x y z (j : nat) :
    ¬ (x + dx + Z.of_nat j * dx = x ∧ y + dy + Z.of_nat j * dy = y ∧
       z + dz + Z.of_nat j * dz = z).
  Proof. unfold unitStep in Hunit. lia. Qed.

  (** Over cells without letters a word is written without conflict. *)
Lemma placeLetters_no_conflict ans x y z st st' :
    wfGrid (grid st) →
    placeLetters w dx dy dz ans x y z st = Some st' →
    (∀ (j : nat) c, (j < String.length ans)%nat →
       cell (grid st) (x + Z.of_nat j * dx) (y + Z.of_nat j * dy) (z + Z.of_nat j * dz)
         = Some c → sol c = "") →
    filter (λ e, isConflict e = true) (console st') =
    filter (λ e, isConflict e = true) (console st).
  Proof.
    revert x y z st. induction ans as [|b rest IH]; intros x y z st Hwf Hpl Hempty.
    - by injection Hpl as <-.
    - destruct (inBounds (grid st) x y z) eqn:Hin.
      + destruct (proj2 (cell_is_Some _ x y z Hwf) Hin) as [ce Hce].
        destruct (block ce) eqn:Hb.
        * simpl in Hpl. rewrite Hin, Hce in Hpl. simpl in Hpl. rewrite Hb in Hpl.
          injection Hpl as <-. simpl. by rewrite filter_app, app_nil_r.
        * destruct (placeLetters_step w dx dy dz b rest x y z st ce Hwf Hce Hb)
            as (g' & _ & Hwf' & Hd & Hnew & Hstep).
          rewrite Hstep in Hpl.
          assert (sol ce = "") as Hs.
          { apply (Hempty 0%nat); [simpl; lia|].
            by replace (x + Z.of_nat 0 * dx) with x by lia;
               replace (y + Z.of_nat 0 * dy) with y by lia;
               replace (z + Z.of_nat 0 * dz) with z by lia. }
          rewrite Hs in Hpl. simpl in Hpl. rewrite app_nil_r in Hpl.
          apply IH in Hpl; [done | done |].
          intros j c Hj. simpl. rewrite Hnew.
          rewrite decide_False by apply ahead_ne.
          replace (x + dx + Z.of_nat j * dx) with (x + Z.of_nat (S j) * dx) by lia.
          replace (y + dy + Z.of_nat j * dy) with (y + Z.of_nat (S j) * dy) by lia.
          replace (z + dz + Z.of_nat j * dz) with (z + Z.of_nat (S j) * dz) by lia.
          apply Hempty. simpl. lia.
      + simpl in Hpl. rewrite Hin in Hpl. simpl in Hpl.
        injection Hpl as <-. simpl. by rewrite filter_app, app_nil_r.
  Qed.

  (** A letter written on an unobstructed stretch is there at the end. *)
Lemma placeLetters_written ans x y z st st' (i : nat) a :
    wfGrid (grid st) →
    placeLetters w dx dy dz ans x y z st = Some st' →
    String.get i ans = Some a →
    (∀ j : nat, (j ≤ i)%nat →
       openAt (grid st) (x + Z.of_nat j * dx) (y + Z.of_nat j * dy) (z + Z.of_nat j * dz)) →
    ∃ c', cell (grid st') (x + Z.of_nat i * dx) (y + Z.of_nat i * dy) (z + Z.of_nat i * dz)
            = Some c' ∧ sol c' = String a "".
  Proof.
    revert x y z st i. induction ans as [|b rest IH]; intros x y z st i Hwf Hpl Hget Hopen.
    - by destruct i.
    - destruct (Hopen 0%nat) as (ce & Hce & Hb); [lia|].
      replace (x + Z.of_nat 0 * dx) with x in Hce by lia.
      replace (y + Z.of_nat 0 * dy) with y in Hce by lia.
      replace (z + Z.of_nat 0 * dz) with z in Hce by lia.
      destruct (placeLetters_step w dx dy dz b rest x y z st ce Hwf Hce Hb)
        as (g' & _ & Hwf' & Hd & Hnew & Hstep).
      rewrite Hstep in Hpl. clear Hstep.
      destruct i as [|i].
      + injection Hget as <-.
        replace (x + Z.of_nat 0 * dx) with x by lia.
        replace (y + Z.of_nat 0 * dy) with y by lia.
        replace (z + Z.of_nat 0 * dz) with z by lia.
        match type of Hpl with placeLetters _ _ _ _ _ _ _ _ ?s = _ => set (st1 := s) in * end.
        destruct (placeLetters_cells w dx dy dz rest (x + dx) (y + dy) (z + dz) st1 Hwf')
          as (st'' & Hst'' & _ & _ & _ & _ & Hcells).
        assert (st'' = st') as -> by congruence.
        destruct (Hcells x y z (set_sol (String b "") ce)) as (c' & Hc' & Hrel).
        { simpl. rewrite Hnew. by rewrite decide_True. }
        exists c'. split; [done|].
        destruct Hrel as [->|(_ & Hon & _)]; [done|]. by apply onRun_ahead in Hon.
      + simpl in Hget.
        replace (x + Z.of_nat (S i) * dx) with (x + dx + Z.of_nat i * dx) by lia.
        replace (y + Z.of_nat (S i) * dy) with (y + dy + Z.of_nat i * dy) by lia.
        replace (z + Z.of_nat (S i) * dz) with (z + dz + Z.of_nat i * dz) by lia.
        eapply IH; [| exact Hpl | exact Hget |]; [done|].
        intros j Hj. simpl. destruct (Hopen (S j)) as (c & Hc & Hbc); [lia|].
        exists c. split; [|done]. rewrite Hnew.
        rewrite decide_False by apply ahead_ne. rewrite <- Hc. f_equal; lia.
  Qed.

  (** A word that meets exactly one letter on its way, a different one, on
      an unobstructed stretch, reports exactly that conflict and overwrites
      the letter. *)
Lemma placeLetters_one_conflict ans x y z st st' (i : nat) a s :
    wfGrid (grid st) →
    placeLetters w dx dy dz ans x y z st = Some st' →
    String.get i ans = Some a →
    (∀ j : nat, (j ≤ i)%nat →
       openAt (grid st) (x + Z.of_nat j * dx) (y + Z.of_nat j * dy) (z + Z.of_nat j * dz)) →
    (∃ c, cell (grid st) (x + Z.of_nat i * dx) (y + Z.of_nat i * dy) (z + Z.of_nat i * dz)
            = Some c ∧ sol c = s) →
    truthy s = true → s ≠ String a "" →
    (∀ (j : nat) c, (j < String.length ans)%nat → j ≠ i →
       cell (grid st) (x + Z.of_nat j * dx) (y + Z.of_nat j * dy) (z + Z.of_nat j * dz)
         = Some c → sol c = "") →
    filter (λ e, isConflict e = true) (console st') =
      filter (λ e, isConflict e = true) (console st) ++
      [CrossingConflict w
         (mkCoord (x + Z.of_nat i * dx) (y + Z.of_nat i * dy) (z + Z.of_nat i * dz))
         s (String a "")].
  Proof.
    revert x y z st i.
    induction ans as [|b rest IH]; intros x y z st i Hwf Hpl Hget Hopen Hat Hs Hne Hempty.
    - by destruct i.
    - destruct (Hopen 0%nat) as (ce & Hce & Hb); [lia|].
      replace (x + Z.of_nat 0 * dx) with x in Hce by lia.
      replace (y + Z.of_nat 0 * dy) with y in Hce by lia.
      replace (z + Z.of_nat 0 * dz) with z in Hce by lia.
      destruct (placeLetters_step w dx dy dz b rest x y z st ce Hwf Hce Hb)
        as (g' & _ & Hwf' & Hd & Hnew & Hstep).
      rewrite Hstep in Hpl. clear Hstep.
      assert (∀ j : nat,
                cell g' (x + dx + Z.of_nat j * dx) (y + dy + Z.of_nat j * dy)
                        (z + dz + Z.of_nat j * dz) =
                cell (grid st) (x + Z.of_nat (S j) * dx) (y + Z.of_nat (S j) * dy)
                               (z + Z.of_nat (S j) * dz)) as Hshift.
      { intros j. rewrite Hnew. rewrite decide_False by apply ahead_ne. f_equal; lia. }
      destruct i as [|i].
      + injection Hget as <-.
        replace (x + Z.of_nat 0 * dx) with x in * by lia.
        replace (y + Z.of_nat 0 * dy) with y in * by lia.
        replace (z + Z.of_nat 0 * dz) with z in * by lia.
        destruct Hat as (c & Hc & Hsc). assert (c = ce) as -> by congruence.
        rewrite Hsc, Hs in Hpl.
        assert (negb (String.eqb s (String b "")) = true) as Hneq.
        { apply negb_true_iff. by apply String.eqb_neq. }
        rewrite Hneq in Hpl. simpl in Hpl.
        apply placeLetters_no_conflict in Hpl; [|done|].
        * rewrite Hpl. simpl. by rewrite filter_app.
        * intros j c Hj. simpl. rewrite Hshift. apply Hempty; simpl; lia.
      + simpl in Hget.
        assert (sol ce = "") as Hs0.
        { apply (Hempty 0%nat); [simpl; lia | lia |].
          by replace (x + Z.of_nat 0 * dx) with x by lia;
             replace (y + Z.of_nat 0 * dy) with y by lia;
             replace (z + Z.of_nat 0 * dz) with z by lia. }
        rewrite Hs0 in Hpl. simpl in Hpl. rewrite app_nil_r in Hpl.
        replace (x + Z.of_nat (S i) * dx) with (x + dx + Z.of_nat i * dx) by lia.
        replace (y + Z.of_nat (S i) * dy) with (y + dy + Z.of_nat i * dy) by lia.
        replace (z + Z.of_nat (S i) * dz) with (z + dz + Z.of_nat i * dz) by lia.
        eapply (IH _ _ _ _ i) in Hpl; [exact Hpl | done | done | | | done | done |].
        * intros j Hj. simpl. destruct (Hopen (S j)) as (c & Hc & Hbc); [lia|].
          exists c. by rewrite Hshift.
        * simpl. rewrite Hshift. exact Hat.
        * intros j c Hj Hji. simpl. rewrite Hshift. apply Hempty; simpl; lia.
  Qed.
End Placing.

Lemma freeCell_openAt js g p :
  LoadInv js g → freeCell js p → openAt g (cx p) (cy p) (cz p).
Proof.
  intros (Hwf & Hx & Hy & Hz & Hcells) [Hin Hfree].
  rewrite <- (inDims_inBounds js g) in Hin by done.
  destruct (proj2 (cell_is_Some _ _ _ _ Hwf) Hin) as [c Hc].
  exists c. split; [done|]. destruct (block c) eqn:Hb; [|done].
  destruct Hfree. destruct (Hcells _ _ _ _ Hc) as (Hblk & _).
  apply Hblk in Hb. by destruct p.
Qed.

(** Every word becomes one clue. *)
Lemma built_length ws :
  let cl := buildCluesFromWords ws in
  (length (clR cl) + length (clD cl) + length (clI cl))%nat = length ws.
Proof.
  unfold buildCluesFromWords.
  induction ws as [|w ws IH] using rev_ind; [done|].
  rewrite fold_left_app. simpl.
  destruct (buildClues_spec ws) as (Hinv & _).
  destruct (numberWord_spec _ w Hinv) as (n & _ & _ & _ & ->).
  rewrite length_app. simpl in *.
  destruct (w_dir w); simpl; rewrite length_app; simpl; lia.
Qed.

(** ** Counting in lists without repetition *)

Lemma filter_length_mark {A} (f f' : A → bool) (l : list A) (x : A) :
  NoDup l → x ∈ l → f x = false → f' x = true →
  (∀ y, y ∈ l → y ≠ x → f' y = f y) →
  length (List.filter f' l) = S (length (List.filter f l)).
Proof.
  intros Hnd Hx Hfx Hfx' Hother.
  induction l as [|a l IH]; [by apply elem_of_nil in Hx|].
  apply NoDup_cons in Hnd as [Ha Hnd].
  apply elem_of_cons in Hx as [->|Hx].
  - simpl. rewrite Hfx, Hfx'. simpl. do 2 f_equal.
    apply List.filter_ext_in. intros y Hy%list_elem_of_In.
    apply Hother; [by right|]. intros ->. done.
  - assert (a ≠ x) as Hax by (intros ->; done).
    simpl. rewrite (Hother a) by (done || by left).
    assert (length (List.filter f' l) = S (length (List.filter f l))) as IH'.
    { apply IH; [done..|]. intros y Hy. apply Hother. by right. }
    destruct (f a); simpl; by rewrite IH'.
Qed.

Lemma filter_length_le {A} (f g : A → bool) (l : list A) :
  (∀ x, x ∈ l → f x = true → g x = true) →
  (length (List.filter f l) ≤ length (List.filter g l))%nat.
Proof.
  induction l as [|a l IH]; intros H; simpl; [done|].
  assert (length (List.filter f l) ≤ length (List.filter g l))%nat as Hl.
  { apply IH. intros x Hx. apply H. by right. }
  destruct (f a) eqn:Hfa.
  - rewrite (H a) by (done || by left). simpl. lia.
  - destruct (g a); simpl; lia.
Qed.

(** A subset with as many elements is the whole set. *)
Lemma filter_length_eq {A} (f g : A → bool) (l : list A) :
  (∀ x, x ∈ l → f x = true → g x = true) →
  length (List.filter f l) = length (List.filter g l) →
  ∀ x, x ∈ l → g x = true → f x = true.
Proof.
  induction l as [|a l IH]; intros H Hlen x Hx Hgx; [by apply elem_of_nil in Hx|].
  assert (length (List.filter f l) ≤ length (List.filter g l))%nat as Hl.
  { apply filter_length_le. intros y Hy. apply H. by right. }
  simpl in Hlen.
  destruct (f a) eqn:Hfa.
  - rewrite (H a) in Hlen by (done || by left). simpl in Hlen.
    apply elem_of_cons in Hx as [->|Hx]; [done|].
    apply IH; [|lia|done..]. intros y Hy. apply H. by right.
  - destruct (g a) eqn:Hga; simpl in Hlen; [lia|].
    apply elem_of_cons in Hx as [->|Hx]; [congruence|].
    apply IH; [|lia|done..]. intros y Hy. apply H. by right.
Qed.

Lemma filter_length_all {A} (f : A → bool) (l : list A) :
  (∀ x, x ∈ l → f x = true) → length (List.filter f l) = length l.
Proof.
  induction l as [|a l IH]; intros H; simpl; [done|].
  rewrite (H a) by by left. simpl. f_equal. apply IH. intros x Hx. apply H. by right.
Qed.

Lemma filter_length_none {A} (f : A → bool) (l : list A) :
  (∀ x, x ∈ l → f x = false) → length (List.filter f l) = 0%nat.
Proof.
  induction l as [|a l IH]; intros H; simpl; [done|].
  rewrite (H a) by by left. apply IH. intros x Hx. apply H. by right.
Qed.

Lemma filter_length_bound {A} (f : A → bool) (l : list A) :
  (length (List.filter f l) ≤ length l)%nat.
Proof. induction l as [|a l IH]; simpl; [done|]. destruct (f a); simpl; lia. Qed.

(** ** Connectivity *)

Lemma adj4_sym p q : adj4 p q → adj4 q p.
Proof. unfold adj4. lia. Qed.

Lemma connectedIn_start P p q : connectedIn P p q → P p.
Proof. induction 1; done. Qed.

Lemma connectedIn_end P p q : connectedIn P p q → P q.
Proof. induction 1; done. Qed.

Lemma connectedIn_trans P p q r :
  connectedIn P p q → connectedIn P q r → connectedIn P p r.
Proof.
  intros Hpq Hqr. induction Hqr as [|q r r' Hqr IH Hadj Hr]; [done|].
  eapply conn_step; [by apply IH | done | done].
Qed.

Lemma connectedIn_sym P p q : connectedIn P p q → connectedIn P q p.
Proof.
  induction 1 as [p Hp|p q r Hpq IH Hadj Hr]; [by constructor|].
  eapply connectedIn_trans; [|exact IH].
  eapply conn_step; [by constructor | by apply adj4_sym |].
  by eapply connectedIn_end.
Qed.

Lemma connectedIn_ext (P Q : Z * Z → Prop) p q :
  (∀ r, P r → Q r) → connectedIn P p q → connectedIn Q p q.
Proof. intros H. induction 1; [constructor; auto | eapply conn_step; eauto]. Qed.

Lemma singleComponent_ext (P Q : Z * Z → Prop) :
  (∀ r, P r ↔ Q r) → singleComponent P → singleComponent Q.
Proof.
  intros H [[p Hp] Hconn]. split; [exists p; by apply H|].
  intros a b Ha%H Hb%H. eapply connectedIn_ext; [|by apply Hconn]. intros r. apply H.
Qed.

(** All cells connected to one cell are connected to each other. *)
Lemma singleComponent_from (P : Z * Z → Prop) s :
  P s → (∀ p, P p → connectedIn P s p) → singleComponent P.
Proof.
  intros Hs Hall. split; [by exists s|]. intros p q Hp Hq.
  eapply connectedIn_trans; [apply connectedIn_sym|]; by apply Hall.
Qed.

(** ** The flood fill of a plane *)

Lemma length_bind_const {A B} (f : A → list B) (l : list A) (k : nat) :
  (∀ x, length (f x) = k) → length (l ≫= f) = (length l * k)%nat.
Proof.
  intros Hf. induction l as [|a l IH]; [done|].
  csimpl. rewrite length_app, Hf, IH. lia.
Qed.

Lemma getVis_setVis vis i j :
  0 ≤ i → (Z.to_nat i < length vis)%nat →
  getVis (setVis vis i) j = if decide (j = i) then true else getVis vis j.
Proof.
  intros Hi Hlen. unfold getVis, setVis. rewrite decide_True by done.
  rewrite idx_insert by (apply idx_is_Some; lia). by case_decide.
Qed.

Lemma length_setVis vis i : length (setVis vis i) = length vis.
Proof. unfold setVis. case_decide; [by rewrite length_insert | done]. Qed.

Section FloodProof.
Variables U V : Z.
Variable at_ : Z → Z → option Cell.
Hypothesis Hat : ∀ u v, is_Some (at_ u v) ↔ (0 ≤ u < U ∧ 0 ≤ v < V).

Lemma elem_of_planeOrder p :
    p ∈ planeOrder U V ↔ (0 ≤ p.1 < U ∧ 0 ≤ p.2 < V).
  Proof.
    unfold planeOrder. destruct p as [u v]. simpl.
    rewrite list_elem_of_bind. setoid_rewrite list_elem_of_bind.
    setoid_rewrite elem_of_seqZ. setoid_rewrite list_elem_of_singleton. split.
    - intros (v' & (u' & [= -> ->] & ?) & ?). lia.
    - intros [? ?]. exists v. split; [|lia]. exists u. split; [done | lia].
  Qed.

Lemma NoDup_planeOrder : NoDup (planeOrder U V).
  Proof.
    unfold planeOrder. apply NoDup_bind; [| |apply NoDup_seqZ].
    { intros v1 v2 p _ _ (u1 & Hp1%list_elem_of_singleton & _)%list_elem_of_bind
        (u2 & Hp2%list_elem_of_singleton & _)%list_elem_of_bind. congruence. }
    intros v _. apply NoDup_bind; [| |apply NoDup_seqZ].
    { intros u1 u2 p _ _ Hp1%list_elem_of_singleton Hp2%list_elem_of_singleton.
      congruence. }
    intros u _. apply NoDup_singleton.
  Qed.

Lemma length_planeOrder :
    0 ≤ U → 0 ≤ V → length (planeOrder U V) = Z.to_nat (U * V).
  Proof.
    intros HU HV. unfold planeOrder.
    rewrite (length_bind_const _ _ (Z.to_nat U)).
    - rewrite length_seqZ. lia.
    - intros v. rewrite (length_bind_const _ _ 1%nat); [|done].
      rewrite length_seqZ. lia.
  Qed.

Lemma plane_index_range p :
    p ∈ planeOrder U V → 0 ≤ p.2 * U + p.1 < U * V.
  Proof. intros [? ?]%elem_of_planeOrder. nia. Qed.

Lemma plane_index_inj p q :
    p ∈ planeOrder U V → q ∈ planeOrder U V →
    q.2 * U + q.1 = p.2 * U + p.1 → q = p.
  Proof.
    intros [? ?]%elem_of_planeOrder [? ?]%elem_of_planeOrder E.
    destruct p as [u v], q as [u' v']. simpl in *.
    assert (v' = v) as -> by nia. f_equal. lia.
  Qed.

Lemma openInb_spec p : openInb at_ p = true ↔ openIn at_ p.
  Proof.
    unfold openInb, openIn. destruct (at_ p.1 p.2) as [ce|]; [|naive_solver].
    rewrite negb_true_iff. naive_solver.
  Qed.

Lemma openIn_plane p : openIn at_ p → p ∈ planeOrder U V.
  Proof. intros (ce & Hce & _). apply elem_of_planeOrder, Hat. eauto. Qed.

  (** The first loop counts the open cells and finds one if there is any. *)
Lemma scan_spec :
    ∃ acc, forEach (scanStep at_) (planeOrder U V) (None, 0) = Some acc ∧
      acc.2 = Z.of_nat (length (List.filter (openInb at_) (planeOrder U V))) ∧
      (acc.2 ≠ 0 → ∃ s, acc.1 = Some s ∧ openIn at_ s).
  Proof.
    destruct (forEach_prefix (λ done acc,
      acc.2 = Z.of_nat (length (List.filter (openInb at_) done)) ∧
      (∀ s, acc.1 = Some s → openIn at_ s) ∧ (acc.1 = None → acc.2 = 0))
      (scanStep at_) (planeOrder U V) (None, 0)) as (acc & Hacc & Hcount & Hsome & Hnone).
    - done.
    - intros done a rest [start open] Hl (Hcount & Hsome & Hnone).
      simpl in Hcount, Hsome, Hnone.
      assert (a ∈ planeOrder U V) as Ha by (rewrite Hl, elem_of_app; right; by left).
      destruct (proj2 (Hat a.1 a.2)) as [ce Hce]; [by apply elem_of_planeOrder|].
      unfold scanStep. rewrite Hce. simpl.
      rewrite List.filter_app, length_app. simpl. unfold openInb at 2. rewrite Hce.
      destruct (block ce) eqn:Hb; simpl.
      + eexists. split; [done|]. simpl. split_and!; [lia | done | done].
      + eexists. split; [done|]. simpl. split_and!; [lia | |].
        * intros s. destruct start as [s0|]; intros [= <-]; [by apply Hsome|].
          by exists ce.
        * by destruct start.
    - exists acc. split_and!; [done..|]. intros Hne.
      destruct acc.1 as [s|] eqn:E; [eauto | by destruct Hne; apply Hnone].
  Qed.

Lemma marked_setVis vis p q :
    length vis = Z.to_nat (U * V) → p ∈ planeOrder U V → q ∈ planeOrder U V →
    marked U (setVis vis (p.2 * U + p.1)) q =
      if decide (q = p) then true else marked U vis q.
  Proof.
    intros Hlen Hp Hq. unfold marked.
    pose proof (plane_index_range p Hp).
    rewrite getVis_setVis by lia.
    destruct (decide (q = p)) as [->|Hne]; [by rewrite decide_True|].
    rewrite decide_False; [done|]. intros E. by apply Hne, plane_index_inj.
  Qed.

Lemma floodMeasure_nonneg start st : FloodInv U V at_ start st → 0 ≤ floodMeasure U V st.
  Proof.
    intros (_ & Hseen & _). unfold floodMeasure. rewrite Hseen.
    pose proof (filter_length_bound (marked U st.1.1) (planeOrder U V)). lia.
  Qed.

  (** Marking a new open neighbour of a marked cell keeps the invariant. *)
Lemma FloodInv_mark start vis stack seen cur n :
    FloodInv U V at_ start (vis, stack, seen) →
    cur ∈ planeOrder U V → marked U vis cur = true →
    n ∈ planeOrder U V → adj4 cur n → marked U vis n = false → openIn at_ n →
    FloodInv U V at_ start (setVis vis (n.2 * U + n.1), n :: stack, seen + 1).
  Proof.
    intros (Hlen & Hseen & Hconn & Hstack) Hcur Hmcur Hn Hadj Hmn Hopen.
    simpl in Hlen, Hseen, Hconn, Hstack.
    split_and!; simpl.
    - by rewrite length_setVis.
    - rewrite (filter_length_mark (marked U vis) _ _ n); [lia | | done | done | |].
      + apply NoDup_planeOrder.
      + rewrite marked_setVis by done. by rewrite decide_True.
      + intros y Hy Hne. rewrite marked_setVis by done. by rewrite decide_False.
    - intros p Hp. rewrite marked_setVis by done. case_decide as E.
      + subst p. intros _. apply (conn_step _ _ cur); [by apply Hconn | done | done].
      + by apply Hconn.
    - intros p [->|Hp]%elem_of_cons.
      + split; [done|]. rewrite marked_setVis by done. by rewrite decide_True.
      + destruct (Hstack p Hp) as [Hpp Hmp]. split; [done|].
        rewrite marked_setVis by done. by case_decide.
  Qed.

Lemma visit_spec start vis stack seen cu cv d :
    FloodInv U V at_ start (vis, stack, seen) →
    (cu, cv) ∈ planeOrder U V → marked U vis (cu, cv) = true → d ∈ neigh →
    ∃ st', visit U V at_ cu cv (vis, stack, seen) d = Some st' ∧
      FloodInv U V at_ start st' ∧ marked U st'.1.1 (cu, cv) = true ∧
      floodMeasure U V st' ≤ floodMeasure U V (vis, stack, seen).
  Proof.
    intros Hinv Hcur Hmcur Hd.
    assert (∃ st', Some (vis, stack, seen) = Some st' ∧
      FloodInv U V at_ start st' ∧ marked U st'.1.1 (cu, cv) = true ∧
      floodMeasure U V st' ≤ floodMeasure U V (vis, stack, seen)) as Hsame.
    { eexists. split; [done|]. split_and!; [done..|lia]. }
    unfold visit.
    destruct ((cu + d.1 <? 0) || (U <=? cu + d.1) || (cv + d.2 <? 0) || (V <=? cv + d.2))
      eqn:Hout; [done|].
    apply orb_false_iff in Hout as [Hout H4]. apply orb_false_iff in Hout as [Hout H3].
    apply orb_false_iff in Hout as [H1 H2].
    apply Z.ltb_ge in H1, H3. apply Z.leb_gt in H2, H4.
    set (n := (cu + d.1, cv + d.2)).
    assert (n ∈ planeOrder U V) as Hn by (apply elem_of_planeOrder; simpl; lia).
    change (getVis vis ((cv + d.2) * U + (cu + d.1))) with (marked U vis n).
    destruct (marked U vis n) eqn:Hmn; [done|].
    destruct (proj2 (Hat n.1 n.2)) as [ce Hce]; [by apply elem_of_planeOrder|].
    simpl in Hce. rewrite Hce. simpl.
    destruct (block ce) eqn:Hb; [done|].
    assert (adj4 (cu, cv) n) as Hadj.
    { unfold adj4, n. simpl. unfold neigh in Hd.
      repeat (apply elem_of_cons in Hd as [->|Hd]; [simpl; lia|]).
      by apply elem_of_nil in Hd. }
    eexists. split; [done|].
    pose proof Hinv as (Hlen & Hseen & _). simpl in Hlen, Hseen.
    split_and!.
    - apply (FloodInv_mark start vis stack seen (cu, cv) n); try done. by exists ce.
    - simpl. change ((cv + d.2) * U + (cu + d.1)) with (n.2 * U + n.1).
      rewrite marked_setVis by done. by case_decide.
    - unfold floodMeasure. simpl. lia.
  Qed.

Lemma visits_spec start vis stack seen cu cv :
    FloodInv U V at_ start (vis, stack, seen) →
    (cu, cv) ∈ planeOrder U V → marked U vis (cu, cv) = true →
    ∃ st', forEach (visit U V at_ cu cv) neigh (vis, stack, seen) = Some st' ∧
      FloodInv U V at_ start st' ∧
      floodMeasure U V st' ≤ floodMeasure U V (vis, stack, seen).
  Proof.
    intros Hinv Hcur Hmcur.
    destruct (forEach_total (λ st', FloodInv U V at_ start st' ∧
                marked U st'.1.1 (cu, cv) = true ∧
                floodMeasure U V st' ≤ floodMeasure U V (vis, stack, seen))
                (visit U V at_ cu cv) neigh (vis, stack, seen))
      as (st' & Hst' & Hinv' & _ & Hm); [split_and!; [done..|lia] | | by eauto].
    intros [[vis1 stack1] seen1] d Hd (Hinv1 & Hm1 & Hle).
    destruct (visit_spec start vis1 stack1 seen1 cu cv d Hinv1 Hcur Hm1 Hd)
      as (st2 & Hst2 & Hinv2 & Hm2 & Hle2).
    exists st2. split; [done|]. split_and!; [done..|lia].
  Qed.

  (** The flood runs to an empty stack within its fuel. *)
Lemma floodLoop_spec start fuel st :
    FloodInv U V at_ start st → (Z.to_nat (floodMeasure U V st) < fuel)%nat →
    ∃ st', floodLoop U V at_ fuel st = Some st' ∧ FloodInv U V at_ start st' ∧
      st'.1.2 = [].
  Proof.
    revert st. induction fuel as [|fuel IH]; intros [[vis stack] seen] Hinv Hfuel; [lia|].
    destruct stack as [|[cu cv] stack]; [by exists (vis, [], seen)|].
    change (floodLoop U V at_ (S fuel) (vis, (cu, cv) :: stack, seen))
      with (forEach (visit U V at_ cu cv) neigh (vis, stack, seen)
              ≫= floodLoop U V at_ fuel).
    pose proof Hinv as (Hlen & Hseen & Hconn & Hstack). simpl in Hlen, Hseen, Hconn, Hstack.
    destruct (Hstack (cu, cv)) as [Hcur Hmcur]; [by left|].
    assert (FloodInv U V at_ start (vis, stack, seen)) as Hinv0.
    { split_and!; simpl; [done..|]. intros p Hp. apply Hstack. by right. }
    destruct (visits_spec start vis stack seen cu cv Hinv0 Hcur Hmcur)
      as (st1 & -> & Hinv1 & Hle).
    simpl. apply IH; [done|].
    pose proof (floodMeasure_nonneg start st1 Hinv1).
    unfold floodMeasure in *. simpl in *. lia.
  Qed.

  (** The check never throws, and when it answers [true] the open cells of
      the plane form one component. *)
Lemma isConnectedPlane_spec :
    ∃ b, isConnectedPlane U V at_ = Some b ∧
         (b = true → singleComponent (openIn at_)).
  Proof.
    unfold isConnectedPlane.
    destruct scan_spec as ([start open] & -> & Hopen & Hstart).
    cbn -[floodLoop floodFuel setVis replicate] in *.
    destruct (decide (open = 0)) as [E|Hne]; [by exists false|].
    destruct (Hstart Hne) as (s & -> & Hs).
    cbn -[floodLoop floodFuel setVis replicate].
    pose proof (openIn_plane s Hs) as Hsp.
    pose proof (plane_index_range s Hsp) as Hrange.
    set (vis0 := replicate (Z.to_nat (U * V)) false).
    assert (∀ p, marked U vis0 p = false) as Hvis0.
    { intros p. unfold marked, getVis, idx, vis0. case_decide; [|done].
      destruct (replicate _ _ !! _) as [b|] eqn:E; [|done].
      by apply lookup_replicate in E as [-> _]. }
    assert (length vis0 = Z.to_nat (U * V)) as Hlen0 by apply length_replicate.
    assert (FloodInv U V at_ s (setVis vis0 (s.2 * U + s.1), [s], 1)) as Hinv.
    { split_and!; simpl.
      - by rewrite length_setVis.
      - rewrite (filter_length_mark (marked U vis0) _ _ s);
          [by rewrite filter_length_none | apply NoDup_planeOrder | done | done | |].
        + rewrite marked_setVis by done. by rewrite decide_True.
        + intros y Hy Hys. rewrite marked_setVis by done. by rewrite decide_False.
      - intros p Hp. rewrite marked_setVis by done. case_decide as E.
        + subst p. intros _. by constructor.
        + by rewrite Hvis0.
      - intros p ->%list_elem_of_singleton. split; [done|].
        rewrite marked_setVis by done. by rewrite decide_True. }
    destruct (floodLoop_spec s (floodFuel U V) _ Hinv) as (st' & -> & Hinv' & _).
    { unfold floodMeasure, floodFuel. simpl.
      apply elem_of_planeOrder in Hsp. rewrite length_planeOrder by lia. lia. }
    cbn -[floodLoop floodFuel setVis replicate].
    eexists. split; [done|]. intros Hb%bool_decide_eq_true.
    destruct Hinv' as (_ & Hseen & Hconn & _).
    apply (singleComponent_from _ s); [done|]. intros p Hp.
    pose proof (openIn_plane p Hp) as Hpp.
    apply Hconn; [done|].
    apply (filter_length_eq (marked U st'.1.1) (openInb at_) (planeOrder U V)).
    - intros q Hq Hmq. apply openInb_spec. eapply connectedIn_end. by apply Hconn.
    - lia.
    - done.
    - by apply openInb_spec.
  Qed.
End FloodProof.

(** ** Slices of the grid *)

Lemma elem_of_sliceXY g z p :
  p ∈ sliceXY g z ↔ cz p = z ∧ 0 ≤ cx p < NX g ∧ 0 ≤ cy p < NY g.
Proof.
  unfold sliceXY. destruct p as [x y z']. simpl.
  rewrite list_elem_of_bind. setoid_rewrite list_elem_of_bind.
  setoid_rewrite elem_of_seqZ. setoid_rewrite list_elem_of_singleton. split.
  - intros (y' & (x' & [= -> -> ->] & ?) & ?). lia.
  - intros (-> & ? & ?). exists y. split; [|lia]. exists x. split; [done | lia].
Qed.

Lemma elem_of_sliceXZ g y p :
  p ∈ sliceXZ g y ↔ cy p = y ∧ 0 ≤ cx p < NX g ∧ 0 ≤ cz p < NZ g.
Proof.
  unfold sliceXZ. destruct p as [x y' z]. simpl.
  rewrite list_elem_of_bind. setoid_rewrite list_elem_of_bind.
  setoid_rewrite elem_of_seqZ. setoid_rewrite list_elem_of_singleton. split.
  - intros (z' & (x' & [= -> -> ->] & ?) & ?). lia.
  - intros (-> & ? & ?). exists z. split; [|lia]. exists x. split; [done | lia].
Qed.

Lemma elem_of_sliceYZ g x p :
  p ∈ sliceYZ g x ↔ cx p = x ∧ 0 ≤ cy p < NY g ∧ 0 ≤ cz p < NZ g.
Proof.
  unfold sliceYZ. destruct p as [x' y z]. simpl.
  rewrite list_elem_of_bind. setoid_rewrite list_elem_of_bind.
  setoid_rewrite elem_of_seqZ. setoid_rewrite list_elem_of_singleton. split.
  - intros (z' & (y' & [= -> -> ->] & ?) & ?). lia.
  - intros (-> & ? & ?). exists z. split; [|lia]. exists y. split; [done | lia].
Qed.

Lemma forEach_cons {S A} (body : S → A → option S) a l s :
  forEach body (a :: l) s = body s a ≫= forEach body l.
Proof. done. Qed.

Lemma option_bind_Some {A B} (f : A → option B) (x : A) : Some x ≫= f = f x.
Proof. done. Qed.

Lemma openCount_cons g p l :
  openCount g (p :: l) = (if openB g p then 1 else 0) + openCount g l.
Proof. unfold openCount. simpl. destruct (openB g p); simpl length; lia. Qed.

(** The counting loops return the number of open cells of their slice. *)
Lemma countOpen_spec g l c0 :
  wfGrid g → (∀ p, p ∈ l → inBounds g (cx p) (cy p) (cz p) = true) →
  forEach (countStep g) l c0 = Some (c0 + openCount g l).
Proof.
  intros Hwf. revert c0.
  induction l as [|p l IH]; intros c0 Hin.
  - simpl. f_equal. unfold openCount. simpl. lia.
  - destruct (proj2 (cell_is_Some g _ _ _ Hwf) (Hin p ltac:(by left))) as [ce Hce].
    rewrite forEach_cons, openCount_cons.
    assert (countStep g c0 p = Some (if block ce then c0 else c0 + 1)) as ->
      by (unfold countStep; by rewrite Hce).
    rewrite option_bind_Some, IH by (intros q Hq; apply Hin; by right).
    unfold openB. rewrite Hce. destruct (block ce); simpl; f_equal; lia.
Qed.

Lemma sliceOpenCountXY_spec g z :
  wfGrid g → 0 ≤ z < NZ g → sliceOpenCountXY g z = Some (openCount g (sliceXY g z)).
Proof.
  intros Hwf Hz. unfold sliceOpenCountXY. rewrite countOpen_spec; [done..|].
  intros p (? & ? & ?)%elem_of_sliceXY. apply inBounds_spec. lia.
Qed.

Lemma sliceOpenCountXZ_spec g y :
  wfGrid g → 0 ≤ y < NY g → sliceOpenCountXZ g y = Some (openCount g (sliceXZ g y)).
Proof.
  intros Hwf Hz. unfold sliceOpenCountXZ. rewrite countOpen_spec; [done..|].
  intros p (? & ? & ?)%elem_of_sliceXZ. apply inBounds_spec. lia.
Qed.

Lemma sliceOpenCountYZ_spec g x :
  wfGrid g → 0 ≤ x < NX g → sliceOpenCountYZ g x = Some (openCount g (sliceYZ g x)).
Proof.
  intros Hwf Hz. unfold sliceOpenCountYZ. rewrite countOpen_spec; [done..|].
  intros p (? & ? & ?)%elem_of_sliceYZ. apply inBounds_spec. lia.
Qed.

Lemma cell_is_Some_range g x y z :
  wfGrid g →
  is_Some (cell g x y z) ↔ (0 ≤ x < NX g) ∧ (0 ≤ y < NY g) ∧ (0 ≤ z < NZ g).
Proof. intros Hwf. by rewrite cell_is_Some, inBounds_spec. Qed.

Lemma isConnectedXY_spec g z :
  wfGrid g → 0 ≤ z < NZ g →
  ∃ b, isConnectedXY g z = Some b ∧ (b = true → singleComponent (openXY g z)).
Proof.
  intros Hwf Hz. apply (isConnectedPlane_spec (NX g) (NY g) (λ x y, cell g x y z)).
  intros u v. rewrite cell_is_Some_range by done. lia.
Qed.

Lemma isConnectedXZ_spec g y :
  wfGrid g → 0 ≤ y < NY g →
  ∃ b, isConnectedXZ g y = Some b ∧ (b = true → singleComponent (openXZ g y)).
Proof.
  intros Hwf Hy. apply (isConnectedPlane_spec (NX g) (NZ g) (λ x z, cell g x y z)).
  intros u v. rewrite cell_is_Some_range by done. lia.
Qed.

Lemma isConnectedYZ_spec g x :
  wfGrid g → 0 ≤ x < NX g →
  ∃ b, isConnectedYZ g x = Some b ∧ (b = true → singleComponent (openYZ g x)).
Proof.
  intros Hwf Hx. apply (isConnectedPlane_spec (NY g) (NZ g) (λ y z, cell g x y z)).
  intros u v. rewrite cell_is_Some_range by done. lia.
Qed.

Lemma allOf_spec (Q : Z → Prop) (test : Z → option bool) (l : list Z) :
  (∀ i, i ∈ l → ∃ b, test i = Some b ∧ (b = true → Q i)) →
  ∃ b, allOf test l = Some b ∧ (b = true → ∀ i, i ∈ l → Q i).
Proof.
  induction l as [|i l IH]; intros H; simpl.
  - exists true. split; [done|]. intros _ i Hi. by apply elem_of_nil in Hi.
  - destruct (H i) as (b & -> & Hb); [by left|]. simpl. destruct b.
    + destruct IH as (b & -> & Hb'); [intros j Hj; apply H; by right|].
      exists b. split; [done|]. intros -> j [->|Hj]%elem_of_cons; [by apply Hb | by apply Hb'].
    + by exists false.
Qed.

Lemma allSlicesConnected_spec g :
  wfGrid g → ∃ b, allSlicesConnected g = Some b ∧ (b = true → allConnected g).
Proof.
  intros Hwf. unfold allSlicesConnected, allConnected.
  destruct (allOf_spec (λ z, singleComponent (openXY g z)) (isConnectedXY g) (seqZ 0 (NZ g)))
    as (b1 & -> & H1).
  { intros z Hz%elem_of_seqZ. apply isConnectedXY_spec; [done | lia]. }
  simpl. destruct b1; simpl; [|by exists false].
  destruct (allOf_spec (λ y, singleComponent (openXZ g y)) (isConnectedXZ g) (seqZ 0 (NY g)))
    as (b2 & -> & H2).
  { intros y Hy%elem_of_seqZ. apply isConnectedXZ_spec; [done | lia]. }
  simpl. destruct b2; simpl; [|by exists false].
  destruct (allOf_spec (λ x, singleComponent (openYZ g x)) (isConnectedYZ g) (seqZ 0 (NX g)))
    as (b3 & -> & H3).
  { intros x Hx%elem_of_seqZ. apply isConnectedYZ_spec; [done | lia]. }
  exists b3. split; [done|]. intros ->. split_and!.
  - intros z Hz. apply H1; [done|]. apply elem_of_seqZ. lia.
  - intros y Hy. apply H2; [done|]. apply elem_of_seqZ. lia.
  - intros x Hx. apply H3; [done|]. apply elem_of_seqZ. lia.
Qed.

Lemma acceptable_spec cfg g x y z :
  wfGrid g → inBounds g x y z = true →
  ∃ b, acceptable cfg g x y z = Some b ∧
    (b = true →
       minOpenPerSlice cfg ≤ openCount g (sliceXY g z) ∧
       minOpenPerSlice cfg ≤ openCount g (sliceXZ g y) ∧
       minOpenPerSlice cfg ≤ openCount g (sliceYZ g x) ∧
       allConnected g).
Proof.
  intros Hwf (Hx & Hy & Hz)%inBounds_spec. unfold acceptable.
  rewrite sliceOpenCountXY_spec by done. simpl.
  destruct (minOpenPerSlice cfg <=? _) eqn:E1; simpl; [|by exists false].
  rewrite sliceOpenCountXZ_spec by done. simpl.
  destruct (minOpenPerSlice cfg <=? openCount g (sliceXZ g y)) eqn:E2; simpl;
    [|by exists false].
  rewrite sliceOpenCountYZ_spec by done. simpl.
  destruct (minOpenPerSlice cfg <=? openCount g (sliceYZ g x)) eqn:E3; simpl;
    [|by exists false].
  destruct (allSlicesConnected_spec g Hwf) as (b & -> & Hb).
  exists b. split; [done|]. intros ->. apply Z.leb_le in E1, E2, E3. auto.
Qed.

(** ** The generator *)

Lemma pick_range (r : Q) (n : Z) :
  (0 <= r)%Q → (r < 1)%Q → 0 < n ≤ 2 ^ 31 → 0 ≤ pick r n < n.
Proof.
  intros H0 H1 Hn. unfold pick, toInt32.
  set (v := (r * inject_Z n)%Q).
  assert (0 ≤ Qfloor v < n) as Hfloor.
  { split.
    - rewrite <- (Qfloor_Z 0). apply Qfloor_resp_le.
      apply Qmult_le_0_compat; [done|]. unfold Qle. simpl. lia.
    - rewrite Zlt_Qlt. eapply Qle_lt_trans; [apply Qfloor_le|].
      unfold v. rewrite <- (Qmult_1_l (inject_Z n)) at 2.
      apply Qmult_lt_compat_r; [|done]. unfold Qlt. simpl. lia. }
  assert (0 ≤ Qnum v) as Hnum.
  { unfold v. destruct r as [rn rd]. unfold Qle in H0. cbn in H0 |- *. nia. }
  assert (Z.quot (Qnum v) (Z.pos (Qden v)) = Qfloor v) as ->.
  { unfold Qfloor. destruct v as [a b]. cbn in Hnum |- *. apply Z.quot_div_nonneg; lia. }
  rewrite Z.mod_small; lia.
Qed.

Lemma openCount_ext g g' l :
  (∀ p, p ∈ l → openB g' p = openB g p) → openCount g' l = openCount g l.
Proof.
  intros H. unfold openCount. do 2 f_equal.
  apply List.filter_ext_in. intros p Hp%list_elem_of_In. by apply H.
Qed.

Lemma slices_sameDims g g' :
  sameDims g g' →
  scanOrder g' = scanOrder g ∧
  (∀ z, sliceXY g' z = sliceXY g z) ∧ (∀ y, sliceXZ g' y = sliceXZ g y) ∧
  (∀ x, sliceYZ g' x = sliceYZ g x).
Proof.
  intros (Hx & Hy & Hz). unfold scanOrder, sliceXY, sliceXZ, sliceYZ.
  by rewrite Hx, Hy, Hz.
Qed.

(** Grids with the same cells satisfy the same constraints. *)
Lemma slicesOK_ext m g g' :
  sameDims g g' → (∀ x y z, cell g' x y z = cell g x y z) →
  slicesOK m g → slicesOK m g'.
Proof.
  intros Hd Hcell (HXY & HXZ & HYZ).
  destruct (slices_sameDims g g' Hd) as (_ & EXY & EXZ & EYZ).
  destruct Hd as (Hx & Hy & Hz).
  assert (∀ l, openCount g' l = openCount g l) as Hcount.
  { intros l. apply openCount_ext. intros p _. unfold openB. by rewrite Hcell. }
  split_and!.
  - intros z Hzr. rewrite Hz in Hzr. destruct (HXY z Hzr) as [Hc Hs].
    rewrite EXY, Hcount. split; [done|].
    eapply singleComponent_ext; [|exact Hs]. intros r. unfold openXY, openAt.
    by rewrite Hcell.
  - intros y Hyr. rewrite Hy in Hyr. destruct (HXZ y Hyr) as [Hc Hs].
    rewrite EXZ, Hcount. split; [done|].
    eapply singleComponent_ext; [|exact Hs]. intros r. unfold openXZ, openAt.
    by rewrite Hcell.
  - intros x Hxr. rewrite Hx in Hxr. destruct (HYZ x Hxr) as [Hc Hs].
    rewrite EYZ, Hcount. split; [done|].
    eapply singleComponent_ext; [|exact Hs]. intros r. unfold openYZ, openAt.
    by rewrite Hcell.
Qed.

Lemma blockCount_ext g g' :
  sameDims g g' → (∀ x y z, cell g' x y z = cell g x y z) →
  blockCount g' = blockCount g.
Proof.
  intros Hd Hcell. unfold blockCount.
  destruct (slices_sameDims g g' Hd) as (-> & _).
  do 2 f_equal. apply List.filter_ext. intros p. unfold blockedB. by rewrite Hcell.
Qed.

(** Blocking one open cell of a grid whose slices are in order, when the
    test accepts it. *)
Lemma slicesOK_accept m g g1 x y z :
  wfGrid g → sameDims g g1 →
  (∀ x' y' z', (x', y', z') ≠ (x, y, z) → cell g1 x' y' z' = cell g x' y' z') →
  slicesOK m g →
  m ≤ openCount g1 (sliceXY g1 z) → m ≤ openCount g1 (sliceXZ g1 y) →
  m ≤ openCount g1 (sliceYZ g1 x) → allConnected g1 →
  slicesOK m g1.
Proof.
  intros Hwf Hd Hother (HXY & HXZ & HYZ) H1 H2 H3 (CXY & CXZ & CYZ).
  destruct (slices_sameDims g g1 Hd) as (_ & EXY & EXZ & EYZ).
  pose proof Hd as (Hx & Hy & Hz).
  assert (∀ l, (mkCoord x y z) ∉ l → openCount g1 l = openCount g l) as Hcount.
  { intros l Hl. apply openCount_ext. intros p Hp. unfold openB.
    rewrite Hother; [done|]. intros [= E1 E2 E3]. destruct p. simpl in *. by subst. }
  split_and!.
  - intros z' Hz'. split; [|by apply CXY].
    destruct (decide (z' = z)) as [->|Hne]; [done|].
    rewrite EXY, Hcount; [apply HXY; lia|].
    intros (E & _)%elem_of_sliceXY. simpl in E. done.
  - intros y' Hy'. split; [|by apply CXZ].
    destruct (decide (y' = y)) as [->|Hne]; [done|].
    rewrite EXZ, Hcount; [apply HXZ; lia|].
    intros (E & _)%elem_of_sliceXZ. simpl in E. done.
  - intros x' Hx'. split; [|by apply CYZ].
    destruct (decide (x' = x)) as [->|Hne]; [done|].
    rewrite EYZ, Hcount; [apply HYZ; lia|].
    intros (E & _)%elem_of_sliceYZ. simpl in E. done.
Qed.

Lemma blockCount_accept g g1 x y z ce :
  wfGrid g → sameDims g g1 → cell g x y z = Some ce → block ce = false →
  (∀ x' y' z', cell g1 x' y' z' =
     if decide (x' = x ∧ y' = y ∧ z' = z) then Some (set_block true ce)
     else cell g x' y' z') →
  blockCount g1 = blockCount g + 1.
Proof.
  intros Hwf Hd Hce Hb Hnew. unfold blockCount.
  destruct (slices_sameDims g g1 Hd) as (-> & _).
  rewrite (filter_length_mark (blockedB g) (blockedB g1) _ (mkCoord x y z)); [lia | | | | |].
  - apply NoDup_scanOrder.
  - apply elem_of_scanOrder. by eapply cell_inBounds.
  - unfold blockedB. simpl. by rewrite Hce.
  - unfold blockedB. simpl. rewrite Hnew. by rewrite decide_True.
  - intros p _ Hp. unfold blockedB. rewrite Hnew. rewrite decide_False; [done|].
    intros (? & ? & ?). destruct p. simpl in *. by subst.
Qed.

Lemma underTarget_0 t : underTarget 0 t.
Proof. destruct t as [|[|]|n]; simpl; lia. Qed.

Lemma underTarget_step b t : ltNum b t = true → underTarget b t → underTarget (b + 1) t.
Proof.
  destruct t as [|[|]|n]; simpl; try done. intros Hlt%Z.ltb_lt Hle. lia.
Qed.

Lemma genLoop_unfold fuel cfg rnd target k s :
  genLoop (S fuel) cfg rnd target k s =
  if ltNum (g_blocks s) target && (g_tries s <? maxTries cfg) then
    let tries := g_tries s + 1 in
    let g := g_grid s in
    let x := pick (rnd k) (NX g) in
    let y := pick (rnd (S k)) (NY g) in
    let z := pick (rnd (S (S k))) (NZ g) in
    ce ← cell g x y z;
    if block ce then genLoop fuel cfg rnd target (S (S (S k))) (mkGen g (g_blocks s) tries)
    else
      g1 ← updCell (set_block true) g x y z;
      acceptable cfg g1 x y z ≫= λ ok : bool,
      if ok then
        genLoop fuel cfg rnd target (S (S (S k))) (mkGen g1 (g_blocks s + 1) tries)
      else
        g2 ← updCell (set_block false) g1 x y z;
        genLoop fuel cfg rnd target (S (S (S k))) (mkGen g2 (g_blocks s) tries)
  else Some s.
Proof. done. Qed.

Lemma GenInv_ext cfg target g g' b t t' :
  wfGrid g' → sameDims g g' → (∀ x y z, cell g' x y z = cell g x y z) →
  GenInv cfg target (mkGen g b t) → GenInv cfg target (mkGen g' b t').
Proof.
  intros Hwf' Hd Hcell (Hwf & Hx & Hy & Hz & Hok & Hb & Hle & Hcells). simpl in *.
  pose proof Hd as (Hx' & Hy' & Hz').
  split_and!; simpl; [done | congruence.. | | | done |].
  - by eapply slicesOK_ext.
  - by rewrite (blockCount_ext g g').
  - intros x y z c. rewrite Hcell. apply Hcells.
Qed.

(** The loop of the generator ends within its fuel, in a state satisfying
    the invariant and falsifying the loop condition. *)
Lemma genLoop_spec cfg rnd target fuel k s :
  unitDraws rnd → 0 < GEN_NX cfg ≤ 2 ^ 31 → 0 < GEN_NY cfg ≤ 2 ^ 31 → 0 < GEN_NZ cfg ≤ 2 ^ 31 →
  GenInv cfg target s →
  (Z.to_nat (maxTries cfg - g_tries s) < fuel)%nat →
  ∃ s', genLoop fuel cfg rnd target k s = Some s' ∧ GenInv cfg target s' ∧
    ¬ (ltNum (g_blocks s') target = true ∧ g_tries s' < maxTries cfg).
Proof.
  intros Hrnd HX HY HZ. revert k s.
  induction fuel as [|fuel IH]; intros k [g blocks tries] Hinv Hfuel; [lia|].
  rewrite genLoop_unfold. simpl g_blocks. simpl g_tries. simpl g_grid.
  destruct (ltNum blocks target && (tries <? maxTries cfg)) eqn:Hcond.
  2:{ exists (mkGen g blocks tries). split_and!; [done..|]. simpl.
      apply andb_false_iff in Hcond as [E|?%Z.ltb_ge]; [rewrite E; by intros [? _] | lia]. }
  apply andb_true_iff in Hcond as [Hbt Htm%Z.ltb_lt].
  pose proof Hinv as (Hwf & Hx & Hy & Hz & Hok & Hb & Hle & Hcells). simpl in *.
  cbv zeta.
  set (x := pick (rnd k) (NX g)).
  set (y := pick (rnd (S k)) (NY g)).
  set (z := pick (rnd (S (S k))) (NZ g)).
  assert (inBounds g x y z = true) as Hin.
  { apply inBounds_spec. unfold x, y, z. rewrite Hx, Hy, Hz.
    split_and!; apply pick_range; try done; apply Hrnd. }
  destruct (proj2 (cell_is_Some g x y z Hwf) Hin) as [ce Hce].
  rewrite Hce, option_bind_Some.
  destruct (block ce) eqn:Hbce.
  { apply IH; [|simpl; lia]. split_and!; simpl; done. }
  destruct (updCell_total (set_block true) g x y z Hwf Hin)
    as (g1 & ce' & -> & Hce' & Hwf1 & Hd1 & Hnew1).
  assert (ce' = ce) as -> by congruence.
  rewrite option_bind_Some.
  assert (inBounds g1 x y z = true) as Hin1 by by rewrite (inBounds_sameDims g g1).
  destruct (acceptable_spec cfg g1 x y z Hwf1 Hin1) as (ok & -> & Hacc).
  rewrite option_bind_Some.
  pose proof Hd1 as (Hx1 & Hy1 & Hz1).
  destruct ok.
  - destruct (Hacc eq_refl) as (A1 & A2 & A3 & Aconn).
    apply IH; [|simpl; lia].
    split_and!; simpl; [done | congruence.. | | | by apply underTarget_step |].
    + eapply (slicesOK_accept _ g g1 x y z); try done.
      intros x' y' z' Hne. rewrite Hnew1. rewrite decide_False; [done|].
      intros (-> & -> & ->). done.
    + rewrite (blockCount_accept g g1 x y z ce); try done. lia.
    + intros x' y' z' c. rewrite Hnew1. case_decide.
      * intros [= <-]. by apply (Hcells x y z ce).
      * apply Hcells.
  - destruct (updCell_total (set_block false) g1 x y z Hwf1 Hin1)
      as (g2 & ce1 & -> & Hce1 & Hwf2 & Hd2 & Hnew2).
    rewrite option_bind_Some.
    apply IH; [|simpl; lia].
    apply (GenInv_ext cfg target g g2 blocks tries); [done | by eapply sameDims_trans | | done].
    intros x' y' z'. rewrite Hnew2. case_decide as E.
    + destruct E as (-> & -> & ->). rewrite Hce. f_equal.
      rewrite Hnew1 in Hce1. rewrite decide_True in Hce1 by done.
      injection Hce1 as <-. destruct ce. simpl in *. by subst.
    + rewrite Hnew1. by rewrite decide_False.
Qed.

(** A full rectangle is one component. *)
Lemma rect_connected (P : Z * Z → Prop) (U V : Z) :
  (∀ p, P p ↔ (0 ≤ p.1 < U ∧ 0 ≤ p.2 < V)) → 0 < U → 0 < V → singleComponent P.
Proof.
  intros HP HU HV.
  assert (∀ n : nat, Z.of_nat n < U → connectedIn P (0, 0) (Z.of_nat n, 0)) as Hrow.
  { induction n as [|n IH]; intros Hn.
    - constructor. apply HP. simpl. lia.
    - apply (conn_step _ _ (Z.of_nat n, 0)); [apply IH; lia | |].
      + unfold adj4. simpl. lia.
      + apply HP. simpl. lia. }
  assert (∀ u (m : nat), 0 ≤ u < U → Z.of_nat m < V →
            connectedIn P (0, 0) (u, Z.of_nat m)) as Hcol.
  { intros u m Hu. induction m as [|m IH]; intros Hm.
    - replace u with (Z.of_nat (Z.to_nat u)) by lia. apply Hrow. lia.
    - apply (conn_step _ _ (u, Z.of_nat m)); [apply IH; lia | |].
      + unfold adj4. simpl. lia.
      + apply HP. simpl. lia. }
  apply (singleComponent_from _ (0, 0)).
  - apply HP. simpl. lia.
  - intros [u v] [Hu Hv]%HP. simpl in *.
    replace v with (Z.of_nat (Z.to_nat v)) by lia. apply Hcol; lia.
Qed.

Lemma length_sliceXY g z :
  0 ≤ NX g → 0 ≤ NY g → Z.of_nat (length (sliceXY g z)) = NX g * NY g.
Proof.
  intros Hx Hy. unfold sliceXY.
  rewrite (length_bind_const _ _ (Z.to_nat (NX g))).
  - rewrite length_seqZ. lia.
  - intros y. rewrite (length_bind_const _ _ 1%nat); [|done]. rewrite length_seqZ. lia.
Qed.

Lemma length_sliceXZ g y :
  0 ≤ NX g → 0 ≤ NZ g → Z.of_nat (length (sliceXZ g y)) = NX g * NZ g.
Proof.
  intros Hx Hz. unfold sliceXZ.
  rewrite (length_bind_const _ _ (Z.to_nat (NX g))).
  - rewrite length_seqZ. lia.
  - intros z. rewrite (length_bind_const _ _ 1%nat); [|done]. rewrite length_seqZ. lia.
Qed.

Lemma length_sliceYZ g x :
  0 ≤ NY g → 0 ≤ NZ g → Z.of_nat (length (sliceYZ g x)) = NY g * NZ g.
Proof.
  intros Hy Hz. unfold sliceYZ.
  rewrite (length_bind_const _ _ (Z.to_nat (NY g))).
  - rewrite length_seqZ. lia.
  - intros z. rewrite (length_bind_const _ _ 1%nat); [|done]. rewrite length_seqZ. lia.
Qed.

(** The grid the generator starts from satisfies its invariant. *)
Lemma GenInv_init cfg target g :
  0 < GEN_NX cfg ≤ 2 ^ 31 → 0 < GEN_NY cfg ≤ 2 ^ 31 → 0 < GEN_NZ cfg ≤ 2 ^ 31 →
  minOpenPerSlice cfg ≤ GEN_NX cfg * GEN_NY cfg →
  minOpenPerSlice cfg ≤ GEN_NX cfg * GEN_NZ cfg →
  minOpenPerSlice cfg ≤ GEN_NY cfg * GEN_NZ cfg →
  buildWorld (GEN_NX cfg) (GEN_NY cfg) (GEN_NZ cfg) = Some g →
  GenInv cfg target (mkGen g 0 0).
Proof.
  intros HX HY HZ M1 M2 M3 Hg.
  destruct (buildWorld_spec (GEN_NX cfg) (GEN_NY cfg) (GEN_NZ cfg))
    as (g' & Hg' & Hwf & Hx & Hy & Hz & Hcells); [lia..|].
  assert (g' = g) as -> by congruence.
  assert (∀ x y z, openAt g x y z ↔ (0 ≤ x < NX g ∧ 0 ≤ y < NY g ∧ 0 ≤ z < NZ g)) as Hopen.
  { intros x y z. rewrite <- cell_is_Some_range by done. unfold openAt. split.
    - intros (c & -> & _). eauto.
    - intros [c Hc]. exists c. split; [done|]. by rewrite (Hcells _ _ _ _ Hc). }
  assert (∀ l, (∀ p, p ∈ l → inBounds g (cx p) (cy p) (cz p) = true) →
               openCount g l = Z.of_nat (length l)) as Hcount.
  { intros l Hl. unfold openCount. f_equal. apply filter_length_all.
    intros p Hp. unfold openB.
    destruct (proj2 (cell_is_Some g _ _ _ Hwf) (Hl p Hp)) as [c Hc].
    rewrite Hc. by rewrite (Hcells _ _ _ _ Hc). }
  split_and!; simpl; [done..| | | apply underTarget_0 | ].
  - split_and!.
    + intros z Hzr. split.
      * rewrite Hcount; [rewrite length_sliceXY by lia; by rewrite Hx, Hy|].
        intros p (? & ? & ?)%elem_of_sliceXY. apply inBounds_spec. lia.
      * apply (rect_connected _ (NX g) (NY g)); [|lia..].
        intros p. unfold openXY. rewrite Hopen. lia.
    + intros y Hyr. split.
      * rewrite Hcount; [rewrite length_sliceXZ by lia; by rewrite Hx, Hz|].
        intros p (? & ? & ?)%elem_of_sliceXZ. apply inBounds_spec. lia.
      * apply (rect_connected _ (NX g) (NZ g)); [|lia..].
        intros p. unfold openXZ. rewrite Hopen. lia.
    + intros x Hxr. split.
      * rewrite Hcount; [rewrite length_sliceYZ by lia; by rewrite Hy, Hz|].
        intros p (? & ? & ?)%elem_of_sliceYZ. apply inBounds_spec. lia.
      * apply (rect_connected _ (NY g) (NZ g)); [|lia..].
        intros p. unfold openYZ. rewrite Hopen. lia.
  - unfold blockCount. rewrite filter_length_none; [done|].
    intros p Hp%elem_of_scanOrder. unfold blockedB.
    destruct (proj2 (cell_is_Some g _ _ _ Hwf) Hp) as [c Hc].
    rewrite Hc. by rewrite (Hcells _ _ _ _ Hc).
  - intros x y z c Hc. by rewrite (Hcells _ _ _ _ Hc).
Qed.

(** The generator, from the grid it is given by [generatePuzzleJSON]. *)
Lemma generate_spec cfg rnd :
  unitDraws rnd →
  0 < GEN_NX cfg ≤ 2 ^ 31 → 0 < GEN_NY cfg ≤ 2 ^ 31 → 0 < GEN_NZ cfg ≤ 2 ^ 31 →
  minOpenPerSlice cfg ≤ GEN_NX cfg * GEN_NY cfg →
  minOpenPerSlice cfg ≤ GEN_NX cfg * GEN_NZ cfg →
  minOpenPerSlice cfg ≤ GEN_NY cfg * GEN_NZ cfg →
  ∃ g0 s,
    buildWorld (GEN_NX cfg) (GEN_NY cfg) (GEN_NZ cfg) = Some g0 ∧
    generateConnectedBlocks cfg rnd g0 = Some s ∧
    GenInv cfg (targetBlocksOf cfg g0) s ∧
    ¬ (ltNum (g_blocks s) (targetBlocksOf cfg g0) = true ∧ g_tries s < maxTries cfg).
Proof.
  intros Hrnd HX HY HZ M1 M2 M3.
  destruct (buildWorld_spec (GEN_NX cfg) (GEN_NY cfg) (GEN_NZ cfg))
    as (g0 & Hg0 & _); [lia..|].
  pose proof (GenInv_init cfg (targetBlocksOf cfg g0) g0 HX HY HZ M1 M2 M3 Hg0) as Hinit.
  destruct (genLoop_spec cfg rnd (targetBlocksOf cfg g0) (S (Z.to_nat (maxTries cfg))) 0
              (mkGen g0 0 0) Hrnd HX HY HZ Hinit) as (s & Hs & Hinv & Hexit).
  { simpl. lia. }
  exists g0, s. done.
Qed.

(** ** Blocked cells after a load *)

Lemma load_blocked js :
  0 ≤ p_nx js < 2 ^ 32 → 0 ≤ p_ny js < 2 ^ 32 → 0 ≤ p_nz js < 2 ^ 32 →
  ∃ st, loadPuzzleFromJSON js = Some st ∧ LoadInv js (grid st) ∧
    blockedLetterless st ∧
    (p_words js = [] → hasClues (p_clues js) = false → blockedClean (grid st)).
Proof.
  intros Hx Hy Hz.
  destruct (load_phases js Hx Hy Hz)
    as (g0 & g1 & cl & st & Hst & [Hinv Hzero] & Hsol & Hnum & Hb & _ & HB).
  pose proof Hinv as (Hwf0 & _). pose proof Hsol as (Hwf1 & _).
  assert (∀ x y z c, cell (grid st) x y z = Some c → block c = true →
            ∃ c1, cell g1 x y z = Some c1 ∧ block c1 = true ∧
              sol c = "" ∧ ch c = "" ∧
              ∀ d, numOf d c = 0 ∨
                   ∃ k, k ∈ cluesOf d cl ∧ c_start k = mkCoord x y z ∧
                        numOf d c = c_n k) as Hblocked.
  { intros x y z c Hc Hblk.
    destruct (cellwise_inv _ _ _ _ _ _ _ Hwf1 Hnum Hc) as (c1 & Hc1 & Hb1 & Hch1 & Hs1 & Hn1).
    destruct (cellwise_inv _ _ _ _ _ _ _ Hwf0 Hsol Hc1) as (c0 & Hc0 & Hrel).
    assert (c1 = c0) as ->.
    { destruct Hrel as [->|(Hopen & s & ->)]; [done|]. simpl in Hb1. congruence. }
    destruct (Hzero _ _ _ _ Hc0) as (Hs0 & HR & HD & HI).
    destruct Hinv as (_ & _ & _ & _ & Hinv). destruct (Hinv _ _ _ _ Hc0) as (_ & Hch0 & _).
    exists c0. split_and!; [done | congruence.. |].
    intros d. destruct (Hn1 d) as [E|?]; [|by right].
    left. rewrite E. by destruct d. }
  exists st. split_and!; [done | | |].
  - eapply LoadInv_numRel; [|done]. by eapply LoadInv_solRel.
  - intros x y z c Hc Hblk.
    destruct (Hblocked x y z c Hc Hblk) as (c1 & _ & _ & Hs & Hch & Hn).
    split_and!; [done..|]. intros d. destruct (Hn d) as [?|(k & Hk & Hks & Hkn)]; [by left|].
    right. destruct (bound_elem_of _ _ _ _ _ (Hb d) Hk) as (k' & Hk' & Hbd).
    apply bound_fields in Hbd as (En & _ & Es & _).
    exists k'. split_and!; [done | congruence..].
  - intros Hws Hno x y z c Hc Hblk.
    destruct (HB Hws) as (_ & cl0 & -> & _ & Hcl0). rewrite Hno in Hcl0.
    destruct Hcl0 as (_ & Hsound & _).
    destruct (Hblocked x y z c Hc Hblk) as (c1 & Hc1 & Hb1 & Hs & Hch & Hn).
    assert (∀ d, numOf d c = 0) as Hz0.
    { intros d. destruct (Hn d) as [?|(k & Hk & Hks & _)]; [done|].
      apply elem_of_hinted in Hk as (k0 & Hk0 & ->).
      destruct (Hsound d k0 Hk0) as (((c' & Hc' & Hopen) & _) & _).
      assert (c_start k0 = mkCoord x y z) as E.
      { rewrite <- Hks. destruct d; [done | symmetry; apply fillHint_fields..]. }
      rewrite E in Hc'. simpl in Hc'. congruence. }
    split_and!; [done | done | apply (Hz0 dirR) | apply (Hz0 dirD) | apply (Hz0 dirI)].
Qed.

(** ** The record the generator writes *)

Lemma blocksLoop_spec g l acc :
  wfGrid g → (∀ p, p ∈ l → inBounds g (cx p) (cy p) (cz p) = true) →
  forEach (blocksStep g) l acc = Some (acc ++ List.filter (blockedB g) l).
Proof.
  intros Hwf. revert acc. induction l as [|p l IH]; intros acc Hin.
  - simpl. by rewrite app_nil_r.
  - destruct (proj2 (cell_is_Some g _ _ _ Hwf) (Hin p ltac:(by left))) as [ce Hce].
    rewrite forEach_cons.
    assert (blocksStep g acc p = Some (if block ce then acc ++ [p] else acc)) as ->
      by (unfold blocksStep; by rewrite Hce).
    rewrite option_bind_Some, IH by (intros q Hq; apply Hin; by right).
    simpl. unfold blockedB at 2. rewrite Hce.
    destruct (block ce); [by rewrite <- app_assoc | done].
Qed.

Lemma dummyLoop_spec g :
  wfGrid g →
  ∃ r, forEach dummyStep (scanOrder g) (g, []) = Some r ∧ cellwise solRel g r.1.
Proof.
  intros Hwf.
  apply (forEach_total (λ r : Grid * list SolEntry, cellwise solRel g r.1)).
  - by apply cellwise_refl; [apply solRel_refl|].
  - intros [g1 sols] p Hp%elem_of_scanOrder Hstep. simpl in Hstep.
    pose proof Hstep as (Hwf1 & Hd & _).
    rewrite <- (inBounds_sameDims g g1) in Hp by done.
    destruct (proj2 (cell_is_Some g1 _ _ _ Hwf1) Hp) as [ce Hce].
    unfold dummyStep. simpl. rewrite Hce. simpl.
    destruct (block ce) eqn:Hb; [by eexists|].
    destruct (updCell_Some (set_sol (pseudoLetter (cx p) (cy p) (cz p))) _ _ _ _ _ Hce)
      as [g2 Hg2].
    rewrite Hg2. simpl. eexists. split; [done|]. simpl.
    eapply cellwise_trans; [apply solRel_trans | done |].
    eapply cellwise_updCell; [apply solRel_refl | done | done |].
    intros ce' Hce'. assert (ce' = ce) as -> by congruence. right. eauto.
Qed.

Lemma generatePuzzleJSON_spec cfg rnd :
  unitDraws rnd →
  0 < GEN_NX cfg ≤ 2 ^ 31 → 0 < GEN_NY cfg ≤ 2 ^ 31 → 0 < GEN_NZ cfg ≤ 2 ^ 31 →
  minOpenPerSlice cfg ≤ GEN_NX cfg * GEN_NY cfg →
  minOpenPerSlice cfg ≤ GEN_NX cfg * GEN_NZ cfg →
  minOpenPerSlice cfg ≤ GEN_NY cfg * GEN_NZ cfg →
  ∃ g0 s g sols jsClues,
    buildWorld (GEN_NX cfg) (GEN_NY cfg) (GEN_NZ cfg) = Some g0 ∧
    generateConnectedBlocks cfg rnd g0 = Some s ∧
    GenInv cfg (targetBlocksOf cfg g0) s ∧
    cellwise solRel (g_grid s) g ∧
    Extracted g jsClues ∧
    generatePuzzleJSON cfg rnd =
      Some (g, mkPuzzle (GEN_NX cfg) (GEN_NY cfg) (GEN_NZ cfg)
                 (List.filter (blockedB (g_grid s)) (scanOrder (g_grid s)))
                 [] sols jsClues).
Proof.
  intros Hrnd HX HY HZ M1 M2 M3.
  destruct (generate_spec cfg rnd Hrnd HX HY HZ M1 M2 M3)
    as (g0 & s & Hg0 & Hs & Hinv & _).
  pose proof Hinv as (Hwf & Hx & Hy & Hz & _).
  destruct (dummyLoop_spec (g_grid s) Hwf) as ([g sols] & Hdummy & Hsol).
  destruct (computeCluesFromWorld_spec g (proj1 Hsol)) as (jsClues & Hcl & Hex).
  exists g0, s, g, sols, jsClues. split_and!; [done..|].
  unfold generatePuzzleJSON. rewrite Hg0, option_bind_Some, Hs, option_bind_Some.
  cbv zeta.
  rewrite blocksLoop_spec; [|done | by intros p ?%elem_of_scanOrder].
  rewrite option_bind_Some, Hdummy, option_bind_Some. simpl fst. simpl snd.
  change (computeDirectionalCluesJSON g) with (computeCluesFromWorld g).
  rewrite Hcl, option_bind_Some. by rewrite Hx, Hy, Hz.
Qed.

(** ** The doubles of the configuration *)

(** The literal [0.18] is read as the double nearest to 18/100: the
    mantissa and exponent of [double_0_18] are those of a double, and they
    lie within half a unit in the last place of 18/100. *)
Example double_0_18_nearest :
  valid_binary 53 1024 double_0_18 = true ∧
  ∃ m e, double_0_18 = S754_finite false m e ∧
    2 * Z.abs (100 * Z.pos m - 18 * 2 ^ (- e)) ≤ 100.
Proof.
  split; [reflexivity|]. eexists _, _. split; [reflexivity|].
  vm_compute. discriminate.
Qed.

(** The same for the double nearest to 1/3. *)
Example double_third_nearest :
  valid_binary 53 1024 double_third = true ∧
  ∃ m e, double_third = S754_finite false m e ∧
    2 * Z.abs (3 * Z.pos m - 2 ^ (- e)) ≤ 3.
Proof.
  split; [reflexivity|]. eexists _, _. split; [reflexivity|].
  vm_compute. discriminate.
Qed.

(** [Math.floor(24 * 24 * 8 * 0.18)] is 829, and
    [Math.floor(3 * 2 * 1 * (1/3))] is 2: the product of 6 and the double
    nearest to 1/3 rounds to 2. *)
Example targetBlocks_CFG : targetBlocks double_0_18 24 24 8 = Int 829.
Proof. reflexivity. Qed.

Example targetBlocks_third : targetBlocks double_third 3 2 1 = Int 2.
Proof. reflexivity. Qed.

End Proofs.

Section ProofsUi.
Context {UC : CaseMapping}.

(** * The view and the input handlers *)

Lemma worldToView_viewToWorld ui i j :
  let w := viewToWorld ui i j in
  worldToView ui (cx w) (cy w) (cz w) = (i, j).
Proof.
  unfold viewToWorld, worldToView. destruct (view ui); simpl; f_equal; lia.
Qed.

Lemma viewToWorld_cursor ui :
  cursorInPlane ui →
  let p := worldToView ui (cx (cur ui)) (cy (cur ui)) (cz (cur ui)) in
  viewToWorld ui p.1 p.2 = cur ui.
Proof.
  unfold cursorInPlane, viewToWorld, worldToView. destruct (cur ui) as [x y z].
  destruct (view ui); simpl; intros H; f_equal; lia.
Qed.

Lemma ensureCursorVisible_fields vc g ui :
  let ui' := ensureCursorVisible vc g ui in
  view ui' = view ui ∧ cur ui' = cur ui ∧ depthX ui' = depthX ui ∧
  depthY ui' = depthY ui ∧ lastAxis ui' = lastAxis ui ∧ lastDir ui' = lastDir ui ∧
  clueHitboxes ui' = clueHitboxes ui.
Proof.
  unfold ensureCursorVisible. destruct (planeBounds g ui) as [U V].
  destruct (match view ui with XY => _ | XZ => _ | YZ => _ end) as [uCur vCur].
  done.
Qed.

Lemma slide_spec (c k W U : Z) :
  0 < W → 0 ≤ k < U →
  let u := constrain c 0 (Z.max 0 (U - W)) in
  let u := if k <? u then k else u in
  let u := if u + W <=? k then k - W + 1 else u in
  let u := constrain u 0 (Z.max 0 (U - W)) in
  0 ≤ u ≤ Z.max 0 (U - W) ∧ u ≤ k < u + W.
Proof.
  intros HW Hk. unfold constrain. cbv zeta.
  destruct (Z.ltb_spec k (Z.max (Z.min c (Z.max 0 (U - W))) 0)) as [H1|H1].
  - destruct (Z.leb_spec (k + W) k); lia.
  - destruct (Z.leb_spec (Z.max (Z.min c (Z.max 0 (U - W))) 0 + W) k); lia.
Qed.

Lemma ensureCursorVisible_spec vc g ui :
  0 < VIEW_W vc → 0 < VIEW_H vc → cursorOnGrid g ui →
  let ui' := ensureCursorVisible vc g ui in
  camInRange vc g ui' ∧
  cam_u (cam ui') ≤ (cursorUV ui).1 < cam_u (cam ui') + VIEW_W vc ∧
  cam_v (cam ui') ≤ (cursorUV ui).2 < cam_v (cam ui') + VIEW_H vc.
Proof.
  intros HW HH Hc. unfold cursorOnGrid in Hc. apply inBounds_spec in Hc.
  assert (0 ≤ (cursorUV ui).1 < (planeBounds g ui).1 ∧
          0 ≤ (cursorUV ui).2 < (planeBounds g ui).2) as [Hu Hv].
  { unfold cursorUV, planeBounds. destruct (view ui); simpl; lia. }
  pose proof (slide_spec (cam_u (cam ui)) _ _ _ HW Hu) as Su.
  pose proof (slide_spec (cam_v (cam ui)) _ _ _ HH Hv) as Sv.
  cbv zeta in Su, Sv.
  unfold camInRange, ensureCursorVisible.
  replace (planeBounds g (let '(Umax, Vmax) := planeBounds g ui in _)) with (planeBounds g ui).
  2:{ unfold planeBounds. destruct (view ui) eqn:E; simpl; rewrite E; done. }
  unfold cursorUV in *. destruct (planeBounds g ui) as [U V].
  destruct (match view ui with XY => _ | XZ => _ | YZ => _ end) as [uCur vCur].
  simpl in *. lia.
Qed.

Lemma openAt_inBounds g x y z : wfGrid g → openAt g x y z → inBounds g x y z = true.
Proof. intros Hwf (c & Hc & _). by eapply cell_inBounds. Qed.

Lemma moveInView_eq du dv g ui :
  moveInView du dv g ui =
  let n := moveTarget du dv ui in
  let ui1 := moveNoted du dv ui in
  if negb (inBounds g (cx n) (cy n) (cz n)) then Some ui1
  else ce ← cell g (cx n) (cy n) (cz n);
       if block ce then Some ui1 else Some (select (cx n) (cy n) (cz n) ui1).
Proof.
  unfold moveInView, moveTarget, moveNoted.
  destruct (cur ui) as [x y z]. destruct (view ui); reflexivity.
Qed.

Lemma moveNoted_fields du dv ui :
  let ui1 := moveNoted du dv ui in
  view ui1 = view ui ∧ cam ui1 = cam ui ∧ cur ui1 = cur ui ∧
  depthX ui1 = depthX ui ∧ depthY ui1 = depthY ui ∧
  clueHitboxes ui1 = clueHitboxes ui.
Proof.
  unfold moveNoted. destruct (view ui) eqn:E; repeat case_decide; simpl; rewrite ?E; done.
Qed.

Lemma moveInView_spec du dv g ui :
  wfGrid g →
  ∃ ui', moveInView du dv g ui = Some ui' ∧
    view ui' = view ui ∧ cam ui' = cam ui ∧ clueHitboxes ui' = clueHitboxes ui ∧
    ((cur ui' = cur ui ∧ depthX ui' = depthX ui ∧ depthY ui' = depthY ui) ∨
     (openAt g (cx (cur ui')) (cy (cur ui')) (cz (cur ui')) ∧
      depthX ui' = cx (cur ui') ∧ depthY ui' = cy (cur ui') ∧
      cur ui' = moveTarget du dv ui)).
Proof.
  intros Hwf. rewrite moveInView_eq. cbv zeta.
  destruct (moveNoted_fields du dv ui) as (H1 & H2 & H3 & H4 & H5 & H6).
  set (n := moveTarget du dv ui). set (ui1 := moveNoted du dv ui) in *.
  destruct (inBounds g (cx n) (cy n) (cz n)) eqn:Hin; simpl.
  2:{ exists ui1. split_and!; try done. by left. }
  destruct (proj2 (cell_is_Some g _ _ _ Hwf) Hin) as [ce Hce]. rewrite Hce. simpl.
  destruct (block ce) eqn:Hb.
  - exists ui1. split_and!; try done. by left.
  - eexists. split; [done|]. simpl. split_and!; try done. right.
    split_and!; try done.
    + exists ce. done.
    + by destruct n.
Qed.

Lemma constrain_range n hi : 0 ≤ hi → 0 ≤ constrain n 0 hi ≤ hi.
Proof. unfold constrain. lia. Qed.

Lemma wheelStep_unit delta : wheelStep delta = 1 ∨ wheelStep delta = -1.
Proof. unfold wheelStep. destruct (Qle_bool delta 0); auto. Qed.

Lemma mouseWheel_spec delta g ui :
  cursorOnGrid g ui → cursorInPlane ui →
  let ui' := mouseWheel delta g ui in
  cursorOnGrid g ui' ∧ cursorInPlane ui' ∧
  view ui' = view ui ∧ cam ui' = cam ui ∧ clueHitboxes ui' = clueHitboxes ui ∧
  lastAxis ui' = lastAxis ui ∧
  cursorUV ui' = cursorUV ui ∧
  - 1 ≤ cx (cur ui') - cx (cur ui) ≤ 1 ∧
  - 1 ≤ cy (cur ui') - cy (cur ui) ≤ 1 ∧
  - 1 ≤ cz (cur ui') - cz (cur ui) ≤ 1.
Proof.
  unfold cursorOnGrid, cursorInPlane, mouseWheel, cursorUV.
  destruct (cur ui) as [x y z] eqn:Hcur. simpl.
  intros Hin%inBounds_spec Hpl.
  destruct (wheelStep_unit delta) as [-> | ->];
    destruct (view ui) eqn:Hv; simpl; rewrite ?Hv; simpl;
    rewrite inBounds_spec; unfold constrain; split_and!; try done; try lia.
Qed.

Lemma typeAtCursor_spec s g ui :
  wfGrid g → cursorOnGrid g ui →
  ∃ g' ce, typeAtCursor s g ui = Some g' ∧
    cell g (cx (cur ui)) (cy (cur ui)) (cz (cur ui)) = Some ce ∧
    wfGrid g' ∧ sameDims g g' ∧
    ∀ x y z, cell g' x y z =
      if decide (x = cx (cur ui) ∧ y = cy (cur ui) ∧ z = cz (cur ui))
      then Some (if block ce then ce else set_ch s ce)
      else cell g x y z.
Proof.
  intros Hwf Hin. unfold typeAtCursor, cursorOnGrid in *.
  destruct (updCell_total (set_ch s) g _ _ _ Hwf Hin) as (g' & ce & Hg' & Hce & Hwf' & Hd & Hcell).
  rewrite Hce. simpl. destruct (block ce) eqn:Hb; simpl.
  - exists g, ce. split_and!; try done.
    intros x y z. case_decide as E; [|done]. destruct E as (-> & -> & ->). by rewrite Hb.
  - exists g', ce. split_and!; try done. intros x y z. by rewrite Hcell, Hb.
Qed.

Lemma typeAtCursor_off_grid s g ui :
  wfGrid g → ¬ cursorOnGrid g ui → typeAtCursor s g ui = None.
Proof.
  intros Hwf Hout. unfold typeAtCursor. rewrite cell_None; [done..|].
  unfold cursorOnGrid in Hout. by destruct (inBounds g _ _ _).
Qed.

Lemma jumpToClue_fields kind c ui :
  let ui' := jumpToClue kind c ui in
  cur ui' = c_start c ∧ cam ui' = mkCam 0 0 ∧ cursorInPlane ui' ∧
  clueHitboxes ui' = clueHitboxes ui ∧
  view ui' = match kind with
             | dirR | dirD => XY
             | dirI => match lastAxis ui with axisX => XZ | axisY => YZ end
             end.
Proof.
  unfold jumpToClue, cursorInPlane. destruct (c_start c) as [x y z].
  destruct kind; simpl; try done. destruct (lastAxis ui); done.
Qed.

Lemma visibleStep_spec vc ui out c :
  (startShown vc ui (c_start c) ∧ visibleStep vc ui out c = out ++ [c]) ∨
  (¬ startShown vc ui (c_start c) ∧ visibleStep vc ui out c = out).
Proof.
  unfold visibleStep, startShown. destruct (view ui); cbv zeta;
    repeat match goal with
    | |- context [?a =? ?b] => destruct (Z.eqb_spec a b); simpl
    | |- context [?a <? ?b] => destruct (Z.ltb_spec a b); simpl
    end; first [left; split; [lia | done] | right; split; [lia | done]].
Qed.

Lemma getVisibleClues_fold vc ui l out c :
  c ∈ fold_left (visibleStep vc ui) l out ↔
  c ∈ out ∨ (c ∈ l ∧ startShown vc ui (c_start c)).
Proof.
  revert out. induction l as [|a l IH]; intros out; simpl.
  - rewrite elem_of_nil. naive_solver.
  - rewrite IH, elem_of_cons.
    destruct (visibleStep_spec vc ui out a) as [[Hs ->] | [Hs ->]].
    + rewrite elem_of_app, list_elem_of_singleton. naive_solver.
    + naive_solver.
Qed.

Lemma elem_of_getVisibleClues vc cl ui kind c :
  c ∈ getVisibleClues vc cl ui kind ↔
  c ∈ cluesOf kind cl ∧ startShown vc ui (c_start c).
Proof.
  unfold getVisibleClues. cbv zeta. rewrite getVisibleClues_fold, elem_of_nil.
  unfold cluesOf. naive_solver.
Qed.

Lemma columnHitboxes_spec vc kind lst x y w lineH lines hb :
  hb ∈ columnHitboxes vc kind lst x y w lineH lines →
  hb_kind hb = kind ∧ hb_clue hb ∈ lst ∧ hb_w hb = w ∧ hb_h hb = lineH.
Proof.
  revert lst y. induction lines as [|n IH]; intros lst y; simpl.
  - destruct lst; by intros ?%elem_of_nil.
  - destruct lst as [|c lst]; [by intros ?%elem_of_nil|].
    intros [-> | H]%elem_of_cons.
    + simpl. split_and!; try done. apply elem_of_cons. by left.
    + destruct (IH _ _ H) as (? & ? & ? & ?). split_and!; try done.
      apply elem_of_cons. by right.
Qed.

Lemma length_columnHitboxes vc kind lst x y w lineH lines :
  length (columnHitboxes vc kind lst x y w lineH lines) = (lines `min` length lst)%nat.
Proof.
  revert lst y. induction lines as [|n IH]; intros lst y; simpl; [by destruct lst|].
  destruct lst; simpl; [done|]. by rewrite IH.
Qed.

Lemma drawBottomClues_spec vc cl ui :
  let ui' := drawBottomClues vc cl ui in
  view ui' = view ui ∧ cur ui' = cur ui ∧ cam ui' = cam ui ∧
  depthX ui' = depthX ui ∧ depthY ui' = depthY ui ∧
  lastAxis ui' = lastAxis ui ∧ lastDir ui' = lastDir ui ∧
  ∀ hb, hb ∈ clueHitboxes ui' →
    hb_clue hb ∈ getVisibleClues vc cl ui (hb_kind hb).
Proof.
  unfold drawBottomClues, drawClueColumn. cbv zeta. simpl.
  split_and!; try done.
  intros hb. rewrite !elem_of_app.
  change (getVisibleClues vc cl (set_hitboxes [] ui)) with (getVisibleClues vc cl ui).
  intros [[H | H] | H]; apply columnHitboxes_spec in H as (-> & H & _); done.
Qed.

Lemma clickClue_spec mouseX mouseY hbs ui :
  clickClue mouseX mouseY hbs ui = ui ∨
  ∃ hb, hb ∈ hbs ∧ inHitbox mouseX mouseY hb ∧
        clickClue mouseX mouseY hbs ui = jumpToClue (hb_kind hb) (hb_clue hb) ui.
Proof.
  induction hbs as [|hb hbs IH]; simpl; [by left|].
  destruct (Qle_bool (inject_Z (hb_x hb)) mouseX) eqn:H1; simpl.
  2:{ destruct IH as [IH | (h & ? & ? & ?)]; [by left|].
      right. exists h. split; [apply elem_of_cons; by right | done]. }
  destruct (Qle_bool mouseX (inject_Z (hb_x hb + hb_w hb))) eqn:H2; simpl.
  2:{ destruct IH as [IH | (h & ? & ? & ?)]; [by left|].
      right. exists h. split; [apply elem_of_cons; by right | done]. }
  destruct (Qle_bool (inject_Z (hb_y hb)) mouseY) eqn:H3; simpl.
  2:{ destruct IH as [IH | (h & ? & ? & ?)]; [by left|].
      right. exists h. split; [apply elem_of_cons; by right | done]. }
  destruct (Qle_bool mouseY (inject_Z (hb_y hb + hb_h hb))) eqn:H4; simpl.
  2:{ destruct IH as [IH | (h & ? & ? & ?)]; [by left|].
      right. exists h. split; [apply elem_of_cons; by right | done]. }
  right. exists hb. split; [apply elem_of_cons; by left|]. split; [|done].
  unfold inHitbox. by rewrite <- !Qle_bool_iff.
Qed.

Lemma mousePressed_spec vc mouseX mouseY g ui :
  wfGrid g →
  ∃ ui', mousePressed vc mouseX mouseY g ui = Some ui' ∧
    (ui' = ui ∨
     (∃ i j, 0 ≤ i < (planeBounds g ui).1 ∧ 0 ≤ j < (planeBounds g ui).2 ∧
        let w := viewToWorld ui i j in
        openAt g (cx w) (cy w) (cz w) ∧ ui' = select (cx w) (cy w) (cz w) ui) ∨
     (∃ hb, hb ∈ clueHitboxes ui ∧ inHitbox mouseX mouseY hb ∧
        ui' = jumpToClue (hb_kind hb) (hb_clue hb) ui)).
Proof.
  intros Hwf. unfold mousePressed. cbv zeta.
  set (i := Qfloor ((mouseX - inject_Z (MARGIN vc)) / inject_Z (CELL vc))).
  set (j := Qfloor ((mouseY - inject_Z (MARGIN vc)) / inject_Z (CELL vc))).
  assert (Hclue : ∃ ui', Some (clickClue mouseX mouseY (clueHitboxes ui) ui) = Some ui' ∧
    (ui' = ui ∨
     (∃ i j, 0 ≤ i < (planeBounds g ui).1 ∧ 0 ≤ j < (planeBounds g ui).2 ∧
        let w := viewToWorld ui i j in
        openAt g (cx w) (cy w) (cz w) ∧ ui' = select (cx w) (cy w) (cz w) ui) ∨
     (∃ hb, hb ∈ clueHitboxes ui ∧ inHitbox mouseX mouseY hb ∧
        ui' = jumpToClue (hb_kind hb) (hb_clue hb) ui))).
  { eexists. split; [done|].
    destruct (clickClue_spec mouseX mouseY (clueHitboxes ui) ui) as [-> | (hb & ? & ? & ->)];
      [by left | right; right; by exists hb]. }
  destruct ((0 <=? i) && (i <? VIEW_W vc) && (0 <=? j) && (j <? VIEW_H vc)); [|done].
  assert (Hpad : pad_Umax (getViewPadding vc g ui) = (planeBounds g ui).1 ∧
                 pad_Vmax (getViewPadding vc g ui) = (planeBounds g ui).2).
  { unfold getViewPadding. by destruct (planeBounds g ui). }
  destruct Hpad as [-> ->].
  set (ii := i - padLeft (getViewPadding vc g ui)).
  set (jj := j - padTop (getViewPadding vc g ui)).
  destruct (Z.ltb_spec ii 0); simpl; [exists ui; split; [done | by left]|].
  destruct (Z.ltb_spec jj 0); simpl; [exists ui; split; [done | by left]|].
  destruct (Z.leb_spec (planeBounds g ui).1 ii); simpl; [exists ui; split; [done | by left]|].
  destruct (Z.leb_spec (planeBounds g ui).2 jj); simpl; [exists ui; split; [done | by left]|].
  set (w := viewToWorld ui ii jj).
  destruct (inBounds g (cx w) (cy w) (cz w)) eqn:Hin; [|done].
  destruct (proj2 (cell_is_Some g _ _ _ Hwf) Hin) as [ce Hce]. rewrite Hce. simpl.
  destruct (block ce) eqn:Hb; simpl; [done|].
  eexists. split; [done|]. right. left. exists ii, jj. split; [lia|]. split; [lia|].
  cbv zeta. fold w. split; [by exists ce | done].
Qed.

Lemma firstOpen_spec g l :
  wfGrid g → (∀ p, p ∈ l → inBounds g (cx p) (cy p) (cz p) = true) →
  (firstOpen g l = Some None ∧ ∀ p, p ∈ l → ¬ openAt g (cx p) (cy p) (cz p)) ∨
  (∃ l1 p l2, firstOpen g l = Some (Some p) ∧ l = l1 ++ p :: l2 ∧
     openAt g (cx p) (cy p) (cz p) ∧
     ∀ q, q ∈ l1 → ¬ openAt g (cx q) (cy q) (cz q)).
Proof.
  intros Hwf. induction l as [|p l IH]; intros Hin; simpl.
  - left. split; [done|]. by intros p ?%elem_of_nil.
  - destruct (proj2 (cell_is_Some g _ _ _ Hwf) (Hin p ltac:(apply elem_of_cons; by left)))
      as [ce Hce].
    rewrite Hce. simpl. destruct (block ce) eqn:Hb; simpl.
    + assert (Hp : ¬ openAt g (cx p) (cy p) (cz p)).
      { intros (c & Hc & Hbc). congruence. }
      destruct IH as [[-> Hall] | (l1 & q & l2 & -> & -> & Hq & Hl1)].
      { intros q Hq. apply Hin, elem_of_cons. by right. }
      * left. split; [done|]. intros q [-> | ?]%elem_of_cons; auto.
      * right. exists (p :: l1), q, l2. split_and!; try done.
        intros r [-> | ?]%elem_of_cons; auto.
    + right. exists [], p, l. split_and!; try done.
      * by exists ce.
      * by intros q ?%elem_of_nil.
Qed.

Lemma pickFirstOpenCell_spec g ui :
  wfGrid g →
  ∃ ui', pickFirstOpenCell g ui = Some ui' ∧
    view ui' = view ui ∧ cam ui' = cam ui ∧ clueHitboxes ui' = clueHitboxes ui ∧
    depthX ui' = cx (cur ui') ∧ depthY ui' = cy (cur ui') ∧
    ((cur ui' = cur ui ∧ ∀ p, p ∈ scanOrder g → ¬ openAt g (cx p) (cy p) (cz p)) ∨
     (∃ l1 l2, scanOrder g = l1 ++ cur ui' :: l2 ∧
        openAt g (cx (cur ui')) (cy (cur ui')) (cz (cur ui')) ∧
        ∀ q, q ∈ l1 → ¬ openAt g (cx q) (cy q) (cz q))).
Proof.
  intros Hwf. unfold pickFirstOpenCell.
  destruct (firstOpen_spec g (scanOrder g) Hwf) as [[-> Hall] | (l1 & p & l2 & -> & Hl & Hp & Hl1)].
  { intros p. by rewrite elem_of_scanOrder. }
  - simpl. eexists. split; [done|]. simpl. split_and!; try done. by left.
  - simpl. eexists. split; [done|]. simpl. split_and!; try done. right. by exists l1, l2.
Qed.

Section KeyboardProofs.
Variable normalizeChar : string → option string.

Lemma keyPressed_spec k g ui :
  wfGrid g → cursorOnGrid g ui → cursorInPlane ui →
  ∃ g' ui', keyPressed normalizeChar k g ui = Some (g', ui') ∧
    wfGrid g' ∧ sameDims g g' ∧ cursorOnGrid g' ui' ∧ cursorInPlane ui' ∧
    clueHitboxes ui' = clueHitboxes ui ∧
    ∀ x y z c, cell g x y z = Some c →
      ∃ c', cell g' x y z = Some c' ∧
        (c' = c ∨ (mkCoord x y z = cur ui ∧ block c = false ∧ ∃ s, c' = set_ch s c)).
Proof.
  intros Hwf Hon Hpl.
  assert (Hsame : ∀ ui', cursorOnGrid g ui' → cursorInPlane ui' →
            clueHitboxes ui' = clueHitboxes ui →
            ∃ g' ui'', Some (g, ui') = Some (g', ui'') ∧
              wfGrid g' ∧ sameDims g g' ∧ cursorOnGrid g' ui'' ∧ cursorInPlane ui'' ∧
              clueHitboxes ui'' = clueHitboxes ui ∧
              ∀ x y z c, cell g x y z = Some c →
                ∃ c', cell g' x y z = Some c' ∧
                  (c' = c ∨ (mkCoord x y z = cur ui ∧ block c = false ∧ ∃ s, c' = set_ch s c))).
  { intros ui' H1 H2 H3. exists g, ui'. split_and!; try done. intros x y z c Hc. exists c. auto. }
  assert (Hmove : ∀ du dv,
            ∃ g' ui', (ui0 ← moveInView du dv g ui; Some (g, ui0)) = Some (g', ui') ∧
              wfGrid g' ∧ sameDims g g' ∧ cursorOnGrid g' ui' ∧ cursorInPlane ui' ∧
              clueHitboxes ui' = clueHitboxes ui ∧
              ∀ x y z c, cell g x y z = Some c →
                ∃ c', cell g' x y z = Some c' ∧
                  (c' = c ∨ (mkCoord x y z = cur ui ∧ block c = false ∧ ∃ s, c' = set_ch s c))).
  { intros du dv. destruct (moveInView_spec du dv g ui Hwf) as (ui' & -> & Hv & _ & Hh & Hcases).
    simpl. apply Hsame; [| |done].
    - unfold cursorOnGrid in *.
      destruct Hcases as [(E & _) | (Hopen & _)]; [by rewrite E|]. by apply openAt_inBounds.
    - unfold cursorInPlane in *. rewrite Hv.
      destruct Hcases as [(E1 & E2 & E3) | (_ & E2 & E3 & _)].
      + by rewrite E1, E2, E3.
      + rewrite E2, E3. by destruct (view ui). }
  assert (Htype : ∀ s,
            ∃ g' ui', (g0 ← typeAtCursor s g ui; Some (g0, ui)) = Some (g', ui') ∧
              wfGrid g' ∧ sameDims g g' ∧ cursorOnGrid g' ui' ∧ cursorInPlane ui' ∧
              clueHitboxes ui' = clueHitboxes ui ∧
              ∀ x y z c, cell g x y z = Some c →
                ∃ c', cell g' x y z = Some c' ∧
                  (c' = c ∨ (mkCoord x y z = cur ui ∧ block c = false ∧ ∃ s, c' = set_ch s c))).
  { intros s. destruct (typeAtCursor_spec s g ui Hwf Hon) as (g' & ce & -> & Hce & Hwf' & Hd & Hcell).
    simpl. exists g', ui. split_and!; try done.
    - unfold cursorOnGrid. by rewrite (inBounds_sameDims g g').
    - intros x y z c Hc. rewrite Hcell. case_decide as E.
      + destruct E as (-> & -> & ->). rewrite Hce in Hc. injection Hc as ->.
        eexists. split; [done|]. destruct (block c) eqn:Hb; [by left|].
        right. split_and!; [by destruct (cur ui) | done | by exists s].
      + exists c. auto. }
  destruct k; simpl; try apply Hmove; try apply Htype.
  - unfold cursorOnGrid, cursorInPlane in Hsame.
    destruct (view ui) eqn:Hv; [destruct (lastAxis ui)|..]; apply Hsame; done.
  - destruct (normalizeChar key) as [c|]; [|by apply Hsame].
    destruct (truthy c); [apply Htype | by apply Hsame].
Qed.

Lemma keyPressed_off_grid k g ui :
  wfGrid g → ¬ cursorOnGrid g ui →
  (k = BACKSPACE ∨ k = DELETE ∨
   ∃ key c, k = OTHER key ∧ normalizeChar key = Some c ∧ truthy c = true) →
  keyPressed normalizeChar k g ui = None.
Proof.
  intros Hwf Hout [-> | [-> | (key & c & -> & Hn & Ht)]]; simpl;
    rewrite ?Hn, ?Ht, typeAtCursor_off_grid; done.
Qed.
End KeyboardProofs.

Lemma chRel_refl p c : chRel p c c.
Proof. exists (ch c). by destruct c. Qed.

Lemma chRel_trans p c1 c2 c3 : chRel p c1 c2 → chRel p c2 c3 → chRel p c1 c3.
Proof. intros [s1 ->] [s2 ->]. by exists s2. Qed.

Lemma startsOnGrid_sameDims g g' cl :
  sameDims g g' → startsOnGrid g cl → startsOnGrid g' cl.
Proof. intros Hd H d c Hc. rewrite (inBounds_sameDims g g'); [by eapply H | done]. Qed.

Lemma hitboxesOnGrid_sameDims g g' ui ui' :
  sameDims g g' → clueHitboxes ui' = clueHitboxes ui →
  hitboxesOnGrid g ui → hitboxesOnGrid g' ui'.
Proof.
  intros Hd E H hb Hhb. rewrite (inBounds_sameDims g g'); [|done].
  apply H. by rewrite <- E.
Qed.

Lemma step_spec vc normalizeChar s i :
  SessionInv s →
  ∃ s', step vc normalizeChar s i = Some s' ∧ SessionInv s' ∧
    clues s'.1 = clues s.1 ∧ console s'.1 = console s.1 ∧
    cellwise chRel (grid s.1) (grid s'.1).
Proof.
  destruct s as [st ui]. intros (Hwf & Hst & Hhb & Hon & Hpl). simpl in *.
  destruct i as [|mx my|delta|k]; simpl.
  - eexists. split; [done|]. simpl. split_and!; try done.
    + unfold draw.
      pose proof (drawBottomClues_spec vc (clues st) (ensureCursorVisible vc (grid st) ui))
        as (Hv & Hc & _ & Hx & Hy & _ & _ & Hh).
      pose proof (ensureCursorVisible_fields vc (grid st) ui) as (Hv' & Hc' & Hx' & Hy' & _).
      set (ui1 := ensureCursorVisible vc (grid st) ui) in *.
      set (ui2 := drawBottomClues vc (clues st) ui1) in *.
      unfold SessionInv, cursorOnGrid, cursorInPlane in *. cbn [fst snd].
      rewrite Hv, Hc, Hx, Hy, Hv', Hc', Hx', Hy'. split_and!; try done.
      intros hb Hin. apply Hh, elem_of_getVisibleClues in Hin as [Hin _].
      by eapply Hst.
    + apply cellwise_refl; [apply chRel_refl | done].
  - destruct (mousePressed_spec vc mx my (grid st) ui Hwf) as (ui' & -> & Hcases).
    simpl. eexists. split; [done|]. simpl. split_and!; try done.
    2:{ apply cellwise_refl; [apply chRel_refl | done]. }
    unfold SessionInv. simpl. split_and!; try done.
    + destruct Hcases as [-> | [(a & b & _ & _ & _ & ->) | (hb & _ & _ & ->)]]; try done.
      intros h Hh. apply Hhb. by rewrite (proj1 (proj2 (proj2 (proj2 (jumpToClue_fields _ _ _)))) ) in Hh.
    + destruct Hcases as [-> | [(a & b & _ & _ & Ho & ->) | (hb & Hin & _ & ->)]]; try done.
      * by apply openAt_inBounds.
      * unfold cursorOnGrid. rewrite (proj1 (jumpToClue_fields _ _ _)). by apply Hhb.
    + destruct Hcases as [-> | [(a & b & _ & _ & Ho & ->) | (hb & Hin & _ & ->)]]; try done.
      * unfold cursorInPlane, select. simpl. by destruct (view ui).
      * apply jumpToClue_fields.
  - destruct (mouseWheel_spec delta (grid st) ui Hon Hpl) as (H1 & H2 & _ & _ & Hh & _).
    eexists. split; [done|]. simpl. split_and!; try done.
    + unfold SessionInv. simpl. split_and!; try done.
      by apply (hitboxesOnGrid_sameDims (grid st) (grid st) ui); [apply sameDims_refl|..].
    + apply cellwise_refl; [apply chRel_refl | done].
  - destruct (keyPressed_spec normalizeChar k (grid st) ui Hwf Hon Hpl)
      as (g' & ui' & -> & Hwf' & Hd & Hon' & Hpl' & Hh & Hcell).
    simpl. eexists. split; [done|]. simpl. split_and!; try done.
    + unfold SessionInv. simpl. split_and!; try done.
      * by apply (startsOnGrid_sameDims (grid st)).
      * by apply (hitboxesOnGrid_sameDims (grid st) g' ui).
    + split_and!; try done. intros x y z c Hc.
      destruct (Hcell x y z c Hc) as (c' & Hc' & [-> | (_ & _ & s & ->)]).
      * exists c. split; [done | apply chRel_refl].
      * eexists. split; [done | by exists s].
Qed.

Lemma session_spec vc normalizeChar inputs s :
  SessionInv s →
  ∃ s', session vc normalizeChar inputs s = Some s' ∧ SessionInv s' ∧
    clues s'.1 = clues s.1 ∧ console s'.1 = console s.1 ∧
    cellwise chRel (grid s.1) (grid s'.1).
Proof.
  unfold session. revert s. induction inputs as [|i inputs IH]; intros s Hs.
  - exists s. split_and!; try done. apply cellwise_refl; [apply chRel_refl | apply Hs].
  - destruct (step_spec vc normalizeChar s i Hs) as (s1 & E1 & Hs1 & Hc1 & Hl1 & Hg1).
    destruct (IH s1 Hs1) as (s2 & E2 & Hs2 & Hc2 & Hl2 & Hg2).
    exists s2. rewrite forEach_cons, E1. simpl. split_and!; try done; try congruence.
    eapply cellwise_trans; [apply chRel_trans | done..].
Qed.

Lemma half_spec (a : Z) : 0 ≤ a → 0 ≤ a / 2 ∧ 2 * (a / 2) ≤ a.
Proof.
  intros Ha. split; [by apply Z.div_pos | by apply Z.mul_div_le].
Qed.

Lemma ensureCursorVisible_fixed vc g ui :
  camInRange vc g ui →
  cam_u (cam ui) ≤ (cursorUV ui).1 < cam_u (cam ui) + VIEW_W vc →
  cam_v (cam ui) ≤ (cursorUV ui).2 < cam_v (cam ui) + VIEW_H vc →
  ensureCursorVisible vc g ui = ui.
Proof.
  unfold camInRange, ensureCursorVisible, cursorUV.
  destruct (planeBounds g ui) as [U V]. simpl.
  destruct (match view ui with XY => _ | XZ => _ | YZ => _ end) as [uCur vCur]. simpl.
  intros [Hu Hv] Hcu Hcv. unfold constrain.
  replace (Z.max (Z.min (cam_u (cam ui)) (Z.max 0 (U - VIEW_W vc))) 0) with (cam_u (cam ui)) by lia.
  replace (Z.max (Z.min (cam_v (cam ui)) (Z.max 0 (V - VIEW_H vc))) 0) with (cam_v (cam ui)) by lia.
  destruct (Z.ltb_spec uCur (cam_u (cam ui))); [lia|].
  destruct (Z.leb_spec (cam_u (cam ui) + VIEW_W vc) uCur); [lia|].
  destruct (Z.ltb_spec vCur (cam_v (cam ui))); [lia|].
  destruct (Z.leb_spec (cam_v (cam ui) + VIEW_H vc) vCur); [lia|].
  replace (Z.max (Z.min (cam_u (cam ui)) (Z.max 0 (U - VIEW_W vc))) 0) with (cam_u (cam ui)) by lia.
  replace (Z.max (Z.min (cam_v (cam ui)) (Z.max 0 (V - VIEW_H vc))) 0) with (cam_v (cam ui)) by lia.
  destruct ui as [? ? [? ?] ? ? ? ? ?]. done.
Qed.

Lemma planeBounds_view g ui ui' : view ui' = view ui → planeBounds g ui' = planeBounds g ui.
Proof. unfold planeBounds. by intros ->. Qed.

Lemma cursorUV_fields ui ui' :
  view ui' = view ui → cur ui' = cur ui → cursorUV ui' = cursorUV ui.
Proof. unfold cursorUV. by intros -> ->. Qed.

End ProofsUi.

Section ProofsMore.
Context {UC : CaseMapping}.

(** * More on loading, numbering and generation *)

Lemma mapM_None_cons {A B} (f : A → option B) a l : f a = None → mapM f (a :: l) = None.
Proof. intros H. simpl. by rewrite H. Qed.

Lemma newArray_None {A} (n : Z) (fill : Z → option A) :
  n < 0 ∨ (0 < n ∧ ∀ i, fill i = None) → newArray n fill = None.
Proof.
  unfold newArray. intros [H | [H Hf]].
  - rewrite decide_False; [done | lia].
  - case_decide; [|done].
    replace (seqZ 0 n) with (0 :: seqZ 1 (n - 1)).
    + by apply mapM_None_cons.
    + rewrite (seqZ_cons 0 n) by lia. f_equal.
Qed.

Lemma buildWorld_None nx ny nz :
  nz < 0 ∨ (0 < nz ∧ ny < 0) ∨ (0 < nz ∧ 0 < ny ∧ nx < 0) →
  buildWorld nx ny nz = None.
Proof.
  intros H. unfold buildWorld.
  rewrite newArray_None; [done|].
  destruct H as [H | [[H1 H2] | (H1 & H2 & H3)]]; [by left | right | right].
  - split; [done|]. intros _. apply newArray_None. by left.
  - split; [done|]. intros _. apply newArray_None. right. split; [done|].
    intros _. apply newArray_None. by left.
Qed.

Lemma newArray_not_length {A} (n : Z) (fill : Z → option A) :
  ¬ 0 ≤ n < 2 ^ 32 ∨ (0 < n ∧ ∀ i, fill i = None) → newArray n fill = None.
Proof.
  unfold newArray. intros [H | [H Hf]].
  - by rewrite decide_False.
  - case_decide; [|done].
    replace (seqZ 0 n) with (0 :: seqZ 1 (n - 1)).
    + by apply mapM_None_cons.
    + rewrite (seqZ_cons 0 n) by lia. f_equal.
Qed.

Lemma buildWorld_not_length nx ny nz :
  ¬ 0 ≤ nz < 2 ^ 32 ∨ (0 < nz ∧ ¬ 0 ≤ ny < 2 ^ 32) ∨
  (0 < nz ∧ 0 < ny ∧ ¬ 0 ≤ nx < 2 ^ 32) →
  buildWorld nx ny nz = None.
Proof.
  intros H. unfold buildWorld.
  rewrite newArray_not_length; [done|].
  destruct H as [H | [[H1 H2] | (H1 & H2 & H3)]]; [by left | right | right].
  - split; [done|]. intros _. apply newArray_not_length. by left.
  - split; [done|]. intros _. apply newArray_not_length. right. split; [done|].
    intros _. apply newArray_not_length. by left.
Qed.

Lemma solFrom_app init l1 l2 p :
  solFrom init (l1 ++ l2) p = solFrom (solFrom init l1 p) l2 p.
Proof. unfold solFrom. by rewrite fold_left_app. Qed.

Lemma set_sol_id c : set_sol (sol c) c = c.
Proof. by destruct c. Qed.

Lemma writeSolution_exact g s :
  wfGrid g →
  ∃ g1, writeSolution g s = Some g1 ∧ wfGrid g1 ∧ sameDims g g1 ∧
    ∀ x y z c, cell g x y z = Some c →
      cell g1 x y z =
        Some (if block c then c
              else set_sol (if decide (mkCoord (s_x s) (s_y s) (s_z s) = mkCoord x y z)
                            then s_ch s else sol c) c).
Proof.
  intros Hwf. unfold writeSolution.
  destruct (inBounds g (s_x s) (s_y s) (s_z s)) eqn:Hin; simpl.
  2:{ exists g. split_and!; try done. intros x y z c Hc. rewrite Hc. f_equal.
      destruct (block c); [done|]. rewrite decide_False; [by rewrite set_sol_id|].
      intros [= <- <- <-]. apply (cell_inBounds g) in Hc; [congruence | done]. }
  destruct (updCell_total (set_sol (s_ch s)) g _ _ _ Hwf Hin)
    as (g1 & ce & Hg1 & Hce & Hwf1 & Hd1 & Hcell1).
  rewrite Hce. simpl. destruct (block ce) eqn:Hb; simpl.
  - exists g. split_and!; try done. intros x y z c Hc. rewrite Hc. f_equal.
    destruct (block c) eqn:Hbc; [done|]. rewrite decide_False; [by rewrite set_sol_id|].
    intros [= <- <- <-]. congruence.
  - exists g1. split_and!; try done. intros x y z c Hc. rewrite Hcell1.
    case_decide as E.
    + destruct E as (-> & -> & ->). rewrite Hce in Hc. injection Hc as ->.
      rewrite Hb. by rewrite decide_True.
    + rewrite Hc. f_equal. destruct (block c); [done|].
      rewrite decide_False; [by rewrite set_sol_id|]. intros [= <- <- <-]. by apply E.
Qed.

Lemma writeSolutions_exact sols g :
  wfGrid g →
  ∃ g', forEach writeSolution sols g = Some g' ∧ wfGrid g' ∧ sameDims g g' ∧
    ∀ x y z c, cell g x y z = Some c →
      cell g' x y z =
        Some (if block c then c else set_sol (solFrom (sol c) sols (mkCoord x y z)) c).
Proof.
  revert g. induction sols as [|s sols IH]; intros g Hwf.
  - exists g. split_and!; try done.
    intros x y z c Hc. rewrite Hc. f_equal. destruct (block c); [done|].
    unfold solFrom. simpl. by rewrite set_sol_id.
  - rewrite forEach_cons.
    destruct (writeSolution_exact g s Hwf) as (g1 & -> & Hwf1 & Hd1 & Hcell1).
    rewrite option_bind_Some.
    destruct (IH g1 Hwf1) as (g' & E & Hwf' & Hd & Hcell).
    exists g'. split_and!; try done; [by eapply sameDims_trans|].
    intros x y z c Hc. rewrite (Hcell _ _ _ _ (Hcell1 _ _ _ _ Hc)). f_equal.
    destruct (block c) eqn:Hb; [by rewrite Hb|]. simpl. rewrite Hb.
    by rewrite set_sol_set_sol.
Qed.

Lemma load_solution_letters js :
  0 ≤ p_nx js < 2 ^ 32 → 0 ≤ p_ny js < 2 ^ 32 → 0 ≤ p_nz js < 2 ^ 32 → p_words js = [] →
  ∃ st, loadPuzzleFromJSON js = Some st ∧ LoadInv js (grid st) ∧
    ∀ x y z c, cell (grid st) x y z = Some c →
      sol c = if block c then "" else solOf (p_solution js) (mkCoord x y z).
Proof.
  intros Hx Hy Hz Hws.
  destruct (load_phases js Hx Hy Hz) as (g0 & g1 & cl & st & Hst & Hfresh & Hsol & Hnum & _ & _ & HB).
  destruct (HB Hws) as (Hwr & _).
  destruct (load_LoadInv js Hx Hy Hz) as (st' & Hst' & Hinv).
  rewrite Hst in Hst'. injection Hst' as <-.
  exists st. split_and!; try done.
  intros x y z c Hc.
  destruct Hfresh as [Hli Hemp]. pose proof Hli as (Hwf0 & _).
  destruct (writeSolutions_exact (p_solution js) g0 Hwf0) as (g1' & E & Hwf1 & _ & Hcell).
  rewrite Hwr in E. injection E as <-.
  destruct (cellwise_inv _ _ _ _ _ _ _ Hwf1 Hnum Hc) as (c1 & Hc1 & Hb1 & _ & Hs1 & _).
  destruct (cellwise_inv _ _ _ _ _ _ _ Hwf0 Hsol Hc1) as (c0 & Hc0 & _).
  rewrite (Hcell _ _ _ _ Hc0) in Hc1. injection Hc1 as <-.
  destruct (Hemp _ _ _ _ Hc0) as (Hs0 & _).
  rewrite Hs1, Hb1. destruct (block c0) eqn:Hb0; simpl; rewrite ?Hb0; [done|].
  by rewrite Hs0.
Qed.

Lemma Run_length_cellwise Rc g g' dx dy dz x y z cells cells' :
  wfGrid g → cellwise Rc g g' →
  (∀ p c c', Rc p c c' → block c' = block c) →
  Run g dx dy dz x y z cells → Run g' dx dy dz x y z cells' →
  length cells = length cells'.
Proof.
  intros Hwf Hcw Hblock HR. revert cells'.
  destruct (cellwise_block Rc g g' Hwf Hcw Hblock) as [Hopen Hstop].
  pose proof Hcw as (Hwf' & _).
  induction HR as [x y z Hs | x y z c cells Hin Hc Hb HR IH]; intros cells' HR'.
  - inversion HR' as [|? ? ? c' ? Hin' Hc' Hb']; subst; [done|].
    exfalso. apply (stopAt_not_openAt g x y z Hwf Hs). apply Hopen. by exists c'.
  - inversion HR' as [? ? ? Hs'|? ? ? c' cells2 Hin' Hc' Hb' HR2]; subst.
    + exfalso. apply (stopAt_not_openAt g' x y z Hwf' Hs'). apply Hopen. by exists c.
    + simpl. f_equal. by apply IH.
Qed.

Lemma isStart_Run_two g d x y z cells :
  wfGrid g → isStart g d x y z →
  Run g (stepX d) (stepY d) (stepZ d) x y z cells → (2 ≤ length cells)%nat.
Proof.
  intros Hwf (Ho & _ & Hn) HR.
  inversion HR as [? ? ? Hs|? ? ? c cells1 Hin Hc Hb HR1]; subst.
  { by destruct (stopAt_not_openAt g x y z Hwf Hs). }
  inversion HR1 as [? ? ? Hs|? ? ? c2 cells2 Hin2 Hc2 Hb2 HR2]; subst.
  { by destruct (stopAt_not_openAt g _ _ _ Hwf Hs). }
  simpl. lia.
Qed.

Lemma solFrom_cases init sols p :
  solFrom init sols p = init ∨ ∃ s, s ∈ sols ∧ solFrom init sols p = s_ch s.
Proof.
  revert init. induction sols as [|s sols IH]; intros init; [by left|].
  unfold solFrom. simpl. fold (solFrom (if decide (mkCoord (s_x s) (s_y s) (s_z s) = p)
                                        then s_ch s else init) sols p).
  destruct (IH (if decide (mkCoord (s_x s) (s_y s) (s_z s) = p) then s_ch s else init))
    as [-> | (s' & Hs' & ->)].
  - case_decide; [right | by left]. exists s. split; [apply elem_of_cons; by left | done].
  - right. exists s'. split; [apply elem_of_cons; by right | done].
Qed.

Lemma letterOf_length c :
  (String.length (sol c) ≤ 1)%nat → String.length (letterOf c) = 1%nat.
Proof.
  unfold letterOf, truthy. destruct (sol c) as [|a [|b r]]; simpl; [done | done | lia].
Qed.

Lemma concatLetters_length cells :
  Forall (λ c, (String.length (sol c) ≤ 1)%nat) cells →
  String.length (concatLetters cells) = length cells.
Proof.
  induction 1 as [|c cells Hc _ IH]; [done|].
  simpl. rewrite string_app_length, letterOf_length, IH; done.
Qed.

Lemma truthy_defaultHint d : falsyHint (Some (defaultHint d)) = false.
Proof. by destruct d. Qed.

Lemma load_derived_clues js :
  0 ≤ p_nx js < 2 ^ 32 → 0 ≤ p_ny js < 2 ^ 32 → 0 ≤ p_nz js < 2 ^ 32 →
  p_words js = [] → hasClues (p_clues js) = false →
  ∃ st g1 cl0, loadPuzzleFromJSON js = Some st ∧ LoadInv js (grid st) ∧
    wfGrid g1 ∧ cellwise (numRel cl0) g1 (grid st) ∧ Extracted g1 cl0 ∧
    console st = LogClue <$> clR cl0 ∧
    ∀ d, Forall2 (bound (grid st) d) (cluesOf d cl0) (cluesOf d (clues st)).
Proof.
  intros Hx Hy Hz Hws Hno.
  destruct (load_phases js Hx Hy Hz)
    as (g0 & g1 & cl & st & Hst & Hfresh & Hsol & Hnum & Hb & _ & HB).
  destruct (HB Hws) as (_ & cl0 & Hcl & Hcon & Hext). rewrite Hno in Hext.
  destruct Hext as [_ Hext].
  destruct (load_LoadInv js Hx Hy Hz) as (st' & Hst' & Hinv).
  rewrite Hst in Hst'. injection Hst' as <-.
  assert (Hh : hinted cl0 = cl0).
  { destruct Hext as (Hs & _). unfold hinted.
    assert (∀ d h (l : list Clue), (∀ c, c ∈ l → c_hint c = Some (defaultHint d)) → fillHint h <$> l = l) as Hfill.
    { intros d h l Hl. induction l as [|c l IH]; [done|]. simpl. f_equal.
      - unfold fillHint. rewrite (Hl c); [by rewrite truthy_defaultHint | apply elem_of_cons; by left].
      - apply IH. intros c' Hc'. apply Hl, elem_of_cons. by right. }
    rewrite (Hfill dirD), (Hfill dirI); [by destruct cl0 | |].
    - intros c Hc. destruct (Hs dirI c Hc) as (_ & (cells & _ & E) & _). by rewrite E.
    - intros c Hc. destruct (Hs dirD c Hc) as (_ & (cells & _ & E) & _). by rewrite E. }
  rewrite Hh in Hcl. subst cl.
  exists st, g1, cl0. split_and!; try done.
  destruct Hsol as (Hwf1 & _). done.
Qed.

Lemma numberWord_rank S acc w :
  RankInv S acc →
  RankInv (if decide (w_start w ∈ S) then S else S ++ [w_start w]) (numberWord acc w).
Proof.
  intros (Hnext & Hdom & Hmap & Hbuilt).
  unfold numberWord.
  destruct (startToNumber acc !! startKey (w_start w)) as [n|] eqn:Hkey.
  - destruct (Hmap _ _ Hkey) as [Hn1 HS].
    rewrite decide_True by (apply Hdom; by rewrite Hkey).
    rewrite decide_False by lia. simpl.
    split_and!; simpl; try done.
    intros d c. rewrite cluesOf_pushClue, elem_of_app.
    intros [Hc|Hc]; [by apply (Hbuilt d)|].
    case_decide; [|by apply elem_of_nil in Hc].
    by apply list_elem_of_singleton in Hc as ->.
  - assert (Hnot : w_start w ∉ S).
    { intros [v Hv]%Hdom. congruence. }
    rewrite decide_False by done. simpl.
    split_and!; simpl.
    + rewrite length_app. simpl. lia.
    + intros p. rewrite elem_of_app, list_elem_of_singleton, lookup_insert.
      case_decide as E.
      * apply startKey_inj in E as ->. split; [by eexists | by right].
      * rewrite <- Hdom. split; [intros [?| ->]; [done | by destruct E] | by left].
    + intros p v. rewrite lookup_insert. case_decide as E.
      * apply startKey_inj in E as ->. intros [= <-]. split; [lia|].
        rewrite Hnext. replace (Z.to_nat (Z.of_nat (length S) + 1 - 1)) with (length S) by lia.
        by rewrite lookup_app_r, Nat.sub_diag.
      * intros Hv. destruct (Hmap _ _ Hv) as [? HS]. split; [done|].
        by apply lookup_app_l_Some.
    + intros d c. rewrite cluesOf_pushClue, elem_of_app.
      intros [Hc|Hc].
      * destruct (Hbuilt d c Hc) as [? HS]. split; [done|]. by apply lookup_app_l_Some.
      * case_decide; [|by apply elem_of_nil in Hc].
        apply list_elem_of_singleton in Hc as ->. simpl. split; [lia|].
        rewrite Hnext. replace (Z.to_nat (Z.of_nat (length S) + 1 - 1)) with (length S) by lia.
        by rewrite lookup_app_r, Nat.sub_diag.
Qed.

Lemma buildClues_rank ws :
  RankInv (startsOf ws) (fold_left numberWord ws (mkNumbering ∅ 1 (mkClues [] [] []))).
Proof.
  unfold startsOf. induction ws as [|w ws IH] using rev_ind; simpl.
  - split_and!; simpl; try done.
    + intros p. rewrite lookup_empty, elem_of_nil. split; [done | by intros [? ?]].
    + intros d c Hc. destruct d; by apply elem_of_nil in Hc.
  - rewrite !fold_left_app. simpl. by apply numberWord_rank.
Qed.

Lemma lookup_snoc_length {A} (l : list A) (a : A) (n : Z) :
  n = Z.of_nat (length l) → (l ++ [a]) !! Z.to_nat n = Some a.
Proof.
  intros ->. rewrite Nat2Z.id. by rewrite lookup_app_r, Nat.sub_diag.
Qed.

Lemma extract_rank g :
  wfGrid g →
  ∃ r starts, forEach (clueStep g) (scanOrder g) (0, mkClues [] [] []) = Some r ∧
    starts `sublist_of` scanOrder g ∧
    (∀ p, p ∈ starts ↔ ∃ d, isStart g d (cx p) (cy p) (cz p)) ∧
    ∀ d c, c ∈ cluesOf d r.2 →
      1 ≤ c_n c ∧ starts !! Z.to_nat (c_n c - 1) = Some (c_start c).
Proof.
  intros Hwf.
  destruct (forEach_prefix (λ done (acc : Z * Clues),
      ∃ starts, acc.1 = Z.of_nat (length starts) ∧
        starts `sublist_of` done ∧
        (∀ p, p ∈ starts ↔ p ∈ done ∧ ∃ d, isStart g d (cx p) (cy p) (cz p)) ∧
        ∀ d c, c ∈ cluesOf d acc.2 →
          1 ≤ c_n c ∧ starts !! Z.to_nat (c_n c - 1) = Some (c_start c))
    (clueStep g) (scanOrder g) (0, mkClues [] [] [])) as (r & Hr & starts & Hn & Hsub & Hmem & Hcl).
  - exists []. simpl. split_and!; [done | done | |].
    + intros p. rewrite elem_of_nil. naive_solver.
    + intros d c Hc. destruct d; by apply elem_of_nil in Hc.
  - intros done a rest [n cl] Hl (starts & Hn & Hsub & Hmem & Hcl). simpl in Hn, Hcl.
    assert (inBounds g (cx a) (cy a) (cz a) = true) as Hin.
    { apply elem_of_scanOrder. rewrite Hl. apply elem_of_app. right. by left. }
    destruct (clueStep_spec g n cl a Hwf Hin) as [Hclosed Hopen].
    assert (Hkeep : ∀ n' cl',
      n' = n → (∀ d c, c ∈ cluesOf d cl' → c ∈ cluesOf d cl) →
      (¬ ∃ d, isStart g d (cx a) (cy a) (cz a)) →
      ∃ starts', (n', cl').1 = Z.of_nat (length starts') ∧
        starts' `sublist_of` done ++ [a] ∧
        (∀ p, p ∈ starts' ↔ p ∈ done ++ [a] ∧ ∃ d, isStart g d (cx p) (cy p) (cz p)) ∧
        ∀ d c, c ∈ cluesOf d (n', cl').2 →
          1 ≤ c_n c ∧ starts' !! Z.to_nat (c_n c - 1) = Some (c_start c)).
    { intros n' cl' -> Hsame Hno. exists starts. simpl. split_and!; try done.
      - by apply sublist_inserts_r.
      - intros p. rewrite Hmem, elem_of_app, list_elem_of_singleton.
        split; [intros [? ?]; auto|]. intros [[?| ->] ?]; [done|]. by destruct Hno.
      - intros d c Hc. apply (Hcl d). by apply Hsame. }
    destruct (openAt_dec g (cx a) (cy a) (cz a)) as [Ho|Ho].
    2:{ rewrite (Hclosed Ho). eexists. split; [done|]. apply Hkeep; [done | done |].
        intros (d & Ho' & _). by apply Ho. }
    destruct (Hopen Ho) as (s & k & Hs & Hk & ->). clear Hopen Hclosed.
    eexists. split; [done|].
    assert (∀ d c, c ∈ cluesOf d
              (mkClues (clR cl ++ (if s dirR then [k dirR] else []))
                 (clD cl ++ (if s dirD then [k dirD] else []))
                 (clI cl ++ (if s dirI then [k dirI] else []))) ↔
            c ∈ cluesOf d cl ∨ (s d = true ∧ c = k d)) as Hm.
    { intros d c. rewrite cluesOf_app, elem_of_app.
      assert (c ∈ match d with
                  | dirR => if s dirR then [k dirR] else []
                  | dirD => if s dirD then [k dirD] else []
                  | dirI => if s dirI then [k dirI] else []
                  end ↔ s d = true ∧ c = k d) as ->; [|done].
      destruct d; simpl;
        match goal with |- context [if s ?x then _ else _] => destruct (s x) end;
        rewrite ?list_elem_of_singleton, ?elem_of_nil;
        (split; [intros Hc | intros [Hc Hc']]); try done; try congruence; by subst. }
    destruct (s dirR || s dirD || s dirI) eqn:Hany.
    + assert (Hex : ∃ d, isStart g d (cx a) (cy a) (cz a)).
      { apply orb_true_iff in Hany as [Hany | Hany];
          [apply orb_true_iff in Hany as [Hany | Hany]|];
          eexists; apply Hs; exact Hany. }
      exists (starts ++ [a]). simpl. split_and!.
      * rewrite length_app. simpl. lia.
      * apply sublist_app; done.
      * intros p. rewrite !elem_of_app, list_elem_of_singleton, Hmem.
        split; [intros [[? ?] | ->]; auto | intros [[?| ->] ?]; auto].
      * intros d c [Hc | [Hd ->]]%Hm.
        -- destruct (Hcl d c Hc) as [? Hl']. split; [done|]. by apply lookup_app_l_Some.
        -- destruct (Hk d) as (cells & _ & ->). simpl. split; [lia|].
           apply lookup_snoc_length. lia.
    + apply orb_false_iff in Hany as [Hany HI]. apply orb_false_iff in Hany as [HR HD].
      apply Hkeep; [done | |].
      * intros d c [Hc | [Hd _]]%Hm; [done|]. destruct d; congruence.
      * intros (d & Hd%Hs). destruct d; congruence.
  - exists r, starts. split_and!; try done.
    intros p. rewrite Hmem. split; [by intros [_ ?]|]. intros (d & Hd). split; [|by exists d].
    apply elem_of_scanOrder. by eapply isStart_inBounds.
Qed.

Lemma startsOf_spec ws :
  NoDup (startsOf ws) ∧ ∀ p, p ∈ startsOf ws ↔ ∃ w, w ∈ ws ∧ w_start w = p.
Proof.
  unfold startsOf. induction ws as [|w ws [IH1 IH2]] using rev_ind; simpl.
  - split; [constructor|]. intros p. rewrite elem_of_nil.
    split; [done|]. intros (w & Hw & _). by apply elem_of_nil in Hw.
  - rewrite fold_left_app. simpl. case_decide as Hin.
    + split; [done|]. intros p. rewrite IH2. split.
      * intros (w' & ? & ?). exists w'. split; [apply elem_of_app; by left | done].
      * intros (w' & [?| ->%list_elem_of_singleton]%elem_of_app & <-); [by exists w'|].
        by apply IH2.
    + split.
      * apply NoDup_app. split_and!; [done | | apply NoDup_singleton].
        intros p Hp ->%list_elem_of_singleton. done.
      * intros p. rewrite elem_of_app, list_elem_of_singleton, IH2. split.
        -- intros [(w' & ? & ?) | ->].
           ++ exists w'. split; [apply elem_of_app; by left | done].
           ++ exists w. split; [apply elem_of_app; right; by left | done].
        -- intros (w' & [?| ->%list_elem_of_singleton]%elem_of_app & <-); [left; by exists w' | by right].
Qed.

Lemma numOf_set_num d n c : numOf d (set_num d n c) = n.
Proof. by destruct d. Qed.

Lemma setNums_exact d l g :
  wfGrid g →
  ∃ g', forEach (setNum d) l g = Some g' ∧ wfGrid g' ∧ sameDims g g' ∧
    ∀ k, k ∈ l →
      inBounds g (cx (c_start k)) (cy (c_start k)) (cz (c_start k)) = true →
      numbered g' d l k.
Proof.
  intros Hwf.
  destruct (forEach_prefix (λ done g',
      wfGrid g' ∧ sameDims g g' ∧
      ∀ k, k ∈ done →
        inBounds g (cx (c_start k)) (cy (c_start k)) (cz (c_start k)) = true →
        numbered g' d done k)
    (setNum d) l g) as (g' & Hg' & Hwf' & Hd & Hnum).
  - split_and!; [done | apply sameDims_refl |]. intros k Hk. by apply elem_of_nil in Hk.
  - intros done a rest g1 Hl (Hwf1 & Hd1 & Hnum). unfold setNum.
    destruct (inBounds g1 (cx (c_start a)) (cy (c_start a)) (cz (c_start a))) eqn:Hin; simpl.
    + destruct (updCell_total (set_num d (c_n a)) g1 _ _ _ Hwf1 Hin)
        as (g2 & ce & Hg2 & Hce & Hwf2 & Hd2 & Hcell).
      exists g2. split; [done|]. split_and!; [done | by eapply sameDims_trans |].
      intros k Hk Hink. unfold numbered. rewrite Hcell.
      case_decide as E.
      * exists (set_num d (c_n a) ce), a. split_and!; [done | | | apply numOf_set_num].
        -- apply elem_of_app. right. by left.
        -- destruct E as (E1 & E2 & E3). destruct (c_start k), (c_start a). simpl in *. congruence.
      * apply elem_of_app in Hk as [Hk | ->%list_elem_of_singleton].
        -- destruct (Hnum k Hk Hink) as (c & k' & Hc & Hk' & Hs & Hn).
           exists c, k'. split_and!; try done. apply elem_of_app. by left.
        -- by destruct E.
    + exists g1. split; [done|]. split_and!; [done | done |].
      intros k [Hk | ->%list_elem_of_singleton]%elem_of_app Hink.
      * destruct (Hnum k Hk Hink) as (c & k' & Hc & Hk' & Hs & Hn).
        exists c, k'. split_and!; try done. apply elem_of_app. by left.
      * rewrite (inBounds_sameDims g g1) in Hin by done. congruence.
  - exists g'. done.
Qed.

Lemma numbered_numRel cl d g g' k :
  wfGrid g → cellwise (numRel cl) g g' →
  numbered g d (cluesOf d cl) k → numbered g' d (cluesOf d cl) k.
Proof.
  intros Hwf (_ & _ & Hcells) (c & k' & Hc & Hk' & Hs & Hn).
  destruct (Hcells _ _ _ _ Hc) as (c' & Hc' & _ & _ & _ & Hnums).
  destruct (Hnums d) as [E | (k2 & Hk2 & Hs2 & E)].
  - exists c', k'. split_and!; try done. congruence.
  - exists c', k2. split_and!; try done. by destruct (c_start k).
Qed.

Lemma applyNumbers_exact st :
  wfGrid (grid st) →
  ∃ st', applyNumbers st = Some st' ∧ clues st' = clues st ∧
    console st' = console st ∧ cellwise (numRel (clues st)) (grid st) (grid st') ∧
    ∀ d k, k ∈ cluesOf d (clues st) →
      inBounds (grid st) (cx (c_start k)) (cy (c_start k)) (cz (c_start k)) = true →
      numbered (grid st') d (cluesOf d (clues st)) k.
Proof.
  intros Hwf. unfold applyNumbers.
  destruct (setNums_spec (clues st) dirR (grid st) Hwf) as (g1 & Hg1 & H1).
  destruct (setNums_spec (clues st) dirD g1 (proj1 H1)) as (g2 & Hg2 & H2).
  destruct (setNums_spec (clues st) dirI g2 (proj1 H2)) as (g3 & Hg3 & H3).
  destruct (setNums_exact dirR (clR (clues st)) (grid st) Hwf) as (g1' & E1 & _ & _ & X1).
  destruct (setNums_exact dirD (clD (clues st)) g1 (proj1 H1)) as (g2' & E2 & _ & _ & X2).
  destruct (setNums_exact dirI (clI (clues st)) g2 (proj1 H2)) as (g3' & E3 & _ & _ & X3).
  simpl in Hg1, Hg2, Hg3. rewrite Hg1 in E1. rewrite Hg2 in E2. rewrite Hg3 in E3.
  injection E1 as <-. injection E2 as <-. injection E3 as <-.
  rewrite Hg1. simpl. rewrite Hg2. simpl. rewrite Hg3. simpl.
  eexists. split; [done|]. split_and!; [done..| |]; simpl.
  - eapply cellwise_trans; [apply numRel_trans | | done].
    eapply cellwise_trans; [apply numRel_trans | done | done].
  - pose proof H1 as (_ & D1 & _). pose proof H2 as (_ & D2 & _).
    intros d k Hk Hin. destruct d; simpl in *.
    + apply (numbered_numRel (clues st) dirR g2 g3); [apply H2 | done |].
      apply (numbered_numRel (clues st) dirR g1 g2); [apply H1 | done |].
      by apply X1.
    + apply (numbered_numRel (clues st) dirD g2 g3); [apply H2 | done |].
      apply X2; [done|]. by rewrite (inBounds_sameDims (grid st) g1).
    + apply X3; [done|]. rewrite (inBounds_sameDims g1 g2) by done.
      by rewrite (inBounds_sameDims (grid st) g1).
Qed.

Lemma load_numbers js :
  0 ≤ p_nx js < 2 ^ 32 → 0 ≤ p_ny js < 2 ^ 32 → 0 ≤ p_nz js < 2 ^ 32 →
  ∃ st cl, loadPuzzleFromJSON js = Some st ∧ LoadInv js (grid st) ∧
    (∀ d, Forall2 (bound (grid st) d) (cluesOf d cl) (cluesOf d (clues st))) ∧
    (p_words js ≠ [] → cl = buildCluesFromWords (p_words js)) ∧
    (p_words js = [] → hasClues (p_clues js) = false →
       ∃ g1, wfGrid g1 ∧ sameDims g1 (grid st) ∧ Extracted g1 cl) ∧
    ∀ d k, k ∈ cluesOf d cl →
      inBounds (grid st) (cx (c_start k)) (cy (c_start k)) (cz (c_start k)) = true →
      numbered (grid st) d (cluesOf d cl) k.
Proof.
  intros Hx Hy Hz.
  destruct (load_cases js Hx Hy Hz) as (g & Hfresh & Hload).
  destruct (load_LoadInv js Hx Hy Hz) as (st & Hst & Hinv).
  pose proof Hfresh as ((Hwf & _) & _).
  destruct (decide (p_words js = [])) as [Hws | Hws].
  - rewrite bool_decide_true in Hload by done. simpl in Hload.
    unfold loadFormatB in Hload.
    destruct (writeSolutions_spec (p_solution js) (initState g).(grid) Hwf) as (g1 & Hg1 & Hsol).
    rewrite Hg1 in Hload. simpl in Hload.
    assert (∃ cl0, (if hasClues (p_clues js)
                 then Some (ensureHintFields (mkState g1 (p_clues js) []))
                 else cl ← computeCluesFromWorld g1;
                      Some (ensureHintFields (mkState g1 cl []))) =
                Some (ensureHintFields (mkState g1 cl0 [])) ∧
                (hasClues (p_clues js) = false → Extracted g1 cl0))
      as (cl0 & Hcl0 & Hex).
    { destruct (hasClues (p_clues js)); [by eexists|].
      destruct (computeCluesFromWorld_spec g1) as (cl & Hcl & Hex); [apply Hsol|].
      exists cl. by rewrite Hcl. }
    rewrite Hcl0 in Hload. simpl in Hload. rewrite ensureHintFields_spec in Hload.
    simpl in Hload.
    set (st1 := mkState g1 _ _) in Hload.
    destruct (applyNumbers_exact st1) as (st2 & E2 & Hcl2 & Hco2 & Hnum & Hex2); [apply Hsol|].
    rewrite E2 in Hload. simpl in Hload.
    destruct (attachAnswersToClues_spec st2) as (st3 & E3 & Hg3 & Hco3 & Hb); [apply Hnum|].
    rewrite E3 in Hload. rewrite Hst in Hload. injection Hload as ->.
    exists st3, (clues st1). rewrite Hg3 in Hinv |- *. split_and!; try done.
    + intros d. specialize (Hb d). by rewrite Hcl2 in Hb.
    + intros _ Hno. exists g1. split_and!; [apply Hsol | apply Hnum |].
      specialize (Hex Hno). unfold st1. simpl.
      assert (Hh : hinted cl0 = cl0).
      { destruct Hex as (Hs & _). unfold hinted.
        assert (∀ d h (l : list Clue), (∀ c, c ∈ l → c_hint c = Some (defaultHint d)) →
                  fillHint h <$> l = l) as Hfill.
        { intros d h l Hl. induction l as [|c l IH]; [done|]. simpl. f_equal.
          - unfold fillHint.
            rewrite (Hl c); [by rewrite truthy_defaultHint | apply elem_of_cons; by left].
          - apply IH. intros c' Hc'. apply Hl, elem_of_cons. by right. }
        rewrite (Hfill dirD), (Hfill dirI); [by destruct cl0 | |].
        - intros c Hc. destruct (Hs dirI c Hc) as (_ & (cells & _ & E) & _). by rewrite E.
        - intros c Hc. destruct (Hs dirD c Hc) as (_ & (cells & _ & E) & _). by rewrite E. }
      unfold hinted in Hh. by rewrite Hh.
    + intros d k Hk Hin. apply Hex2; [done|].
      rewrite <- (inBounds_sameDims (grid st1) (grid st2)); [done | apply Hnum].
  - rewrite bool_decide_false in Hload by done. simpl in Hload.
    unfold loadFormatA in Hload.
    destruct (placeWords_spec (p_words js) (initState g) Hwf) as (st1 & Hst1 & Hcl1 & Hsol & Hevs).
    rewrite Hst1 in Hload. simpl in Hload.
    destruct (applyNumbers_exact (withClues (buildCluesFromWords (p_words js)) st1))
      as (st2 & E2 & Hcl2 & Hco2 & Hnum & Hex2); [apply Hsol|].
    rewrite E2 in Hload. simpl in Hload.
    destruct (attachAnswersToClues_spec st2) as (st3 & E3 & Hg3 & Hco3 & Hb); [apply Hnum|].
    rewrite E3 in Hload. rewrite Hst in Hload. injection Hload as ->.
    exists st3, (buildCluesFromWords (p_words js)). rewrite Hg3 in Hinv |- *. split_and!; try done.
    + intros d. specialize (Hb d). by rewrite Hcl2 in Hb.
    + intros d k Hk Hin. apply Hex2; [done|]. simpl.
      simpl in Hnum. rewrite <- (inBounds_sameDims (grid st1) (grid st2)); [done | apply Hnum].
Qed.

Lemma placeLetters_events js w ans (j0 : nat) st :
  w ∈ p_words js → LoadInv js (grid st) →
  (∀ (i : nat) a, String.get i ans = Some a →
                  String.get (j0 + i) (wordLetters w) = Some a) →
  ∃ st' evs,
    placeLetters w (stepX (w_dir w)) (stepY (w_dir w)) (stepZ (w_dir w)) ans
      (cx (wordPos w j0)) (cy (wordPos w j0)) (cz (wordPos w j0)) st = Some st' ∧
    LoadInv js (grid st') ∧ console st' = console st ++ evs ∧
    Forall (justified js) evs ∧
    (length (List.filter isStructural evs) ≤ 1)%nat.
Proof.
  intros Hw. revert j0 st. induction ans as [|b rest IH]; intros j0 st Hinv Hget.
  - exists st, []. simpl. rewrite app_nil_r. split_and!; try done. simpl. lia.
  - pose proof Hinv as (Hwf & HX & HY & HZ & Hcells).
    assert (Hj0 : String.get j0 (wordLetters w) = Some b).
    { specialize (Hget 0%nat b eq_refl). by rewrite Nat.add_0_r in Hget. }
    remember (wordPos w j0) as p eqn:Hp.
    assert (Heta : mkCoord (cx p) (cy p) (cz p) = p) by by destruct p.
    assert (Hdims : inBounds (grid st) (cx p) (cy p) (cz p) = inDims js p)
      by by apply inDims_inBounds.
    destruct (inBounds (grid st) (cx p) (cy p) (cz p)) eqn:Hin.
    + destruct (proj2 (cell_is_Some _ _ _ _ Hwf) Hin) as [ce Hce].
      destruct (Hcells _ _ _ _ Hce) as (Hblk & _ & _).
      destruct (block ce) eqn:Hb.
      * exists (logEv (WordHitsBlock w p) st), [WordHitsBlock w p].
        simpl. rewrite Hin, Hce. simpl. rewrite Hb, Heta.
        split; [done|]. split; [done|]. split; [done|]. split; [|simpl; lia].
        constructor; [|constructor]. simpl. split_and!; try done.
        -- by exists j0, b.
        -- rewrite Heta in Hblk. by apply Hblk.
      * destruct (placeLetters_step w (stepX (w_dir w)) (stepY (w_dir w)) (stepZ (w_dir w))
                    b rest _ _ _ st ce Hwf Hce Hb) as (g' & Hupd & Hwf' & Hd & Hnew & ->).
        rewrite Heta. set (st1 := mkState g' _ _).
        assert (Hinv1 : LoadInv js (grid st1)).
        { eapply (LoadInv_updCell js (set_sol (String b "")) (grid st)); try done.
          intros Hb'. congruence. }
        assert (Hpos : wordPos w (S j0) =
                       mkCoord (cx p + stepX (w_dir w)) (cy p + stepY (w_dir w))
                               (cz p + stepZ (w_dir w))).
        { rewrite Hp. unfold wordPos. simpl. f_equal; lia. }
        destruct (IH (S j0) st1 Hinv1) as (st' & evs & Hst' & Hinv' & Hcon & Hjust & Hcount).
        { intros i a Hi. replace (S j0 + i)%nat with (j0 + S i)%nat by lia. by apply Hget. }
        rewrite Hpos in Hst'. simpl in Hst'.
        eexists st', _. split; [exact Hst'|]. split; [done|].
        rewrite Hcon. simpl. rewrite <- app_assoc. split; [done|].
        destruct (truthy (sol ce) && negb (String.eqb (sol ce) (String b ""))) eqn:Hconf; simpl;
          [|done].
        split; [|done]. constructor; [|done]. simpl.
        apply andb_true_iff in Hconf as [Ht Hne].
        split_and!; try done.
        -- by exists j0, b.
        -- split; [done|]. intros Hp'. rewrite Heta in Hblk. apply Hblk in Hp'. congruence.
        -- unfold truthy in Ht. intros E. by rewrite E in Ht.
        -- intros E. rewrite E, String.eqb_refl in Hne. done.
    + exists (logEv (WordOutOfBounds w p) st), [WordOutOfBounds w p].
      simpl. rewrite Hin. simpl. rewrite Heta.
      split; [done|]. split; [done|]. split; [done|]. split; [|simpl; lia].
      constructor; [|constructor]. simpl. split_and!; try done. by exists j0, b.
Qed.

Lemma placeWords_events js st :
  LoadInv js (grid st) →
  ∀ ws, (∀ w, w ∈ ws → w ∈ p_words js) →
  ∃ st' evs, forEach placeWord ws st = Some st' ∧ LoadInv js (grid st') ∧
    console st' = console st ++ evs ∧ Forall (justified js) evs ∧
    (length (List.filter isStructural evs) ≤ length ws)%nat.
Proof.
  intros Hinv ws. revert st Hinv. induction ws as [|w ws IH]; intros st Hinv Hws.
  - exists st, []. simpl. rewrite app_nil_r. split_and!; try done.
  - rewrite forEach_cons.
    destruct (placeLetters_events js w (toUpperCase (w_answer w)) 0 st)
      as (st1 & evs1 & E1 & Hinv1 & Hcon1 & Hj1 & Hc1);
      [apply Hws, elem_of_cons; by left | done | done |].
    assert (Hp0 : wordPos w 0 = w_start w).
    { unfold wordPos. destruct (w_start w). simpl. f_equal; lia. }
    rewrite Hp0 in E1.
    change (placeWord st w) with
      (placeLetters w (stepX (w_dir w)) (stepY (w_dir w)) (stepZ (w_dir w))
         (toUpperCase (w_answer w)) (cx (w_start w)) (cy (w_start w)) (cz (w_start w)) st).
    rewrite E1, option_bind_Some.
    destruct (IH st1 Hinv1) as (st2 & evs2 & E2 & Hinv2 & Hcon2 & Hj2 & Hc2).
    { intros w' Hw'. apply Hws, elem_of_cons. by right. }
    exists st2, (evs1 ++ evs2). split_and!; try done.
    + by rewrite Hcon2, Hcon1, app_assoc.
    + by apply Forall_app.
    + rewrite List.filter_app, length_app. simpl. lia.
Qed.

Lemma pseudoLetter_spec x y z :
  ∃ a, pseudoLetter x y z = String a EmptyString ∧
       (65 ≤ nat_of_ascii a ≤ 90)%nat.
Proof.
  unfold pseudoLetter. cbv zeta.
  pose proof (Z.mod_pos_bound (x * 73 + y * 151 + z * 199 + 17) 26 ltac:(lia)) as Hv.
  set (v := (x * 73 + y * 151 + z * 199 + 17) `mod` 26) in *.
  eexists. split; [done|]. rewrite nat_ascii_embedding by lia. lia.
Qed.

Lemma dummyLoop_exact g :
  wfGrid g →
  ∃ r, forEach dummyStep (scanOrder g) (g, []) = Some r ∧
    wfGrid r.1 ∧ sameDims g r.1 ∧
    (∀ x y z c, cell g x y z = Some c →
       cell r.1 x y z = Some (withPseudo (mkCoord x y z) c)) ∧
    r.2 = dummyEntry <$> List.filter (openB g) (scanOrder g).
Proof.
  intros Hwf.
  destruct (forEach_prefix (λ done (r : Grid * list SolEntry),
      wfGrid r.1 ∧ sameDims g r.1 ∧
      (∀ x y z c, cell g x y z = Some c →
         cell r.1 x y z =
           Some (if decide (mkCoord x y z ∈ done) then withPseudo (mkCoord x y z) c else c)) ∧
      r.2 = dummyEntry <$> List.filter (openB g) done)
    dummyStep (scanOrder g) (g, [])) as (r & Hr & Hwf' & Hd & Hcells & Hsols).
  - cbn [fst snd]. split_and!; [done | apply sameDims_refl | | done].
    intros x y z c Hc. rewrite decide_False; [done|]. apply not_elem_of_nil.
  - intros done a rest [g1 sols] Hl (Hwf1 & Hd1 & Hcells & Hsols). cbn [fst snd] in *.
    assert (a ∉ done) as Hfresh.
    { pose proof (NoDup_scanOrder g) as Hnd. rewrite Hl in Hnd.
      apply NoDup_app in Hnd as (_ & Hnd & _). intros Ha. apply (Hnd a Ha). by left. }
    assert (inBounds g (cx a) (cy a) (cz a) = true) as Hin.
    { apply elem_of_scanOrder. rewrite Hl. apply elem_of_app. right. by left. }
    destruct (proj2 (cell_is_Some g _ _ _ Hwf) Hin) as [c Hc].
    assert (Heta : mkCoord (cx a) (cy a) (cz a) = a) by by destruct a.
    pose proof (Hcells _ _ _ _ Hc) as Hc1. rewrite Heta, decide_False in Hc1 by done.
    unfold dummyStep. simpl. rewrite Hc1. simpl.
    assert (Hopen : openB g a = negb (block c)) by (unfold openB; by rewrite Hc).
    rewrite List.filter_app. simpl. rewrite Hopen.
    destruct (block c) eqn:Hb; simpl.
    + eexists. split; [done|]. simpl. rewrite app_nil_r. split_and!; try done.
      intros x y z c' Hc'. rewrite (Hcells _ _ _ _ Hc').
      destruct (decide (mkCoord x y z = a)) as [E | E].
      * subst a. simpl in Hc. rewrite decide_False by done.
        rewrite decide_True by (apply elem_of_app; right; by left).
        assert (c' = c) as -> by congruence.
        unfold withPseudo. by rewrite Hb.
      * destruct (decide (mkCoord x y z ∈ done)) as [Hdn | Hdn].
        -- rewrite decide_True; [done | apply elem_of_app; by left].
        -- rewrite decide_False; [done|].
           intros [?| ?%list_elem_of_singleton]%elem_of_app; done.
    + rewrite <- (inBounds_sameDims g g1) in Hin by done.
      destruct (updCell_total (set_sol (pseudoLetter (cx a) (cy a) (cz a))) g1 _ _ _ Hwf1 Hin)
        as (g2 & ce & Hg2 & Hce & Hwf2 & Hd2 & Hnew).
      assert (ce = c) as -> by congruence.
      rewrite Hg2. simpl. eexists. split; [done|]. simpl.
      split_and!; [done | by eapply sameDims_trans | | by rewrite fmap_app, Hsols].
      intros x y z c' Hc'. rewrite Hnew. case_decide as E.
      * destruct E as (-> & -> & ->). assert (c' = c) as -> by congruence.
        rewrite Heta, decide_True by (apply elem_of_app; right; by left).
        unfold withPseudo. by rewrite Hb.
      * rewrite (Hcells _ _ _ _ Hc').
        assert (mkCoord x y z ≠ a) as Hne.
        { intros <-. simpl in E. by apply E. }
        destruct (decide (mkCoord x y z ∈ done)) as [Hdn | Hdn].
        -- rewrite decide_True; [done | apply elem_of_app; by left].
        -- rewrite decide_False; [done|].
           intros [?| ?%list_elem_of_singleton]%elem_of_app; done.
  - exists r. split_and!; try done.
    intros x y z c Hc. rewrite (Hcells _ _ _ _ Hc), decide_True; [done|].
    apply elem_of_scanOrder. by eapply cell_inBounds.
Qed.

Lemma solFrom_dummy init l p :
  solFrom init (dummyEntry <$> l) p =
  if decide (p ∈ l) then pseudoLetter (cx p) (cy p) (cz p) else init.
Proof.
  revert init. induction l as [|a l IH]; intros init.
  - rewrite decide_False; [done | apply not_elem_of_nil].
  - change (solFrom init (dummyEntry <$> a :: l) p) with
      (solFrom (if decide (mkCoord (cx a) (cy a) (cz a) = p)
                then pseudoLetter (cx a) (cy a) (cz a) else init) (dummyEntry <$> l) p).
    rewrite IH.
    assert (Heta : mkCoord (cx a) (cy a) (cz a) = a) by by destruct a.
    rewrite Heta.
    destruct (decide (p ∈ l)) as [Hl | Hl].
    + rewrite decide_True; [done | apply elem_of_cons; by right].
    + destruct (decide (a = p)) as [-> | Hne].
      * rewrite decide_True; [done | apply elem_of_cons; by left].
      * rewrite decide_False; [done|]. intros [?|?]%elem_of_cons; congruence.
Qed.

Lemma cell_nat g (i j k : nat) :
  cell g (Z.of_nat k) (Z.of_nat j) (Z.of_nat i) =
  plane ← world g !! i; row ← plane !! j; row !! k.
Proof.
  unfold cell, idx.
  destruct (decide (0 ≤ Z.of_nat i)); [|lia].
  replace (Z.to_nat (Z.of_nat i)) with i by lia.
  destruct (world g !! i) as [pl|]; simpl; [|done].
  destruct (decide (0 ≤ Z.of_nat j)); [|lia].
  replace (Z.to_nat (Z.of_nat j)) with j by lia.
  destruct (pl !! j) as [row|]; simpl; [|done].
  destruct (decide (0 ≤ Z.of_nat k)); [|lia].
  by replace (Z.to_nat (Z.of_nat k)) with k by lia.
Qed.

Lemma grid_ext g g' :
  wfGrid g → wfGrid g' → sameDims g g' →
  (∀ x y z, cell g x y z = cell g' x y z) → g = g'.
Proof.
  intros [Hl Hp] [Hl' Hp'] (HX & HY & HZ) Hcell.
  destruct g as [nx ny nz w], g' as [nx' ny' nz' w']. simpl in *. subst nx' ny' nz'.
  f_equal.
  apply (list_eq_same_length _ _ (Z.to_nat nz)); [done | done |].
  intros i pl pl' Hi Hpl Hpl'.
  rewrite Forall_forall in Hp, Hp'.
  destruct (Hp pl) as [Hlen Hrows]; [by eapply list_elem_of_lookup_2|].
  destruct (Hp' pl') as [Hlen' Hrows']; [by eapply list_elem_of_lookup_2|].
  apply (list_eq_same_length _ _ (Z.to_nat ny)); [done | done |].
  intros j row row' Hj Hrow Hrow'.
  rewrite Forall_forall in Hrows, Hrows'.
  pose proof (Hrows row ltac:(by eapply list_elem_of_lookup_2)) as Hr.
  pose proof (Hrows' row' ltac:(by eapply list_elem_of_lookup_2)) as Hr'.
  apply (list_eq_same_length _ _ (Z.to_nat nx)); [done | done |].
  intros k c c' Hk Hc Hc'.
  specialize (Hcell (Z.of_nat k) (Z.of_nat j) (Z.of_nat i)).
  rewrite !cell_nat in Hcell. simpl in Hcell.
  rewrite Hpl, Hpl' in Hcell. simpl in Hcell. rewrite Hrow, Hrow' in Hcell. simpl in Hcell.
  congruence.
Qed.

Lemma hinted_Extracted g cl : Extracted g cl → hinted cl = cl.
Proof.
  intros (Hs & _). unfold hinted.
  assert (∀ d h (l : list Clue), (∀ c, c ∈ l → c_hint c = Some (defaultHint d)) →
            fillHint h <$> l = l) as Hfill.
  { intros d h l Hl. induction l as [|c l IH]; [done|]. simpl. f_equal.
    - unfold fillHint.
      rewrite (Hl c); [by rewrite truthy_defaultHint | apply elem_of_cons; by left].
    - apply IH. intros c' Hc'. apply Hl, elem_of_cons. by right. }
  rewrite (Hfill dirD), (Hfill dirI); [by destruct cl | |].
  - intros c Hc. destruct (Hs dirI c Hc) as (_ & (cells & _ & E) & _). by rewrite E.
  - intros c Hc. destruct (Hs dirD c Hc) as (_ & (cells & _ & E) & _). by rewrite E.
Qed.

Lemma elem_of_List_filter {A} (f : A → bool) (l : list A) (x : A) :
  x ∈ List.filter f l ↔ x ∈ l ∧ f x = true.
Proof. rewrite !list_elem_of_In. apply List.filter_In. Qed.

Lemma generated_reload cfg rnd :
  unitDraws rnd →
  0 < GEN_NX cfg ≤ 2 ^ 31 → 0 < GEN_NY cfg ≤ 2 ^ 31 → 0 < GEN_NZ cfg ≤ 2 ^ 31 →
  minOpenPerSlice cfg ≤ GEN_NX cfg * GEN_NY cfg →
  minOpenPerSlice cfg ≤ GEN_NX cfg * GEN_NZ cfg →
  minOpenPerSlice cfg ≤ GEN_NY cfg * GEN_NZ cfg →
  ∃ t s g jsClues st,
    GenInv cfg t s ∧
    generatePuzzleJSON cfg rnd =
      Some (g, mkPuzzle (GEN_NX cfg) (GEN_NY cfg) (GEN_NZ cfg)
                 (List.filter (blockedB (g_grid s)) (scanOrder (g_grid s))) []
                 (dummyEntry <$> List.filter (openB (g_grid s)) (scanOrder (g_grid s)))
                 jsClues) ∧
    wfGrid g ∧ sameDims (g_grid s) g ∧
    (∀ x y z c, cell (g_grid s) x y z = Some c →
       cell g x y z = Some (withPseudo (mkCoord x y z) c)) ∧
    Extracted g jsClues ∧
    loadPuzzleFromJSON
      (mkPuzzle (GEN_NX cfg) (GEN_NY cfg) (GEN_NZ cfg)
         (List.filter (blockedB (g_grid s)) (scanOrder (g_grid s))) []
         (dummyEntry <$> List.filter (openB (g_grid s)) (scanOrder (g_grid s)))
         jsClues) = Some st ∧
    cellwise (numRel jsClues) g (grid st) ∧
    (∀ d, Forall2 (bound (grid st) d) (cluesOf d jsClues) (cluesOf d (clues st))) ∧
    console st = LogClue <$> clR jsClues.
Proof.
  intros Hrnd HX HY HZ M1 M2 M3.
  destruct (generate_spec cfg rnd Hrnd HX HY HZ M1 M2 M3)
    as (g0 & s & Hg0 & Hs & Hinv & _).
  pose proof Hinv as (Hwf & Hx & Hy & Hz & _ & _ & _ & Hempty).
  destruct (dummyLoop_exact (g_grid s) Hwf) as ([g sols] & Hdummy & Hwfg & Hdg & Hcellg & Hsols).
  simpl in Hwfg, Hdg, Hcellg, Hsols.
  destruct (computeCluesFromWorld_spec g Hwfg) as (jsClues & Hcl & Hex).
  set (js := mkPuzzle (GEN_NX cfg) (GEN_NY cfg) (GEN_NZ cfg)
               (List.filter (blockedB (g_grid s)) (scanOrder (g_grid s))) []
               (dummyEntry <$> List.filter (openB (g_grid s)) (scanOrder (g_grid s)))
               jsClues).
  assert (Hgen : generatePuzzleJSON cfg rnd = Some (g, js)).
  { unfold generatePuzzleJSON. rewrite Hg0, option_bind_Some, Hs, option_bind_Some.
    cbv zeta.
    rewrite blocksLoop_spec; [|done | by intros p ?%elem_of_scanOrder].
    rewrite option_bind_Some, Hdummy, option_bind_Some. simpl fst. simpl snd.
    change (computeDirectionalCluesJSON g) with (computeCluesFromWorld g).
    rewrite Hcl, option_bind_Some. rewrite Hx, Hy, Hz, Hsols. done. }
  destruct (load_phases js) as (f0 & g1 & cl & st & Hst & Hfresh & Hsol & Hnum & Hb & _ & HB);
    [simpl; lia..|].
  destruct (HB eq_refl) as (Hwr & cl0 & Hcl0 & Hcon & Hcase).
  destruct Hfresh as [(Hwf0 & HX0 & HY0 & HZ0 & Hblk0) Hemp0]. simpl in HX0, HY0, HZ0.
  destruct (writeSolutions_exact (p_solution js) f0 Hwf0) as (g1' & E & Hwf1 & Hd1 & Hcell1).
  rewrite Hwr in E. injection E as <-.
  assert (Eg : g1 = g).
  { apply grid_ext; [done | done | |].
    - destruct Hd1 as (? & ? & ?), Hdg as (? & ? & ?). split_and!; congruence.
    - intros x y z.
      destruct (inBounds f0 x y z) eqn:Hin.
      + destruct (proj2 (cell_is_Some f0 _ _ _ Hwf0) Hin) as [c0 Hc0].
        assert (Hins : inBounds (g_grid s) x y z = true).
        { rewrite <- Hin. unfold inBounds. by rewrite HX0, HY0, HZ0, Hx, Hy, Hz. }
        destruct (proj2 (cell_is_Some _ _ _ _ Hwf) Hins) as [cs Hcs].
        rewrite (Hcell1 _ _ _ _ Hc0), (Hcellg _ _ _ _ Hcs). f_equal.
        destruct (Hblk0 _ _ _ _ Hc0) as (Hb0 & Hch0 & _).
        destruct (Hemp0 _ _ _ _ Hc0) as (Hs0 & Hr0 & Hd0 & Hi0).
        pose proof (Hempty _ _ _ _ Hcs) as Hes.
        assert (Hscan : mkCoord x y z ∈ scanOrder (g_grid s)) by by apply elem_of_scanOrder.
        assert (Hbb : block c0 = block cs).
        { simpl in Hb0. rewrite elem_of_List_filter in Hb0.
          unfold blockedB in Hb0. simpl in Hb0. rewrite Hcs in Hb0.
          destruct (block c0), (block cs); try done.
          - by destruct (proj1 Hb0 eq_refl).
          - by apply Hb0. }
        unfold withPseudo. rewrite <- Hbb.
        destruct c0 as [b0 ch0 s0 r0 d0 i0], cs as [bs chs ss rs ds is_].
        simpl in *. injection Hes as -> -> -> -> ->. subst.
        destruct bs; [done|]. unfold set_sol. simpl. f_equal.
        unfold solOf. rewrite solFrom_dummy, decide_True; [done|].
        apply elem_of_List_filter. split; [done|]. unfold openB. simpl. by rewrite Hcs.
      + assert (Hing : inBounds g x y z = false).
        { rewrite <- Hin. unfold inBounds. destruct Hdg as (-> & -> & ->).
          by rewrite HX0, HY0, HZ0, Hx, Hy, Hz. }
        rewrite (cell_None g) by done. apply cell_None; [done|].
        by rewrite (inBounds_sameDims f0 g1). }
  subst g1.
  assert (cl0 = jsClues) as ->.
  { simpl in Hcase. destruct (hasClues jsClues); [done|].
    destruct Hcase as [Hcase _]. congruence. }
  rewrite (hinted_Extracted g jsClues Hex) in Hcl0. subst cl.
  exists (targetBlocksOf cfg g0), s, g, jsClues, st. split_and!; done.
Qed.

Lemma filter_length_ext {A} (f g : A → bool) (l : list A) :
  (∀ x, x ∈ l → f x = g x) → length (List.filter f l) = length (List.filter g l).
Proof.
  induction l as [|a l IH]; intros H; [done|]. simpl.
  rewrite (H a) by (apply elem_of_cons; by left).
  destruct (g a); simpl; rewrite IH; try done; intros x Hx; apply H, elem_of_cons; by right.
Qed.

Section FloodComplete.
Variables U V : Z.
Variable at_ : Z → Z → option Cell.
Hypothesis Hat : ∀ u v, is_Some (at_ u v) ↔ (0 ≤ u < U ∧ 0 ≤ v < V).

Lemma adj4_neigh (p n : Z * Z) :
  adj4 p n ↔ ∃ d, d ∈ neigh ∧ n = (p.1 + d.1, p.2 + d.2).
Proof.
  unfold adj4, neigh. destruct p as [pu pv], n as [nu nv]. simpl. split.
  - intros [[-> ->] | [[-> ->] | [[-> ->] | [-> ->]]]].
    + exists (1, 0). split; [set_solver | simpl; f_equal; lia].
    + exists (-1, 0). split; [set_solver | simpl; f_equal; lia].
    + exists (0, 1). split; [set_solver | simpl; f_equal; lia].
    + exists (0, -1). split; [set_solver | simpl; f_equal; lia].
  - intros (d & Hd & [= -> ->]).
    repeat (apply elem_of_cons in Hd as [->|Hd]; [simpl; lia|]).
    by apply elem_of_nil in Hd.
Qed.

(** One neighbour: marks are kept, the stack only grows, a cell newly
    marked is on the stack, and the neighbour is marked if it is open. *)
Lemma visit_closed vis stack seen cu cv d st' :
  length vis = Z.to_nat (U * V) →
  visit U V at_ cu cv (vis, stack, seen) d = Some st' →
  (∀ p, p ∈ planeOrder U V → marked U vis p = true → marked U st'.1.1 p = true) ∧
  length st'.1.1 = Z.to_nat (U * V) ∧
  (∀ p, p ∈ stack → p ∈ st'.1.2) ∧
  (∀ p, p ∈ planeOrder U V → marked U st'.1.1 p = true →
        marked U vis p = true ∨ p ∈ st'.1.2) ∧
  (openIn at_ (cu + d.1, cv + d.2) → marked U st'.1.1 (cu + d.1, cv + d.2) = true).
Proof.
  intros Hlen. unfold visit.
  set (n := (cu + d.1, cv + d.2)).
  assert (Hsame : ∀ st'', Some (vis, stack, seen) = Some st'' →
    (openIn at_ n → marked U vis n = true) →
    (∀ p, p ∈ planeOrder U V → marked U vis p = true → marked U st''.1.1 p = true) ∧
    length st''.1.1 = Z.to_nat (U * V) ∧
    (∀ p, p ∈ stack → p ∈ st''.1.2) ∧
    (∀ p, p ∈ planeOrder U V → marked U st''.1.1 p = true →
          marked U vis p = true ∨ p ∈ st''.1.2) ∧
    (openIn at_ n → marked U st''.1.1 n = true)).
  { intros st'' [= <-] Hn. simpl. split_and!; auto. }
  destruct ((cu + d.1 <? 0) || (U <=? cu + d.1) || (cv + d.2 <? 0) || (V <=? cv + d.2))
    eqn:Hout.
  { intros E. apply Hsame; [done|]. intros Ho%(openIn_plane U V at_ Hat).
    apply (elem_of_planeOrder U V) in Ho. simpl in Ho.
    repeat (apply orb_true_iff in Hout as [Hout | Hout]);
      try apply Z.ltb_lt in Hout; try apply Z.leb_le in Hout; lia. }
  apply orb_false_iff in Hout as [Hout H4]. apply orb_false_iff in Hout as [Hout H3].
  apply orb_false_iff in Hout as [H1 H2].
  apply Z.ltb_ge in H1, H3. apply Z.leb_gt in H2, H4.
  assert (n ∈ planeOrder U V) as Hn by (apply elem_of_planeOrder; simpl; lia).
  change (getVis vis ((cv + d.2) * U + (cu + d.1))) with (marked U vis n).
  destruct (marked U vis n) eqn:Hmn; [intros E; by apply Hsame|].
  destruct (proj2 (Hat n.1 n.2)) as [ce Hce]; [by apply elem_of_planeOrder|].
  simpl in Hce. rewrite Hce. simpl.
  destruct (block ce) eqn:Hb.
  { intros E. apply Hsame; [done|]. intros (ce' & Hce' & Hb'). simpl in Hce'. congruence. }
  intros [= <-]. simpl.
  change ((cv + d.2) * U + (cu + d.1)) with (n.2 * U + n.1).
  split_and!.
  - intros p Hp Hm. rewrite (marked_setVis U V) by done. by case_decide.
  - by rewrite length_setVis.
  - intros p Hp. apply elem_of_cons. by right.
  - intros p Hp. rewrite (marked_setVis U V) by done. case_decide as E.
    + subst p. intros _. right. apply elem_of_cons. by left.
    + by left.
  - intros _. rewrite (marked_setVis U V) by done. by rewrite decide_True.
Qed.

(** The four neighbours of a popped cell. *)
Lemma visits_closed vis stack seen cu cv st' :
  length vis = Z.to_nat (U * V) →
  forEach (visit U V at_ cu cv) neigh (vis, stack, seen) = Some st' →
  (∀ p, p ∈ planeOrder U V → marked U vis p = true → marked U st'.1.1 p = true) ∧
  length st'.1.1 = Z.to_nat (U * V) ∧
  (∀ p, p ∈ stack → p ∈ st'.1.2) ∧
  (∀ p, p ∈ planeOrder U V → marked U st'.1.1 p = true →
        marked U vis p = true ∨ p ∈ st'.1.2) ∧
  (∀ n, adj4 (cu, cv) n → openIn at_ n → marked U st'.1.1 n = true).
Proof.
  intros Hlen Hrun.
  assert (Hgen : ∀ l st1 st2,
    length st1.1.1 = Z.to_nat (U * V) →
    forEach (visit U V at_ cu cv) l st1 = Some st2 →
    (∀ p, p ∈ planeOrder U V → marked U st1.1.1 p = true → marked U st2.1.1 p = true) ∧
    length st2.1.1 = Z.to_nat (U * V) ∧
    (∀ p, p ∈ st1.1.2 → p ∈ st2.1.2) ∧
    (∀ p, p ∈ planeOrder U V → marked U st2.1.1 p = true →
          marked U st1.1.1 p = true ∨ p ∈ st2.1.2) ∧
    (∀ d, d ∈ l → openIn at_ (cu + d.1, cv + d.2) →
          marked U st2.1.1 (cu + d.1, cv + d.2) = true)).
  { induction l as [|d l IH]; intros [[vis1 stack1] seen1] st2 Hl1.
    - intros [= <-]. split_and!; auto. intros d Hd. by apply elem_of_nil in Hd.
    - rewrite forEach_cons.
      destruct (visit U V at_ cu cv (vis1, stack1, seen1) d) as [st1'|] eqn:Hv; [|done].
      rewrite option_bind_Some. intros Hrest.
      destruct (visit_closed _ _ _ _ _ _ _ Hl1 Hv) as (Hm1 & Hl1' & Hs1 & Hn1 & Hd1).
      destruct (IH st1' st2 Hl1' Hrest) as (Hm2 & Hl2 & Hs2 & Hn2 & Hd2).
      simpl in *. split_and!.
      + intros p Hp Hm. by apply Hm2, Hm1.
      + done.
      + intros p Hp. by apply Hs2, Hs1.
      + intros p Hp Hm. destruct (Hn2 p Hp Hm) as [Hm' | ?]; [|by right].
        destruct (Hn1 p Hp Hm') as [? | ?]; [by left | right; by apply Hs2].
      + intros d' [-> | Hd']%elem_of_cons Ho; [|by apply Hd2].
        apply Hm2; [by apply (openIn_plane U V at_ Hat) | by apply Hd1]. }
  destruct (Hgen neigh (vis, stack, seen) st' Hlen Hrun) as (H1 & H0 & H2 & H3 & H4).
  simpl in *. split_and!; try done.
  intros n (d & Hd & ->)%adj4_neigh Ho. simpl in *. by apply H4.
Qed.

Lemma floodLoop_closed fuel st st' :
  length st.1.1 = Z.to_nat (U * V) →
  (∀ p, p ∈ st.1.2 → p ∈ planeOrder U V ∧ marked U st.1.1 p = true) →
  FloodClosed U V at_ st →
  floodLoop U V at_ fuel st = Some st' →
  FloodClosed U V at_ st' ∧
  (∀ p, p ∈ planeOrder U V → marked U st.1.1 p = true → marked U st'.1.1 p = true).
Proof.
  revert st. induction fuel as [|fuel IH]; intros [[vis stack] seen] Hlen Hstack Hcl; [done|].
  simpl in Hlen, Hstack.
  destruct stack as [|[cu cv] stack].
  { intros [= <-]. split; [done | auto]. }
  change (floodLoop U V at_ (S fuel) (vis, (cu, cv) :: stack, seen))
    with (forEach (visit U V at_ cu cv) neigh (vis, stack, seen)
            ≫= floodLoop U V at_ fuel).
  destruct (forEach (visit U V at_ cu cv) neigh (vis, stack, seen)) as [st1|] eqn:Hv; [|done].
  rewrite option_bind_Some. intros Hrest.
  destruct (visits_closed _ _ _ _ _ _ Hlen Hv) as (Hm & Hlen1 & Hs & Hn & Hadj).
  destruct (Hstack (cu, cv)) as [Hcur Hmcur]; [apply elem_of_cons; by left|].
  destruct (IH st1) as [Hcl' Hm']; try done.
  - intros p Hp.
    assert (Hpl : p ∈ planeOrder U V → marked U st1.1.1 p = true →
                  p ∈ planeOrder U V ∧ marked U st1.1.1 p = true) by auto.
    destruct (decide (p ∈ stack)) as [Hin | Hnin].
    + destruct (Hstack p) as [? ?]; [apply elem_of_cons; by right|]. split; [done|]. by apply Hm.
    + (* a cell pushed by the visits: it was marked when pushed *)
      revert Hp. clear IH Hrest Hcl.
      assert (Hpush : ∀ l s0 s1, length s0.1.1 = Z.to_nat (U * V) →
                forEach (visit U V at_ cu cv) l s0 = Some s1 →
                (∀ q, q ∈ s0.1.2 → q ∈ planeOrder U V ∧ marked U s0.1.1 q = true) →
                ∀ q, q ∈ s1.1.2 → q ∈ planeOrder U V ∧ marked U s1.1.1 q = true).
      { induction l as [|d l IHl]; intros [[v0 k0] n0] s1 Hl0; [by intros [= <-]|].
        rewrite forEach_cons.
        destruct (visit U V at_ cu cv (v0, k0, n0) d) as [s'|] eqn:E; [|done].
        rewrite option_bind_Some. intros Hrest H0.
        destruct (visit_closed _ _ _ _ _ _ _ Hl0 E) as (Hm0 & Hl' & Hs0 & Hn0 & _).
        apply (IHl s' s1 Hl' Hrest).
        intros q Hq. simpl in *.
        revert E. unfold visit.
        destruct ((cu + d.1 <? 0) || (U <=? cu + d.1) || (cv + d.2 <? 0) || (V <=? cv + d.2))
          eqn:Hout; [intros [= <-]; by apply H0|].
        apply orb_false_iff in Hout as [Hout H4]. apply orb_false_iff in Hout as [Hout H3].
        apply orb_false_iff in Hout as [H1 H2].
        apply Z.ltb_ge in H1, H3. apply Z.leb_gt in H2, H4.
        destruct (getVis v0 _); [intros [= <-]; by apply H0|].
        destruct (at_ (cu + d.1) (cv + d.2)) as [ce|]; simpl; [|done].
        destruct (block ce); intros [= <-]; [by apply H0|].
        simpl in Hq. apply elem_of_cons in Hq as [-> | Hq].
        - assert ((cu + d.1, cv + d.2) ∈ planeOrder U V) as Hin
            by (apply elem_of_planeOrder; simpl; lia).
          split; [done|]. simpl.
          change ((cv + d.2) * U + (cu + d.1)) with ((cu + d.1, cv + d.2).2 * U + (cu + d.1, cv + d.2).1).
          rewrite (marked_setVis U V) by done. by rewrite decide_True.
        - destruct (H0 q Hq) as [Hqp Hqm]. split; [done|]. simpl.
          assert ((cu + d.1, cv + d.2) ∈ planeOrder U V) as Hin
            by (apply elem_of_planeOrder; simpl; lia).
          change ((cv + d.2) * U + (cu + d.1)) with ((cu + d.1, cv + d.2).2 * U + (cu + d.1, cv + d.2).1).
          rewrite (marked_setVis U V) by done. by case_decide. }
      intros Hp. apply (Hpush neigh (vis, stack, seen) st1 Hlen Hv); [|done].
      intros q Hq. apply Hstack, elem_of_cons. by right.
  - intros p n Hp Hmp Hnot Hpn Hon.
    destruct (decide (p = (cu, cv))) as [-> | Hne]; [by apply Hadj|].
    destruct (Hn p Hp Hmp) as [Hold | Hnew]; [|done].
    apply Hm; [by apply (openIn_plane U V at_ Hat)|].
    apply (Hcl p n); try done. simpl.
    intros [? | Hin]%elem_of_cons; [done|]. by apply Hnot, Hs.
  - split; [done|]. intros p Hp Hmp. by apply Hm', Hm.
Qed.

(** With an empty stack a closed marking holds every cell reachable from
    a marked one. *)
Lemma closed_reaches st s :
  FloodClosed U V at_ st → st.1.2 = [] →
  s ∈ planeOrder U V → marked U st.1.1 s = true →
  ∀ q, connectedIn (openIn at_) s q → marked U st.1.1 q = true.
Proof.
  intros Hcl Hempty Hsp Hs q Hq.
  induction Hq as [q Hq | q r t Hqr IHc Hadj Ht]; [done|].
  apply (Hcl r t); try done.
  - apply (openIn_plane U V at_ Hat). by eapply connectedIn_end.
  - by apply IHc.
  - rewrite Hempty. apply not_elem_of_nil.
Qed.

Lemma isConnectedPlane_exact :
  ∃ b, isConnectedPlane U V at_ = Some b ∧
       (b = true ↔ singleComponent (openIn at_)).
Proof.
  destruct (isConnectedPlane_spec U V at_ Hat) as (b & Hb & Hsound).
  exists b. split; [done|]. split; [done|]. intros [[p0 Hp0] Hconn].
  revert Hb. unfold isConnectedPlane.
  destruct (scan_spec U V at_ Hat) as ([start open] & -> & Hopen & Hstart).
  cbn -[floodLoop floodFuel setVis replicate] in *.
  assert (Hpos : open ≠ 0).
  { rewrite Hopen.
    assert (p0 ∈ List.filter (openInb at_) (planeOrder U V)) as Hin.
    { apply list_elem_of_In, List.filter_In. split.
      - apply list_elem_of_In. by apply (openIn_plane U V at_ Hat).
      - by apply (openInb_spec U V at_ Hat). }
    destruct (List.filter (openInb at_) (planeOrder U V)); [by apply elem_of_nil in Hin|].
    simpl. lia. }
  rewrite decide_False by done.
  destruct (Hstart Hpos) as (s & -> & Hs).
  cbn -[floodLoop floodFuel setVis replicate].
  pose proof (openIn_plane U V at_ Hat s Hs) as Hsp.
  set (vis0 := replicate (Z.to_nat (U * V)) false).
  assert (∀ p, marked U vis0 p = false) as Hvis0.
  { intros p. unfold marked, getVis, idx, vis0. case_decide; [|done].
    destruct (replicate _ _ !! _) as [b'|] eqn:E; [|done].
    by apply lookup_replicate in E as [-> _]. }
  assert (length vis0 = Z.to_nat (U * V)) as Hlen0 by apply length_replicate.
  destruct (floodLoop U V at_ (floodFuel U V) (setVis vis0 (s.2 * U + s.1), [s], 1))
    as [st'|] eqn:Hflood; [|done].
  cbn -[floodLoop floodFuel setVis replicate]. intros [= <-].
  apply bool_decide_eq_true.
  assert (Hms : marked U (setVis vis0 (s.2 * U + s.1)) s = true).
  { rewrite (marked_setVis U V) by done. by rewrite decide_True. }
  set (st0 := (setVis vis0 (s.2 * U + s.1), [s], 1) : Flood) in *.
  assert (Hl0 : length st0.1.1 = Z.to_nat (U * V)) by (simpl; by rewrite length_setVis).
  assert (Hk0 : ∀ p, p ∈ st0.1.2 → p ∈ planeOrder U V ∧ marked U st0.1.1 p = true).
  { intros p Hp. simpl in Hp. apply list_elem_of_singleton in Hp. by subst p. }
  assert (Hc0 : FloodClosed U V at_ st0).
  { intros p n Hp Hm Hnot. simpl in Hm, Hnot.
    rewrite (marked_setVis U V) in Hm by done.
    case_decide as E; [|by rewrite Hvis0 in Hm].
    subst p. destruct Hnot. by apply list_elem_of_singleton. }
  destruct (floodLoop_closed _ _ _ Hl0 Hk0 Hc0 Hflood) as [Hcl Hmono].
  (* soundness facts of the flood, to compare the two counts *)
  subst st0.
  assert (Hinv0 : FloodInv U V at_ s (setVis vis0 (s.2 * U + s.1), [s], 1)).
  { split_and!; simpl.
    - by rewrite length_setVis.
    - rewrite (filter_length_mark (marked U vis0) _ _ s);
        [by rewrite filter_length_none | apply (NoDup_planeOrder U V) | done | done | done |].
      intros y Hy Hys. rewrite (marked_setVis U V) by done. by rewrite decide_False.
    - intros p Hp. rewrite (marked_setVis U V) by done.
      destruct (decide (p = s)) as [-> | E].
      + intros _. by constructor.
      + by rewrite Hvis0.
    - intros p ->%list_elem_of_singleton. done. }
  destruct (floodLoop_spec U V at_ Hat s (floodFuel U V) _ Hinv0) as (st2 & E2 & Hinv' & Hempty).
  { unfold floodMeasure, floodFuel. simpl.
    apply (elem_of_planeOrder U V) in Hsp. rewrite (length_planeOrder U V) by lia. lia. }
  rewrite Hflood in E2. injection E2 as <-.
  destruct Hinv' as (_ & Hseen & Hsound' & _).
  rewrite Hseen, Hopen. f_equal. apply filter_length_ext.
  intros p Hp. destruct (marked U st'.1.1 p) eqn:Hm.
  - symmetry. apply (openInb_spec U V at_ Hat). eapply connectedIn_end. by apply Hsound'.
  - destruct (openInb at_ p) eqn:Ho; [|done].
    apply (openInb_spec U V at_ Hat) in Ho. exfalso.
    assert (Hall : ∀ q, connectedIn (openIn at_) s q → marked U st'.1.1 q = true).
    { intros q Hq. apply (closed_reaches st' s); try done. by apply Hmono. }
    rewrite Hall in Hm; [done|]. by apply Hconn.
Qed.
End FloodComplete.

Lemma isConnectedXY_exact g z :
  wfGrid g → 0 ≤ z < NZ g →
  ∃ b, isConnectedXY g z = Some b ∧ (b = true ↔ singleComponent (openXY g z)).
Proof.
  intros Hwf Hz. apply (isConnectedPlane_exact (NX g) (NY g) (λ x y, cell g x y z)).
  intros u v. rewrite cell_is_Some_range by done. lia.
Qed.

Lemma isConnectedXZ_exact g y :
  wfGrid g → 0 ≤ y < NY g →
  ∃ b, isConnectedXZ g y = Some b ∧ (b = true ↔ singleComponent (openXZ g y)).
Proof.
  intros Hwf Hy. apply (isConnectedPlane_exact (NX g) (NZ g) (λ x z, cell g x y z)).
  intros u v. rewrite cell_is_Some_range by done. lia.
Qed.

Lemma isConnectedYZ_exact g x :
  wfGrid g → 0 ≤ x < NX g →
  ∃ b, isConnectedYZ g x = Some b ∧ (b = true ↔ singleComponent (openYZ g x)).
Proof.
  intros Hwf Hx. apply (isConnectedPlane_exact (NY g) (NZ g) (λ y z, cell g x y z)).
  intros u v. rewrite cell_is_Some_range by done. lia.
Qed.

Lemma allOf_exact (Q : Z → Prop) (test : Z → option bool) (l : list Z) :
  (∀ i, i ∈ l → ∃ b, test i = Some b ∧ (b = true ↔ Q i)) →
  ∃ b, allOf test l = Some b ∧ (b = true ↔ ∀ i, i ∈ l → Q i).
Proof.
  induction l as [|i l IH]; intros H; simpl.
  - exists true. split; [done|]. split; [|done]. intros _ i Hi. by apply elem_of_nil in Hi.
  - destruct (H i) as (b & -> & Hb); [by left|]. simpl. destruct b.
    + destruct IH as (b & -> & Hb'); [intros j Hj; apply H; by right|].
      exists b. split; [done|]. split.
      * intros -> j [->|Hj]%elem_of_cons; [by apply Hb | by apply Hb'].
      * intros Hall. apply Hb'. intros j Hj. apply Hall. by right.
    + exists false. split; [done|]. split; [done|]. intros Hall.
      apply Hb, Hall. by left.
Qed.

Lemma allSlicesConnected_exact g :
  wfGrid g → ∃ b, allSlicesConnected g = Some b ∧ (b = true ↔ allConnected g).
Proof.
  intros Hwf. unfold allSlicesConnected, allConnected.
  destruct (allOf_exact (λ z, singleComponent (openXY g z)) (isConnectedXY g) (seqZ 0 (NZ g)))
    as (b1 & -> & H1).
  { intros z Hz%elem_of_seqZ. apply isConnectedXY_exact; [done | lia]. }
  assert (E1 : b1 = true ↔ ∀ z, 0 ≤ z < NZ g → singleComponent (openXY g z)).
  { rewrite H1. split; intros H i Hi; apply H; [apply elem_of_seqZ; lia|].
    apply elem_of_seqZ in Hi. lia. }
  simpl. destruct b1; simpl; [|exists false; split; [done|]; split; [done|]; intros [H _]; by apply E1].
  destruct (allOf_exact (λ y, singleComponent (openXZ g y)) (isConnectedXZ g) (seqZ 0 (NY g)))
    as (b2 & -> & H2).
  { intros y Hy%elem_of_seqZ. apply isConnectedXZ_exact; [done | lia]. }
  assert (E2 : b2 = true ↔ ∀ y, 0 ≤ y < NY g → singleComponent (openXZ g y)).
  { rewrite H2. split; intros H i Hi; apply H; [apply elem_of_seqZ; lia|].
    apply elem_of_seqZ in Hi. lia. }
  simpl. destruct b2; simpl;
    [|exists false; split; [done|]; split; [done|]; intros (_ & H & _); by apply E2].
  destruct (allOf_exact (λ x, singleComponent (openYZ g x)) (isConnectedYZ g) (seqZ 0 (NX g)))
    as (b3 & -> & H3).
  { intros x Hx%elem_of_seqZ. apply isConnectedYZ_exact; [done | lia]. }
  assert (E3 : b3 = true ↔ ∀ x, 0 ≤ x < NX g → singleComponent (openYZ g x)).
  { rewrite H3. split; intros H i Hi; apply H; [apply elem_of_seqZ; lia|].
    apply elem_of_seqZ in Hi. lia. }
  exists b3. split; [done|]. rewrite E3. split.
  - intros H. split_and!; [by apply E1 | by apply E2 | done].
  - by intros (_ & _ & H).
Qed.

Lemma acceptable_exact cfg g x y z :
  wfGrid g → inBounds g x y z = true →
  ∃ b, acceptable cfg g x y z = Some b ∧
    (b = true ↔
       minOpenPerSlice cfg ≤ openCount g (sliceXY g z) ∧
       minOpenPerSlice cfg ≤ openCount g (sliceXZ g y) ∧
       minOpenPerSlice cfg ≤ openCount g (sliceYZ g x) ∧
       allConnected g).
Proof.
  intros Hwf (Hx & Hy & Hz)%inBounds_spec. unfold acceptable.
  rewrite sliceOpenCountXY_spec by done. simpl.
  destruct (minOpenPerSlice cfg <=? _) eqn:E1; simpl;
    [|exists false; split; [done|]; split; [done|]; apply Z.leb_gt in E1; lia].
  rewrite sliceOpenCountXZ_spec by done. simpl.
  destruct (minOpenPerSlice cfg <=? openCount g (sliceXZ g y)) eqn:E2; simpl;
    [|exists false; split; [done|]; split; [done|]; apply Z.leb_gt in E2; lia].
  rewrite sliceOpenCountYZ_spec by done. simpl.
  destruct (minOpenPerSlice cfg <=? openCount g (sliceYZ g x)) eqn:E3; simpl;
    [|exists false; split; [done|]; split; [done|]; apply Z.leb_gt in E3; lia].
  destruct (allSlicesConnected_exact g Hwf) as (b & -> & Hb).
  exists b. split; [done|]. apply Z.leb_le in E1, E2, E3. rewrite Hb. tauto.
Qed.

(** ** Counting the open cells of a slice *)

(** The lists the counting loops run over have no repetition, so a count
    of [m] open cells gives [m] distinct open cells of the slice. *)
Lemma NoDup_sliceXY g z : NoDup (sliceXY g z).
Proof.
  unfold sliceXY. apply NoDup_bind; [| |apply NoDup_seqZ].
  { intros y1 y2 p _ _ (x1 & ->%list_elem_of_singleton & _)%list_elem_of_bind
      (x2 & [= _ ->]%list_elem_of_singleton & _)%list_elem_of_bind.
    done. }
  intros y _. apply NoDup_bind; [| |apply NoDup_seqZ].
  { intros x1 x2 p _ _ ->%list_elem_of_singleton [= ->]%list_elem_of_singleton. done. }
  intros x _. apply NoDup_singleton.
Qed.

Lemma NoDup_sliceXZ g y : NoDup (sliceXZ g y).
Proof.
  unfold sliceXZ. apply NoDup_bind; [| |apply NoDup_seqZ].
  { intros z1 z2 p _ _ (x1 & ->%list_elem_of_singleton & _)%list_elem_of_bind
      (x2 & [= _ ->]%list_elem_of_singleton & _)%list_elem_of_bind.
    done. }
  intros z _. apply NoDup_bind; [| |apply NoDup_seqZ].
  { intros x1 x2 p _ _ ->%list_elem_of_singleton [= ->]%list_elem_of_singleton. done. }
  intros x _. apply NoDup_singleton.
Qed.

Lemma NoDup_sliceYZ g x : NoDup (sliceYZ g x).
Proof.
  unfold sliceYZ. apply NoDup_bind; [| |apply NoDup_seqZ].
  { intros z1 z2 p _ _ (y1 & ->%list_elem_of_singleton & _)%list_elem_of_bind
      (y2 & [= _ ->]%list_elem_of_singleton & _)%list_elem_of_bind.
    done. }
  intros z _. apply NoDup_bind; [| |apply NoDup_seqZ].
  { intros y1 y2 p _ _ ->%list_elem_of_singleton [= ->]%list_elem_of_singleton. done. }
  intros y _. apply NoDup_singleton.
Qed.

Lemma openB_openAt g p : openB g p = true → openAt g (cx p) (cy p) (cz p).
Proof.
  unfold openB, openAt. destruct (cell g (cx p) (cy p) (cz p)) as [c|]; [|done].
  intros H. exists c. split; [done|]. by destruct (block c).
Qed.

Lemma openCount_atLeast g l (f : Coord → Z * Z) (P : Z * Z → Prop) m :
  NoDup l → (∀ p q, p ∈ l → q ∈ l → f p = f q → p = q) →
  (∀ p, p ∈ l → openB g p = true → P (f p)) →
  m ≤ openCount g l → atLeast m P.
Proof.
  intros Hnd Hinj HP Hm. exists (f <$> List.filter (openB g) l). split_and!.
  - apply NoDup_fmap_2_strong.
    + intros p q [Hp _]%elem_of_List_filter [Hq _]%elem_of_List_filter. by apply Hinj.
    + apply NoDup_ListNoDup, List.NoDup_filter. by apply NoDup_ListNoDup.
  - by rewrite length_fmap.
  - intros p (q & -> & [Hq Ho]%elem_of_List_filter)%list_elem_of_fmap. by apply HP.
Qed.

Lemma atLeast_XY g z m : m ≤ openCount g (sliceXY g z) → atLeast m (openXY g z).
Proof.
  apply (openCount_atLeast g _ (λ p, (cx p, cy p))); [apply NoDup_sliceXY| |].
  - intros [x1 y1 z1] [x2 y2 z2] [Hz1 _]%elem_of_sliceXY [Hz2 _]%elem_of_sliceXY [= -> ->].
    simpl in *. congruence.
  - intros p [Hz _]%elem_of_sliceXY Ho%openB_openAt. unfold openXY. simpl. by rewrite <- Hz.
Qed.

Lemma atLeast_XZ g y m : m ≤ openCount g (sliceXZ g y) → atLeast m (openXZ g y).
Proof.
  apply (openCount_atLeast g _ (λ p, (cx p, cz p))); [apply NoDup_sliceXZ| |].
  - intros [x1 y1 z1] [x2 y2 z2] [Hz1 _]%elem_of_sliceXZ [Hz2 _]%elem_of_sliceXZ [= -> ->].
    simpl in *. congruence.
  - intros p [Hz _]%elem_of_sliceXZ Ho%openB_openAt. unfold openXZ. simpl. by rewrite <- Hz.
Qed.

Lemma atLeast_YZ g x m : m ≤ openCount g (sliceYZ g x) → atLeast m (openYZ g x).
Proof.
  apply (openCount_atLeast g _ (λ p, (cy p, cz p))); [apply NoDup_sliceYZ| |].
  - intros [x1 y1 z1] [x2 y2 z2] [Hz1 _]%elem_of_sliceYZ [Hz2 _]%elem_of_sliceYZ [= -> ->].
    simpl in *. congruence.
  - intros p [Hz _]%elem_of_sliceYZ Ho%openB_openAt. unfold openYZ. simpl. by rewrite <- Hz.
Qed.

End ProofsMore.

Section ProofsWords.
Context {UC : CaseMapping}.

(** * The letters and the conflicts of a word list *)

Lemma letterFrom_app init l1 l2 p :
  letterFrom init (l1 ++ l2) p = letterFrom (letterFrom init l1 p) l2 p.
Proof. apply fold_left_app. Qed.

Lemma letterFrom_cons init e l p :
  letterFrom init (e :: l) p = letterFrom (if decide (e.1 = p) then e.2 else init) l p.
Proof. done. Qed.

Lemma letterFrom_bind_cons js init w ws p :
  letterFrom init (w' ← w :: ws; writesOf js w') p =
  letterFrom (letterFrom init (writesOf js w) p) (w' ← ws; writesOf js w') p.
Proof. by rewrite bind_cons, letterFrom_app. Qed.

Lemma conflictAt_conflict w p had wants :
  conflictAt p (CrossingConflict w p had wants) = true.
Proof. simpl. by apply bool_decide_eq_true. Qed.

Lemma filter_conflictAt_log q l e :
  filter (λ e, conflictAt q e = true) (l ++ [e]) =
  filter (λ e, conflictAt q e = true) l ++ (if conflictAt q e then [e] else []).
Proof.
  rewrite filter_app. f_equal.
  destruct (conflictAt q e) eqn:E.
  - by rewrite filter_cons_True.
  - rewrite filter_cons_False; [done|]. by rewrite E.
Qed.

(** A free position is an open cell of the grid of a load in progress. *)
Lemma freeB_cell js g x y z :
  LoadInv js g → freeB js (mkCoord x y z) = true →
  ∃ ce, cell g x y z = Some ce ∧ block ce = false.
Proof.
  intros (Hwf & Hx & Hy & Hz & Hcells) [Hin Hnb]%andb_true_iff.
  rewrite <- (inDims_inBounds js g) in Hin by done. simpl in Hin.
  destruct (proj2 (cell_is_Some _ x y z Hwf) Hin) as [ce Hce].
  exists ce. split; [done|]. destruct (block ce) eqn:E; [|done].
  destruct (Hcells _ _ _ _ Hce) as (Hblk & _). apply Hblk in E.
  apply negb_true_iff, bool_decide_eq_false in Hnb. done.
Qed.

Lemma freeB_stop js g x y z :
  LoadInv js g → freeB js (mkCoord x y z) = false →
  inBounds g x y z = false ∨ ∃ ce, cell g x y z = Some ce ∧ block ce = true.
Proof.
  intros (Hwf & Hx & Hy & Hz & Hcells) Hfree.
  destruct (inBounds g x y z) eqn:Hin; [right | by left].
  destruct (proj2 (cell_is_Some _ x y z Hwf) Hin) as [ce Hce].
  exists ce. split; [done|]. destruct (Hcells _ _ _ _ Hce) as (Hblk & _). apply Hblk.
  apply andb_false_iff in Hfree as [Hf | Hf].
  - rewrite <- (inDims_inBounds js g) in Hf by done. simpl in Hf. congruence.
  - by apply negb_false_iff, bool_decide_eq_true in Hf.
Qed.

(** The inner loop of Format A, cell by cell: every cell ends with the last
    letter written to it, and the conflicts reported for it are those of
    the letters written over a different one. *)
Lemma placeLetters_exact js w dx dy dz ans x y z st :
  LoadInv js (grid st) →
  ∃ st', placeLetters w dx dy dz ans x y z st = Some st' ∧
    clues st' = clues st ∧ LoadInv js (grid st') ∧
    ∀ x' y' z' c, cell (grid st) x' y' z' = Some c →
      cell (grid st') x' y' z' =
        Some (set_sol (letterFrom (sol c) (runWrites js dx dy dz ans x y z)
                         (mkCoord x' y' z')) c) ∧
      filter (λ e, conflictAt (mkCoord x' y' z') e = true) (console st') =
        filter (λ e, conflictAt (mkCoord x' y' z') e = true) (console st) ++
        conflictsFrom w (mkCoord x' y' z') (sol c) (runWrites js dx dy dz ans x y z).
Proof.
  revert x y z st. induction ans as [|a rest IH]; intros x y z st Hinv.
  - exists st. split_and!; try done. intros x' y' z' c Hc. simpl.
    split; [by rewrite set_sol_id | by rewrite app_nil_r].
  - pose proof Hinv as (Hwf & Hx & Hy & Hz & Hcells).
    destruct (freeB js (mkCoord x y z)) eqn:Hfree.
    + destruct (freeB_cell js _ x y z Hinv Hfree) as (ce & Hce & Hb).
      destruct (placeLetters_step w dx dy dz a rest x y z st ce Hwf Hce Hb)
        as (g' & _ & Hwf' & Hd & Hnew & ->).
      match goal with |- context [placeLetters _ _ _ _ _ _ _ _ ?s] => set (st1 := s) end.
      assert (LoadInv js (grid st1)) as Hinv1.
      { eapply LoadInv_solRel; [exact Hinv|]. split_and!; [done | done |].
        intros x' y' z' c Hc. simpl. rewrite Hnew. case_decide as E.
        - destruct E as (-> & -> & ->). assert (c = ce) as -> by congruence.
          eexists. split; [done|]. right. split; [done | eauto].
        - exists c. split; [done | by left]. }
      destruct (IH (x + dx) (y + dy) (z + dz) st1 Hinv1) as (st' & Hst' & Hcl & Hinv' & Hall).
      exists st'. split_and!; [done | done | done |].
      intros x' y' z' c Hc. simpl runWrites. rewrite Hfree.
      pose proof (Hnew x' y' z') as Hc1.
      destruct (decide (x' = x ∧ y' = y ∧ z' = z)) as [(-> & -> & ->) | Hne].
      * assert (c = ce) as -> by congruence.
        destruct (Hall _ _ _ _ Hc1) as [H1 H2]. split.
        -- rewrite H1. unfold letterFrom at 2. simpl fold_left.
           rewrite decide_True by done. done.
        -- rewrite H2. unfold st1 at 1. simpl console.
           simpl conflictsFrom. rewrite decide_True by done.
           rewrite filter_app, <- app_assoc. f_equal. f_equal.
           destruct (truthy (sol ce) && negb (String.eqb (sol ce) (String a ""))).
           ++ rewrite filter_cons_True; [done | apply conflictAt_conflict].
           ++ done.
      * rewrite Hc in Hc1.
        assert (mkCoord x y z ≠ mkCoord x' y' z') as Hq by (intros [= -> -> ->]; by apply Hne).
        destruct (Hall _ _ _ _ Hc1) as [H1 H2]. split.
        -- rewrite H1. unfold letterFrom at 2. simpl fold_left.
           rewrite decide_False by done. done.
        -- rewrite H2. unfold st1 at 1. simpl console.
           simpl conflictsFrom. rewrite decide_False by done.
           rewrite filter_app. f_equal.
           destruct (truthy (sol ce) && negb (String.eqb (sol ce) (String a ""))).
           ++ rewrite filter_cons_False; [by rewrite app_nil_r|].
              simpl. rewrite bool_decide_false; done.
           ++ by rewrite app_nil_r.
    + assert (∃ e, placeLetters w dx dy dz (String a rest) x y z st = Some (logEv e st) ∧
                   isStructural e = true) as (e & -> & He).
      { destruct (freeB_stop js _ x y z Hinv Hfree) as [Hin | (ce & Hce & Hb)].
        - eexists. simpl. rewrite Hin. simpl. done.
        - eexists. simpl. rewrite (cell_inBounds _ _ _ _ _ Hwf Hce). simpl.
          rewrite Hce. simpl. rewrite Hb. done. }
      exists (logEv e st). split_and!; [done | done | done |].
      intros x' y' z' c Hc. simpl runWrites. rewrite Hfree. simpl.
      split; [by rewrite set_sol_id|].
      rewrite filter_conflictAt_log, app_nil_r.
      destruct e; simpl in He; try done; by rewrite app_nil_r.
Qed.

Lemma placeWord_exact js w st :
  LoadInv js (grid st) →
  ∃ st', placeWord st w = Some st' ∧
    clues st' = clues st ∧ LoadInv js (grid st') ∧
    ∀ x y z c, cell (grid st) x y z = Some c →
      cell (grid st') x y z =
        Some (set_sol (letterFrom (sol c) (writesOf js w) (mkCoord x y z)) c) ∧
      filter (λ e, conflictAt (mkCoord x y z) e = true) (console st') =
        filter (λ e, conflictAt (mkCoord x y z) e = true) (console st) ++
        conflictsFrom w (mkCoord x y z) (sol c) (writesOf js w).
Proof. intros Hinv. by apply placeLetters_exact. Qed.

(** The outer loop of Format A: the words of the list, in order. *)
Lemma placeWords_exact js ws st :
  LoadInv js (grid st) →
  ∃ st', forEach placeWord ws st = Some st' ∧
    clues st' = clues st ∧ LoadInv js (grid st') ∧
    ∀ x y z c, cell (grid st) x y z = Some c →
      cell (grid st') x y z =
        Some (set_sol (letterFrom (sol c) (w ← ws; writesOf js w) (mkCoord x y z)) c) ∧
      filter (λ e, conflictAt (mkCoord x y z) e = true) (console st') =
        filter (λ e, conflictAt (mkCoord x y z) e = true) (console st) ++
        conflictsOfWords js (mkCoord x y z) (sol c) ws.
Proof.
  revert st. induction ws as [|w ws IH]; intros st Hinv.
  - exists st. split_and!; try done. intros x y z c Hc. simpl.
    split; [by rewrite set_sol_id | by rewrite app_nil_r].
  - destruct (placeWord_exact js w st Hinv) as (st1 & Hst1 & Hcl1 & Hinv1 & H1).
    destruct (IH st1 Hinv1) as (st' & Hst' & Hcl' & Hinv' & H').
    exists st'. split_and!; [|congruence | done |].
    { rewrite forEach_cons, Hst1. done. }
    intros x y z c Hc. destruct (H1 _ _ _ _ Hc) as [Hc1 Hf1].
    destruct (H' _ _ _ _ Hc1) as [Hc' Hf']. split.
    + rewrite Hc'. simpl sol. by rewrite letterFrom_bind_cons.
    + rewrite Hf', Hf1. simpl. by rewrite app_assoc.
Qed.

(** ** What a word writes *)

Lemma get_lt (j : nat) s a : String.get j s = Some a → (j < String.length s)%nat.
Proof.
  revert j. induction s as [|b s IH]; intros j; [by destruct j|].
  destruct j as [|j]; simpl; [lia|]. intros Hj%IH. lia.
Qed.

Lemma lt_get (j : nat) s : (j < String.length s)%nat → ∃ a, String.get j s = Some a.
Proof.
  revert j. induction s as [|b s IH]; intros j; simpl; [lia|].
  destruct j as [|j]; simpl; [eauto|]. intros Hj. apply IH. lia.
Qed.

Lemma elem_of_runWrites js dx dy dz ans x y z q s :
  (q, s) ∈ runWrites js dx dy dz ans x y z ↔
  ∃ (j : nat) a, String.get j ans = Some a ∧ s = String a EmptyString ∧
    q = mkCoord (x + Z.of_nat j * dx) (y + Z.of_nat j * dy) (z + Z.of_nat j * dz) ∧
    ∀ k : nat, (k ≤ j)%nat →
      freeB js (mkCoord (x + Z.of_nat k * dx) (y + Z.of_nat k * dy) (z + Z.of_nat k * dz))
        = true.
Proof.
  revert x y z. induction ans as [|b rest IH]; intros x y z.
  - simpl. split; [by intros ?%elem_of_nil|]. intros (j & a & Hj & _). by destruct j.
  - assert (E0 : mkCoord (x + Z.of_nat 0 * dx) (y + Z.of_nat 0 * dy) (z + Z.of_nat 0 * dz)
                 = mkCoord x y z) by (f_equal; lia).
    assert (ES : ∀ k : nat,
               mkCoord (x + dx + Z.of_nat k * dx) (y + dy + Z.of_nat k * dy)
                       (z + dz + Z.of_nat k * dz) =
               mkCoord (x + Z.of_nat (S k) * dx) (y + Z.of_nat (S k) * dy)
                       (z + Z.of_nat (S k) * dz)) by (intros k; f_equal; lia).
    simpl runWrites. split.
    + destruct (freeB js (mkCoord x y z)) eqn:Hfree; [|by intros ?%elem_of_nil].
      intros [[= -> ->] | Hin]%elem_of_cons.
      * exists 0%nat, b. split_and!; [done | done | by rewrite E0 |].
        intros k Hk. assert (k = 0%nat) as -> by lia. by rewrite E0.
      * apply IH in Hin as (j & a & Hj & -> & -> & Hall).
        exists (S j), a. split_and!; [done | done | by rewrite ES |].
        intros [|k] Hk; [by rewrite E0|]. rewrite <- ES. apply Hall. lia.
    + intros (j & a & Hj & -> & -> & Hall).
      pose proof (Hall 0%nat ltac:(lia)) as H0. rewrite E0 in H0. rewrite H0.
      destruct j as [|j].
      * injection Hj as ->. rewrite E0. by left.
      * right. apply IH. exists j, a. split_and!; [done | done | by rewrite ES |].
        intros k Hk. rewrite ES. apply Hall. lia.
Qed.

Lemma freeB_freeCell js p : freeB js p = true ↔ freeCell js p.
Proof.
  unfold freeB, freeCell. rewrite andb_true_iff, negb_true_iff, bool_decide_eq_false. done.
Qed.

(** A word writes the letter of its [j]-th position there exactly when it
    gets that far. *)
Lemma elem_of_writesOf js w q s :
  (q, s) ∈ writesOf js w ↔
  ∃ (j : nat) a, String.get j (wordLetters w) = Some a ∧ s = String a EmptyString ∧
    q = wordPos w j ∧ ∀ k : nat, (k ≤ j)%nat → freeCell js (wordPos w k).
Proof.
  unfold writesOf. rewrite elem_of_runWrites. unfold wordPos.
  split; intros (j & a & Hj & Hs & Hq & Hall); exists j, a; split_and!; try done;
    intros k Hk; apply freeB_freeCell; by apply Hall.
Qed.

Lemma writesOf_reaches js w q s :
  (q, s) ∈ writesOf js w → ∃ j : nat, reaches js w j ∧ q = wordPos w j.
Proof.
  intros (j & a & Hj & _ & Hq & Hall)%elem_of_writesOf.
  exists j. split; [|done]. split; [by eapply get_lt | done].
Qed.

(** The cells of a run are distinct. *)
Lemma NoDup_runWrites js dx dy dz ans x y z :
  unitStep dx dy dz → NoDup (runWrites js dx dy dz ans x y z).*1.
Proof.
  intros Hunit. revert x y z. induction ans as [|b rest IH]; intros x y z; simpl.
  - constructor.
  - destruct (freeB js (mkCoord x y z)); [|constructor]. simpl. constructor; [|apply IH].
    intros ((q & s) & Hq & Hin)%list_elem_of_fmap. simpl in Hq. subst q.
    apply elem_of_runWrites in Hin as (j & a & _ & _ & [= E1 E2 E3] & _).
    unfold unitStep in Hunit. lia.
Qed.

Lemma NoDup_writesOf js w : NoDup (writesOf js w).*1.
Proof. apply NoDup_runWrites, unitStep_dir. Qed.

(** ** Conflicts at one cell *)

Lemma conflictsFrom_none w p init l :
  (∀ e, e ∈ l → e.1 ≠ p) →
  conflictsFrom w p init l = [] ∧ letterFrom init l p = init.
Proof.
  revert init. induction l as [|e l IH]; intros init Hl; [done|].
  rewrite letterFrom_cons. simpl conflictsFrom.
  rewrite !decide_False by (apply Hl; by left).
  apply IH. intros e' He'. apply Hl. by right.
Qed.

Lemma conflictsFrom_one w p init l s :
  NoDup l.*1 → (p, s) ∈ l →
  conflictsFrom w p init l =
    (if truthy init && negb (String.eqb init s) then [CrossingConflict w p init s] else []) ∧
  letterFrom init l p = s.
Proof.
  revert init. induction l as [|e l IH]; intros init Hnd Hin; [by apply elem_of_nil in Hin|].
  apply NoDup_cons in Hnd as [Hne Hnd].
  rewrite letterFrom_cons. simpl conflictsFrom.
  apply elem_of_cons in Hin as [<- | Hin].
  - simpl. rewrite !decide_True by done.
    destruct (conflictsFrom_none w p s l) as [-> ->].
    { intros e' He' Ee'. apply Hne. apply list_elem_of_fmap. exists e'. by rewrite Ee'. }
    by rewrite app_nil_r.
  - rewrite !decide_False
      by (intros Ee; apply Hne; apply list_elem_of_fmap; by exists (p, s)).
    by apply IH.
Qed.

Lemma conflictsOfWords_app js p init ws1 ws2 :
  conflictsOfWords js p init (ws1 ++ ws2) =
    conflictsOfWords js p init ws1 ++
    conflictsOfWords js p (letterFrom init (w ← ws1; writesOf js w) p) ws2.
Proof.
  revert init. induction ws1 as [|w ws1 IH]; intros init; [done|].
  rewrite <- app_comm_cons. cbn [conflictsOfWords].
  by rewrite IH, letterFrom_bind_cons, <- app_assoc.
Qed.

(** Words that write nothing at [p] report nothing for it and leave its
    letter. *)
Lemma conflictsOfWords_none js p init ws :
  (∀ w e, w ∈ ws → e ∈ writesOf js w → e.1 ≠ p) →
  conflictsOfWords js p init ws = [] ∧ letterFrom init (w ← ws; writesOf js w) p = init.
Proof.
  revert init. induction ws as [|w ws IH]; intros init Hws; [done|].
  cbn [conflictsOfWords]. rewrite letterFrom_bind_cons.
  destruct (conflictsFrom_none w p init (writesOf js w)) as [-> ->].
  { intros e He. apply (Hws w); [by left | done]. }
  apply IH. intros w' e Hw'. apply Hws. by right.
Qed.

Lemma conflictsOfWords_one js p init w s :
  (p, s) ∈ writesOf js w →
  conflictsOfWords js p init [w] =
    (if truthy init && negb (String.eqb init s) then [CrossingConflict w p init s] else []) ∧
  letterFrom init (w' ← [w]; writesOf js w') p = s.
Proof.
  intros Hin. cbn [conflictsOfWords]. rewrite letterFrom_bind_cons, app_nil_r.
  change (letterFrom (letterFrom init (writesOf js w) p) (w' ← []; writesOf js w') p)
    with (letterFrom init (writesOf js w) p).
  by apply conflictsFrom_one; [apply NoDup_writesOf|].
Qed.

(** ** The load of a word list *)

(** After a Format A load every cell holds the last letter the words wrote
    to it, and the conflicts on the console are, cell by cell, those of
    letters written over a different one. *)
Lemma load_words_exact js :
  0 ≤ p_nx js < 2 ^ 32 → 0 ≤ p_ny js < 2 ^ 32 → 0 ≤ p_nz js < 2 ^ 32 →
  p_words js ≠ [] →
  ∃ st, loadPuzzleFromJSON js = Some st ∧ LoadInv js (grid st) ∧
    Forall (justified js) (console st) ∧
    ∀ x y z c, cell (grid st) x y z = Some c →
      sol c = lastLetter js (mkCoord x y z) ∧
      filter (λ e, conflictAt (mkCoord x y z) e = true) (console st) =
        conflictsOfWords js (mkCoord x y z) "" (p_words js).
Proof.
  intros Hx Hy Hz Hws.
  destruct (load_cases js Hx Hy Hz) as (g0 & [Hinv Hzero] & Hload).
  rewrite bool_decide_false in Hload by done. simpl in Hload.
  pose proof Hinv as (Hwf0 & _).
  destruct (loadFormatA_spec js (initState g0) Hwf0)
    as (g1 & st1 & st & Hst & _ & Hplace & Hgrid & Hnum & _ & Hco & _).
  subst g1.
  destruct (placeWords_exact js (p_words js) (initState g0) Hinv)
    as (st1' & Hst1' & _ & Hinv1 & Hall).
  assert (st1' = st1) as -> by congruence.
  exists st. split_and!; [by rewrite Hload | by eapply LoadInv_numRel | |].
  { destruct (placeWords_events js (initState g0) Hinv (p_words js))
      as (st2 & evs & E2 & _ & Hcon2 & Hj & _); [done|].
    assert (st2 = st1) as -> by congruence. simpl in Hcon2.
    by rewrite Hco, Hcon2. }
  intros x y z c Hc.
  pose proof Hinv1 as (Hwf1 & _).
  destruct (cellwise_inv _ _ _ _ _ _ _ Hwf1 Hnum Hc) as (c1 & Hc1 & _ & _ & Hs & _).
  assert (inBounds g0 x y z = true) as Hin.
  { destruct Hinv as (_ & Hx0 & Hy0 & Hz0 & _). destruct Hinv1 as (_ & Hx1 & Hy1 & Hz1 & _).
    pose proof (cell_inBounds _ _ _ _ _ Hwf1 Hc1) as Hin1.
    unfold inBounds in *. by rewrite Hx0, Hy0, Hz0, <- Hx1, <- Hy1, <- Hz1. }
  destruct (proj2 (cell_is_Some _ _ _ _ Hwf0) Hin) as [c0 Hc0].
  destruct (Hall _ _ _ _ Hc0) as [Hc1' Hf].
  destruct (Hzero _ _ _ _ Hc0) as (Hs0 & _).
  simpl in Hc1'. rewrite Hc1 in Hc1'. injection Hc1' as ->.
  rewrite Hs0 in *. split.
  - by rewrite Hs.
  - rewrite Hco, Hf. done.
Qed.

(** When every conflict of a list is at the cell [p], the conflicts are
    those at [p]. *)
Lemma conflicts_all_at p l :
  (∀ q, q ≠ p → filter (λ e, conflictAt q e = true) l = []) →
  filter (λ e, isConflict e = true) l = filter (λ e, conflictAt p e = true) l.
Proof.
  induction l as [|e l IH]; intros Hl; [done|].
  assert (∀ q, q ≠ p → filter (λ e, conflictAt q e = true) l = []) as Hl'.
  { intros q Hq. specialize (Hl q Hq).
    destruct (decide (conflictAt q e = true)) as [E|E].
    - by rewrite filter_cons_True in Hl.
    - by rewrite filter_cons_False in Hl. }
  destruct e as [w0 p0|w0 p0|w0 p0 had wants|c0]; simpl.
  1,2,4: rewrite !filter_cons_False by done; by apply IH.
  destruct (decide (p0 = p)) as [-> | Hne].
  - rewrite !filter_cons_True; [by rewrite IH | by apply bool_decide_eq_true | done].
  - specialize (Hl p0 Hne). rewrite filter_cons_True in Hl; [done|].
    by apply bool_decide_eq_true.
Qed.

Lemma filter_none {A} (P : A → Prop) `{∀ x, Decision (P x)} (l : list A) :
  (∀ x, x ∈ l → ¬ P x) → filter P l = [].
Proof.
  induction l as [|a l IH]; intros Hl; [done|].
  rewrite filter_cons_False by (apply Hl; by left).
  apply IH. intros x Hx. apply Hl. by right.
Qed.

Lemma writes_dec (l : list (Coord * string)) q :
  (∃ s, (q, s) ∈ l) ∨ (∀ s, (q, s) ∉ l).
Proof.
  destruct (decide (q ∈ l.*1)) as [Hin | Hnot].
  - left. apply list_elem_of_fmap in Hin as ([q' s] & -> & Hin). by exists s.
  - right. intros s Hs. apply Hnot. apply list_elem_of_fmap. by exists (q, s).
Qed.

(** Two words that write different letters at [p], the words around them
    writing nothing there: one conflict at [p], and the letter of the
    later word. *)
Lemma crossing_at js p l1 w1 l2 w2 l3 s1 s2 :
  (p, s1) ∈ writesOf js w1 → (p, s2) ∈ writesOf js w2 →
  (∀ w e, w ∈ l1 ++ l2 ++ l3 → e ∈ writesOf js w → e.1 ≠ p) →
  conflictsOfWords js p "" (l1 ++ w1 :: l2 ++ w2 :: l3) =
    (if truthy s1 && negb (String.eqb s1 s2) then [CrossingConflict w2 p s1 s2] else []) ∧
  letterFrom "" (w ← l1 ++ w1 :: l2 ++ w2 :: l3; writesOf js w) p = s2.
Proof.
  intros H1 H2 Hother.
  assert (∀ init l, (∀ w, w ∈ l → w ∈ l1 ++ l2 ++ l3) →
            conflictsOfWords js p init l = [] ∧
            letterFrom init (w ← l; writesOf js w) p = init) as Hnone.
  { intros init l Hl. apply conflictsOfWords_none. intros w e Hw. apply Hother. by apply Hl. }
  destruct (Hnone "" l1) as [C1 L1]; [intros w Hw; set_solver|].
  destruct (conflictsOfWords_one js p "" w1 s1 H1) as [C2 L2].
  destruct (Hnone s1 l2) as [C3 L3]; [intros w Hw; set_solver|].
  destruct (conflictsOfWords_one js p s1 w2 s2 H2) as [C4 L4].
  destruct (Hnone s2 l3) as [C5 L5]; [intros w Hw; set_solver|].
  change (l1 ++ w1 :: l2 ++ w2 :: l3) with (l1 ++ [w1] ++ l2 ++ [w2] ++ l3).
  rewrite !conflictsOfWords_app, !bind_app, !letterFrom_app.
  rewrite L1, C1, L2, C2, L3, C3, L4, C4, L5, C5. simpl. by rewrite app_nil_r.
Qed.

(** Two words alone report nothing for a cell that they do not both write. *)
Lemma conflicts_elsewhere js w1 w2 q :
  (∀ s1 s2, (q, s1) ∈ writesOf js w1 → (q, s2) ∈ writesOf js w2 → False) →
  conflictsOfWords js q "" [w1; w2] = [].
Proof.
  intros Hnot. cbn [conflictsOfWords]. rewrite app_nil_r.
  assert (∀ w init, (∀ s, (q, s) ∉ writesOf js w) →
            conflictsFrom w q init (writesOf js w) = [] ∧
            letterFrom init (writesOf js w) q = init) as Hnone.
  { intros w init Hw. apply conflictsFrom_none. intros [q' s'] He ?. simpl in *. subst q'.
    by apply (Hw s'). }
  assert (∀ w s, (q, s) ∈ writesOf js w →
            conflictsFrom w q "" (writesOf js w) = [] ∧
            letterFrom "" (writesOf js w) q = s) as Hone.
  { intros w s Hw. by apply (conflictsFrom_one w q "" _ s (NoDup_writesOf js w)) in Hw. }
  destruct (writes_dec (writesOf js w1) q) as [[s1 Hs1] | Hno1].
  - destruct (Hone w1 s1 Hs1) as [-> ->]. simpl.
    apply Hnone. intros s2 Hs2. by apply (Hnot s1 s2).
  - destruct (Hnone w1 "" Hno1) as [-> ->]. simpl.
    destruct (writes_dec (writesOf js w2) q) as [[s2 Hs2] | Hno2].
    + by apply Hone in Hs2 as [-> _].
    + by apply Hnone.
Qed.

End ProofsWords.

(** * The claims of the specification *)

(** ** C10: block entries outside the declared dimensions *)

(** C10, the claim as stated fails: a record can have a block entry off
    the grid and still not load.  With a negative depth, or a depth of
    2^32, [new Array(NZ)] throws before the block list is read. *)
Lemma stray_block_in_unbuildable_record :
  loadPuzzleFromJSON recordStrayNegative = None ∧
  loadPuzzleFromJSON recordStrayHuge = None.
Proof. split; vm_compute; reflexivity. Qed.

(** C10, amended.  Loading a record whose three dimensions are array
    lengths (integers from 0 to 2^32 - 1) and whose block list has entries
    outside the declared dimensions does not fail (coordinates are
    integers, as in every [Puzzle]): the load returns a state
    whose blocked cells are exactly the cells named by the block list (so
    every in-range entry is applied), and the entries out of range are
    skipped without a trace, the state (grid, clues and console) being the
    one obtained from the record with those entries removed. *)
Theorem blocks_outside_dims_skipped {UC : CaseMapping} js :
  0 ≤ p_nx js < 2 ^ 32 → 0 ≤ p_ny js < 2 ^ 32 → 0 ≤ p_nz js < 2 ^ 32 →
  ∃ st, loadPuzzleFromJSON js = Some st ∧
    (∀ x y z c, cell (grid st) x y z = Some c →
       (block c = true ↔ mkCoord x y z ∈ p_blocks js)) ∧
    (∀ b, b ∈ p_blocks js → inDims js b = true →
       ∃ c, cell (grid st) (cx b) (cy b) (cz b) = Some c ∧ block c = true) ∧
    loadPuzzleFromJSON (withBlocks (List.filter (inDims js) (p_blocks js)) js) = Some st.
Proof.
  intros Hx Hy Hz.
  destruct (load_LoadInv js Hx Hy Hz) as (st & Hst & Hwf & Hnx & Hny & Hnz & Hcells).
  exists st. split_and!; [done | | |].
  - intros x y z c Hc. by apply (Hcells x y z c).
  - intros b Hb Hin. rewrite <- (inDims_inBounds js (grid st)) in Hin by done.
    destruct (proj2 (cell_is_Some _ _ _ _ Hwf) Hin) as [c Hc].
    exists c. split; [done|]. apply (Hcells _ _ _ _ Hc). by destruct b.
  - rewrite <- Hst. unfold loadPuzzleFromJSON. simpl.
    destruct (buildWorld_spec _ _ _ Hx Hy Hz) as (g0 & -> & _ & Hx0 & Hy0 & Hz0 & _).
    simpl. by rewrite (markBlocks_filter js).
Qed.

Lemma blocks_outside_dims_skipped_witness :
  ∃ st, loadPuzzleFromJSON recordWithStrayBlocks = Some st ∧
    (∀ x y z c, cell (grid st) x y z = Some c →
       (block c = true ↔ mkCoord x y z ∈ p_blocks recordWithStrayBlocks)) ∧
    (∀ b, b ∈ p_blocks recordWithStrayBlocks → inDims recordWithStrayBlocks b = true →
       ∃ c, cell (grid st) (cx b) (cy b) (cz b) = Some c ∧ block c = true) ∧
    loadPuzzleFromJSON
      (withBlocks (List.filter (inDims recordWithStrayBlocks)
                     (p_blocks recordWithStrayBlocks)) recordWithStrayBlocks) = Some st.
Proof. apply (blocks_outside_dims_skipped recordWithStrayBlocks); simpl; lia. Defined.

(** ** C8: where the extractor registers a word *)

(** C8.  On every grid the extractor returns a clue of direction [d]
    starting at a cell iff that cell is open, the cell before it in
    direction [d] is off the grid or blocked, and the cell after it is on the
    grid and open.  In particular an open cell with a stop on both sides (a
    run of one cell) starts no clue in that direction.  The loop of the
    generator, [computeDirectionalCluesJSON], returns the same clues. *)
Theorem extractor_registers_word_starts g :
  wfGrid g →
  ∃ cl, computeCluesFromWorld g = Some cl ∧
    computeDirectionalCluesJSON g = Some cl ∧
    (∀ d x y z,
       (∃ c, c ∈ cluesOf d cl ∧ c_start c = mkCoord x y z) ↔
       openAt g x y z ∧
       stopAt g (x - stepX d) (y - stepY d) (z - stepZ d) ∧
       openAt g (x + stepX d) (y + stepY d) (z + stepZ d)) ∧
    (∀ d x y z,
       openAt g x y z →
       stopAt g (x - stepX d) (y - stepY d) (z - stepZ d) →
       stopAt g (x + stepX d) (y + stepY d) (z + stepZ d) →
       ¬ ∃ c, c ∈ cluesOf d cl ∧ c_start c = mkCoord x y z).
Proof.
  intros Hwf.
  destruct (computeCluesFromWorld_spec g Hwf) as (cl & Hcl & Hsound & Hcomplete & _).
  assert (∀ d x y z,
            (∃ c, c ∈ cluesOf d cl ∧ c_start c = mkCoord x y z) ↔ isStart g d x y z) as Hiff.
  { intros d x y z. split.
    - intros (c & Hc & Hs). destruct (Hsound d c Hc) as (Hst & _). by rewrite Hs in Hst.
    - apply Hcomplete. }
  exists cl. split_and!; [done | done | exact Hiff |].
  intros d x y z _ _ Hnext (_ & _ & Ho)%Hiff.
  by apply (stopAt_not_openAt g _ _ _ Hwf Hnext).
Qed.

Lemma extractor_registers_word_starts_witness :
  ∃ cl, computeCluesFromWorld gridRow3 = Some cl ∧
    computeDirectionalCluesJSON gridRow3 = Some cl ∧
    (∀ d x y z,
       (∃ c, c ∈ cluesOf d cl ∧ c_start c = mkCoord x y z) ↔
       openAt gridRow3 x y z ∧
       stopAt gridRow3 (x - stepX d) (y - stepY d) (z - stepZ d) ∧
       openAt gridRow3 (x + stepX d) (y + stepY d) (z + stepZ d)) ∧
    (∀ d x y z,
       openAt gridRow3 x y z →
       stopAt gridRow3 (x - stepX d) (y - stepY d) (z - stepZ d) →
       stopAt gridRow3 (x + stepX d) (y + stepY d) (z + stepZ d) →
       ¬ ∃ c, c ∈ cluesOf d cl ∧ c_start c = mkCoord x y z).
Proof.
  apply (extractor_registers_word_starts gridRow3).
  split; [reflexivity | repeat constructor].
Defined.

(** ** C7: numbering is keyed by the start coordinate *)

(** C7.  In a Format A load every word of the record is listed as a clue of
    its direction at its start, and any two clues of the loaded puzzle, of
    any directions, have the same number iff they have the same start.  The
    clues derived from a grid by the extractor have the same property, and
    every cell at which a word starts has its clue. *)
Theorem numbering_keyed_by_start {UC : CaseMapping} js g :
  0 ≤ p_nx js < 2 ^ 32 → 0 ≤ p_ny js < 2 ^ 32 → 0 ≤ p_nz js < 2 ^ 32 →
  p_words js ≠ [] → wfGrid g →
  (∃ st, loadPuzzleFromJSON js = Some st ∧
     (∀ w, w ∈ p_words js →
        ∃ c, c ∈ cluesOf (w_dir w) (clues st) ∧ c_start c = w_start w) ∧
     (∀ d1 d2 c1 c2, c1 ∈ cluesOf d1 (clues st) → c2 ∈ cluesOf d2 (clues st) →
        (c_start c1 = c_start c2 ↔ c_n c1 = c_n c2))) ∧
  (∃ cl, computeCluesFromWorld g = Some cl ∧
     (∀ d x y z, isStart g d x y z →
        ∃ c, c ∈ cluesOf d cl ∧ c_start c = mkCoord x y z) ∧
     (∀ d1 d2 c1 c2, c1 ∈ cluesOf d1 cl → c2 ∈ cluesOf d2 cl →
        (c_start c1 = c_start c2 ↔ c_n c1 = c_n c2))).
Proof.
  intros Hx Hy Hz Hws Hwf. split.
  - destruct (load_phases js Hx Hy Hz)
      as (g0 & g1 & cl & st & Hst & _ & _ & _ & Hb & HA & _).
    destruct (HA Hws) as [-> _].
    exists st. split_and!; [done | |].
    + intros w Hw.
      destruct (buildClues_spec (p_words js)) as (_ & Hwords & _).
      destruct (Hwords w Hw) as (c & Hc & Hs & _).
      destruct (bound_elem_of _ _ _ _ _ (Hb (w_dir w)) Hc) as (c' & Hc' & Hbd).
      exists c'. split; [done|]. apply bound_fields in Hbd as (_ & _ & -> & _). done.
    + intros d1 d2 c1 c2 H1 H2.
      destruct (bound_elem_of_inv _ _ _ _ _ (Hb d1) H1) as (k1 & Hk1 & Hb1).
      destruct (bound_elem_of_inv _ _ _ _ _ (Hb d2) H2) as (k2 & Hk2 & Hb2).
      apply bound_fields in Hb1 as (-> & _ & -> & _).
      apply bound_fields in Hb2 as (-> & _ & -> & _).
      by eapply buildClues_numbering.
  - destruct (computeCluesFromWorld_spec g Hwf) as (cl & Hcl & _ & Hcomplete & Hnum).
    exists cl. split_and!; [done | exact Hcomplete | exact Hnum].
Qed.

(** On [recordNumbered] the rightward and the downward clue from (0,0,0)
    share a number, and the rightward clue from (0,2,0) has another; in the
    open box the same holds of the clues from (0,0,0) and from (0,1,0). *)
Lemma numbering_keyed_by_start_witness :
  (∃ st, loadPuzzleFromJSON recordNumbered = Some st ∧
     ∃ c1 c2 c3, c1 ∈ clR (clues st) ∧ c2 ∈ clD (clues st) ∧ c3 ∈ clR (clues st) ∧
       c_start c1 = mkCoord 0 0 0 ∧ c_start c2 = mkCoord 0 0 0 ∧
       c_start c3 = mkCoord 0 2 0 ∧ c_n c1 = c_n c2 ∧ c_n c1 ≠ c_n c3) ∧
  (∃ cl, computeCluesFromWorld gridBox = Some cl ∧
     ∃ c1 c2 c3, c1 ∈ clR cl ∧ c2 ∈ clD cl ∧ c3 ∈ clR cl ∧
       c_start c1 = mkCoord 0 0 0 ∧ c_start c2 = mkCoord 0 0 0 ∧
       c_start c3 = mkCoord 0 1 0 ∧ c_n c1 = c_n c2 ∧ c_n c1 ≠ c_n c3).
Proof.
  destruct (numbering_keyed_by_start recordNumbered gridBox)
    as [(st & Hst & Hwords & Hnum) (cl & Hcl & Hstarts & Hnum')];
    [simpl; lia.. | discriminate | split; [reflexivity | repeat constructor] |].
  split.
  - exists st. split; [done|].
    destruct (Hwords (mkWord dirR (mkCoord 0 0 0) "ABC" None)) as (c1 & H1 & S1);
      [repeat constructor|].
    destruct (Hwords (mkWord dirD (mkCoord 0 0 0) "ADG" None)) as (c2 & H2 & S2);
      [repeat constructor|].
    destruct (Hwords (mkWord dirR (mkCoord 0 2 0) "GHI" None)) as (c3 & H3 & S3);
      [repeat constructor|].
    exists c1, c2, c3. split_and!; [done..| |].
    + apply (Hnum dirR dirD c1 c2 H1 H2). by rewrite S1, S2.
    + intros E. apply (Hnum dirR dirR c1 c3 H1 H3) in E. rewrite S1, S3 in E. discriminate.
  - exists cl. split; [done|].
    assert (∀ x y z, inBounds gridBox x y z = true → openAt gridBox x y z) as Hopen.
    { intros x y z Hin.
      destruct (proj2 (cell_is_Some gridBox x y z
                         ltac:(split; [reflexivity | repeat constructor])) Hin) as [c Hc].
      exists c. split; [done|].
      apply inBounds_spec in Hin. simpl in Hin.
      assert (x = 0 ∨ x = 1 ∨ x = 2) as Ex by lia.
      assert (y = 0 ∨ y = 1) as Ey by lia.
      assert (z = 0 ∨ z = 1) as Ez by lia.
      destruct Ex as [-> | [-> | ->]], Ey as [-> | ->], Ez as [-> | ->];
        by injection Hc as <-. }
    destruct (Hstarts dirR 0 0 0) as (c1 & H1 & S1).
    { split_and!; [by apply Hopen | by left | by apply Hopen]. }
    destruct (Hstarts dirD 0 0 0) as (c2 & H2 & S2).
    { split_and!; [by apply Hopen | by left | by apply Hopen]. }
    destruct (Hstarts dirR 0 1 0) as (c3 & H3 & S3).
    { split_and!; [by apply Hopen | by left | by apply Hopen]. }
    exists c1, c2, c3. split_and!; [done..| |].
    + apply (Hnum' dirR dirD c1 c2 H1 H2). by rewrite S1, S2.
    + intros E. apply (Hnum' dirR dirR c1 c3 H1 H3) in E. rewrite S1, S3 in E. discriminate.
Defined.

(** ** C5: a record with neither words nor solution *)

(** C5, the claim as stated fails: the record that declares two cells in a
    row and nothing else loads with a rightward clue, the run of the two
    open cells. *)
Lemma bare_record_has_clue :
  ∃ st, loadPuzzleFromJSON recordBare2 = Some st ∧ clR (clues st) ≠ [].
Proof. eexists. split; [vm_compute; reflexivity | discriminate]. Qed.

(** C5, amended.  A record that declares dimensions that are array lengths
    (integers from 0 to 2^32 - 1; any other dimension makes [new Array]
    throw) but has neither words nor solution letters loads without error
    and without any structural or conflict diagnostic (coordinates are
    integers, as in every [Puzzle]); no cell carries a solution letter and
    the blocked cells are those of the block list (all cells are open when
    it is empty).
    The clue collections are not empty in general: unless the record brings
    its own clue list, they hold one clue for every word start of the grid,
    and every answer consists of placeholders only. *)
Theorem load_without_words_and_solution {UC : CaseMapping} js :
  0 ≤ p_nx js < 2 ^ 32 → 0 ≤ p_ny js < 2 ^ 32 → 0 ≤ p_nz js < 2 ^ 32 →
  p_words js = [] → p_solution js = [] →
  ∃ st, loadPuzzleFromJSON js = Some st ∧
    Forall (λ e, isError e = false) (console st) ∧
    (∀ x y z c, cell (grid st) x y z = Some c →
       sol c = "" ∧ (block c = true ↔ mkCoord x y z ∈ p_blocks js)) ∧
    (∀ d c, c ∈ cluesOf d (clues st) → ∃ k, c_answer c = Some (placeholders k)) ∧
    (hasClues (p_clues js) = false →
     ∀ d x y z,
       (∃ c, c ∈ cluesOf d (clues st) ∧ c_start c = mkCoord x y z) ↔
       isStart (grid st) d x y z).
Proof.
  intros Hx Hy Hz Hws Hsol.
  destruct (load_phases js Hx Hy Hz)
    as (g0 & g1 & cl & st & Hst & Hfresh & _ & Hnum & Hb & _ & HB).
  destruct (HB Hws) as (Hg1 & cl0 & -> & Hco & Hcl0).
  rewrite Hsol in Hg1. injection Hg1 as <-.
  destruct Hfresh as [Hinv Hzero].
  pose proof Hinv as (Hwf0 & _).
  assert (∀ x y z c, cell (grid st) x y z = Some c →
            sol c = "" ∧ (block c = true ↔ mkCoord x y z ∈ p_blocks js)) as Hcells.
  { intros x y z c' Hc'.
    destruct (cellwise_inv _ _ _ _ _ _ _ Hwf0 Hnum Hc') as (c & Hc & Hbl & _ & Hs & _).
    destruct Hinv as (_ & _ & _ & _ & Hinv). destruct (Hinv _ _ _ _ Hc) as (Hblk & _).
    destruct (Hzero _ _ _ _ Hc) as (Hs0 & _).
    rewrite Hs, Hbl. done. }
  exists st. split_and!; [done | | done | |].
  - rewrite Hco. apply Forall_fmap. by apply Forall_true.
  - intros d c Hc.
    destruct (bound_elem_of_inv _ _ _ _ _ (Hb d) Hc) as (k & _ & cells & Hrun & ->).
    exists (length cells). simpl. f_equal. apply concatLetters_placeholders.
    eapply Forall_impl; [by eapply Run_cells_of_grid|].
    intros c (x & y & z & Hc'). by apply (Hcells x y z c).
  - intros Hno. rewrite Hno in Hcl0. destruct Hcl0 as (_ & Hsound & Hcomplete & _).
    intros d x y z.
    rewrite (isStart_cellwise _ g0 (grid st) d x y z Hwf0 Hnum (numRel_block _)).
    split.
    + intros (c & Hc & Hs).
      destruct (bound_elem_of_inv _ _ _ _ _ (Hb d) Hc) as (k & Hk & Hbd).
      apply bound_fields in Hbd as (_ & _ & Hs' & _).
      apply elem_of_hinted in Hk as (k0 & Hk0 & ->).
      destruct (Hsound d k0 Hk0) as (Hstart & _).
      assert (c_start k0 = mkCoord x y z) as E.
      { rewrite <- Hs, Hs'. destruct d; [done | symmetry; apply fillHint_fields..]. }
      by rewrite E in Hstart.
    + intros (k0 & Hk0 & Hs)%Hcomplete.
      assert (∃ k, k ∈ cluesOf d (hinted cl0) ∧ c_start k = c_start k0) as (k & Hk & Hsk).
      { eexists. split; [apply elem_of_hinted; eauto|].
        destruct d; [done | apply fillHint_fields..]. }
      destruct (bound_elem_of _ _ _ _ _ (Hb d) Hk) as (c & Hc & Hbd).
      exists c. split; [done|].
      apply bound_fields in Hbd as (_ & _ & -> & _). congruence.
Qed.

Lemma load_without_words_and_solution_witness :
  ∃ st, loadPuzzleFromJSON recordBare2 = Some st ∧
    Forall (λ e, isError e = false) (console st) ∧
    (∀ x y z c, cell (grid st) x y z = Some c →
       sol c = "" ∧ (block c = true ↔ mkCoord x y z ∈ p_blocks recordBare2)) ∧
    (∀ d c, c ∈ cluesOf d (clues st) → ∃ k, c_answer c = Some (placeholders k)) ∧
    (hasClues (p_clues recordBare2) = false →
     ∀ d x y z,
       (∃ c, c ∈ cluesOf d (clues st) ∧ c_start c = mkCoord x y z) ↔
       isStart (grid st) d x y z).
Proof. apply (load_without_words_and_solution recordBare2); simpl; (lia || reflexivity). Defined.

(** ** C6: crossing conflicts *)

(** C6, the claim as stated fails: the two words of [recordCrossBlocked]
    cross at the open cell (1,1,0) only, with letters B and Y, but the
    second word starts on a block and is abandoned there; no conflict is
    reported and the cell keeps the letter of the first word. *)
Lemma crossing_missed_when_word_abandoned :
  ∃ st c, loadPuzzleFromJSON recordCrossBlocked = Some st ∧
    filter (λ e, isConflict e = true) (console st) = [] ∧
    cell (grid st) 1 1 0 = Some c ∧ block c = false ∧ sol c = "B".
Proof. do 2 eexists. split_and!; vm_compute; reflexivity. Qed.

(** C6, amended.  A Format A record in which a word [w1] comes before a
    word [w2], both get as far as one and the same cell (every position of
    either word up to it is inside the dimensions and not blocked), their
    upper-cased letters for that cell differ, and no other word of the
    record gets to write at that cell.  Loading then reports exactly one
    crossing conflict for that cell, naming the later word, the cell, the
    letter found and the letter written; the cell ends with the letter of
    the later word; and the load goes on with the words that follow: every
    cell ends with the last letter that the words of the record, taken in
    order and each up to its first position off the grid or blocked, write
    to it, and every word is listed as a clue.  When the record consists
    of the two words and their runs meet in that cell only, the conflict is
    the only one on the console. *)
Theorem crossing_conflict_reported_once {UC : CaseMapping}
    js l1 l2 l3 w1 w2 (i1 i2 : nat) a1 a2 :
  0 ≤ p_nx js < 2 ^ 32 → 0 ≤ p_ny js < 2 ^ 32 → 0 ≤ p_nz js < 2 ^ 32 →
  p_words js = l1 ++ w1 :: l2 ++ w2 :: l3 →
  String.get i1 (wordLetters w1) = Some a1 →
  String.get i2 (wordLetters w2) = Some a2 →
  a1 ≠ a2 →
  wordPos w1 i1 = wordPos w2 i2 →
  (∀ j : nat, (j ≤ i1)%nat → freeCell js (wordPos w1 j)) →
  (∀ j : nat, (j ≤ i2)%nat → freeCell js (wordPos w2 j)) →
  (∀ w j, w ∈ l1 ++ l2 ++ l3 → reaches js w j → wordPos w j ≠ wordPos w2 i2) →
  ∃ st, loadPuzzleFromJSON js = Some st ∧
    filter (λ e, conflictAt (wordPos w2 i2) e = true) (console st) =
      [CrossingConflict w2 (wordPos w2 i2) (String a1 "") (String a2 "")] ∧
    (∃ c, cell (grid st) (cx (wordPos w2 i2)) (cy (wordPos w2 i2)) (cz (wordPos w2 i2))
            = Some c ∧ sol c = String a2 "") ∧
    (∀ x y z c, cell (grid st) x y z = Some c → sol c = lastLetter js (mkCoord x y z)) ∧
    (∀ w, w ∈ p_words js →
       ∃ c, c ∈ cluesOf (w_dir w) (clues st) ∧ c_start c = w_start w) ∧
    (l1 = [] → l2 = [] → l3 = [] →
     (∀ j1 j2 : nat, reaches js w1 j1 → reaches js w2 j2 →
        wordPos w1 j1 = wordPos w2 j2 → j1 = i1 ∧ j2 = i2) →
     filter (λ e, isConflict e = true) (console st) =
       [CrossingConflict w2 (wordPos w2 i2) (String a1 "") (String a2 "")]).
Proof.
  intros Hx Hy Hz Hws Hg1 Hg2 Hne Hcross Hfree1 Hfree2 Hother.
  remember (wordPos w2 i2) as p eqn:Hp.
  assert (p_words js ≠ []) as Hwne by (rewrite Hws; by destruct l1).
  destruct (load_words_exact js Hx Hy Hz Hwne) as (st & Hst & Hinv & Hjust & Hall).
  assert (W1 : (p, String a1 "") ∈ writesOf js w1).
  { apply elem_of_writesOf. exists i1, a1. split_and!; [done | done | by symmetry | done]. }
  assert (W2 : (p, String a2 "") ∈ writesOf js w2).
  { apply elem_of_writesOf. exists i2, a2. split_and!; [done | done | done | done]. }
  assert (Hoth : ∀ w e, w ∈ l1 ++ l2 ++ l3 → e ∈ writesOf js w → e.1 ≠ p).
  { intros w [q s] Hw He. simpl. apply writesOf_reaches in He as (j & Hj & ->).
    by apply (Hother w j). }
  destruct (crossing_at js p l1 w1 l2 w2 l3 _ _ W1 W2 Hoth) as [Hc Hl].
  assert (truthy (String a1 "") && negb (String.eqb (String a1 "") (String a2 "")) = true)
    as Htest.
  { apply andb_true_iff. split; [done|]. apply negb_true_iff, String.eqb_neq. congruence. }
  rewrite Htest in Hc.
  pose proof Hinv as (Hwf & Hnx & Hny & Hnz & _).
  assert (Heta : ∀ q, mkCoord (cx q) (cy q) (cz q) = q) by (by intros []).
  assert (inBounds (grid st) (cx p) (cy p) (cz p) = true) as Hin.
  { rewrite (inDims_inBounds js) by done. rewrite Hp. apply (Hfree2 i2). lia. }
  destruct (proj2 (cell_is_Some _ _ _ _ Hwf) Hin) as [c Hc0].
  destruct (Hall _ _ _ _ Hc0) as [Hsol Hconf]. rewrite Heta in Hsol, Hconf.
  exists st. split_and!.
  - done.
  - rewrite Hconf, Hws. exact Hc.
  - exists c. split; [done|]. rewrite Hsol. unfold lastLetter. rewrite Hws. exact Hl.
  - intros x y z c' Hc'. by apply Hall.
  - intros w Hw.
    destruct (load_phases js Hx Hy Hz)
      as (g0 & g1 & cl & st' & Hst' & _ & _ & _ & Hb & HA & _).
    assert (st' = st) as -> by congruence.
    destruct (HA Hwne) as [-> _].
    destruct (buildClues_spec (p_words js)) as (_ & Hwords & _).
    destruct (Hwords w Hw) as (k & Hk & Hs & _).
    destruct (bound_elem_of _ _ _ _ _ (Hb (w_dir w)) Hk) as (k' & Hk' & Hbd).
    exists k'. split; [done|]. apply bound_fields in Hbd as (_ & _ & -> & _). done.
  - intros -> -> -> Honly. simpl in Hws.
    rewrite (conflicts_all_at p); [rewrite Hconf, Hws; exact Hc|].
    intros q Hq.
    destruct (cell (grid st) (cx q) (cy q) (cz q)) as [cq|] eqn:Hcq.
    + destruct (Hall _ _ _ _ Hcq) as [_ Hf]. rewrite Heta in Hf. rewrite Hf, Hws.
      apply conflicts_elsewhere. intros s1 s2 Hs1 Hs2.
      apply writesOf_reaches in Hs1 as (j1 & Hr1 & E1).
      apply writesOf_reaches in Hs2 as (j2 & Hr2 & E2).
      destruct (Honly j1 j2 Hr1 Hr2) as [-> ->]; [congruence|].
      apply Hq. by rewrite E2.
    + apply filter_none. intros e He Hce.
      rewrite Forall_forall in Hjust. specialize (Hjust e He).
      destruct e as [| |w0 q0 had wants|]; simpl in Hce; try done.
      apply bool_decide_eq_true in Hce. subst q0.
      simpl in Hjust. destruct Hjust as (_ & _ & [Hd _] & _).
      rewrite <- (inDims_inBounds js (grid st)) in Hd by done.
      destruct (proj2 (cell_is_Some _ _ _ _ Hwf) Hd) as [? ?]. congruence.
Qed.

(** In [recordCross4] the two words cross between a word before them and a
    word after them, which is written too: its Q replaces the Z of the
    downward word in the cell (1,2,0), another conflict.  In [recordCross]
    they are alone. *)
Lemma crossing_conflict_reported_once_witness :
  (∃ st, loadPuzzleFromJSON recordCross4 = Some st ∧
     filter (λ e, conflictAt (mkCoord 1 1 0) e = true) (console st) =
       [CrossingConflict (mkWord dirD (mkCoord 1 0 0) "XYZ" None) (mkCoord 1 1 0) "B" "Y"] ∧
     (∃ c, cell (grid st) 1 1 0 = Some c ∧ sol c = "Y") ∧
     (∀ x y z c, cell (grid st) x y z = Some c →
        sol c = lastLetter recordCross4 (mkCoord x y z)) ∧
     (∃ c, cell (grid st) 1 2 0 = Some c ∧ sol c = "Q") ∧
     (∀ w, w ∈ p_words recordCross4 →
        ∃ c, c ∈ cluesOf (w_dir w) (clues st) ∧ c_start c = w_start w)) ∧
  (∃ st, loadPuzzleFromJSON recordCross = Some st ∧
     filter (λ e, isConflict e = true) (console st) =
       [CrossingConflict (mkWord dirD (mkCoord 1 0 0) "XYZ" None) (mkCoord 1 1 0) "B" "Y"]).
Proof.
  assert (Hfree : ∀ js, p_nx js = 3 → p_ny js = 3 → p_nz js = 1 → p_blocks js = [] →
            ∀ (w : Word) (j : nat), (j ≤ 1)%nat →
              w = mkWord dirR (mkCoord 0 1 0) "ABC" None ∨
              w = mkWord dirD (mkCoord 1 0 0) "XYZ" None →
              freeCell js (wordPos w j)).
  { intros js E1 E2 E3 E4 w j Hj Hw. split; [|rewrite E4; apply not_elem_of_nil].
    unfold inDims. rewrite E1, E2, E3.
    assert (j = 0 ∨ j = 1)%nat as [-> | ->] by lia; destruct Hw as [-> | ->]; reflexivity. }
  split.
  - destruct (crossing_conflict_reported_once recordCross4
                [mkWord dirI (mkCoord 2 0 0) "K" None] [] [mkWord dirR (mkCoord 0 2 0) "PQ" None]
                (mkWord dirR (mkCoord 0 1 0) "ABC" None)
                (mkWord dirD (mkCoord 1 0 0) "XYZ" None) 1 1 "B"%char "Y"%char)
      as (st & H1 & H2 & H3 & H4 & H5 & _).
    1-3: simpl; lia.
    1-3: reflexivity.
    1: discriminate.
    1: reflexivity.
    + intros j Hj. apply (Hfree recordCross4); auto.
    + intros j Hj. apply (Hfree recordCross4); auto.
    + intros w j Hw _. unfold wordPos.
      apply elem_of_app in Hw as [Hw | Hw]; simpl in Hw;
        apply list_elem_of_singleton in Hw; subst w; cbn [w_dir w_start cx cy cz].
      * change (stepX dirI) with 0. change (stepX dirD) with 0. intros [= E1 E2 E3]. lia.
      * change (stepY dirR) with 0. change (stepY dirD) with 1. intros [= E1 E2 E3]. lia.
    + assert (HQ : ∃ c, cell (grid st) 1 2 0 = Some c ∧ sol c = "Q").
      { destruct (load_LoadInv recordCross4) as (st' & Hst' & Hwf & HX & HY & HZ & _);
          [simpl; lia..|].
        rewrite H1 in Hst'. injection Hst' as <-.
        destruct (proj2 (cell_is_Some (grid st) 1 2 0 Hwf)) as [c Hc].
        { unfold inBounds. rewrite HX, HY, HZ. reflexivity. }
        exists c. split; [exact Hc|]. rewrite (H4 1 2 0 c Hc). reflexivity. }
      exists st. exact (conj H1 (conj H2 (conj H3 (conj H4 (conj HQ H5))))).
  - destruct (crossing_conflict_reported_once recordCross [] [] []
                (mkWord dirR (mkCoord 0 1 0) "ABC" None)
                (mkWord dirD (mkCoord 1 0 0) "XYZ" None) 1 1 "B"%char "Y"%char)
      as (st & H1 & _ & _ & _ & _ & H6).
    1-3: simpl; lia.
    1-3: reflexivity.
    1: discriminate.
    1: reflexivity.
    + intros j Hj. apply (Hfree recordCross); auto.
    + intros j Hj. apply (Hfree recordCross); auto.
    + intros w j Hw. by apply elem_of_nil in Hw.
    + exists st. split; [exact H1|]. apply H6; [reflexivity..|].
      intros j1 j2 _ _. unfold wordPos. cbn [w_dir w_start cx cy cz].
      change (stepX dirR) with 1. change (stepY dirR) with 0. change (stepZ dirR) with 0.
      change (stepX dirD) with 0. change (stepY dirD) with 1. change (stepZ dirD) with 0.
      intros [= E1 E2]. lia.
Defined.

(** ** C3: binding the answers *)

(** C3, the claim as stated fails: in the row of four cells the clue of
    "CAT" has the stored length 3, and the answer bound to it has four
    characters, the three letters and the placeholder of the fourth cell. *)
Lemma answer_longer_than_len :
  ∃ st c, loadPuzzleFromJSON recordCat4 = Some st ∧
    clR (clues st) = [c] ∧ c_len c = 3 ∧ c_answer c = Some "CAT?".
Proof. do 2 eexists. split_and!; vm_compute; reflexivity. Qed.

(** C3, amended.  Binding succeeds on every grid; the answer bound to a
    clue is the concatenation, from the start of the clue and in its
    direction, of the solution letters of the cells up to the first position
    that is off the grid or blocked, whatever the stored length of the clue,
    a cell without a letter contributing the placeholder "?"; and binding
    changes neither the grid nor the console, and of a clue only its
    answer. *)
Theorem answers_read_to_the_stop st :
  wfGrid (grid st) →
  ∃ st', attachAnswersToClues st = Some st' ∧
    grid st' = grid st ∧ console st' = console st ∧
    (∀ d, Forall2 (readsRun (grid st) d) (cluesOf d (clues st)) (cluesOf d (clues st'))) ∧
    (∀ c, letterOf c = if bool_decide (sol c = "") then "?" else sol c).
Proof.
  intros Hwf.
  destruct (attachAnswersToClues_spec st Hwf) as (st' & Hst' & Hg & Hco & Hb).
  exists st'. split_and!; [done..| |].
  - intros d. eapply Forall2_impl; [apply Hb|].
    intros c c' (cells & Hrun & ->). exists cells.
    destruct (Run_lookup _ _ _ _ _ _ _ _ Hrun) as [Hcells Hstop]. done.
  - intros c. unfold letterOf, truthy.
    destruct (String.eqb_spec (sol c) "") as [E|Hne]; simpl.
    + by rewrite bool_decide_true.
    + by rewrite bool_decide_false.
Qed.

Lemma answers_read_to_the_stop_witness :
  ∃ st', attachAnswersToClues stateCat4 = Some st' ∧
    grid st' = grid stateCat4 ∧ console st' = console stateCat4 ∧
    (∀ d, Forall2 (readsRun (grid stateCat4) d)
            (cluesOf d (clues stateCat4)) (cluesOf d (clues st'))) ∧
    (∀ c, letterOf c = if bool_decide (sol c = "") then "?" else sol c).
Proof.
  apply (answers_read_to_the_stop stateCat4).
  split; [reflexivity | repeat constructor].
Defined.

(** ** C4: default hints of an explicit clue list *)

(** C4, the code at the failing input: the record brings one clue without
    hint in each direction; after loading, the downward and the inward clue
    carry their default hints, the rightward clue still has none (the loop
    over [clues.R] only prints the clue). *)
Lemma rightward_hint_not_filled :
  ∃ st r d i, loadPuzzleFromJSON recordNoHints = Some st ∧
    clR (clues st) = [r] ∧ clD (clues st) = [d] ∧ clI (clues st) = [i] ∧
    c_hint r = None ∧ c_hint d = Some "alla" ∧ c_hint i = Some "sisse" ∧
    console st = [LogClue (mkClue 1 2 (mkCoord 0 0 0) None None)].
Proof. do 4 eexists. split_and!; vm_compute; reflexivity. Qed.

(** ** C1 and C9: the generator *)

(** C1.  Whatever the oracle draws, the generator runs to completion from
    the all-open grid of the configured dimensions (positive, and at most
    2^31, the range of [| 0]), provided that grid itself has
    [minOpenPerSlice] cells in every slice; the grid it returns has the
    configured dimensions, and every slice of each of the three families has
    at least [minOpenPerSlice] open cells (counted over the cells of the
    slice, and as that many distinct open positions) and its open cells
    form a single 4-connected component. *)
Theorem generated_slices_open_and_connected cfg rnd :
  unitDraws rnd →
  0 < GEN_NX cfg ≤ 2 ^ 31 → 0 < GEN_NY cfg ≤ 2 ^ 31 → 0 < GEN_NZ cfg ≤ 2 ^ 31 →
  minOpenPerSlice cfg ≤ GEN_NX cfg * GEN_NY cfg →
  minOpenPerSlice cfg ≤ GEN_NX cfg * GEN_NZ cfg →
  minOpenPerSlice cfg ≤ GEN_NY cfg * GEN_NZ cfg →
  ∃ g0 s,
    buildWorld (GEN_NX cfg) (GEN_NY cfg) (GEN_NZ cfg) = Some g0 ∧
    generateConnectedBlocks cfg rnd g0 = Some s ∧
    wfGrid (g_grid s) ∧
    NX (g_grid s) = GEN_NX cfg ∧ NY (g_grid s) = GEN_NY cfg ∧ NZ (g_grid s) = GEN_NZ cfg ∧
    (∀ z, 0 ≤ z < GEN_NZ cfg →
       minOpenPerSlice cfg ≤ openCount (g_grid s) (sliceXY (g_grid s) z) ∧
       atLeast (minOpenPerSlice cfg) (openXY (g_grid s) z) ∧
       singleComponent (openXY (g_grid s) z)) ∧
    (∀ y, 0 ≤ y < GEN_NY cfg →
       minOpenPerSlice cfg ≤ openCount (g_grid s) (sliceXZ (g_grid s) y) ∧
       atLeast (minOpenPerSlice cfg) (openXZ (g_grid s) y) ∧
       singleComponent (openXZ (g_grid s) y)) ∧
    (∀ x, 0 ≤ x < GEN_NX cfg →
       minOpenPerSlice cfg ≤ openCount (g_grid s) (sliceYZ (g_grid s) x) ∧
       atLeast (minOpenPerSlice cfg) (openYZ (g_grid s) x) ∧
       singleComponent (openYZ (g_grid s) x)).
Proof.
  intros Hrnd HX HY HZ M1 M2 M3.
  destruct (generate_spec cfg rnd Hrnd HX HY HZ M1 M2 M3)
    as (g0 & s & Hg0 & Hs & (Hwf & Hx & Hy & Hz & (HXY & HXZ & HYZ) & _) & _).
  exists g0, s. split_and!; [done..| | |].
  - intros z Hzr. rewrite <- Hz in Hzr. destruct (HXY z Hzr) as [Hm Hc].
    split_and!; [done | by apply atLeast_XY | done].
  - intros y Hyr. rewrite <- Hy in Hyr. destruct (HXZ y Hyr) as [Hm Hc].
    split_and!; [done | by apply atLeast_XZ | done].
  - intros x Hxr. rewrite <- Hx in Hxr. destruct (HYZ x Hxr) as [Hm Hc].
    split_and!; [done | by apply atLeast_YZ | done].
Qed.

Lemma generated_slices_open_and_connected_witness :
  ∃ g0 s,
    buildWorld (GEN_NX CFG) (GEN_NY CFG) (GEN_NZ CFG) = Some g0 ∧
    generateConnectedBlocks CFG rndZero g0 = Some s ∧
    wfGrid (g_grid s) ∧
    NX (g_grid s) = GEN_NX CFG ∧ NY (g_grid s) = GEN_NY CFG ∧ NZ (g_grid s) = GEN_NZ CFG ∧
    (∀ z, 0 ≤ z < GEN_NZ CFG →
       minOpenPerSlice CFG ≤ openCount (g_grid s) (sliceXY (g_grid s) z) ∧
       atLeast (minOpenPerSlice CFG) (openXY (g_grid s) z) ∧
       singleComponent (openXY (g_grid s) z)) ∧
    (∀ y, 0 ≤ y < GEN_NY CFG →
       minOpenPerSlice CFG ≤ openCount (g_grid s) (sliceXZ (g_grid s) y) ∧
       atLeast (minOpenPerSlice CFG) (openXZ (g_grid s) y) ∧
       singleComponent (openXZ (g_grid s) y)) ∧
    (∀ x, 0 ≤ x < GEN_NX CFG →
       minOpenPerSlice CFG ≤ openCount (g_grid s) (sliceYZ (g_grid s) x) ∧
       atLeast (minOpenPerSlice CFG) (openYZ (g_grid s) x) ∧
       singleComponent (openYZ (g_grid s) x)).
Proof.
  apply (generated_slices_open_and_connected CFG rndZero); try (simpl; lia).
  intros i. split; [discriminate | reflexivity].
Defined.

(** C9.  The target of the generator is [Math.floor(total * targetBlockFrac)]
    as the code computes it, in doubles.  When it is not NaN and not
    negative, the generator returns (there is no failure, also when the
    attempts are used up below the target) with at most that many blocked
    cells, its counter [blocks] being their number; and when the loop ended
    with attempts to spare ([tries < maxTries]), the target is an integer
    and exactly that many cells are blocked. *)
Theorem generated_block_count cfg rnd :
  unitDraws rnd →
  0 < GEN_NX cfg ≤ 2 ^ 31 → 0 < GEN_NY cfg ≤ 2 ^ 31 → 0 < GEN_NZ cfg ≤ 2 ^ 31 →
  minOpenPerSlice cfg ≤ GEN_NX cfg * GEN_NY cfg →
  minOpenPerSlice cfg ≤ GEN_NX cfg * GEN_NZ cfg →
  minOpenPerSlice cfg ≤ GEN_NY cfg * GEN_NZ cfg →
  leNum 0 (targetBlocks (targetBlockFrac cfg) (GEN_NX cfg) (GEN_NY cfg) (GEN_NZ cfg)) →
  ∃ g0 s,
    buildWorld (GEN_NX cfg) (GEN_NY cfg) (GEN_NZ cfg) = Some g0 ∧
    generateConnectedBlocks cfg rnd g0 = Some s ∧
    let target :=
      targetBlocks (targetBlockFrac cfg) (GEN_NX cfg) (GEN_NY cfg) (GEN_NZ cfg) in
    g_blocks s = blockCount (g_grid s) ∧
    leNum (blockCount (g_grid s)) target ∧
    (g_tries s < maxTries cfg → target = Int (blockCount (g_grid s))).
Proof.
  intros Hrnd HX HY HZ M1 M2 M3 Hfrac.
  destruct (generate_spec cfg rnd Hrnd HX HY HZ M1 M2 M3)
    as (g0 & s & Hg0 & Hs & (Hwf & Hx & Hy & Hz & _ & Hb & Hle & _) & Hexit).
  destruct (buildWorld_spec (GEN_NX cfg) (GEN_NY cfg) (GEN_NZ cfg))
    as (g0' & Hg0' & _ & Hx0 & Hy0 & Hz0 & _); [lia..|].
  assert (g0' = g0) as -> by congruence.
  unfold targetBlocksOf in *. rewrite Hx0, Hy0, Hz0 in *.
  destruct (targetBlocks _ _ _ _) as [|neg|target]; simpl in *; [done | subst neg |].
  - exists g0, s. split_and!; [done..|]. intros Htries. destruct Hexit. done.
  - exists g0, s. split_and!; [done..| |].
    + rewrite <- Hb. lia.
    + intros Htries. f_equal. rewrite <- Hb.
      assert (¬ g_blocks s < target) as Hnot.
      { intros Hlt. apply Hexit. split; [by apply Z.ltb_lt | done]. }
      lia.
Qed.

(** With the double nearest to 1/3 and six cells the target is 2, where
    the exact product [6 * (1/3)] lies below 2; the oracle [rndTwo] blocks
    two cells in two attempts, and the loop ends with attempts to spare. *)
Lemma generated_block_count_witness :
  ∃ g0 s,
    buildWorld (GEN_NX cfgThird) (GEN_NY cfgThird) (GEN_NZ cfgThird) = Some g0 ∧
    generateConnectedBlocks cfgThird rndTwo g0 = Some s ∧
    targetBlocks (targetBlockFrac cfgThird) 3 2 1 = Int 2 ∧
    g_blocks s = blockCount (g_grid s) ∧
    blockCount (g_grid s) = 2 ∧
    g_tries s = 2 ∧ g_tries s < maxTries cfgThird.
Proof.
  destruct (generated_block_count cfgThird rndTwo) as (g0 & s & Hg0 & Hs & Hb & Hle & Hexact);
    try (simpl; lia).
  { intros i. unfold rndTwo.
    destruct i as [|[|[|[|[|i]]]]]; split; (discriminate || reflexivity). }
  { vm_compute. discriminate. }
  assert (g_tries s = 2) as Htries.
  { vm_compute in Hg0. injection Hg0 as <-. vm_compute in Hs. by injection Hs as <-. }
  exists g0, s. split_and!; [done | done | reflexivity | done | | done | by rewrite Htries].
  assert (Int 2 = Int (blockCount (g_grid s))) as [= <-]; [|done].
  apply Hexact. by rewrite Htries.
Defined.

(** ** C2: blocked cells *)

(** C2, the claim as stated fails: the word of [recordWordOnBlock] starts on
    a blocked cell; it is abandoned there, but it is still listed as clue 1
    and [setNum], which tests the bounds only, writes its number on the
    blocked cell. *)
Lemma number_written_on_blocked_cell :
  ∃ st c, loadPuzzleFromJSON recordWordOnBlock = Some st ∧
    cell (grid st) 0 0 0 = Some c ∧ block c = true ∧ numR c = 1.
Proof. do 2 eexists. split_and!; vm_compute; reflexivity. Qed.

(** C2, amended.  After every load of a record whose dimensions are array
    lengths, a blocked cell has an empty solution letter and an empty entered
    letter; each of its three numbers is zero when no clue of that direction
    starts on that very cell, and when one does, [setNum], which tests the
    bounds only, has written there the number of a clue of that direction
    starting on the cell.  When the clues are derived by the extractor all
    three numbers of every blocked cell are zero.  After generation, in the
    generated grid and in the grid obtained by loading the generated record,
    a blocked cell has empty letters and three zero numbers. *)
Theorem blocked_cells_stay_empty {UC : CaseMapping} js cfg rnd :
  0 ≤ p_nx js < 2 ^ 32 → 0 ≤ p_ny js < 2 ^ 32 → 0 ≤ p_nz js < 2 ^ 32 →
  unitDraws rnd →
  0 < GEN_NX cfg ≤ 2 ^ 31 → 0 < GEN_NY cfg ≤ 2 ^ 31 → 0 < GEN_NZ cfg ≤ 2 ^ 31 →
  minOpenPerSlice cfg ≤ GEN_NX cfg * GEN_NY cfg →
  minOpenPerSlice cfg ≤ GEN_NX cfg * GEN_NZ cfg →
  minOpenPerSlice cfg ≤ GEN_NY cfg * GEN_NZ cfg →
  (∃ st, loadPuzzleFromJSON js = Some st ∧ blockedNumbered st ∧
     (p_words js = [] → hasClues (p_clues js) = false → blockedClean (grid st))) ∧
  (∃ g gjs st, generatePuzzleJSON cfg rnd = Some (g, gjs) ∧ blockedClean g ∧
     loadPuzzleFromJSON gjs = Some st ∧ blockedClean (grid st)).
Proof.
  intros Hx Hy Hz Hrnd HX HY HZ M1 M2 M3. split.
  - destruct (load_blocked js Hx Hy Hz) as (st & Hst & Hinv & Hbl & Hclean).
    exists st. split_and!; [done | | done].
    destruct (load_numbers js Hx Hy Hz) as (st' & cl & Hst' & _ & Hb & _ & _ & Hnum).
    assert (st' = st) as -> by congruence.
    intros x y z c Hc Hblk.
    destruct (Hbl x y z c Hc Hblk) as (Hs & Hch & Hn).
    split_and!; [done | done |]. intros d.
    destruct (decide (Exists (λ k, c_start k = mkCoord x y z) (cluesOf d (clues st))))
      as [Hex | Hno].
    + right. apply Exists_exists in Hex as (k & Hk & Hks).
      destruct (bound_elem_of_inv _ _ _ _ _ (Hb d) Hk) as (k0 & Hk0 & Hbd).
      apply bound_fields in Hbd as (En & _ & Es & _).
      destruct (Hnum d k0 Hk0) as (c' & k1 & Hc' & Hk1 & Hs1 & Hn1).
      { rewrite <- Es, Hks. simpl. by eapply cell_inBounds; [apply Hinv|]. }
      rewrite <- Es, Hks in Hc'. simpl in Hc'.
      assert (c' = c) as -> by congruence.
      destruct (bound_elem_of _ _ _ _ _ (Hb d) Hk1) as (k2 & Hk2 & Hbd2).
      apply bound_fields in Hbd2 as (En2 & _ & Es2 & _).
      exists k2. split_and!; [done | congruence | congruence].
    + left. split.
      * intros (k & Hk & Hks). apply Hno, Exists_exists. eauto.
      * destruct (Hn d) as [E | (k & Hk & Hks & _)]; [done|].
        destruct Hno. apply Exists_exists. eauto.
  - destruct (generatePuzzleJSON_spec cfg rnd Hrnd HX HY HZ M1 M2 M3)
      as (g0 & s & g & sols & jsClues & _ & _ & Hinv & Hsol & Hex & Hgen).
    destruct Hinv as (Hwfs & Hxs & Hys & Hzs & _ & _ & _ & Hcells).
    set (gjs := mkPuzzle _ _ _ _ _ _ _) in Hgen.
    destruct (load_blocked gjs) as (st & Hst & Hinv & Hbl & Hclean); [simpl; lia..|].
    exists g, gjs, st. split_and!; [done | | done |].
    + intros x y z c Hc Hblk.
      destruct (cellwise_inv _ _ _ _ _ _ _ Hwfs Hsol Hc) as (c0 & Hc0 & Hrel).
      assert (c = c0) as ->.
      { destruct Hrel as [->|(Hopen & l & ->)]; [done|]. simpl in Hblk. congruence. }
      pose proof (Hcells _ _ _ _ Hc0) as E. destruct c0. by injection E as -> -> -> -> ->.
    + destruct (hasClues jsClues) eqn:Hhas; [|by apply Hclean].
      intros x y z c Hc Hblk.
      destruct (Hbl x y z c Hc Hblk) as (Hs & Hch & Hn).
      assert (∀ d, numOf d c = 0) as Hz0.
      { intros d. destruct (Hn d) as [?|(k & Hk & Hks & _)]; [done|]. exfalso.
        destruct (load_phases gjs) as (g0' & g1' & cl & st' & Hst' & _ & _ & _ & Hb & _ & HB);
          [simpl; lia..|].
        assert (st' = st) as -> by congruence.
        destruct (HB eq_refl) as (_ & cl0 & -> & _ & Hcl0).
        simpl in Hcl0. rewrite Hhas in Hcl0. subst cl0.
        destruct (bound_elem_of_inv _ _ _ _ _ (Hb d) Hk) as (k1 & Hk1 & Hbd).
        apply bound_fields in Hbd as (_ & _ & Es & _).
        apply elem_of_hinted in Hk1 as (k0 & Hk0 & ->).
        assert (c_start k0 = mkCoord x y z) as E.
        { rewrite <- Hks, Es. destruct d; [done | symmetry; apply fillHint_fields..]. }
        destruct Hex as (Hsound & _). destruct (Hsound d k0 Hk0) as ((Hopen & _) & _).
        rewrite E in Hopen. simpl in Hopen.
        apply (cellwise_block solRel (g_grid s) g Hwfs Hsol solRel_block) in Hopen
          as (cs & Hcs & Hbs).
        destruct Hinv as (_ & _ & _ & _ & Hinv).
        destruct (Hinv _ _ _ _ Hc) as (Hiff & _). apply Hiff in Hblk.
        simpl in Hblk. apply list_elem_of_In, List.filter_In in Hblk as [_ Hblk].
        unfold blockedB in Hblk. simpl in Hblk. rewrite Hcs in Hblk. congruence. }
      split_and!; [done | done | apply (Hz0 dirR) | apply (Hz0 dirD) | apply (Hz0 dirI)].
Qed.

(** The word of [recordWordOnBlock] starts on the blocked cell (0,0,0): the
    number of its clue is on that cell. *)
Lemma blocked_cells_stay_empty_witness :
  (∃ st, loadPuzzleFromJSON recordWordOnBlock = Some st ∧ blockedNumbered st ∧
     (p_words recordWordOnBlock = [] → hasClues (p_clues recordWordOnBlock) = false →
      blockedClean (grid st))) ∧
  (∃ g gjs st, generatePuzzleJSON CFG rndZero = Some (g, gjs) ∧ blockedClean g ∧
     loadPuzzleFromJSON gjs = Some st ∧ blockedClean (grid st)).
Proof.
  apply (blocked_cells_stay_empty recordWordOnBlock CFG rndZero); try (simpl; lia).
  intros i. split; [discriminate | reflexivity].
Defined.

(** * Further properties: the view, the cursor and the input handlers *)

(** X1.  The two view mappings are inverse to each other: the screen
    offsets of the world cell shown at offsets [(i, j)] are [(i, j)] again,
    in every view and for every camera position; and when the plane on
    display holds the cursor, mapping the cursor to the view and back gives
    the cursor's cell. *)
Theorem view_mapping_round_trip ui :
  (∀ i j, let w := viewToWorld ui i j in
          worldToView ui (cx w) (cy w) (cz w) = (i, j)) ∧
  (cursorInPlane ui →
   let p := worldToView ui (cx (cur ui)) (cy (cur ui)) (cz (cur ui)) in
   viewToWorld ui p.1 p.2 = cur ui).
Proof.
  split.
  - intros i j. unfold viewToWorld, worldToView. destruct (view ui); simpl; f_equal; lia.
  - unfold cursorInPlane, viewToWorld, worldToView. destruct (cur ui) as [x y z].
    destruct (view ui); simpl; intros H; f_equal; lia.
Qed.

Lemma view_mapping_round_trip_witness :
  (∀ i j, let w := viewToWorld uiSide i j in
          worldToView uiSide (cx w) (cy w) (cz w) = (i, j)) ∧
  viewToWorld uiSide 1 0 = mkCoord 1 1 0.
Proof.
  destruct (view_mapping_round_trip uiSide) as [H1 H2].
  split; [exact H1 | apply H2; reflexivity].
Defined.

(** X2.  With a viewport of at least one cell each way and the cursor on
    the grid, [ensureCursorVisible] changes nothing but the camera, leaves
    the camera inside the plane (at the origin when the plane is smaller
    than the viewport), puts the cursor inside the window of the camera,
    and a second call changes nothing. *)
Theorem camera_follows_cursor vc g ui :
  0 < VIEW_W vc → 0 < VIEW_H vc → cursorOnGrid g ui →
  let ui' := ensureCursorVisible vc g ui in
  ui' = set_cam (cam ui') ui ∧
  camInRange vc g ui' ∧
  cam_u (cam ui') ≤ (cursorUV ui).1 < cam_u (cam ui') + VIEW_W vc ∧
  cam_v (cam ui') ≤ (cursorUV ui).2 < cam_v (cam ui') + VIEW_H vc ∧
  ensureCursorVisible vc g ui' = ui'.
Proof.
  intros HW HH Hon ui'.
  destruct (ensureCursorVisible_spec vc g ui HW HH Hon) as (Hc & Hu & Hv).
  destruct (ensureCursorVisible_fields vc g ui) as (Ev & Ec & Ex & Ey & Ea & Ed & Eh).
  fold ui' in Hc, Hu, Hv, Ev, Ec, Ex, Ey, Ea, Ed, Eh.
  refine (conj _ (conj Hc (conj Hu (conj Hv _)))).
  - unfold set_cam. rewrite <- Ev, <- Ec, <- Ex, <- Ey, <- Ea, <- Ed, <- Eh. by destruct ui'.
  - apply ensureCursorVisible_fixed; [done|..]; by rewrite (cursorUV_fields ui).
Qed.

Lemma camera_follows_cursor_witness :
  let ui' := ensureCursorVisible VCFG gridLong uiFar in
  ui' = set_cam (cam ui') uiFar ∧
  camInRange VCFG gridLong ui' ∧
  cam_u (cam ui') ≤ (cursorUV uiFar).1 < cam_u (cam ui') + VIEW_W VCFG ∧
  cam_v (cam ui') ≤ (cursorUV uiFar).2 < cam_v (cam ui') + VIEW_H VCFG ∧
  ensureCursorVisible VCFG gridLong ui' = ui'.
Proof.
  apply (camera_follows_cursor VCFG gridLong uiFar); reflexivity.
Defined.

(** X3.  After [ensureCursorVisible], with the cursor on the grid and in
    the plane on display, every cell of the viewport that is not padding
    maps to a cell of the grid: the bounds test that [drawGrid] and
    [mousePressed] keep after the padding test never fails. *)
Theorem window_inside_grid vc g ui i j :
  0 < VIEW_W vc → 0 < VIEW_H vc → cursorOnGrid g ui → cursorInPlane ui →
  let ui' := ensureCursorVisible vc g ui in
  let pad := getViewPadding vc g ui' in
  let ii := i - padLeft pad in
  let jj := j - padTop pad in
  0 ≤ i < VIEW_W vc → 0 ≤ j < VIEW_H vc →
  0 ≤ ii < pad_Umax pad → 0 ≤ jj < pad_Vmax pad →
  let w := viewToWorld ui' ii jj in
  inBounds g (cx w) (cy w) (cz w) = true.
Proof.
  intros HW HH Hon Hpl ui' pad ii jj Hi Hj Hii Hjj w.
  destruct (ensureCursorVisible_spec vc g ui HW HH Hon) as ((Hcu & Hcv) & _).
  destruct (ensureCursorVisible_fields vc g ui) as (Ev & Ec & Ex & Ey & _).
  fold ui' in Hcu, Hcv, Ev, Ec, Ex, Ey.
  unfold cursorOnGrid in Hon. apply inBounds_spec in Hon.
  unfold cursorInPlane in Hpl.
  subst w ii jj pad. unfold getViewPadding, viewToWorld in *.
  rewrite (planeBounds_view g ui ui' Ev) in *. rewrite Ev, Ec, Ex, Ey in *.
  unfold planeBounds in *. apply inBounds_spec.
  destruct (view ui); simpl in *;
    match goal with
    | H : context [Z.max 0 (VIEW_W vc - ?U) / 2] |- _ =>
        pose proof (half_spec (Z.max 0 (VIEW_W vc - U)) ltac:(lia))
    end;
    match goal with
    | H : context [Z.max 0 (VIEW_H vc - ?V) / 2] |- _ =>
        pose proof (half_spec (Z.max 0 (VIEW_H vc - V)) ltac:(lia))
    end; lia.
Qed.

Lemma window_inside_grid_witness :
  let ui' := ensureCursorVisible VCFG gridLong uiFar in
  let w := viewToWorld ui' 9 0 in
  inBounds gridLong (cx w) (cy w) (cz w) = true.
Proof.
  apply (window_inside_grid VCFG gridLong uiFar 9 4); try reflexivity; vm_compute; split; congruence.
Defined.

(** X4.  After [ensureCursorVisible], with the cursor on the grid, the
    screen cell that [drawGrid] computes for the cursor highlight (the view
    offsets of the cursor plus the padding) lies inside the viewport and is
    not a padding cell. *)
Theorem cursor_drawn_in_viewport vc g ui :
  0 < VIEW_W vc → 0 < VIEW_H vc → cursorOnGrid g ui →
  let ui' := ensureCursorVisible vc g ui in
  let pad := getViewPadding vc g ui' in
  let pv0 := worldToView ui' (cx (cur ui')) (cy (cur ui')) (cz (cur ui')) in
  0 ≤ pv0.1 + padLeft pad < VIEW_W vc ∧ 0 ≤ pv0.2 + padTop pad < VIEW_H vc ∧
  0 ≤ pv0.1 < pad_Umax pad ∧ 0 ≤ pv0.2 < pad_Vmax pad.
Proof.
  intros HW HH Hon ui' pad pv0.
  destruct (ensureCursorVisible_spec vc g ui HW HH Hon) as ((Hcu & Hcv) & Hu & Hv).
  destruct (ensureCursorVisible_fields vc g ui) as (Ev & Ec & Ex & Ey & _).
  fold ui' in Hcu, Hcv, Hu, Hv, Ev, Ec, Ex, Ey.
  unfold cursorOnGrid in Hon. apply inBounds_spec in Hon.
  subst pv0 pad. unfold getViewPadding, worldToView, cursorUV in *.
  rewrite (planeBounds_view g ui ui' Ev) in *. rewrite Ev, Ec in *.
  unfold planeBounds in *.
  destruct (view ui); simpl in *;
    match goal with
    | |- context [Z.max 0 (VIEW_W vc - ?U) / 2] =>
        pose proof (half_spec (Z.max 0 (VIEW_W vc - U)) ltac:(lia))
    end;
    match goal with
    | |- context [Z.max 0 (VIEW_H vc - ?V) / 2] =>
        pose proof (half_spec (Z.max 0 (VIEW_H vc - V)) ltac:(lia))
    end; lia.
Qed.

Lemma cursor_drawn_in_viewport_witness :
  let ui' := ensureCursorVisible VCFG gridBox uiSide in
  let pad := getViewPadding VCFG gridBox ui' in
  let pv0 := worldToView ui' (cx (cur ui')) (cy (cur ui')) (cz (cur ui')) in
  0 ≤ pv0.1 + padLeft pad < VIEW_W VCFG ∧ 0 ≤ pv0.2 + padTop pad < VIEW_H VCFG ∧
  0 ≤ pv0.1 < pad_Umax pad ∧ 0 ≤ pv0.2 < pad_Vmax pad.
Proof.
  apply (cursor_drawn_in_viewport VCFG gridBox uiSide); reflexivity.
Defined.

(** X5.  An arrow key never moves the cursor onto a blocked cell or off
    the grid: [moveInView] either leaves the cursor where it is or moves
    it, within the plane on display, by exactly the step asked for, onto an
    open cell of the grid.  The view and the camera are untouched and the
    plane on display still holds the cursor. *)
Theorem arrow_keys_stay_on_open_cells du dv g ui :
  wfGrid g → cursorInPlane ui →
  ∃ ui', moveInView du dv g ui = Some ui' ∧
    view ui' = view ui ∧ cam ui' = cam ui ∧ cursorInPlane ui' ∧
    (cur ui' = cur ui ∨
     (openAt g (cx (cur ui')) (cy (cur ui')) (cz (cur ui')) ∧
      cursorUV ui' = ((cursorUV ui).1 + du, (cursorUV ui).2 + dv) ∧
      cursorDepth ui' = cursorDepth ui)).
Proof.
  intros Hwf Hpl.
  destruct (moveInView_spec du dv g ui Hwf) as (ui' & E & Hv & Hc & _ & Hcases).
  exists ui'. split_and!; try done.
  - unfold cursorInPlane in *. rewrite Hv.
    destruct Hcases as [(E1 & E2 & E3) | (_ & E2 & E3 & _)].
    + by rewrite E1, E2, E3.
    + rewrite E2, E3. by destruct (view ui).
  - destruct Hcases as [(E1 & _) | (Ho & _ & _ & Ht)]; [by left|].
    right. split; [done|]. unfold cursorUV, cursorDepth, cursorInPlane, moveTarget in *.
    rewrite Hv, Ht. destruct (view ui); simpl; rewrite ?Hpl; done.
Qed.

Lemma arrow_keys_stay_on_open_cells_witness :
  ∃ ui', moveInView 1 0 gridBox uiSide = Some ui' ∧
    view ui' = view uiSide ∧ cam ui' = cam uiSide ∧ cursorInPlane ui' ∧
    (cur ui' = cur uiSide ∨
     (openAt gridBox (cx (cur ui')) (cy (cur ui')) (cz (cur ui')) ∧
      cursorUV ui' = ((cursorUV uiSide).1 + 1, (cursorUV uiSide).2 + 0) ∧
      cursorDepth ui' = cursorDepth uiSide)).
Proof.
  apply (arrow_keys_stay_on_open_cells 1 0 gridBox uiSide).
  - split; [reflexivity | repeat constructor].
  - reflexivity.
Defined.

(** X6.  The mouse wheel keeps the cursor on the grid: with the cursor on
    the grid and in the plane on display, [mouseWheel] moves it by at most
    one cell across that plane, leaves its position within the plane, the
    view and the camera as they are, and the new plane holds the cursor. *)
Theorem wheel_keeps_cursor_on_grid delta g ui :
  cursorOnGrid g ui → cursorInPlane ui →
  let ui' := mouseWheel delta g ui in
  cursorOnGrid g ui' ∧ cursorInPlane ui' ∧
  view ui' = view ui ∧ cam ui' = cam ui ∧
  cursorUV ui' = cursorUV ui ∧
  -1 ≤ cursorDepth ui' - cursorDepth ui ≤ 1.
Proof.
  intros Hon Hpl ui'.
  destruct (mouseWheel_spec delta g ui Hon Hpl) as (H1 & H2 & Hv & Hc & _ & _ & Huv & Hx & Hy & Hz).
  fold ui' in H1, H2, Hv, Hc, Huv, Hx, Hy, Hz.
  refine (conj H1 (conj H2 (conj Hv (conj Hc (conj Huv _))))).
  unfold cursorDepth. rewrite Hv. destruct (view ui); done.
Qed.

Lemma wheel_keeps_cursor_on_grid_witness :
  let ui' := mouseWheel 1 gridBox uiSide in
  cursorOnGrid gridBox ui' ∧ cursorInPlane ui' ∧
  view ui' = view uiSide ∧ cam ui' = cam uiSide ∧
  cursorUV ui' = cursorUV uiSide ∧
  -1 ≤ cursorDepth ui' - cursorDepth uiSide ≤ 1.
Proof.
  apply (wheel_keeps_cursor_on_grid 1 gridBox uiSide); reflexivity.
Defined.

(** X7.  In the XY view an arrow key decides which side view [TAB] opens,
    whether or not the cursor could move: after a horizontal arrow it is
    the XZ view, after a vertical one the YZ view.  The side view opens on
    the plane that holds the cursor, a second [TAB] returns to the XY
    view, and neither [TAB] moves the cursor or touches the grid. *)
Theorem tab_opens_side_view_of_last_arrow normalizeChar k a g ui :
  wfGrid g → view ui = XY → arrowAxis k = Some a →
  ∃ ui1 ui2 ui3,
    keyPressed normalizeChar k g ui = Some (g, ui1) ∧
    keyPressed normalizeChar TAB g ui1 = Some (g, ui2) ∧
    keyPressed normalizeChar TAB g ui2 = Some (g, ui3) ∧
    view ui1 = XY ∧
    view ui2 = sideView a ∧ cursorInPlane ui2 ∧ cur ui2 = cur ui1 ∧
    view ui3 = XY ∧ cur ui3 = cur ui1.
Proof.
  intros Hwf Hv Hk.
  assert (Hmove : ∀ du dv,
    (du ≠ 0 ∧ dv = 0 ∧ a = axisX) ∨ (du = 0 ∧ dv ≠ 0 ∧ a = axisY) →
    ∃ ui1, moveInView du dv g ui = Some ui1 ∧ view ui1 = XY ∧ lastAxis ui1 = a).
  { intros du dv Hd. rewrite moveInView_eq. cbv zeta.
    assert (Hn : view (moveNoted du dv ui) = XY ∧ lastAxis (moveNoted du dv ui) = a).
    { unfold moveNoted. rewrite Hv.
      destruct Hd as [(? & -> & ->) | (-> & ? & ->)]; repeat case_decide; done. }
    destruct Hn as [Hn1 Hn2].
    destruct (inBounds g _ _ _) eqn:Hin; simpl; [|eauto].
    destruct (proj2 (cell_is_Some g _ _ _ Hwf) Hin) as [ce ->]. simpl.
    destruct (block ce); eauto. }
  assert (Hafter : ∀ ui1, view ui1 = XY → lastAxis ui1 = a →
    ∃ ui2 ui3,
      keyPressed normalizeChar TAB g ui1 = Some (g, ui2) ∧
      keyPressed normalizeChar TAB g ui2 = Some (g, ui3) ∧
      view ui2 = sideView a ∧ cursorInPlane ui2 ∧ cur ui2 = cur ui1 ∧
      view ui3 = XY ∧ cur ui3 = cur ui1).
  { intros ui1 Hv1 Ha1. simpl. rewrite Hv1, Ha1.
    destruct a; eexists _, _; (split; [reflexivity|]); simpl; done. }
  destruct k; simpl in Hk; try done; injection Hk as <-; simpl.
  - destruct (Hmove (-1) 0) as (ui1 & -> & Hv1 & Ha1); [left; done|].
    destruct (Hafter ui1 Hv1 Ha1) as (ui2 & ui3 & ?). exists ui1, ui2, ui3. naive_solver.
  - destruct (Hmove 1 0) as (ui1 & -> & Hv1 & Ha1); [left; done|].
    destruct (Hafter ui1 Hv1 Ha1) as (ui2 & ui3 & ?). exists ui1, ui2, ui3. naive_solver.
  - destruct (Hmove 0 (-1)) as (ui1 & -> & Hv1 & Ha1); [right; done|].
    destruct (Hafter ui1 Hv1 Ha1) as (ui2 & ui3 & ?). exists ui1, ui2, ui3. naive_solver.
  - destruct (Hmove 0 1) as (ui1 & -> & Hv1 & Ha1); [right; done|].
    destruct (Hafter ui1 Hv1 Ha1) as (ui2 & ui3 & ?). exists ui1, ui2, ui3. naive_solver.
Qed.

Lemma tab_opens_side_view_of_last_arrow_witness :
  ∃ ui1 ui2 ui3,
    keyPressed asciiNormalize DOWN_ARROW gridLong uiFar = Some (gridLong, ui1) ∧
    keyPressed asciiNormalize TAB gridLong ui1 = Some (gridLong, ui2) ∧
    keyPressed asciiNormalize TAB gridLong ui2 = Some (gridLong, ui3) ∧
    view ui1 = XY ∧
    view ui2 = sideView axisY ∧ cursorInPlane ui2 ∧ cur ui2 = cur ui1 ∧
    view ui3 = XY ∧ cur ui3 = cur ui1.
Proof.
  apply (tab_opens_side_view_of_last_arrow asciiNormalize DOWN_ARROW axisY gridLong uiFar).
  - split; [reflexivity | repeat constructor].
  - reflexivity.
  - reflexivity.
Defined.

(** X8.  Clicking a clue brings it on screen: after [jumpToClue] for a
    clue of the current lists that starts on the grid, followed by the
    [ensureCursorVisible] of the next frame, the cursor is on the clue's
    start cell, the plane on display holds it, and [getVisibleClues] lists
    the clue in its column. *)
Theorem jump_shows_clue vc g cl kind c ui :
  0 < VIEW_W vc → 0 < VIEW_H vc →
  c ∈ cluesOf kind cl →
  inBounds g (cx (c_start c)) (cy (c_start c)) (cz (c_start c)) = true →
  let ui' := ensureCursorVisible vc g (jumpToClue kind c ui) in
  cur ui' = c_start c ∧ cursorInPlane ui' ∧
  view ui' = match kind with
             | dirR | dirD => XY
             | dirI => sideView (lastAxis ui)
             end ∧
  c ∈ getVisibleClues vc cl ui' kind.
Proof.
  intros HW HH Hc Hin ui'.
  destruct (jumpToClue_fields kind c ui) as (Jc & _ & Jp & _ & Jv).
  set (uj := jumpToClue kind c ui) in *.
  assert (Hon : cursorOnGrid g uj) by (unfold cursorOnGrid; by rewrite Jc).
  destruct (ensureCursorVisible_spec vc g uj HW HH Hon) as (_ & Hu & Hv).
  destruct (ensureCursorVisible_fields vc g uj) as (Ev & Ec & Ex & Ey & _).
  fold ui' in Hu, Hv, Ev, Ec, Ex, Ey.
  split_and!.
  - by rewrite Ec.
  - unfold cursorInPlane in *. by rewrite Ev, Ec, Ex, Ey.
  - rewrite Ev, Jv. by destruct kind.
  - apply elem_of_getVisibleClues. split; [done|].
    unfold startShown, cursorInPlane, cursorUV in *. rewrite Ev, Ec, Ex, Ey.
    rewrite Jc in *. destruct (view uj); simpl in *; split_and!; try done; lia.
Qed.

Lemma jump_shows_clue_witness :
  let c := mkClue 1 2 (mkCoord 2 1 0) (Some "sisse") (Some "??") in
  let ui' := ensureCursorVisible VCFG gridBox (jumpToClue dirI c uiSide) in
  cur ui' = c_start c ∧ cursorInPlane ui' ∧
  view ui' = sideView (lastAxis uiSide) ∧
  c ∈ getVisibleClues VCFG (clues stateBox) ui' dirI.
Proof.
  apply (jump_shows_clue VCFG gridBox (clues stateBox) dirI
           (mkClue 1 2 (mkCoord 2 1 0) (Some "sisse") (Some "??")) uiSide);
    try reflexivity.
  apply elem_of_cons. by left.
Defined.

(** X9.  A key press with the cursor on the grid never throws and changes
    at most the entered letter of the cell under the cursor, and only when
    that cell is open: blocked cells, solution letters, numbers and every
    other cell are left as they are.  The grid keeps its shape, the cursor
    stays on the grid and in the plane on display. *)
Theorem key_press_edits_only_cursor_cell normalizeChar k g ui :
  wfGrid g → cursorOnGrid g ui → cursorInPlane ui →
  ∃ g' ui', keyPressed normalizeChar k g ui = Some (g', ui') ∧
    wfGrid g' ∧ sameDims g g' ∧ cursorOnGrid g' ui' ∧ cursorInPlane ui' ∧
    ∀ x y z c, cell g x y z = Some c →
      ∃ c', cell g' x y z = Some c' ∧
        block c' = block c ∧ sol c' = sol c ∧
        numR c' = numR c ∧ numD c' = numD c ∧ numI c' = numI c ∧
        (ch c' = ch c ∨ (mkCoord x y z = cur ui ∧ block c = false)).
Proof.
  intros Hwf Hon Hpl.
  destruct (keyPressed_spec normalizeChar k g ui Hwf Hon Hpl)
    as (g' & ui' & E & Hwf' & Hd & Hon' & Hpl' & _ & Hcell).
  exists g', ui'. split_and!; try done.
  intros x y z c Hc. destruct (Hcell x y z c Hc) as (c' & Hc' & [-> | (Hp & Hb & s & ->)]).
  - exists c. split_and!; auto.
  - eexists. split; [done|]. simpl. split_and!; auto.
Qed.

Lemma key_press_edits_only_cursor_cell_witness :
  ∃ g' ui', keyPressed asciiNormalize (OTHER "k") gridBox uiSide = Some (g', ui') ∧
    wfGrid g' ∧ sameDims gridBox g' ∧ cursorOnGrid g' ui' ∧ cursorInPlane ui' ∧
    ∀ x y z c, cell gridBox x y z = Some c →
      ∃ c', cell g' x y z = Some c' ∧
        block c' = block c ∧ sol c' = sol c ∧
        numR c' = numR c ∧ numD c' = numD c ∧ numI c' = numI c ∧
        (ch c' = ch c ∨ (mkCoord x y z = cur uiSide ∧ block c = false)).
Proof.
  apply (key_press_edits_only_cursor_cell asciiNormalize (OTHER "k") gridBox uiSide).
  - split; [reflexivity | repeat constructor].
  - reflexivity.
  - reflexivity.
Defined.

(** X10.  With the cursor off the grid (a well-formed world that has no
    cell at the cursor), the keys that edit a letter throw: Backspace,
    Delete and every key that [normalizeChar] accepts read a field of the
    missing cell. *)
Theorem editing_off_grid_throws normalizeChar k g ui :
  wfGrid g → ¬ cursorOnGrid g ui →
  (k = BACKSPACE ∨ k = DELETE ∨
   ∃ key c, k = OTHER key ∧ normalizeChar key = Some c ∧ truthy c = true) →
  keyPressed normalizeChar k g ui = None.
Proof.
  intros Hwf Hout [-> | [-> | (key & c & -> & Hn & Ht)]]; simpl;
    rewrite ?Hn, ?Ht, typeAtCursor_off_grid; done.
Qed.

Lemma editing_off_grid_throws_witness :
  keyPressed asciiNormalize BACKSPACE gridRow3
    (jumpToClue dirR (mkClue 1 2 (mkCoord 7 0 0) None None) initUi) = None.
Proof.
  apply (editing_off_grid_throws asciiNormalize BACKSPACE gridRow3).
  - split; [reflexivity | repeat constructor].
  - unfold cursorOnGrid. vm_compute. congruence.
  - by left.
Defined.

(** X11.  The cursor [setup] starts with: on a well-formed world the
    search never throws; the cursor is put on the first open cell in the
    order z, y, x (every cell before it in that order is blocked), or left
    where it was when the grid has no open cell; the two depths are set to
    the cursor's x and y in both cases. *)
Theorem first_open_cell_chosen g ui :
  wfGrid g →
  ∃ ui', pickFirstOpenCell g ui = Some ui' ∧
    view ui' = view ui ∧ cam ui' = cam ui ∧
    depthX ui' = cx (cur ui') ∧ depthY ui' = cy (cur ui') ∧
    ((cur ui' = cur ui ∧ ∀ p, p ∈ scanOrder g → ¬ openAt g (cx p) (cy p) (cz p)) ∨
     (∃ l1 l2, scanOrder g = l1 ++ cur ui' :: l2 ∧
        openAt g (cx (cur ui')) (cy (cur ui')) (cz (cur ui')) ∧
        ∀ q, q ∈ l1 → ¬ openAt g (cx q) (cy q) (cz q))).
Proof.
  intros Hwf.
  destruct (pickFirstOpenCell_spec g ui Hwf) as (ui' & E & Hv & Hc & _ & Hx & Hy & Hcases).
  exists ui'. done.
Qed.

Lemma first_open_cell_chosen_witness :
  ∃ ui', pickFirstOpenCell gridRow3 initUi = Some ui' ∧
    view ui' = view initUi ∧ cam ui' = cam initUi ∧
    depthX ui' = cx (cur ui') ∧ depthY ui' = cy (cur ui') ∧
    ((cur ui' = cur initUi ∧
      ∀ p, p ∈ scanOrder gridRow3 → ¬ openAt gridRow3 (cx p) (cy p) (cz p)) ∨
     (∃ l1 l2, scanOrder gridRow3 = l1 ++ cur ui' :: l2 ∧
        openAt gridRow3 (cx (cur ui')) (cy (cur ui')) (cz (cur ui')) ∧
        ∀ q, q ∈ l1 → ¬ openAt gridRow3 (cx q) (cy q) (cz q))).
Proof.
  apply (first_open_cell_chosen gridRow3 initUi).
  split; [reflexivity | repeat constructor].
Defined.

(** X12.  A mouse click never throws.  [mousePressed] leaves the interface
    as it is, or selects a cell of the plane on display, or jumps to the
    clue of a hitbox that holds the mouse position.  A cell it selects is
    an open cell of the grid (both depths are set to the cursor): a click
    in the grid area never selects a blocked cell or a position off the
    grid.  A jump puts the cursor on the start of the clue, whatever cell
    that is: nothing makes it an open cell.  So only when the clues of all
    hitboxes start on open cells is the cursor after a click where it was
    or on an open cell. *)
Theorem click_selects_open_cell_or_clue vc mouseX mouseY g ui :
  wfGrid g →
  ∃ ui', mousePressed vc mouseX mouseY g ui = Some ui' ∧
    (ui' = ui ∨
     (∃ i j, 0 ≤ i < (planeBounds g ui).1 ∧ 0 ≤ j < (planeBounds g ui).2 ∧
        cur ui' = viewToWorld ui i j ∧
        openAt g (cx (cur ui')) (cy (cur ui')) (cz (cur ui')) ∧
        ui' = select (cx (cur ui')) (cy (cur ui')) (cz (cur ui')) ui) ∨
     (∃ hb, hb ∈ clueHitboxes ui ∧ inHitbox mouseX mouseY hb ∧
        ui' = jumpToClue (hb_kind hb) (hb_clue hb) ui ∧
        cur ui' = c_start (hb_clue hb))) ∧
    ((∀ hb, hb ∈ clueHitboxes ui →
        openAt g (cx (c_start (hb_clue hb))) (cy (c_start (hb_clue hb)))
                 (cz (c_start (hb_clue hb)))) →
     cur ui' = cur ui ∨ openAt g (cx (cur ui')) (cy (cur ui')) (cz (cur ui'))).
Proof.
  intros Hwf.
  destruct (mousePressed_spec vc mouseX mouseY g ui Hwf) as (ui' & E & Hcases).
  exists ui'. split; [done|].
  destruct Hcases as [H | [(i & j & Hi & Hj & Ho & ->) | (hb & Hhb & Hin & ->)]].
  - split; [by left|]. intros _. left. by rewrite H.
  - split.
    + right. left. exists i, j. simpl. destruct (viewToWorld ui i j); done.
    + intros _. right. simpl. destruct (viewToWorld ui i j); done.
  - destruct (jumpToClue_fields (hb_kind hb) (hb_clue hb) ui) as (Hcur & _).
    split.
    + right. right. by exists hb.
    + intros Hopen. right. rewrite Hcur. by apply Hopen.
Qed.

Lemma click_selects_open_cell_or_clue_witness :
  ∃ ui', mousePressed VCFG 130 160 gridBox uiSide = Some ui' ∧
    cur uiSide = mkCoord 1 1 0 ∧ cur ui' = mkCoord 0 1 0 ∧
    (∃ i j, 0 ≤ i < (planeBounds gridBox uiSide).1 ∧ 0 ≤ j < (planeBounds gridBox uiSide).2 ∧
        cur ui' = viewToWorld uiSide i j ∧
        openAt gridBox (cx (cur ui')) (cy (cur ui')) (cz (cur ui')) ∧
        ui' = select (cx (cur ui')) (cy (cur ui')) (cz (cur ui')) uiSide) ∧
    (cur ui' = cur uiSide ∨ openAt gridBox (cx (cur ui')) (cy (cur ui')) (cz (cur ui'))).
Proof.
  destruct (click_selects_open_cell_or_clue VCFG 130 160 gridBox uiSide)
    as (ui' & E & Hcases & Hopen).
  { split; [reflexivity | repeat constructor]. }
  exists ui'. split; [exact E|].
  assert (Hui : ui' = select 0 1 0 uiSide).
  { vm_compute in E. by injection E as <-. }
  split; [reflexivity|]. split; [by rewrite Hui|]. split.
  - destruct Hcases as [H | [H | (hb & Hhb & _)]].
    + rewrite Hui in H. discriminate H.
    + exact H.
    + simpl in Hhb. by apply elem_of_nil in Hhb.
  - apply Hopen. simpl. intros hb Hhb. by apply elem_of_nil in Hhb.
Defined.

(** A jump that lands on a blocked cell: in the record whose only word
    starts on the blocked cell (0,0,0), a click on the line of that word's
    clue moves the cursor from (1,0,0) to (0,0,0). *)
Example clue_click_lands_on_blocked_cell :
  ∃ st ui', loadPuzzleFromJSON recordWordOnBlock = Some st ∧
    mousePressed VCFG 100 425 (grid st)
      (drawBottomClues VCFG (clues st) (select 1 0 0 initUi)) = Some ui' ∧
    cur ui' = mkCoord 0 0 0 ∧
    ∃ c, cell (grid st) 0 0 0 = Some c ∧ block c = true.
Proof.
  eexists _, _. split; [vm_compute; reflexivity|].
  split; [vm_compute; reflexivity|]. split; [reflexivity|].
  eexists. split; reflexivity.
Qed.

(** X13.  The hitboxes that [drawBottomClues] leaves are those of visible
    clues only: every hitbox carries a clue that [getVisibleClues] returns
    for the hitbox's direction, which is a clue of the current lists whose
    start lies in the plane on display and inside the window of the
    camera.  Nothing else of the interface state changes. *)
Theorem hitboxes_belong_to_visible_clues vc cl ui :
  let ui' := drawBottomClues vc cl ui in
  ui' = set_hitboxes (clueHitboxes ui') ui ∧
  ∀ hb, hb ∈ clueHitboxes ui' →
    hb_clue hb ∈ getVisibleClues vc cl ui (hb_kind hb) ∧
    hb_clue hb ∈ cluesOf (hb_kind hb) cl ∧
    startShown vc ui (c_start (hb_clue hb)).
Proof.
  intros ui'. split; [reflexivity|].
  intros hb Hhb.
  destruct (drawBottomClues_spec vc cl ui) as (_ & _ & _ & _ & _ & _ & _ & Hh).
  pose proof (Hh hb Hhb) as Hvis. split; [done|]. by apply elem_of_getVisibleClues.
Qed.

(** X14.  No session throws: from a state whose world is well formed,
    whose clues and clickable clues start on the grid and whose cursor is
    on the grid and in the plane on display, every sequence of frames,
    mouse clicks, wheel moves and key presses runs to its end; all of this
    holds again in the state reached, the clues and the console are the
    same, and of the grid nothing but entered letters has changed. *)
Theorem session_never_throws vc normalizeChar inputs s :
  SessionInv s →
  ∃ s', session vc normalizeChar inputs s = Some s' ∧ SessionInv s' ∧
    clues s'.1 = clues s.1 ∧ console s'.1 = console s.1 ∧
    cellwise chRel (grid s.1) (grid s'.1).
Proof. apply session_spec. Qed.

Lemma session_never_throws_witness :
  ∃ s', session VCFG asciiNormalize
          [Frame; KeyPressed (OTHER "a"); MouseWheel 1; KeyPressed TAB; Frame;
           MousePressed 60 400; KeyPressed LEFT_ARROW; KeyPressed BACKSPACE]
          (stateBox, uiSide) = Some s' ∧ SessionInv s' ∧
    clues s'.1 = clues stateBox ∧ console s'.1 = console stateBox ∧
    cellwise chRel (grid stateBox) (grid s'.1).
Proof.
  apply (session_never_throws VCFG asciiNormalize _ (stateBox, uiSide)).
  split_and!; try reflexivity.
  - split; [reflexivity | repeat constructor].
  - intros d c. destruct d; simpl; intros H; try by apply elem_of_nil in H.
    apply list_elem_of_singleton in H as ->. reflexivity.
  - intros hb H. by apply elem_of_nil in H.
Defined.

(** * Further properties: loading *)

(** X15.  Loading never throws on a record whose dimensions are array
    lengths (integers from 0 to 2^32 - 1; [new Array] throws on any other),
    whatever its blocks, words, solution entries and clues (a record is
    a [Puzzle]: its coordinates are integers and the directions of its
    words are R, D or I): the world it
    leaves has exactly the declared shape (a cell at every position inside
    the dimensions and nowhere else), its blocked cells are exactly the
    entries of the block list, and no cell has an entered letter. *)
Theorem load_builds_declared_grid {UC : CaseMapping} js :
  0 ≤ p_nx js < 2 ^ 32 → 0 ≤ p_ny js < 2 ^ 32 → 0 ≤ p_nz js < 2 ^ 32 →
  ∃ st, loadPuzzleFromJSON js = Some st ∧
    wfGrid (grid st) ∧
    NX (grid st) = p_nx js ∧ NY (grid st) = p_ny js ∧ NZ (grid st) = p_nz js ∧
    (∀ x y z, is_Some (cell (grid st) x y z) ↔ inDims js (mkCoord x y z) = true) ∧
    (∀ x y z c, cell (grid st) x y z = Some c →
       (block c = true ↔ mkCoord x y z ∈ p_blocks js) ∧ ch c = "").
Proof.
  intros Hx Hy Hz.
  destruct (load_LoadInv js Hx Hy Hz) as (st & Hst & Hwf & HX & HY & HZ & Hcells).
  exists st. split_and!; try done.
  - intros x y z. rewrite (cell_is_Some _ _ _ _ Hwf).
    by rewrite <- (inDims_inBounds js (grid st) (mkCoord x y z)).
  - intros x y z c Hc. destruct (Hcells x y z c Hc) as (? & ? & _). done.
Qed.

Lemma load_builds_declared_grid_witness :
  ∃ st, loadPuzzleFromJSON recordCrossBlocked = Some st ∧
    wfGrid (grid st) ∧
    NX (grid st) = p_nx recordCrossBlocked ∧ NY (grid st) = p_ny recordCrossBlocked ∧
    NZ (grid st) = p_nz recordCrossBlocked ∧
    (∀ x y z, is_Some (cell (grid st) x y z) ↔
              inDims recordCrossBlocked (mkCoord x y z) = true) ∧
    (∀ x y z c, cell (grid st) x y z = Some c →
       (block c = true ↔ mkCoord x y z ∈ p_blocks recordCrossBlocked) ∧ ch c = "").
Proof.
  apply (load_builds_declared_grid recordCrossBlocked); simpl; lia.
Defined.

(** X16.  A negative dimension that the loops reach makes the loader
    throw (the [RangeError] of [new Array]): a negative depth always, a
    negative height when the depth is positive, a negative width when depth
    and height are positive. *)
Theorem load_negative_dimension_throws {UC : CaseMapping} js :
  p_nz js < 0 ∨ (0 < p_nz js ∧ p_ny js < 0) ∨
  (0 < p_nz js ∧ 0 < p_ny js ∧ p_nx js < 0) →
  loadPuzzleFromJSON js = None.
Proof.
  intros H. unfold loadPuzzleFromJSON. by rewrite buildWorld_None.
Qed.

Lemma load_negative_dimension_throws_witness :
  loadPuzzleFromJSON recordNegativeDepth = None.
Proof.
  apply (load_negative_dimension_throws recordNegativeDepth). left. simpl. lia.
Defined.

(** X17.  The solution letters of a Format B load: after loading a record
    without words, the solution letter of an open cell is the letter of the
    last entry of the solution list for that position, or empty when the
    list has none; a blocked cell has no solution letter.  Entries for
    blocked cells and for positions off the grid have no effect.  The dimensions of the record
    are array lengths (integers from 0 to 2^32 - 1). *)
Theorem solution_letters_last_entry_wins {UC : CaseMapping} js :
  0 ≤ p_nx js < 2 ^ 32 → 0 ≤ p_ny js < 2 ^ 32 → 0 ≤ p_nz js < 2 ^ 32 → p_words js = [] →
  ∃ st, loadPuzzleFromJSON js = Some st ∧
    ∀ x y z c, cell (grid st) x y z = Some c →
      sol c = if block c then "" else solOf (p_solution js) (mkCoord x y z).
Proof.
  intros Hx Hy Hz Hws.
  destruct (load_solution_letters js Hx Hy Hz Hws) as (st & Hst & _ & Hsol).
  by exists st.
Qed.

Lemma solution_letters_last_entry_wins_witness :
  ∃ st, loadPuzzleFromJSON recordSolutions = Some st ∧
    ∀ x y z c, cell (grid st) x y z = Some c →
      sol c = if block c then "" else solOf (p_solution recordSolutions) (mkCoord x y z).
Proof.
  apply (solution_letters_last_entry_wins recordSolutions); simpl; (lia || reflexivity).
Defined.

(** X18.  The clues of a derived load (a record without words and without
    clues of its own): every clue carries the default hint of its
    direction, its length is the number of cells of the run that starts at
    its start cell, which is at least two, and its answer is made of the
    letters of exactly those cells.  When every entry of the solution list
    is a single character the answer has exactly [len] characters.  The dimensions of the record
    are array lengths (integers from 0 to 2^32 - 1). *)
Theorem derived_clues_carry_run_length {UC : CaseMapping} js :
  0 ≤ p_nx js < 2 ^ 32 → 0 ≤ p_ny js < 2 ^ 32 → 0 ≤ p_nz js < 2 ^ 32 →
  p_words js = [] → hasClues (p_clues js) = false →
  ∃ st, loadPuzzleFromJSON js = Some st ∧
    ∀ d c, c ∈ cluesOf d (clues st) →
      ∃ cells,
        Run (grid st) (stepX d) (stepY d) (stepZ d)
            (cx (c_start c)) (cy (c_start c)) (cz (c_start c)) cells ∧
        c_len c = Z.of_nat (length cells) ∧ 2 ≤ c_len c ∧
        c_hint c = Some (defaultHint d) ∧
        c_answer c = Some (concatLetters cells) ∧
        (Forall (λ s, String.length (s_ch s) = 1%nat) (p_solution js) →
         String.length (concatLetters cells) = length cells).
Proof.
  intros Hx Hy Hz Hws Hno.
  destruct (load_derived_clues js Hx Hy Hz Hws Hno)
    as (st & g1 & cl0 & Hst & Hinv & Hwf1 & Hnum & (Hsound & _) & _ & Hb).
  destruct (load_solution_letters js Hx Hy Hz Hws) as (st' & Hst' & _ & Hsol).
  rewrite Hst in Hst'. injection Hst' as <-.
  exists st. split; [done|]. intros d c Hc.
  destruct (bound_elem_of_inv _ _ _ _ _ (Hb d) Hc) as (k & Hk & cells & HR & ->).
  destruct (Hsound d k Hk) as (Hstart & (cells0 & HR0 & Ek) & _).
  pose proof (Run_length_cellwise _ _ _ _ _ _ _ _ _ _ _ Hwf1 Hnum (numRel_block cl0) HR0 HR)
    as Hlen.
  pose proof (isStart_Run_two _ _ _ _ _ _ Hwf1 Hstart HR0) as Htwo.
  exists cells. simpl. split_and!; try done.
  - rewrite Ek. simpl. by rewrite Hlen.
  - rewrite Ek. simpl. lia.
  - by rewrite Ek.
  - intros Hone. apply concatLetters_length.
    eapply Forall_impl; [by eapply Run_cells_of_grid|].
    intros ce (x & y & z & Hce). simpl. rewrite (Hsol _ _ _ _ Hce).
    destruct (block ce); [simpl; lia|].
    destruct (solFrom_cases "" (p_solution js) (mkCoord x y z)) as [E | (s & Hs & E)];
      unfold solOf; rewrite E; [simpl; lia|].
    rewrite Forall_forall in Hone. rewrite (Hone s Hs). lia.
Qed.

Lemma derived_clues_carry_run_length_witness :
  ∃ st, loadPuzzleFromJSON recordDerived = Some st ∧
    ∀ d c, c ∈ cluesOf d (clues st) →
      ∃ cells,
        Run (grid st) (stepX d) (stepY d) (stepZ d)
            (cx (c_start c)) (cy (c_start c)) (cz (c_start c)) cells ∧
        c_len c = Z.of_nat (length cells) ∧ 2 ≤ c_len c ∧
        c_hint c = Some (defaultHint d) ∧
        c_answer c = Some (concatLetters cells) ∧
        (Forall (λ s, String.length (s_ch s) = 1%nat) (p_solution recordDerived) →
         String.length (concatLetters cells) = length cells).
Proof.
  apply (derived_clues_carry_run_length recordDerived); simpl; (lia || reflexivity).
Defined.

(** * Further properties: numbering *)

(** X19.  The numbers of a Format A load are the ranks of the start
    cells: with the distinct start coordinates of the word list taken in
    the order in which they first appear, a clue has number [n] iff its
    start is the [n]-th of them.  So the numbers run from 1 to the number
    of distinct starts without gaps, in the order of the word list.  The dimensions of the record
    are array lengths (integers from 0 to 2^32 - 1). *)
Theorem formatA_numbers_rank_starts {UC : CaseMapping} js :
  0 ≤ p_nx js < 2 ^ 32 → 0 ≤ p_ny js < 2 ^ 32 → 0 ≤ p_nz js < 2 ^ 32 → p_words js ≠ [] →
  ∃ st, loadPuzzleFromJSON js = Some st ∧
    NoDup (startsOf (p_words js)) ∧
    (∀ p, p ∈ startsOf (p_words js) ↔ ∃ w, w ∈ p_words js ∧ w_start w = p) ∧
    (∀ d c, c ∈ cluesOf d (clues st) →
       1 ≤ c_n c ∧ startsOf (p_words js) !! Z.to_nat (c_n c - 1) = Some (c_start c)) ∧
    (∀ (i : nat) p, startsOf (p_words js) !! i = Some p →
       ∃ d c, c ∈ cluesOf d (clues st) ∧ c_start c = p ∧ c_n c = Z.of_nat i + 1).
Proof.
  intros Hx Hy Hz Hws.
  destruct (load_phases js Hx Hy Hz)
    as (g0 & g1 & cl & st & Hst & _ & _ & _ & Hb & HA & _).
  destruct (HA Hws) as [-> _].
  destruct (startsOf_spec (p_words js)) as [Hnd Hmem].
  destruct (buildClues_rank (p_words js)) as (_ & _ & _ & Hrank).
  fold (buildCluesFromWords (p_words js)) in Hrank.
  assert (Hclues : ∀ d c, c ∈ cluesOf d (clues st) →
            1 ≤ c_n c ∧ startsOf (p_words js) !! Z.to_nat (c_n c - 1) = Some (c_start c)).
  { intros d c Hc.
    destruct (bound_elem_of_inv _ _ _ _ _ (Hb d) Hc) as (k & Hk & Hbd).
    apply bound_fields in Hbd as (-> & _ & -> & _). by apply (Hrank d). }
  exists st. split_and!; try done.
  intros i p Hi.
  assert (Hp : p ∈ startsOf (p_words js)) by (apply list_elem_of_lookup; by exists i).
  apply Hmem in Hp as (w & Hw & Hwp).
  destruct (buildClues_spec (p_words js)) as (_ & Hwords & _).
  destruct (Hwords w Hw) as (k & Hk & Hks & _).
  destruct (bound_elem_of _ _ _ _ _ (Hb (w_dir w)) Hk) as (c & Hc & Hbd).
  apply bound_fields in Hbd as (Hn & _ & Hs & _).
  exists (w_dir w), c. split; [done|]. split; [congruence|].
  destruct (Hclues _ _ Hc) as [H1 Hl]. rewrite Hs, Hks, Hwp in Hl.
  pose proof (NoDup_lookup _ _ _ _ Hnd Hl Hi). lia.
Qed.

Lemma formatA_numbers_rank_starts_witness :
  ∃ st, loadPuzzleFromJSON recordCross = Some st ∧
    NoDup (startsOf (p_words recordCross)) ∧
    (∀ p, p ∈ startsOf (p_words recordCross) ↔
          ∃ w, w ∈ p_words recordCross ∧ w_start w = p) ∧
    (∀ d c, c ∈ cluesOf d (clues st) →
       1 ≤ c_n c ∧
       startsOf (p_words recordCross) !! Z.to_nat (c_n c - 1) = Some (c_start c)) ∧
    (∀ (i : nat) p, startsOf (p_words recordCross) !! i = Some p →
       ∃ d c, c ∈ cluesOf d (clues st) ∧ c_start c = p ∧ c_n c = Z.of_nat i + 1).
Proof.
  apply (formatA_numbers_rank_starts recordCross); simpl; (lia || discriminate).
Defined.

(** X20.  The numbers the extractor gives are the ranks of the start
    cells in scan order (z, then y, then x): with the cells at which a word
    starts in some direction listed in that order, a clue has number [n]
    iff its start is the [n]-th of them; every rank is used. *)
Theorem extractor_numbers_rank_starts g :
  wfGrid g →
  ∃ cl starts, computeCluesFromWorld g = Some cl ∧
    starts `sublist_of` scanOrder g ∧
    (∀ p, p ∈ starts ↔ ∃ d, isStart g d (cx p) (cy p) (cz p)) ∧
    (∀ d c, c ∈ cluesOf d cl →
       1 ≤ c_n c ∧ starts !! Z.to_nat (c_n c - 1) = Some (c_start c)) ∧
    (∀ (i : nat) p, starts !! i = Some p →
       ∃ d c, c ∈ cluesOf d cl ∧ c_start c = p ∧ c_n c = Z.of_nat i + 1).
Proof.
  intros Hwf.
  destruct (extract_rank g Hwf) as (r & starts & Hr & Hsub & Hmem & Hrank).
  destruct (extract_spec g Hwf) as (r' & Hr' & _ & Hcomplete & _).
  rewrite Hr in Hr'. injection Hr' as <-.
  exists r.2, starts. unfold computeCluesFromWorld. rewrite Hr. split_and!; try done.
  intros i p Hi.
  assert (Hnd : NoDup starts).
  { eapply sublist_NoDup; [apply NoDup_scanOrder | exact Hsub]. }
  assert (Hp : p ∈ starts) by (apply list_elem_of_lookup; by exists i).
  apply Hmem in Hp as (d & Hd).
  destruct (Hcomplete d _ _ _ Hd) as (c & Hc & Hs).
  exists d, c. split; [done|]. split; [by destruct p|].
  destruct (Hrank d c Hc) as [H1 Hl].
  assert (c_start c = p) as Hsp by (by destruct p). rewrite Hsp in Hl.
  pose proof (NoDup_lookup _ _ _ _ Hnd Hl Hi). lia.
Qed.

Lemma extractor_numbers_rank_starts_witness :
  ∃ cl starts, computeCluesFromWorld gridLong = Some cl ∧
    starts `sublist_of` scanOrder gridLong ∧
    (∀ p, p ∈ starts ↔ ∃ d, isStart gridLong d (cx p) (cy p) (cz p)) ∧
    (∀ d c, c ∈ cluesOf d cl →
       1 ≤ c_n c ∧ starts !! Z.to_nat (c_n c - 1) = Some (c_start c)) ∧
    (∀ (i : nat) p, starts !! i = Some p →
       ∃ d c, c ∈ cluesOf d cl ∧ c_start c = p ∧ c_n c = Z.of_nat i + 1).
Proof.
  apply (extractor_numbers_rank_starts gridLong).
  split; [reflexivity | repeat constructor].
Defined.

(** X21.  The numbers on the grid are those of the clues.  After any load,
    the cell at the start of a clue that starts on the grid carries, in the
    field of the clue's direction, the number of a clue of that direction
    starting there (the last of them in the list).  After a Format A load
    and after a load that derives its clues, where clues of one start share
    their number, it is the clue's own number.  The dimensions of the record
    are array lengths (integers from 0 to 2^32 - 1). *)
Theorem clue_numbers_shown_at_starts {UC : CaseMapping} js :
  0 ≤ p_nx js < 2 ^ 32 → 0 ≤ p_ny js < 2 ^ 32 → 0 ≤ p_nz js < 2 ^ 32 →
  ∃ st, loadPuzzleFromJSON js = Some st ∧
    (∀ d c, c ∈ cluesOf d (clues st) →
       inBounds (grid st) (cx (c_start c)) (cy (c_start c)) (cz (c_start c)) = true →
       numbered (grid st) d (cluesOf d (clues st)) c) ∧
    (p_words js ≠ [] ∨ hasClues (p_clues js) = false →
     ∀ d c, c ∈ cluesOf d (clues st) →
       inBounds (grid st) (cx (c_start c)) (cy (c_start c)) (cz (c_start c)) = true →
       ∃ ce, cell (grid st) (cx (c_start c)) (cy (c_start c)) (cz (c_start c)) = Some ce ∧
             numOf d ce = c_n c).
Proof.
  intros Hx Hy Hz.
  destruct (load_numbers js Hx Hy Hz) as (st & cl & Hst & Hinv & Hb & HA & HB & Hnum).
  assert (Hgen : ∀ d c, c ∈ cluesOf d (clues st) →
            inBounds (grid st) (cx (c_start c)) (cy (c_start c)) (cz (c_start c)) = true →
            ∃ k ce k', k ∈ cluesOf d cl ∧ c_n k = c_n c ∧ c_start k = c_start c ∧
              cell (grid st) (cx (c_start c)) (cy (c_start c)) (cz (c_start c)) = Some ce ∧
              k' ∈ cluesOf d cl ∧ c_start k' = c_start c ∧ numOf d ce = c_n k').
  { intros d c Hc Hin.
    destruct (bound_elem_of_inv _ _ _ _ _ (Hb d) Hc) as (k & Hk & Hbd).
    apply bound_fields in Hbd as (En & _ & Es & _).
    rewrite Es in Hin.
    destruct (Hnum d k Hk Hin) as (ce & k' & Hce & Hk' & Hs' & Hn').
    exists k, ce, k'. rewrite Es. split_and!; try done. }
  exists st. split_and!; [done | |].
  - intros d c Hc Hin.
    destruct (Hgen d c Hc Hin) as (k & ce & k' & Hk & En & Es & Hce & Hk' & Hs' & Hn').
    destruct (bound_elem_of _ _ _ _ _ (Hb d) Hk') as (c' & Hc' & Hbd).
    apply bound_fields in Hbd as (En' & _ & Es' & _).
    exists ce, c'. split_and!; try done; congruence.
  - intros Hcase d c Hc Hin.
    destruct (Hgen d c Hc Hin) as (k & ce & k' & Hk & En & Es & Hce & Hk' & Hs' & Hn').
    exists ce. split; [done|]. rewrite Hn', <- En.
    assert (Hkey : c_start k' = c_start k ↔ c_n k' = c_n k).
    { destruct (decide (p_words js = [])) as [Hws | Hws].
      - destruct Hcase as [? | Hno]; [done|].
        destruct (HB Hws Hno) as (g1 & _ & _ & _ & _ & Hkeyed). by apply (Hkeyed d d).
      - rewrite (HA Hws) in Hk, Hk'. by apply (buildClues_numbering (p_words js) d d). }
    apply Hkey. congruence.
Qed.

Lemma clue_numbers_shown_at_starts_witness :
  ∃ st, loadPuzzleFromJSON recordCross = Some st ∧
    (∀ d c, c ∈ cluesOf d (clues st) →
       inBounds (grid st) (cx (c_start c)) (cy (c_start c)) (cz (c_start c)) = true →
       numbered (grid st) d (cluesOf d (clues st)) c) ∧
    (p_words recordCross ≠ [] ∨ hasClues (p_clues recordCross) = false →
     ∀ d c, c ∈ cluesOf d (clues st) →
       inBounds (grid st) (cx (c_start c)) (cy (c_start c)) (cz (c_start c)) = true →
       ∃ ce, cell (grid st) (cx (c_start c)) (cy (c_start c)) (cz (c_start c)) = Some ce ∧
             numOf d ce = c_n c).
Proof.
  apply (clue_numbers_shown_at_starts recordCross); simpl; lia.
Defined.

(** * Further properties: diagnostics *)

(** X22.  The diagnostics of a load say what is the case.  In a Format A
    load every line on the console names a word of the record and a
    position of that word's run: an out-of-bounds report a position outside
    the declared dimensions, a hits-block report an entry of the block
    list, a crossing conflict a free cell where the letter found is not
    empty and differs from the letter written; and there are no more
    structural reports than words, since a word stops at its first one.  A
    load without words reports no error at all.  The dimensions of the record
    are array lengths (integers from 0 to 2^32 - 1). *)
Theorem diagnostics_are_justified {UC : CaseMapping} js :
  0 ≤ p_nx js < 2 ^ 32 → 0 ≤ p_ny js < 2 ^ 32 → 0 ≤ p_nz js < 2 ^ 32 →
  ∃ st, loadPuzzleFromJSON js = Some st ∧
    (p_words js ≠ [] →
       Forall (justified js) (console st) ∧
       (length (List.filter isStructural (console st)) ≤ length (p_words js))%nat) ∧
    (p_words js = [] → Forall (λ e, isError e = false) (console st)).
Proof.
  intros Hx Hy Hz.
  destruct (load_cases js Hx Hy Hz) as (g & Hfresh & Hload).
  destruct (load_phases js Hx Hy Hz) as (g0 & g1' & cl & st & Hst & _ & _ & _ & _ & _ & HB).
  exists st. split; [done|]. split.
  - intros Hws. rewrite bool_decide_false in Hload by done. simpl in Hload.
    destruct (loadFormatA_spec js (initState g)) as (g1 & st1 & st' & E & _ & E1 & _ & _ & _ & Hcon & _);
      [apply Hfresh|].
    rewrite E, Hst in Hload. injection Hload as ->.
    destruct (placeWords_events js (initState g) (proj1 Hfresh) (p_words js))
      as (st2 & evs & E2 & _ & Hcon2 & Hj & Hc); [done|].
    rewrite E1 in E2. injection E2 as <-. simpl in Hcon2.
    rewrite Hcon, Hcon2. done.
  - intros Hws. destruct (HB Hws) as (_ & cl0 & _ & -> & _).
    apply Forall_fmap. by apply Forall_true.
Qed.

Lemma diagnostics_are_justified_witness :
  ∃ st, loadPuzzleFromJSON recordCrossBlocked = Some st ∧
    (p_words recordCrossBlocked ≠ [] →
       Forall (justified recordCrossBlocked) (console st) ∧
       (length (List.filter isStructural (console st)) ≤
        length (p_words recordCrossBlocked))%nat) ∧
    (p_words recordCrossBlocked = [] → Forall (λ e, isError e = false) (console st)).
Proof.
  apply (diagnostics_are_justified recordCrossBlocked); simpl; lia.
Defined.

(** * Further properties: generation and the start of a game *)

(** X23.  The pseudo letter of a cell is one upper-case letter of A to Z,
    for all coordinates that are not negative (as those of a cell are): a
    non-empty string that upper-casing leaves as it is. *)
Theorem pseudoLetter_is_capital {UC : CaseMapping} x y z :
  0 ≤ x → 0 ≤ y → 0 ≤ z →
  ∃ a, pseudoLetter x y z = String a EmptyString ∧
       (65 ≤ nat_of_ascii a ≤ 90)%nat ∧
       truthy (pseudoLetter x y z) = true ∧
       toUpperCase (pseudoLetter x y z) = pseudoLetter x y z.
Proof.
  intros _ _ _. destruct (pseudoLetter_spec x y z) as (a & -> & Ha).
  exists a. refine (conj eq_refl (conj Ha (conj eq_refl _))).
  unfold toUpperCase. cbn [allAscii upperAscii].
  replace (nat_of_ascii a <? 128)%nat with true by (symmetry; apply Nat.ltb_lt; lia).
  cbn [andb]. f_equal. unfold upperChar. cbv zeta.
  replace (97 <=? nat_of_ascii a)%nat with false; [done|].
  symmetry. apply Nat.leb_gt. lia.
Qed.

Lemma pseudoLetter_is_capital_witness :
  ∃ a, pseudoLetter 3 2 1 = String a EmptyString ∧
       (65 ≤ nat_of_ascii a ≤ 90)%nat ∧
       truthy (pseudoLetter 3 2 1) = true ∧
       toUpperCase (pseudoLetter 3 2 1) = pseudoLetter 3 2 1.
Proof.
  apply (pseudoLetter_is_capital 3 2 1); lia.
Defined.

(** X24.  The record the generator writes describes the grid it leaves,
    and loading it gives that grid back.  Whatever the oracle draws,
    [generatePuzzleJSON] returns a grid and a record without words whose
    block list holds exactly the blocked cells and whose solution list
    holds exactly the open cells, each with its pseudo letter, which is the
    solution letter of the cell in the grid.  Loading the record never
    throws and yields a grid of the same shape with the same blocks, the
    same solution letters and no entered letter; its clues are those of the
    record with their answers bound, and nothing but the clues is printed.  The configured dimensions
    are positive and at most 2^31, the range of [| 0]. *)
Theorem generated_record_reloads {UC : CaseMapping} cfg rnd :
  unitDraws rnd →
  0 < GEN_NX cfg ≤ 2 ^ 31 → 0 < GEN_NY cfg ≤ 2 ^ 31 → 0 < GEN_NZ cfg ≤ 2 ^ 31 →
  minOpenPerSlice cfg ≤ GEN_NX cfg * GEN_NY cfg →
  minOpenPerSlice cfg ≤ GEN_NX cfg * GEN_NZ cfg →
  minOpenPerSlice cfg ≤ GEN_NY cfg * GEN_NZ cfg →
  ∃ g puzzle st,
    generatePuzzleJSON cfg rnd = Some (g, puzzle) ∧
    p_words puzzle = [] ∧
    (∀ p, p ∈ p_blocks puzzle ↔
          ∃ c, cell g (cx p) (cy p) (cz p) = Some c ∧ block c = true) ∧
    (∀ e, e ∈ p_solution puzzle ↔
          ∃ p, openAt g (cx p) (cy p) (cz p) ∧ e = dummyEntry p) ∧
    (∀ x y z c, cell g x y z = Some c →
       sol c = (if block c then "" else pseudoLetter x y z) ∧ ch c = "") ∧
    loadPuzzleFromJSON puzzle = Some st ∧
    sameDims g (grid st) ∧
    (∀ x y z c, cell g x y z = Some c →
       ∃ c', cell (grid st) x y z = Some c' ∧
             block c' = block c ∧ sol c' = sol c ∧ ch c' = ch c) ∧
    (∀ d, Forall2 (bound (grid st) d) (cluesOf d (p_clues puzzle)) (cluesOf d (clues st))) ∧
    console st = LogClue <$> clR (p_clues puzzle).
Proof.
  intros Hrnd HX HY HZ M1 M2 M3.
  destruct (generated_reload cfg rnd Hrnd HX HY HZ M1 M2 M3)
    as (t & s & g & jsClues & st & Hinv & Hgen & Hwfg & Hdg & Hcellg & Hex & Hload & Hnum & Hb & Hcon).
  pose proof Hinv as (Hwf & Hx & Hy & Hz & _ & _ & _ & Hempty).
  assert (Hback : ∀ x y z c, cell g x y z = Some c →
            ∃ cs, cell (g_grid s) x y z = Some cs ∧ c = withPseudo (mkCoord x y z) cs ∧
                  set_block false cs = emptyCell).
  { intros x y z c Hc.
    assert (Hin : inBounds (g_grid s) x y z = true).
    { rewrite <- (inBounds_sameDims (g_grid s) g) by done. by eapply cell_inBounds. }
    destruct (proj2 (cell_is_Some _ _ _ _ Hwf) Hin) as [cs Hcs].
    exists cs. split; [done|]. split; [|by eapply Hempty].
    rewrite (Hcellg _ _ _ _ Hcs) in Hc. congruence. }
  eexists g, _, st. split; [exact Hgen|]. simpl. split_and!; try done.
  - intros p. rewrite elem_of_List_filter, elem_of_scanOrder. unfold blockedB. split.
    + intros [Hin Hb']. destruct (proj2 (cell_is_Some _ _ _ _ Hwf) Hin) as [cs Hcs].
      rewrite Hcs in Hb'. exists (withPseudo (mkCoord (cx p) (cy p) (cz p)) cs).
      split; [by apply Hcellg|]. unfold withPseudo. by rewrite Hb'.
    + intros (c & Hc & Hb'). destruct (Hback _ _ _ _ Hc) as (cs & Hcs & -> & _).
      rewrite Hcs. split; [by eapply cell_inBounds|].
      unfold withPseudo in Hb'. destruct (block cs) eqn:E; [done|]. simpl in Hb'. congruence.
  - intros e. rewrite list_elem_of_fmap. split.
    + intros (p & -> & [Hp Ho]%elem_of_List_filter). exists p. split; [|done].
      unfold openB in Ho. destruct (cell (g_grid s) (cx p) (cy p) (cz p)) as [cs|] eqn:Hcs; [|done].
      exists (withPseudo (mkCoord (cx p) (cy p) (cz p)) cs). split; [by apply Hcellg|].
      unfold withPseudo. destruct (block cs) eqn:E; [done | simpl; done].
    + intros (p & (c & Hc & Hb') & ->). exists p. split; [done|].
      destruct (Hback _ _ _ _ Hc) as (cs & Hcs & -> & _).
      apply elem_of_List_filter. split.
      * apply elem_of_scanOrder. by eapply cell_inBounds.
      * unfold openB. rewrite Hcs. unfold withPseudo in Hb'.
        destruct (block cs) eqn:E; [congruence | done].
  - intros x y z c Hc. destruct (Hback _ _ _ _ Hc) as (cs & Hcs & -> & Hes).
    destruct cs as [bs chs ss rs ds is_]. injection Hes as -> -> -> -> ->.
    unfold withPseudo. simpl. by destruct bs.
  - apply Hnum.
  - intros x y z c Hc. destruct Hnum as (_ & _ & Hcells).
    destruct (Hcells _ _ _ _ Hc) as (c' & Hc' & Hb' & Hch' & Hs' & _). by exists c'.
Qed.

Lemma generated_record_reloads_witness :
  ∃ g puzzle st,
    generatePuzzleJSON CFG rndZero = Some (g, puzzle) ∧
    p_words puzzle = [] ∧
    (∀ p, p ∈ p_blocks puzzle ↔
          ∃ c, cell g (cx p) (cy p) (cz p) = Some c ∧ block c = true) ∧
    (∀ e, e ∈ p_solution puzzle ↔
          ∃ p, openAt g (cx p) (cy p) (cz p) ∧ e = dummyEntry p) ∧
    (∀ x y z c, cell g x y z = Some c →
       sol c = (if block c then "" else pseudoLetter x y z) ∧ ch c = "") ∧
    loadPuzzleFromJSON puzzle = Some st ∧
    sameDims g (grid st) ∧
    (∀ x y z c, cell g x y z = Some c →
       ∃ c', cell (grid st) x y z = Some c' ∧
             block c' = block c ∧ sol c' = sol c ∧ ch c' = ch c) ∧
    (∀ d, Forall2 (bound (grid st) d) (cluesOf d (p_clues puzzle)) (cluesOf d (clues st))) ∧
    console st = LogClue <$> clR (p_clues puzzle).
Proof.
  apply (generated_record_reloads CFG rndZero); try (simpl; lia).
  intros i. split; [discriminate | reflexivity].
Defined.

(** X25.  A game on a generated puzzle starts and never throws.  Whatever
    the oracle draws, [setup] without a puzzle file generates a puzzle,
    loads it and finds an open cell: the game starts in the XY view with
    the camera at the origin and the cursor on the first open cell of the
    grid, both depths set to the cursor.  From there every sequence of
    frames, clicks, wheel moves and key presses runs to its end with the
    cursor on the grid and the clues unchanged.  The configured dimensions
    are positive and at most 2^31, the range of [| 0]. *)
Theorem generated_game_starts_and_runs {UC : CaseMapping} vc normalizeChar cfg rnd inputs :
  unitDraws rnd →
  0 < GEN_NX cfg ≤ 2 ^ 31 → 0 < GEN_NY cfg ≤ 2 ^ 31 → 0 < GEN_NZ cfg ≤ 2 ^ 31 →
  1 ≤ minOpenPerSlice cfg →
  minOpenPerSlice cfg ≤ GEN_NX cfg * GEN_NY cfg →
  minOpenPerSlice cfg ≤ GEN_NX cfg * GEN_NZ cfg →
  minOpenPerSlice cfg ≤ GEN_NY cfg * GEN_NZ cfg →
  ∃ st ui, setup cfg rnd None = Some (st, ui) ∧
    view ui = XY ∧ cam ui = mkCam 0 0 ∧
    depthX ui = cx (cur ui) ∧ depthY ui = cy (cur ui) ∧
    (∃ l1 l2, scanOrder (grid st) = l1 ++ cur ui :: l2 ∧
       openAt (grid st) (cx (cur ui)) (cy (cur ui)) (cz (cur ui)) ∧
       ∀ q, q ∈ l1 → ¬ openAt (grid st) (cx q) (cy q) (cz q)) ∧
    ∃ s', session vc normalizeChar inputs (st, ui) = Some s' ∧
      cursorOnGrid (grid s'.1) s'.2 ∧ cursorInPlane s'.2 ∧
      clues s'.1 = clues st ∧ console s'.1 = console st.
Proof.
  intros Hrnd HX HY HZ Hmin M1 M2 M3.
  destruct (generated_reload cfg rnd Hrnd HX HY HZ M1 M2 M3)
    as (t & s & g & jsClues & st & Hinv & Hgen & Hwfg & Hdg & Hcellg & Hex & Hload & Hnum & Hb & Hcon).
  pose proof Hinv as (Hwf & Hx & Hy & Hz & (Hxy & _) & _).
  pose proof Hnum as (Hwfst & Hdst & Hcells).
  destruct (pickFirstOpenCell_spec (grid st) initUi Hwfst)
    as (ui & Hui & Hv & Hc & Hh & Hdx & Hdy & Hcases).
  assert (Hopen : ∃ l1 l2, scanOrder (grid st) = l1 ++ cur ui :: l2 ∧
            openAt (grid st) (cx (cur ui)) (cy (cur ui)) (cz (cur ui)) ∧
            ∀ q, q ∈ l1 → ¬ openAt (grid st) (cx q) (cy q) (cz q)).
  { destruct Hcases as [[_ Hnone] | H]; [exfalso | done].
    destruct (Hxy 0 ltac:(lia)) as [Hcount _].
    unfold openCount in Hcount.
    destruct (List.filter (openB (g_grid s)) (sliceXY (g_grid s) 0)) as [|p l] eqn:Hf;
      [simpl in Hcount; lia|].
    assert (Hp : p ∈ List.filter (openB (g_grid s)) (sliceXY (g_grid s) 0))
      by (rewrite Hf; apply elem_of_cons; by left).
    apply elem_of_List_filter in Hp as [_ Hp]. unfold openB in Hp.
    destruct (cell (g_grid s) (cx p) (cy p) (cz p)) as [cs|] eqn:Hcs; [|done].
    pose proof (Hcellg _ _ _ _ Hcs) as Hcg.
    destruct (Hcells _ _ _ _ Hcg) as (c' & Hc' & Hb' & _).
    apply (Hnone p).
    - apply elem_of_scanOrder. by eapply cell_inBounds.
    - exists c'. split; [done|]. rewrite Hb'. unfold withPseudo.
      destruct (block cs) eqn:E; [done | simpl; done]. }
  assert (Hsess : SessionInv (st, ui)).
  { unfold SessionInv. simpl. split_and!; try done.
    - intros d c Hc'.
      destruct (bound_elem_of_inv _ _ _ _ _ (Hb d) Hc') as (k & Hk & Hbd).
      apply bound_fields in Hbd as (_ & _ & -> & _).
      destruct Hex as (Hsound & _). destruct (Hsound d k Hk) as (Hstart & _).
      rewrite (inBounds_sameDims g (grid st)) by done. by eapply isStart_inBounds.
    - intros hb Hhb. rewrite Hh in Hhb. by apply elem_of_nil in Hhb.
    - destruct Hopen as (l1 & l2 & _ & Ho & _). by apply openAt_inBounds.
    - unfold cursorInPlane. by rewrite Hv. }
  destruct (session_spec vc normalizeChar inputs (st, ui) Hsess)
    as (s' & Hrun & (_ & _ & _ & Hon & Hpl) & Hcl & Hco & _).
  exists st, ui. split_and!; try done.
  - unfold setup. rewrite Hgen, option_bind_Some. simpl snd. rewrite Hload, option_bind_Some.
    by rewrite Hui.
  - by exists s'.
Qed.

Lemma generated_game_starts_and_runs_witness :
  ∃ st ui, setup CFG rndZero None = Some (st, ui) ∧
    view ui = XY ∧ cam ui = mkCam 0 0 ∧
    depthX ui = cx (cur ui) ∧ depthY ui = cy (cur ui) ∧
    (∃ l1 l2, scanOrder (grid st) = l1 ++ cur ui :: l2 ∧
       openAt (grid st) (cx (cur ui)) (cy (cur ui)) (cz (cur ui)) ∧
       ∀ q, q ∈ l1 → ¬ openAt (grid st) (cx q) (cy q) (cz q)) ∧
    ∃ s', session VCFG asciiNormalize
            [Frame; KeyPressed RIGHT_ARROW; KeyPressed (OTHER "x"); MouseWheel 1;
             KeyPressed TAB; Frame; MousePressed 100 100]
            (st, ui) = Some s' ∧
      cursorOnGrid (grid s'.1) s'.2 ∧ cursorInPlane s'.2 ∧
      clues s'.1 = clues st ∧ console s'.1 = console st.
Proof.
  apply (generated_game_starts_and_runs VCFG asciiNormalize CFG rndZero); try (simpl; lia).
  intros i. split; [discriminate | reflexivity].
Defined.

(** X26.  The connectivity test of a slice is exact.  On a well-formed
    grid, for the three slices through a cell of the grid, each of
    [isConnectedXY], [isConnectedXZ] and [isConnectedYZ] returns, and it
    returns true exactly when the slice has an open cell and any two of its
    open cells are joined by a path of open cells of the slice with steps
    to the four neighbours.  So the flood fill misses no open cell that can
    be reached, and a slice without an open cell counts as not connected. *)
Theorem slice_connectivity_check_is_exact g x y z :
  wfGrid g → inBounds g x y z = true →
  (∃ b, isConnectedXY g z = Some b ∧ (b = true ↔ singleComponent (openXY g z))) ∧
  (∃ b, isConnectedXZ g y = Some b ∧ (b = true ↔ singleComponent (openXZ g y))) ∧
  (∃ b, isConnectedYZ g x = Some b ∧ (b = true ↔ singleComponent (openYZ g x))).
Proof.
  intros Hwf (Hx & Hy & Hz)%inBounds_spec. split_and!.
  - by apply isConnectedXY_exact.
  - by apply isConnectedXZ_exact.
  - by apply isConnectedYZ_exact.
Qed.

Lemma slice_connectivity_check_is_exact_witness :
  (∃ b, isConnectedXY gridLong 0 = Some b ∧ (b = true ↔ singleComponent (openXY gridLong 0))) ∧
  (∃ b, isConnectedXZ gridLong 0 = Some b ∧ (b = true ↔ singleComponent (openXZ gridLong 0))) ∧
  (∃ b, isConnectedYZ gridLong 0 = Some b ∧ (b = true ↔ singleComponent (openYZ gridLong 0))).
Proof.
  apply (slice_connectivity_check_is_exact gridLong 0 0 0).
  - split; [reflexivity | repeat constructor].
  - reflexivity.
Defined.

(** X27.  The test on a tentative block is exact.  On a well-formed grid
    and for a cell of the grid, the condition under which
    [generateConnectedBlocks] keeps the block it has just set returns, and
    it is true exactly when the three slices through the cell hold at
    least [minOpenPerSlice] open cells each and every slice of the grid,
    in all three families, is connected: no block is given up that the
    constraints allow. *)
Theorem tentative_block_test_is_exact cfg g x y z :
  wfGrid g → inBounds g x y z = true →
  ∃ b, acceptable cfg g x y z = Some b ∧
    (b = true ↔
       minOpenPerSlice cfg ≤ openCount g (sliceXY g z) ∧
       minOpenPerSlice cfg ≤ openCount g (sliceXZ g y) ∧
       minOpenPerSlice cfg ≤ openCount g (sliceYZ g x) ∧
       allConnected g).
Proof. apply acceptable_exact. Qed.

Lemma tentative_block_test_is_exact_witness :
  ∃ b, acceptable CFG gridBox 0 0 0 = Some b ∧
    (b = true ↔
       minOpenPerSlice CFG ≤ openCount gridBox (sliceXY gridBox 0) ∧
       minOpenPerSlice CFG ≤ openCount gridBox (sliceXZ gridBox 0) ∧
       minOpenPerSlice CFG ≤ openCount gridBox (sliceYZ gridBox 0) ∧
       allConnected gridBox).
Proof.
  apply (tentative_block_test_is_exact CFG gridBox 0 0 0).
  - split; [reflexivity | repeat constructor].
  - reflexivity.
Defined.

(** X28.  A dimension that is not an array length (negative, or 2^32 or
    more) and that the loops reach makes the loader throw, the
    [RangeError] of [new Array]: the depth always, the height when the
    depth is positive, the width when depth and height are positive. *)
Theorem load_dimension_not_length_throws {UC : CaseMapping} js :
  ¬ 0 ≤ p_nz js < 2 ^ 32 ∨ (0 < p_nz js ∧ ¬ 0 ≤ p_ny js < 2 ^ 32) ∨
  (0 < p_nz js ∧ 0 < p_ny js ∧ ¬ 0 ≤ p_nx js < 2 ^ 32) →
  loadPuzzleFromJSON js = None.
Proof.
  intros H. unfold loadPuzzleFromJSON. by rewrite buildWorld_not_length.
Qed.

Lemma load_dimension_not_length_throws_witness :
  loadPuzzleFromJSON recordStrayHuge = None.
Proof.
  apply (load_dimension_not_length_throws recordStrayHuge). left. simpl. lia.
Defined.
